(** * SimpleCar: telemetry state machine and instrument-cluster overlay

    A shallow embedding of [simple_car.cc] / [simple_car.h].

    Numeric model.
    - C++ [double] (the simulation state and the dashboard fields) is IEEE-754
      binary64 with round-to-nearest-even: Rocq's primitive [float].  NaN,
      infinities and rounding are those of the machine.
    - C++ [float] (screen coordinates, sizes, colours and angles handed to the
      renderer) together with the libm functions applied to it ([cos], [sin],
      [atan2], [sqrt], [fmod]) is idealised as real arithmetic on [R]; a
      [double] that flows into such an expression is read at its exact real
      value ([d2r]).  Which primitives a routine appends, in which order and
      into which slots, does not depend on this reading.
    - The geometry that the line emitter stores depends on the rounding, so
      [Draw2DLine] is also modelled in binary32 ([Draw2DLine_f32]): [float] is
      a [spec_float] of precision 24 and maximal exponent 128, every
      operation rounds to nearest-even, and the float overloads of [atan2],
      [cos] and [sin] are parameters.
    - C++ [int] counters ([ngeom], [maxgeom], loop indices) are [Z]; the only
      increment, [ngeom++], is guarded by [ngeom < maxgeom] and cannot wrap. *)

From Stdlib Require Import ZArith NArith Reals Lra Lia Floats.
From stdpp Require Import base list strings pretty.

Set Warnings "-inexact-float".

(** ** Binary64 helpers *)

#[global] Instance float_inhabited : Inhabited float := populate 0%float.

Definition is_nan (x : float) : bool := negb (PrimFloat.eqb x x).

(** [fmod] of the C library on binary64: the result has the sign of [x] and is
    exact; it is computed on the integer significands. *)
Definition SF64fmod (x y : spec_float) : spec_float :=
  match x, y with
  | S754_nan, _ | _, S754_nan => S754_nan
  | S754_infinity _, _ => S754_nan
  | _, S754_zero _ => S754_nan
  | S754_zero _, _ => x
  | _, S754_infinity _ => x
  | S754_finite sx mx ex, S754_finite _ my ey =>
      let e := Z.min ex ey in
      let X := (Z.pos mx * 2 ^ (ex - e))%Z in
      let Y := (Z.pos my * 2 ^ (ey - e))%Z in
      match (X mod Y)%Z with
      | Z0 => S754_zero sx
      | r => binary_normalize prec emax (cond_Zopp sx r) e sx
      end
  end.

Definition fmod (x y : float) : float := SF2Prim (SF64fmod (Prim2SF x) (Prim2SF y)).

(** Exact real value of a binary64 number (NaN and infinities read as 0). *)
Definition SF2R (x : spec_float) : R :=
  match x with
  | S754_finite s m e => (IZR (cond_Zopp s (Z.pos m)) * powerRZ 2 e)%R
  | _ => 0%R
  end.

Definition d2r (x : float) : R := SF2R (Prim2SF x).

(** ** Simulation state (the part of [mjModel] / [mjData] the task reads) *)

Record mjModel := { body_names : list string }.

Record mjData := {
  qpos : list float;
  qvel : list float;
  ctrl : list float;
  mocap_pos : list float;
  xpos : list float;
  time : float
}.

(** [mj_name2id(model, mjOBJ_BODY, name)]: index of the body, or -1. *)
Fixpoint name2id_from (i : Z) (names : list string) (name : string) : Z :=
  match names with
  | [] => (-1)%Z
  | n :: rest => if String.eqb n name then i else name2id_from (i + 1)%Z rest name
  end.

Definition mj_name2id_body (model : mjModel) (name : string) : Z :=
  name2id_from 0 (body_names model) name.

(** ** Telemetry *)

Section Telemetry.
Local Open Scope float_scope.

Record DashboardData := {
  speed_kmh : float;
  rpm : float;
  fuel : float;
  temperature : float;
  simulated_fuel : float
}.

(** Default member initialisers of [struct DashboardData]. *)
Definition dashboard_init : DashboardData :=
  {| speed_kmh := 0; rpm := 0; fuel := 100; temperature := 60;
     simulated_fuel := 100 |}.

(** One line of the diagnostic [printf], kept as the four printed values. *)
Record DashboardLine := {
  line_speed : float; line_rpm : float; line_fuel : float; line_temp : float
}.

(** The task object: the [mutable dashboard_] member and what it printed. *)
Record SimpleCar := {
  dashboard_ : DashboardData;
  stdout : list DashboardLine
}.

Definition residual (data : mjData) : list float :=
  [ qpos data !!! 0%nat - mocap_pos data !!! 0%nat;
    qpos data !!! 1%nat - mocap_pos data !!! 1%nat;
    ctrl data !!! 0%nat;
    ctrl data !!! 1%nat ].

Definition UpdateDashboardData (data : mjData) (car : SimpleCar) : SimpleCar :=
  let d := dashboard_ car in
  let vx := qvel data !!! 0%nat in
  let vy := qvel data !!! 1%nat in
  let speed := PrimFloat.sqrt (vx * vx + vy * vy) in
  let speed_kmh' := speed * 3.6 in
  let rpm0 := speed_kmh' * 40 + 800 in
  let rpm1 := if 8000 <? rpm0 then 8000 else rpm0 in
  let rpm2 := if rpm1 <? 800 then 800 else rpm1 in
  let sf0 := simulated_fuel d - 0.001 in
  let sf1 := if sf0 <? 0 then 100 else sf0 in
  let temp0 := 60 + (rpm2 / 8000) * 60 in
  let temp1 := if 120 <? temp0 then 120 else temp0 in
  let d' := {| speed_kmh := speed_kmh'; rpm := rpm2; fuel := sf1;
               temperature := temp1; simulated_fuel := sf1 |} in
  {| dashboard_ := d';
     stdout :=
       if fmod (time data) 1 <? 0.01
       then stdout car ++ [ {| line_speed := speed_kmh'; line_rpm := rpm2;
                               line_fuel := sf1; line_temp := temp1 |} ]
       else stdout car |}.

End Telemetry.

(** ** Goal controller *)

Section Transition.
Local Open Scope float_scope.

(** [absl::BitGen] and [absl::Uniform<double>(gen, lo, hi)]: the generator is
    threaded explicitly; a draw returns the value and the advanced generator. *)
Variable BitGen : Type.
Variable Uniform : BitGen -> float -> float -> float * BitGen.

(** [mju_sub(res, a, b, n)] and [mju_norm(v, n)] of the simulation library. *)
Definition mju_sub (a b : list float) : list float :=
  zip_with PrimFloat.sub a b.

Definition mju_dot (a b : list float) : float :=
  fold_left PrimFloat.add (zip_with PrimFloat.mul a b) 0.

Definition mju_norm (v : list float) : float := PrimFloat.sqrt (mju_dot v v).

Definition set_mocap_pos (data : mjData) (m : list float) : mjData :=
  {| qpos := qpos data; qvel := qvel data; ctrl := ctrl data;
     mocap_pos := m; xpos := xpos data; time := time data |}.

(** [gen_] is the generator that the body constructs when the goal is reached. *)
Definition TransitionLocked (gen_ : BitGen) (st : mjData * SimpleCar)
  : mjData * SimpleCar :=
  let '(data, car) := st in
  let car_pos := [qpos data !!! 0%nat; qpos data !!! 1%nat] in
  let goal_pos := [mocap_pos data !!! 0%nat; mocap_pos data !!! 1%nat] in
  let car_to_goal := mju_sub goal_pos car_pos in
  let data' :=
    if mju_norm car_to_goal <? 0.2 then
      let '(u0, gen1) := Uniform gen_ (-2) 2 in
      let '(u1, _) := Uniform gen1 (-2) 2 in
      set_mocap_pos data
        (<[2%nat := 0.01]> (<[1%nat := u1]> (<[0%nat := u0]> (mocap_pos data))))
    else data in
  (data', UpdateDashboardData data' car).

End Transition.

(** ** Scene buffer *)

Inductive mjtGeom :=
  | mjGEOM_NONE | mjGEOM_SPHERE | mjGEOM_ELLIPSOID | mjGEOM_BOX | mjGEOM_LABEL.

Inductive mjtCatBit := mjCAT_STATIC | mjCAT_DYNAMIC | mjCAT_DECOR.

#[global] Instance mjtGeom_eq_dec : EqDecision mjtGeom.
Proof. solve_decision. Defined.

#[global] Instance mjtCatBit_eq_dec : EqDecision mjtCatBit.
Proof. solve_decision. Defined.

(** The fields of [mjvGeom] that the task writes; [size], [pos], [rgba] and
    [mat] are the C arrays of 3, 3, 4 and 9 floats. *)
Record mjvGeom := {
  type : mjtGeom;
  size : list R;
  pos : list R;
  rgba : list R;
  mat : list R;
  label : string;
  category : mjtCatBit
}.

#[global] Instance mjvGeom_inhabited : Inhabited mjvGeom :=
  populate {| type := mjGEOM_NONE; size := []; pos := []; rgba := [];
              mat := []; label := ""; category := mjCAT_STATIC |}.

Record mjvScene := {
  maxgeom : Z;
  ngeom : Z;
  geoms : list mjvGeom
}.

(** [sizeof(geom->label)] in the renderer's [mjvGeom]. *)
Definition label_size : nat := 100.

(** [snprintf(buf, n, ...)] keeps at most [n - 1] characters. *)
Definition truncate (n : nat) (s : string) : string := String.substring 0 (n - 1) s.

(** ** Primitive emitter *)

Section Emitter.
Local Open Scope R_scope.

Definition identity_mat : list R := [1; 0; 0; 0; 1; 0; 0; 0; 1].

(** [mjvGeom* geom = scene->geoms + scene->ngeom; <assignments>; scene->ngeom++] *)
Definition emit (assign : mjvGeom -> mjvGeom) (scene : mjvScene) : mjvScene :=
  let i := Z.to_nat (ngeom scene) in
  {| maxgeom := maxgeom scene;
     ngeom := (ngeom scene + 1)%Z;
     geoms := <[i := assign (geoms scene !!! i)]> (geoms scene) |}.

Definition rectangle_geom (x y width height r g b a : R) (geom : mjvGeom) : mjvGeom :=
  {| type := mjGEOM_BOX;
     size := [width; height; 0.001];
     pos := [x; y; 0];
     rgba := [r; g; b; a];
     mat := identity_mat;
     label := label geom;
     category := mjCAT_DECOR |}.

Definition Draw2DRectangle (x y width height r g b a : R) (scene : mjvScene) : mjvScene :=
  if (ngeom scene >=? maxgeom scene)%Z then scene
  else emit (rectangle_geom x y width height r g b a) scene.

(** [std::atan2] on reals. *)
Definition atan2 (y x : R) : R :=
  if Rlt_dec 0 x then atan (y / x)
  else if Rlt_dec x 0 then
         if Rle_dec 0 y then atan (y / x) + PI else atan (y / x) - PI
  else if Rlt_dec 0 y then PI / 2
  else if Rlt_dec y 0 then - PI / 2
  else 0.

(** The box of a line in the real-arithmetic reading: the fields that
    [Draw2DLine] would store if [float] had no rounding.  It names the line
    appends in the traces; the fields that the machine stores are those of
    [line_geom_f32] below. *)
Definition line_geom (x1 y1 x2 y2 width r g b a : R) (geom : mjvGeom) : mjvGeom :=
  let dx := x2 - x1 in
  let dy := y2 - y1 in
  let length := R_sqrt.sqrt (dx * dx + dy * dy) in
  let angle := atan2 dy dx in
  let cos_a := cos angle in
  let sin_a := sin angle in
  {| type := mjGEOM_BOX;
     size := [length / 2; width / 2; 0.001];
     pos := [(x1 + x2) / 2; (y1 + y2) / 2; 0];
     rgba := [r; g; b; a];
     mat := [cos_a; - sin_a; 0;
             sin_a; cos_a; 0;
             0; 0; 1];
     label := label geom;
     category := mjCAT_DECOR |}.

Definition Draw2DLine (x1 y1 x2 y2 width r g b a : R) (scene : mjvScene) : mjvScene :=
  if (ngeom scene >=? maxgeom scene)%Z then scene
  else emit (line_geom x1 y1 x2 y2 width r g b a) scene.

Definition circle_geom (x y radius r g b a : R) (geom : mjvGeom) : mjvGeom :=
  {| type := mjGEOM_ELLIPSOID;
     size := [radius; radius; 0.001];
     pos := [x; y; 0];
     rgba := [r; g; b; a];
     mat := identity_mat;
     label := label geom;
     category := mjCAT_DECOR |}.

Definition Draw2DCircle (x y radius r g b a : R) (scene : mjvScene) : mjvScene :=
  if (ngeom scene >=? maxgeom scene)%Z then scene
  else emit (circle_geom x y radius r g b a) scene.

(** [strncpy(geom->label, text, sizeof - 1); geom->label[sizeof - 1] = 0]. *)
Definition label_geom (x y z : R) (text : string) (sz r g b : R) (geom : mjvGeom) : mjvGeom :=
  {| type := mjGEOM_LABEL;
     size := [sz; sz; sz];
     pos := [x; y; z];
     rgba := [r; g; b; 1];
     mat := mat geom;
     label := truncate label_size text;
     category := mjCAT_DECOR |}.

Definition AddLabel (x y z : R) (text : string) (sz r g b : R) (scene : mjvScene) : mjvScene :=
  if (ngeom scene <? maxgeom scene)%Z
  then emit (label_geom x y z text sz r g b) scene
  else scene.

(** The goal marker that [ModifyScene] appends in line. *)
Definition sphere_geom (gx gy : R) (geom : mjvGeom) : mjvGeom :=
  {| type := mjGEOM_SPHERE;
     size := [0.15; 0.15; 0.15];
     pos := [gx; gy; 0.2];
     rgba := [1; 0; 0; 0.8];
     mat := mat geom;
     label := label geom;
     category := mjCAT_DECOR |}.

Definition AddGoalSphere (gx gy : R) (scene : mjvScene) : mjvScene :=
  if (ngeom scene <? maxgeom scene)%Z
  then emit (sphere_geom gx gy) scene
  else scene.

End Emitter.

(** ** The line emitter in binary32

    The arithmetic of [Draw2DLine] as the machine does it: a C++ [float] is a
    binary32 number, a [spec_float] of precision 24 and maximal exponent 128,
    and [-], [+], [*], [/] and [std::sqrt] are the IEEE-754 operations with
    round-to-nearest-even.  The float overloads of [std::atan2], [std::cos]
    and [std::sin] come from the C library and are parameters. *)

Definition f32_add : spec_float -> spec_float -> spec_float := SFadd 24 128.
Definition f32_sub : spec_float -> spec_float -> spec_float := SFsub 24 128.
Definition f32_mul : spec_float -> spec_float -> spec_float := SFmul 24 128.
Definition f32_div : spec_float -> spec_float -> spec_float := SFdiv 24 128.
Definition f32_sqrt : spec_float -> spec_float := SFsqrt 24 128.

(** The literals [0.0f], [1.0f], [2.0f] and [0.001f]. *)
Definition f32_zero : spec_float := S754_zero false.
Definition f32_one : spec_float := S754_finite false 8388608 (-23).
Definition f32_two : spec_float := S754_finite false 8388608 (-22).
Definition f32_0_001 : spec_float := S754_finite false 8589935 (-33).

(** [mjvGeom] and [mjvScene] with the [float] fields as binary32 numbers. *)
Record mjvGeom32 := {
  type32 : mjtGeom;
  size32 : list spec_float;
  pos32 : list spec_float;
  rgba32 : list spec_float;
  mat32 : list spec_float;
  label32 : string;
  category32 : mjtCatBit
}.

Record mjvScene32 := {
  maxgeom32 : Z;
  ngeom32 : Z;
  geoms32 : list mjvGeom32
}.

Section Line32.
Variable atan2f : spec_float -> spec_float -> spec_float.
Variables cosf sinf : spec_float -> spec_float.

Definition line_geom_f32 (x1 y1 x2 y2 width r g b a : spec_float) (geom : mjvGeom32)
  : mjvGeom32 :=
  let dx := f32_sub x2 x1 in
  let dy := f32_sub y2 y1 in
  let length := f32_sqrt (f32_add (f32_mul dx dx) (f32_mul dy dy)) in
  let angle := atan2f dy dx in
  let cos_a := cosf angle in
  let sin_a := sinf angle in
  {| type32 := mjGEOM_BOX;
     size32 := [f32_div length f32_two; f32_div width f32_two; f32_0_001];
     pos32 := [f32_div (f32_add x1 x2) f32_two; f32_div (f32_add y1 y2) f32_two;
               f32_zero];
     rgba32 := [r; g; b; a];
     mat32 := [cos_a; SFopp sin_a; f32_zero;
               sin_a; cos_a; f32_zero;
               f32_zero; f32_zero; f32_one];
     label32 := label32 geom;
     category32 := mjCAT_DECOR |}.

Definition Draw2DLine_f32 (x1 y1 x2 y2 width r g b a : spec_float) (scene : mjvScene32)
  : mjvScene32 :=
  if (ngeom32 scene >=? maxgeom32 scene)%Z then scene
  else
    {| maxgeom32 := maxgeom32 scene;
       ngeom32 := (ngeom32 scene + 1)%Z;
       geoms32 := alter (line_geom_f32 x1 y1 x2 y2 width r g b a)
                        (Z.to_nat (ngeom32 scene)) (geoms32 scene) |}.
End Line32.

(** ** Gauge composers and the overlay pass *)

(** A drawing routine returns [void] and mutates the scene it is handed. *)
Definition draw : Type := mjvScene -> mjvScene.

Definition seq_draw (c1 c2 : draw) : draw := fun scene => c2 (c1 scene).
Notation "c1 >>> c2" := (seq_draw c1 c2) (at level 99, right associativity).

Definition skip : draw := fun scene => scene.

(** [for (int i = 0; i < n; i++) body(i);] *)
Definition for_ (n : nat) (body : nat -> draw) : draw :=
  fun scene => fold_left (fun s i => body i s) (seq 0 n) scene.

(** The function-local [static float] timers of the two bar gauges. *)
Record Statics := { blink_timer : R; heat_timer : R }.

(** [fmod] on reals: the remainder of the quotient truncated towards zero. *)
Definition Rtrunc (x : R) : Z :=
  if Rle_dec 0 x then Int_part x else (- Int_part (- x))%Z.

Definition Rfmod (x y : R) : R := (x - IZR (Rtrunc (x / y)) * y)%R.

Section Overlay.
Local Open Scope R_scope.

(** [snprintf] with the conversion ["%.<n>f"] applied to a [double]. *)
Variable fmt_f : nat -> float -> string.

(** ["%d"] *)
Definition fmt_d (i : Z) : string := pretty i.

Definition DrawSpeedometer2D (d : DashboardData) (x y size : R) : draw :=
  Draw2DCircle x y size 0.7 0.7 0.75 0.7 >>>
  Draw2DCircle x y (size * 1.05) 0.4 0.7 1.0 0.6 >>>
  Draw2DCircle x y (size * 0.95) 0.3 0.3 0.4 0.8 >>>
  for_ 12 (fun i =>
    let angle := INR i * (2 * PI / 12) in
    let cos_a := cos angle in
    let sin_a := sin angle in
    let inner_radius := size * 0.8 in
    let outer_radius := size * 0.9 in
    Draw2DLine (x + inner_radius * cos_a) (y + inner_radius * sin_a)
               (x + outer_radius * cos_a) (y + outer_radius * sin_a)
               0.02 0.1 0.1 0.2 0.8) >>>
  for_ 4 (fun i =>
    let angle := INR i * (2 * PI / 4) in
    let cos_a := cos angle in
    let sin_a := sin angle in
    let inner_radius := size * 0.75 in
    let outer_radius := size * 0.9 in
    Draw2DLine (x + inner_radius * cos_a) (y + inner_radius * sin_a)
               (x + outer_radius * cos_a) (y + outer_radius * sin_a)
               0.03 0.0 0.5 1.0 0.9) >>>
  for_ 6 (fun i =>
    let angle := INR i * (2 * PI / 6) in
    let cos_a := cos (angle - PI / 2) in
    let sin_a := sin (angle - PI / 2) in
    let label_radius := size * 0.7 in
    let label := truncate 10 (fmt_d (Z.of_nat i * 10)) in
    AddLabel (x + label_radius * cos_a) (y + label_radius * sin_a) 0.01
             label 0.1 0.1 0.1 0.9) >>>
  (let speed_ratio := d2r (speed_kmh d) / 50 in
   let speed_ratio := if Rlt_dec 1 speed_ratio then 1 else speed_ratio in
   let angle := speed_ratio * 2 * PI - PI / 2 in
   let pointer_length := size * 0.6 in
   let end_x := x + pointer_length * cos angle in
   let end_y := y + pointer_length * sin angle in
   let tail_length := size * 0.2 in
   let tail_x := x - tail_length * cos angle * 0.3 in
   let tail_y := y - tail_length * sin angle * 0.3 in
   Draw2DLine x y end_x end_y 0.025 1.0 0.0 0.0 1.0 >>>
   Draw2DLine x y tail_x tail_y 0.02 1.0 0.0 0.0 1.0) >>>
  Draw2DCircle x y (size * 0.06) 0.0 0.0 0.0 1.0 >>>
  Draw2DCircle x y (size * 0.04) 1.0 1.0 1.0 1.0 >>>
  AddLabel x y 0.02 (truncate 50 (fmt_f 1 (speed_kmh d))) 0.15 0.15 0.1 0.9 >>>
  AddLabel x (y - size * 0.25) 0.02 "km/h" 0.08 0.0 0.3 0.8 >>>
  AddLabel x (y + size * 1.2) 0.02 "SPEED" 0.15 0.0 0.5 1.0.

Definition DrawTachometer2D (d : DashboardData) (x y size : R) : draw :=
  Draw2DCircle x y size 0.75 0.75 0.7 0.7 >>>
  Draw2DCircle x y (size * 1.05) 1.0 0.6 0.3 0.6 >>>
  Draw2DCircle x y (size * 0.95) 0.4 0.3 0.2 0.8 >>>
  (if (6000 <? rpm d)%float then
     let warning_ratio := (d2r (rpm d) - 6000) / 2000 in
     let warning_ratio := if Rlt_dec 1 warning_ratio then 1 else warning_ratio in
     for_ 3 (fun i =>
       let alpha := 0.3 + 0.7 * (INR i / 3) in
       Draw2DCircle x y (size * (0.9 - INR i * 0.05))
                    1.0 0.3 0.3 (alpha * warning_ratio))
   else skip) >>>
  for_ 12 (fun i =>
    let angle := INR i * (2 * PI / 12) in
    let cos_a := cos angle in
    let sin_a := sin angle in
    let inner_radius := size * 0.8 in
    let outer_radius := size * 0.9 in
    Draw2DLine (x + inner_radius * cos_a) (y + inner_radius * sin_a)
               (x + outer_radius * cos_a) (y + outer_radius * sin_a)
               0.02 0.1 0.1 0.2 0.8) >>>
  for_ 5 (fun i =>
    let angle := INR i * (2 * PI / 5) in
    let cos_a := cos (angle - PI / 2) in
    let sin_a := sin (angle - PI / 2) in
    let label_radius := size * 0.7 in
    let label := truncate 10 (fmt_d (Z.of_nat i * 2)) in
    AddLabel (x + label_radius * cos_a) (y + label_radius * sin_a) 0.01
             label 0.1 0.1 0.1 0.9) >>>
  (let rpm_ratio := d2r (rpm d) / 8000 in
   let rpm_ratio := if Rlt_dec 1 rpm_ratio then 1 else rpm_ratio in
   let angle := rpm_ratio * 2 * PI - PI / 2 in
   let pointer_length := size * 0.6 in
   let end_x := x + pointer_length * cos angle in
   let end_y := y + pointer_length * sin angle in
   let tail_length := size * 0.2 in
   let tail_x := x - tail_length * cos angle * 0.3 in
   let tail_y := y - tail_length * sin angle * 0.3 in
   Draw2DLine x y end_x end_y 0.025 0.0 1.0 0.0 1.0 >>>
   Draw2DLine x y tail_x tail_y 0.02 0.0 1.0 0.0 1.0) >>>
  Draw2DCircle x y (size * 0.06) 0.0 0.0 0.0 1.0 >>>
  Draw2DCircle x y (size * 0.04) 1.0 1.0 1.0 1.0 >>>
  AddLabel x y 0.02 (truncate 50 (fmt_f 0 (rpm d))) 0.15 0.15 0.1 0.9 >>>
  AddLabel x (y - size * 0.25) 0.02 "RPM" 0.08 0.0 0.3 0.8 >>>
  AddLabel x (y + size * 1.2) 0.02 "TACHOMETER" 0.15 1.0 0.5 0.0 >>>
  (if (6000 <? rpm d)%float
   then AddLabel x (y - size * 1.4) 0.02 "HIGH RPM!" 0.12 1.0 0.1 0.1
   else skip).

(** The routines of the two bar gauges also advance a static timer: they map
    the timers to the new timers and the drawing done on the scene. *)
Definition DrawFuelGauge2D (d : DashboardData) (x y width height : R)
    (st : Statics * mjvScene) : Statics * mjvScene :=
  let '(timers, scene) := st in
  let fuel_width := d2r (fuel d) / 100 * width in
  let '(timers, bar) :=
    if Rlt_dec 0.01 fuel_width then
      let fuel_x := x - (width - fuel_width) / 2 in
      let fuel_y := y in
      let fuel_height := height * 0.8 in
      let '(fuel_color_r, fuel_color_g, fuel_color_b) :=
        if (50 <? fuel d)%float then (0.2, 1.0, 0.2)
        else if (20 <? fuel d)%float then (1.0, 1.0, 0.2)
        else (1.0, 0.2, 0.2) in
      let bar :=
        Draw2DRectangle fuel_x fuel_y fuel_width fuel_height
                        fuel_color_r fuel_color_g fuel_color_b 1.0 >>>
        Draw2DRectangle fuel_x fuel_y fuel_width fuel_height
                        0.0 0.0 0.0 0.3 in
      if (fuel d <? 20)%float then
        let blink := blink_timer timers + 0.1 in
        let timers := {| blink_timer := blink; heat_timer := heat_timer timers |} in
        if Rlt_dec 0.5 (Rfmod blink 1)
        then (timers, bar >>> Draw2DRectangle x y width height 1.0 0.2 0.2 0.3)
        else (timers, bar)
      else (timers, bar)
    else
      (timers, Draw2DRectangle x y width (height * 0.6) 0.3 0.3 0.3 0.5) in
  let fuel_text := truncate 50 ("FUEL: " +:+ fmt_f 1 (fuel d) +:+ "%") in
  (timers,
   (bar >>>
    AddLabel x (y + height * 0.8) 0.02 fuel_text 0.1 0.1 0.1 1.0 >>>
    (if (fuel d <? 20)%float
     then AddLabel x (y - height * 0.8) 0.02 "LOW FUEL!" 0.12 1.0 0.1 0.1
     else skip) >>>
    for_ 6 (fun i =>
      let marker_x := x - width / 2 + (width / 5) * INR i in
      let marker_width := 0.02 in
      Draw2DLine marker_x (y - height * 0.4) marker_x (y - height * 0.2)
                 marker_width 0.2 0.2 0.3 0.8)) scene).

(** The two bytes of the degree sign in ["TEMP: %.1f°C"]. *)
Definition degree_sign : string :=
  String (Ascii.ascii_of_nat 194) (String (Ascii.ascii_of_nat 176) EmptyString).

Definition DrawTemperatureGauge2D (d : DashboardData) (x y width height : R)
    (st : Statics * mjvScene) : Statics * mjvScene :=
  let '(timers, scene) := st in
  let min_temp := 60.0 in
  let max_temp := 120.0 in
  let temp_range := max_temp - min_temp in
  let temp_ratio := (d2r (temperature d) - min_temp) / temp_range in
  let temp_ratio := if Rlt_dec temp_ratio 0 then 0 else temp_ratio in
  let temp_ratio := if Rlt_dec 1 temp_ratio then 1 else temp_ratio in
  let temp_width := temp_ratio * width in
  let '(timers, bar) :=
    if Rlt_dec 0.01 temp_width then
      let temp_x := x - (width - temp_width) / 2 in
      let temp_y := y in
      let temp_height := height * 0.8 in
      let '(temp_color_r, temp_color_g, temp_color_b) :=
        if Rlt_dec temp_ratio 0.5 then
          let t := temp_ratio / 0.5 in
          (0.3 * (1.0 - t), 0.5 + 0.5 * t, 1.0 * (1.0 - t))
        else if Rlt_dec temp_ratio 0.8 then
          let t := (temp_ratio - 0.5) / 0.3 in
          (0.3 + 0.7 * t, 1.0 * (1.0 - 0.2 * t), 0.5 * (1.0 - t))
        else
          let t := (temp_ratio - 0.8) / 0.2 in
          (1.0, 0.8 * (1.0 - t), 0.2 * (1.0 - t)) in
      let bar :=
        Draw2DRectangle temp_x temp_y temp_width temp_height
                        temp_color_r temp_color_g temp_color_b 1.0 >>>
        Draw2DRectangle temp_x temp_y temp_width temp_height
                        0.0 0.0 0.0 0.3 in
      if (100 <? temperature d)%float then
        let heat := heat_timer timers + 0.05 in
        let timers := {| blink_timer := blink_timer timers; heat_timer := heat |} in
        let pulse := 0.3 + 0.3 * sin (heat * 5.0) in
        (timers, bar >>> Draw2DRectangle x y width height 1.0 0.3 0.3 pulse)
      else (timers, bar)
    else
      (timers, Draw2DRectangle x y width (height * 0.6) 0.3 0.3 0.3 0.5) in
  let temp_text :=
    truncate 50 ("TEMP: " +:+ fmt_f 1 (temperature d) +:+ degree_sign +:+ "C") in
  let marker_ratio := (d2r (temperature d) - min_temp) / temp_range in
  (timers,
   (bar >>>
    AddLabel x (y + height * 0.8) 0.02 temp_text 0.1 0.1 0.1 1.0 >>>
    (if (100 <? temperature d)%float
     then AddLabel x (y - height * 0.8) 0.02 "OVERHEAT!" 0.12 1.0 0.1 0.1
     else skip) >>>
    for_ 6 (fun i =>
      let marker_x := x - width / 2 + (width / 5) * INR i in
      let marker_width := 0.02 in
      Draw2DLine marker_x (y - height * 0.4) marker_x (y - height * 0.2)
                 marker_width 0.2 0.2 0.3 0.8) >>>
    (if Rle_dec 0 marker_ratio then
       if Rle_dec marker_ratio 1 then
         let marker_x := x - width / 2 + width * marker_ratio in
         Draw2DLine marker_x (y - height * 0.4) (marker_x - 0.05) (y - height * 0.2)
                    0.03 0.0 0.0 0.0 0.8 >>>
         Draw2DLine marker_x (y - height * 0.4) (marker_x + 0.05) (y - height * 0.2)
                    0.03 0.0 0.0 0.0 0.8
       else skip
     else skip)) scene).

(** [scene = None] is the null pointer. *)
Definition ModifyScene (model : mjModel) (data : mjData) (car : SimpleCar)
    (st : Statics * option mjvScene) : Statics * option mjvScene :=
  let '(timers, oscene) := st in
  match oscene with
  | None => st
  | Some scene =>
    if (maxgeom scene =? 0)%Z then st
    else
      let d := dashboard_ car in
      let screen_center_x := 0.0 in
      let screen_top := 3.0 in
      let scene :=
        (AddLabel screen_center_x (screen_top - 0.5) 0.5
                  "CAR DASHBOARD" 0.25 0.0 0.5 1.0 >>>
         DrawSpeedometer2D d (screen_center_x - 2.5) (screen_top - 2.0) 0.8 >>>
         DrawTachometer2D d (screen_center_x + 2.5) (screen_top - 2.0) 0.8) scene in
      let '(timers, scene) :=
        DrawFuelGauge2D d (screen_center_x - 2.5) (screen_top - 3.5) 1.5 0.4
                        (timers, scene) in
      let '(timers, scene) :=
        DrawTemperatureGauge2D d (screen_center_x + 2.5) (screen_top - 3.5) 1.5 0.4
                               (timers, scene) in
      let goal_x := mocap_pos data !!! 0%nat in
      let goal_y := mocap_pos data !!! 1%nat in
      let scene := AddGoalSphere (d2r goal_x) (d2r goal_y) scene in
      let car_body_id := mj_name2id_body model "car" in
      let scene :=
        if (car_body_id >=? 0)%Z then
          let car_pos := drop (3 * Z.to_nat car_body_id) (xpos data) in
          let pos_text :=
            truncate 50 ("Car: (" +:+ fmt_f 2 (car_pos !!! 0%nat) +:+ ", "
                         +:+ fmt_f 2 (car_pos !!! 1%nat) +:+ ")") in
          AddLabel (d2r (car_pos !!! 0%nat)) (d2r (car_pos !!! 1%nat))
                   (d2r (car_pos !!! 2%nat) + 2.0) pos_text 0.1 0.0 1.0 0.0 scene
        else scene in
      let goal_text :=
        truncate 50 ("Goal: (" +:+ fmt_f 2 goal_x +:+ ", " +:+ fmt_f 2 goal_y +:+ ")") in
      (timers,
       Some (AddLabel (d2r goal_x) (d2r goal_y) 0.5 goal_text 0.1 1.0 0.0 0.0 scene))
  end.

End Overlay.

(** ** Sequences of append calls *)

(** One call of the primitive emitter, with its arguments. *)
Inductive append_call :=
  | CallRectangle (x y width height r g b a : R)
  | CallLine (x1 y1 x2 y2 width r g b a : R)
  | CallCircle (x y radius r g b a : R)
  | CallLabel (x y z : R) (text : string) (sz r g b : R)
  | CallGoalSphere (gx gy : R).

Definition run_call (c : append_call) : draw :=
  match c with
  | CallRectangle x y w h r g b a => Draw2DRectangle x y w h r g b a
  | CallLine x1 y1 x2 y2 w r g b a => Draw2DLine x1 y1 x2 y2 w r g b a
  | CallCircle x y radius r g b a => Draw2DCircle x y radius r g b a
  | CallLabel x y z text sz r g b => AddLabel x y z text sz r g b
  | CallGoalSphere gx gy => AddGoalSphere gx gy
  end.

Definition run_calls (calls : list append_call) : draw :=
  fun scene => fold_left (fun s c => run_call c s) calls scene.

(** What a call stores in the slot it is given. *)
Definition geom_of_call (c : append_call) : mjvGeom -> mjvGeom :=
  match c with
  | CallRectangle x y w h r g b a => rectangle_geom x y w h r g b a
  | CallLine x1 y1 x2 y2 w r g b a => line_geom x1 y1 x2 y2 w r g b a
  | CallCircle x y radius r g b a => circle_geom x y radius r g b a
  | CallLabel x y z text sz r g b => label_geom x y z text sz r g b
  | CallGoalSphere gx gy => sphere_geom gx gy
  end.

(** The host's contract on a scene: the count is within the capacity and the
    buffer has [maxgeom] slots. *)
Definition scene_ok (s : mjvScene) : Prop :=
  (0 <= ngeom s <= maxgeom s)%Z /\ length (geoms s) = Z.to_nat (maxgeom s).

(** Free slots of a scene. *)
Definition room (s : mjvScene) : nat := Z.to_nat (maxgeom s - ngeom s).

(** ** Vocabulary of the geometric claims *)

Definition deg (d : R) : R := (d * PI / 180)%R.

(** Endpoints of a radial tick of a gauge of the given centre and size. *)
Definition tick_segment (x y size inner outer angle : R) : R * R * R * R :=
  (x + size * inner * cos angle, y + size * inner * sin angle,
   x + size * outer * cos angle, y + size * outer * sin angle)%R.

(** [g] is what a line append stores for the segment. *)
Definition is_segment (seg : R * R * R * R) (g : mjvGeom) : Prop :=
  let '(x1, y1, x2, y2) := seg in
  exists w r gg b a g0, g = line_geom x1 y1 x2 y2 w r gg b a g0.

(** Passing from [s] to [s'] appended a line for the segment. *)
Definition emits_segment (s s' : mjvScene) (seg : R * R * R * R) : Prop :=
  exists i g, (Z.to_nat (ngeom s) <= i < Z.to_nat (ngeom s'))%nat /\
    geoms s' !! i = Some g /\ is_segment seg g.

Definition draws_minor_ticks (gauge : R -> R -> R -> draw) : Prop :=
  forall x y size s, scene_ok s -> (32 <= room s)%nat ->
  forall i, (i < 12)%nat ->
    emits_segment s (gauge x y size s)
      (tick_segment x y size 0.8 0.9 (deg (30 * INR i))).

Definition draws_major_ticks (gauge : R -> R -> R -> draw) : Prop :=
  forall x y size s, scene_ok s -> (32 <= room s)%nat ->
  forall i, (i < 4)%nat ->
    emits_segment s (gauge x y size s)
      (tick_segment x y size 0.75 0.9 (deg (90 * INR i))).

Definition draws_no_major_tick (gauge : R -> R -> R -> draw) : Prop :=
  forall x y size s, size <> 0%R -> scene_ok s ->
  forall i, (i < 4)%nat ->
    ~ emits_segment s (gauge x y size s)
        (tick_segment x y size 0.75 0.9 (deg (90 * INR i))).

Definition empty_scene (n : nat) : mjvScene :=
  {| maxgeom := Z.of_nat n; ngeom := 0; geoms := replicate n inhabitant |}.

Section CallLists.
Local Open Scope R_scope.
Variable fmt_f : nat -> float -> string.

Definition minor_tick_calls (x y size : R) : list append_call :=
  map (fun i : nat =>
         let angle := INR i * (2 * PI / 12) in
         CallLine (x + size * 0.8 * cos angle) (y + size * 0.8 * sin angle)
                  (x + size * 0.9 * cos angle) (y + size * 0.9 * sin angle)
                  0.02 0.1 0.1 0.2 0.8) (seq 0 12).

Definition major_tick_calls (x y size : R) : list append_call :=
  map (fun i : nat =>
         let angle := INR i * (2 * PI / 4) in
         CallLine (x + size * 0.75 * cos angle) (y + size * 0.75 * sin angle)
                  (x + size * 0.9 * cos angle) (y + size * 0.9 * sin angle)
                  0.03 0.0 0.5 1.0 0.9) (seq 0 4).

Definition scale_label_calls (x y size : R) (n : nat) (div : R) (step : Z)
  : list append_call :=
  map (fun i : nat =>
         let angle := INR i * (2 * PI / div) in
         CallLabel (x + size * 0.7 * cos (angle - PI / 2))
                   (y + size * 0.7 * sin (angle - PI / 2)) 0.01
                   (truncate 10 (fmt_d (Z.of_nat i * step))) 0.1 0.1 0.1 0.9)
      (seq 0 n).

Definition pointer_angle (value max_value : R) : R :=
  let ratio := value / max_value in
  let ratio := if Rlt_dec 1 ratio then 1 else ratio in
  ratio * 2 * PI - PI / 2.

Definition pointer_calls (x y size angle r g b : R) : list append_call :=
  [ CallLine x y (x + size * 0.6 * cos angle) (y + size * 0.6 * sin angle)
             0.025 r g b 1.0;
    CallLine x y (x - size * 0.2 * cos angle * 0.3) (y - size * 0.2 * sin angle * 0.3)
             0.02 r g b 1.0;
    CallCircle x y (size * 0.06) 0.0 0.0 0.0 1.0;
    CallCircle x y (size * 0.04) 1.0 1.0 1.0 1.0 ].

Definition speedometer_calls (d : DashboardData) (x y size : R) : list append_call :=
  [ CallCircle x y size 0.7 0.7 0.75 0.7;
    CallCircle x y (size * 1.05) 0.4 0.7 1.0 0.6;
    CallCircle x y (size * 0.95) 0.3 0.3 0.4 0.8 ] ++
  minor_tick_calls x y size ++
  major_tick_calls x y size ++
  scale_label_calls x y size 6 6 10 ++
  pointer_calls x y size (pointer_angle (d2r (speed_kmh d)) 50) 1.0 0.0 0.0 ++
  [ CallLabel x y 0.02 (truncate 50 (fmt_f 1 (speed_kmh d))) 0.15 0.15 0.1 0.9;
    CallLabel x (y - size * 0.25) 0.02 "km/h" 0.08 0.0 0.3 0.8;
    CallLabel x (y + size * 1.2) 0.02 "SPEED" 0.15 0.0 0.5 1.0 ].

Definition warning_calls (d : DashboardData) (x y size : R) : list append_call :=
  if (6000 <? rpm d)%float then
    let warning_ratio := (d2r (rpm d) - 6000) / 2000 in
    let warning_ratio := if Rlt_dec 1 warning_ratio then 1 else warning_ratio in
    map (fun i : nat =>
           CallCircle x y (size * (0.9 - INR i * 0.05)) 1.0 0.3 0.3
                      ((0.3 + 0.7 * (INR i / 3)) * warning_ratio)) (seq 0 3)
  else [].

Definition tachometer_calls (d : DashboardData) (x y size : R) : list append_call :=
  [ CallCircle x y size 0.75 0.75 0.7 0.7;
    CallCircle x y (size * 1.05) 1.0 0.6 0.3 0.6;
    CallCircle x y (size * 0.95) 0.4 0.3 0.2 0.8 ] ++
  warning_calls d x y size ++
  minor_tick_calls x y size ++
  scale_label_calls x y size 5 5 2 ++
  pointer_calls x y size (pointer_angle (d2r (rpm d)) 8000) 0.0 1.0 0.0 ++
  [ CallLabel x y 0.02 (truncate 50 (fmt_f 0 (rpm d))) 0.15 0.15 0.1 0.9;
    CallLabel x (y - size * 0.25) 0.02 "RPM" 0.08 0.0 0.3 0.8;
    CallLabel x (y + size * 1.2) 0.02 "TACHOMETER" 0.15 1.0 0.5 0.0 ] ++
  (if (6000 <? rpm d)%float
   then [CallLabel x (y - size * 1.4) 0.02 "HIGH RPM!" 0.12 1.0 0.1 0.1]
   else []).

End CallLists.

(** ** Vocabulary of the telemetry claims *)

Section FuelModel.
Local Open Scope float_scope.

(** The fuel lines of [UpdateDashboardData] as a function of the reserve. *)
Definition fuel_step (f : float) : float :=
  let f' := f - 0.001 in if f' <? 0 then 100 else f'.

(** The update that starts from reserve [f] takes the reset branch. *)
Definition wraps (f : float) : bool := f - 0.001 <? 0.

(** [n] successive updates, the [k]-th one (from 0) reading [inputs k]. *)
Definition updates (inputs : N -> mjData) (n : N) (car : SimpleCar) : SimpleCar :=
  snd (N.iter n (fun st : N * SimpleCar =>
                   (N.succ (fst st), UpdateDashboardData (inputs (fst st)) (snd st)))
              (0%N, car)).

(** A freshly constructed task and the states its updates lead to. *)
Definition car_init : SimpleCar := {| dashboard_ := dashboard_init; stdout := [] |}.

Inductive reachable : SimpleCar -> Prop :=
  | reachable_init : reachable car_init
  | reachable_update data car :
      reachable car -> reachable (UpdateDashboardData data car).

End FuelModel.

(** Sample inputs. *)
Definition data_at_rest : mjData :=
  {| qpos := [0%float; 0%float]; qvel := [0%float; 0%float];
     ctrl := [0%float; 0%float];
     mocap_pos := [1%float; 1%float; 0.01%float]; xpos := []; time := 0.5%float |}.

Definition data_10_0 : mjData :=
  {| qpos := [0%float; 0%float]; qvel := [10%float; 0%float];
     ctrl := [0%float; 0%float];
     mocap_pos := [1%float; 1%float; 0.01%float]; xpos := []; time := 0.5%float |}.

(** * Properties *)

(** ** Primitive emitter: capacity *)

Lemma run_call_unfold (c : append_call) (s : mjvScene) :
  run_call c s =
  if (ngeom s <? maxgeom s)%Z then emit (geom_of_call c) s else s.
Proof.
  destruct c; simpl;
    unfold Draw2DRectangle, Draw2DLine, Draw2DCircle, AddLabel, AddGoalSphere;
    rewrite ?Z.geb_leb;
    destruct (Z.ltb_spec (ngeom s) (maxgeom s));
    destruct (Z.leb_spec (maxgeom s) (ngeom s)); try reflexivity; lia.
Qed.

Lemma run_call_full (c : append_call) (s : mjvScene) :
  (ngeom s >= maxgeom s)%Z -> run_call c s = s.
Proof.
  intros H. rewrite run_call_unfold.
  destruct (Z.ltb_spec (ngeom s) (maxgeom s)); [lia | reflexivity].
Qed.

Lemma run_calls_full (calls : list append_call) (s : mjvScene) :
  (ngeom s >= maxgeom s)%Z -> run_calls calls s = s.
Proof.
  induction calls as [|c calls IH]; intros H; [reflexivity|].
  unfold run_calls in *. simpl. rewrite run_call_full by exact H. auto.
Qed.

Lemma run_calls_cons (c : append_call) (calls : list append_call) (s : mjvScene) :
  run_calls (c :: calls) s = run_calls calls (run_call c s).
Proof. reflexivity. Qed.

Lemma run_calls_app (l1 l2 : list append_call) (s : mjvScene) :
  run_calls (l1 ++ l2) s = run_calls l2 (run_calls l1 s).
Proof. unfold run_calls. apply fold_left_app. Qed.

Lemma emit_ok (f : mjvGeom -> mjvGeom) (s : mjvScene) :
  scene_ok s -> (ngeom s < maxgeom s)%Z ->
  scene_ok (emit f s) /\
  maxgeom (emit f s) = maxgeom s /\
  ngeom (emit f s) = (ngeom s + 1)%Z /\
  geoms (emit f s) !! Z.to_nat (ngeom s) = Some (f (geoms s !!! Z.to_nat (ngeom s))) /\
  (forall i, i <> Z.to_nat (ngeom s) -> geoms (emit f s) !! i = geoms s !! i).
Proof.
  intros [Hn Hl] Hlt. unfold emit, scene_ok; simpl.
  rewrite length_insert. repeat split; try lia.
  - apply list_lookup_insert_eq. lia.
  - intros i Hi. apply list_lookup_insert_ne. congruence.
Qed.

Lemma lookup_total_insert_other (l : list mjvGeom) (i j : nat) (g : mjvGeom) :
  i <> j -> <[i := g]> l !!! j = l !!! j.
Proof. intros H. apply list_lookup_total_insert_ne. exact H. Qed.

(** Running a list of calls fills the free slots in call order and drops the
    rest. *)
Lemma run_calls_spec (calls : list append_call) :
  forall s : mjvScene, scene_ok s ->
  scene_ok (run_calls calls s) /\
  maxgeom (run_calls calls s) = maxgeom s /\
  ngeom (run_calls calls s) = (ngeom s + Z.of_nat (Nat.min (length calls) (room s)))%Z /\
  (forall i, (i < Z.to_nat (ngeom s))%nat ->
     geoms (run_calls calls s) !! i = geoms s !! i) /\
  (forall k c, (k < room s)%nat -> calls !! k = Some c ->
     geoms (run_calls calls s) !! (Z.to_nat (ngeom s) + k)%nat =
     Some (geom_of_call c (geoms s !!! (Z.to_nat (ngeom s) + k)%nat))).
Proof.
  induction calls as [|c calls IH]; intros s Hok.
  - change (run_calls [] s) with s. destruct Hok as [Hn Hl].
    repeat split; try (simpl; lia); try assumption. intros k c _ Hc. discriminate.
  - rewrite run_calls_cons, run_call_unfold.
    destruct (Z.ltb_spec (ngeom s) (maxgeom s)) as [Hlt|Hge].
    + destruct (emit_ok (geom_of_call c) s Hok Hlt) as (Hok' & Hm & Hn & Hat & Hother).
      destruct (IH _ Hok') as (Hok2 & Hm2 & Hn2 & Hlow & Hslot).
      assert (Hroom : room (emit (geom_of_call c) s) = (room s - 1)%nat).
      { unfold room. rewrite Hm, Hn. destruct Hok as [? _]. lia. }
      assert (Hpos : (0 < room s)%nat).
      { unfold room. destruct Hok as [? _]. lia. }
      destruct Hok as [Hrange Hlen].
      split; [exact Hok2|]. split; [congruence|]. split.
      { rewrite Hn2, Hn, Hroom. simpl length. lia. }
      split.
      { intros i Hi. rewrite Hlow by (rewrite Hn; lia). apply Hother. lia. }
      intros k c' Hk Hc'. destruct k as [|k]; simpl in Hc'.
      * inversion Hc'; subst c'. rewrite Nat.add_0_r.
        rewrite Hlow by (rewrite Hn; lia). exact Hat.
      * replace (Z.to_nat (ngeom s) + S k)%nat
          with (Z.to_nat (ngeom (emit (geom_of_call c) s)) + k)%nat
          by (rewrite Hn; lia).
        rewrite (Hslot k c') by (rewrite ?Hroom; lia || assumption).
        f_equal. f_equal. unfold emit at 2; simpl geoms.
        apply lookup_total_insert_other. rewrite Hn. lia.
    + rewrite run_calls_full by lia.
      assert (Hroom : room s = 0%nat) by (unfold room; lia).
      destruct Hok as [Hrange Hlen].
      repeat split; try lia; try assumption.
Qed.

Lemma run_calls_take_room (calls : list append_call) (s : mjvScene) :
  scene_ok s -> run_calls calls s = run_calls (take (room s) calls) s.
Proof.
  intros Hok.
  rewrite <- (take_drop (room s) calls) at 1. rewrite run_calls_app.
  destruct (Nat.le_gt_cases (room s) (length calls)) as [Hle|Hgt].
  - apply run_calls_full.
    destruct (run_calls_spec (take (room s) calls) s Hok) as (_ & Hm & Hn & _).
    rewrite Hm, Hn, length_take. destruct Hok as [? _]. unfold room in *. lia.
  - rewrite drop_ge by lia. reflexivity.
Qed.

(** Every slot filled by a run holds the primitive of the call with the same
    rank. *)
Lemma run_calls_emitted (calls : list append_call) (s : mjvScene) (i : nat) :
  scene_ok s ->
  (Z.to_nat (ngeom s) <= i < Z.to_nat (ngeom (run_calls calls s)))%nat ->
  exists c, calls !! (i - Z.to_nat (ngeom s))%nat = Some c /\
    geoms (run_calls calls s) !! i = Some (geom_of_call c (geoms s !!! i)).
Proof.
  intros Hok Hi.
  destruct (run_calls_spec calls s Hok) as (_ & _ & Hn & _ & Hslot).
  rewrite Hn in Hi. destruct Hok as [Hrange _].
  set (k := (i - Z.to_nat (ngeom s))%nat).
  assert (Hk : (k < Nat.min (length calls) (room s))%nat) by (unfold k; lia).
  destruct (lookup_lt_is_Some_2 calls k) as [c Hc]; [lia|].
  exists c. split; [exact Hc|].
  replace i with (Z.to_nat (ngeom s) + k)%nat by (unfold k; lia).
  apply Hslot; [lia | exact Hc].
Qed.

(** C1: for every sequence of append calls against a scene whose count is
    within its capacity, the count never exceeds [maxgeom]; a call on a full
    scene leaves it unchanged; the calls beyond the free room are dropped, the
    retained primitives being those of the first calls, in call order, and the
    scene ends full when there were more calls than room. *)
Theorem C1_append_never_exceeds_capacity (calls : list append_call) (s : mjvScene) :
  scene_ok s ->
  (ngeom (run_calls calls s) <= maxgeom s)%Z /\
  maxgeom (run_calls calls s) = maxgeom s /\
  (forall c t, (ngeom t >= maxgeom t)%Z -> run_call c t = t) /\
  (forall c t, (ngeom t < maxgeom t)%Z -> ngeom (run_call c t) = (ngeom t + 1)%Z) /\
  run_calls calls s = run_calls (take (room s) calls) s /\
  (forall k c, (k < room s)%nat -> calls !! k = Some c ->
     geoms (run_calls calls s) !! (Z.to_nat (ngeom s) + k)%nat =
     Some (geom_of_call c (geoms s !!! (Z.to_nat (ngeom s) + k)%nat))) /\
  ((room s < length calls)%nat -> ngeom (run_calls calls s) = maxgeom s).
Proof.
  intros Hok.
  destruct (run_calls_spec calls s Hok) as ([Hr _] & Hm & Hn & _ & Hslot).
  split; [lia|]. split; [exact Hm|].
  split; [intros c t; apply run_call_full|].
  split.
  { intros c t Hlt. rewrite run_call_unfold.
    destruct (Z.ltb_spec (ngeom t) (maxgeom t)); [reflexivity | lia]. }
  split; [apply run_calls_take_room; exact Hok|].
  split; [exact Hslot|].
  intros Hmore. rewrite Hn. destruct Hok as [? _]. unfold room in *. lia.
Qed.

(** ** Overlay pass: skipped on a null or zero-capacity scene *)

Lemma modify_scene_skip (fmt_f : nat -> float -> string)
    (model : mjModel) (data : mjData) (car : SimpleCar) (timers : Statics)
    (scene : mjvScene) :
  maxgeom scene = 0%Z ->
  ModifyScene fmt_f model data car (timers, Some scene) = (timers, Some scene).
Proof. intros H. unfold ModifyScene. rewrite H. reflexivity. Qed.

(** C8: with a null scene handle, or a scene of capacity zero, [ModifyScene]
    returns at once: the scene and the static timers are unchanged. *)
Theorem C8_modify_scene_skipped (fmt_f : nat -> float -> string)
    (model : mjModel) (data : mjData) (car : SimpleCar) (timers : Statics) :
  ModifyScene fmt_f model data car (timers, None) = (timers, None) /\
  forall scene, maxgeom scene = 0%Z ->
    ModifyScene fmt_f model data car (timers, Some scene) = (timers, Some scene).
Proof. split; [reflexivity|]. intros scene H. apply modify_scene_skip, H. Qed.

(** ** Overlay pass: every routine is a run of append calls *)

(** [traced c]: the routine [c] behaves as some fixed list of append calls. *)
Definition traced (c : draw) : Prop :=
  exists calls, forall s, c s = run_calls calls s.

Lemma traced_call (c : append_call) : traced (run_call c).
Proof. exists [c]. reflexivity. Qed.

Lemma traced_skip : traced skip.
Proof. exists []. reflexivity. Qed.

Lemma traced_seq (c1 c2 : draw) : traced c1 -> traced c2 -> traced (c1 >>> c2).
Proof.
  intros [l1 H1] [l2 H2]. exists (l1 ++ l2). intros s.
  unfold seq_draw. rewrite run_calls_app, H1, H2. reflexivity.
Qed.

Lemma traced_for (n : nat) (body : nat -> draw) :
  (forall i, traced (body i)) -> traced (for_ n body).
Proof.
  intros Hb. unfold for_. generalize 0%nat as start.
  induction n as [|n IH]; intros start; simpl.
  - exists []. reflexivity.
  - destruct (Hb start) as [l1 H1]. destruct (IH (S start)) as [l2 H2].
    exists (l1 ++ l2). intros s. rewrite run_calls_app, <- H1, <- H2. reflexivity.
Qed.

Lemma traced_rectangle x y w h r g b a : traced (Draw2DRectangle x y w h r g b a).
Proof. apply (traced_call (CallRectangle x y w h r g b a)). Qed.

Lemma traced_line x1 y1 x2 y2 w r g b a : traced (Draw2DLine x1 y1 x2 y2 w r g b a).
Proof. apply (traced_call (CallLine x1 y1 x2 y2 w r g b a)). Qed.

Lemma traced_circle x y rad r g b a : traced (Draw2DCircle x y rad r g b a).
Proof. apply (traced_call (CallCircle x y rad r g b a)). Qed.

Lemma traced_label x y z text sz r g b : traced (AddLabel x y z text sz r g b).
Proof. apply (traced_call (CallLabel x y z text sz r g b)). Qed.

Lemma traced_sphere gx gy : traced (AddGoalSphere gx gy).
Proof. apply (traced_call (CallGoalSphere gx gy)). Qed.

Ltac solve_traced :=
  repeat (cbv zeta;
    lazymatch goal with
    | |- traced (_ >>> _) => apply traced_seq
    | |- traced (for_ _ _) => apply traced_for; intros ?
    | |- traced skip => apply traced_skip
    | |- traced (Draw2DRectangle _ _ _ _ _ _ _ _) => apply traced_rectangle
    | |- traced (Draw2DLine _ _ _ _ _ _ _ _ _) => apply traced_line
    | |- traced (Draw2DCircle _ _ _ _ _ _ _) => apply traced_circle
    | |- traced (AddLabel _ _ _ _ _ _ _ _) => apply traced_label
    | |- traced (AddGoalSphere _ _) => apply traced_sphere
    | |- traced (if ?b then _ else _) => destruct b
    end).

Section OverlayTraces.
Variable fmt_f : nat -> float -> string.

Lemma traced_speedometer d x y sz : traced (DrawSpeedometer2D fmt_f d x y sz).
Proof. unfold DrawSpeedometer2D. solve_traced. Qed.

Lemma traced_tachometer d x y sz : traced (DrawTachometer2D fmt_f d x y sz).
Proof. unfold DrawTachometer2D. solve_traced. Qed.

(** The scene part of a bar gauge is a run of calls fixed by the timers. *)
Lemma traced_fuel d x y w h timers :
  exists c, traced c /\
    forall s, snd (DrawFuelGauge2D fmt_f d x y w h (timers, s)) = c s.
Proof.
  unfold DrawFuelGauge2D.
  repeat match goal with
  | |- context [ if ?b then _ else _ ] => destruct b
  end; cbn [snd]; (eexists; split; [|intros s; reflexivity]); solve_traced.
Qed.

Lemma traced_temperature d x y w h timers :
  exists c, traced c /\
    forall s, snd (DrawTemperatureGauge2D fmt_f d x y w h (timers, s)) = c s.
Proof.
  unfold DrawTemperatureGauge2D. cbv zeta.
  repeat match goal with
  | |- context [ if ?b then _ else _ ] => destruct b
  end; cbn [snd]; (eexists; split; [|intros s; reflexivity]); solve_traced.
Qed.

(** The overlay pass on a usable scene is a run of append calls, one of which
    is the goal sphere. *)
Lemma modify_scene_calls model data car timers scene :
  maxgeom scene <> 0%Z ->
  exists pre post,
    snd (ModifyScene fmt_f model data car (timers, Some scene)) =
    Some (run_calls
            (pre ++ CallGoalSphere (d2r (mocap_pos data !!! 0%nat))
                                   (d2r (mocap_pos data !!! 1%nat)) :: post)
            scene).
Proof.
  intros Hmax. unfold ModifyScene.
  destruct (Z.eqb_spec (maxgeom scene) 0) as [|_]; [contradiction|]. cbv zeta.
  destruct (traced_label 0.0 (3.0 - 0.5) 0.5 "CAR DASHBOARD" 0.25 0.0 0.5 1.0)
    as [l0 H0].
  destruct (traced_speedometer (dashboard_ car) (0.0 - 2.5) (3.0 - 2.0) 0.8)
    as [l1 H1].
  destruct (traced_tachometer (dashboard_ car) (0.0 + 2.5) (3.0 - 2.0) 0.8)
    as [l2 H2].
  unfold seq_draw at 1 2. rewrite H0, H1, H2.
  set (s2 := run_calls l2 _).
  destruct (traced_fuel (dashboard_ car) (0.0 - 2.5) (3.0 - 3.5) 1.5 0.4 timers)
    as (c3 & [l3 H3] & E3).
  specialize (E3 s2).
  destruct (DrawFuelGauge2D _ _ _ _ _ _ _) as [t3 s3]. simpl in E3. subst s3.
  destruct (traced_temperature (dashboard_ car) (0.0 + 2.5) (3.0 - 3.5) 1.5 0.4 t3)
    as (c4 & [l4 H4] & E4).
  specialize (E4 (c3 s2)).
  destruct (DrawTemperatureGauge2D _ _ _ _ _ _ _) as [t4 s4]. simpl in E4. subst s4.
  rewrite H3, H4. unfold s2.
  destruct (_ >=? 0)%Z; cbn [snd];
    [ match goal with
      | |- context [ AddLabel ?x ?y ?z ?t ?sz ?r ?g ?b (AddLabel ?x1 ?y1 ?z1 ?t1 ?sz1 ?r1 ?g1 ?b1 _) ] =>
        exists (l0 ++ l1 ++ l2 ++ l3 ++ l4),
          [CallLabel x1 y1 z1 t1 sz1 r1 g1 b1; CallLabel x y z t sz r g b]
      end
    | match goal with
      | |- context [ AddLabel ?x ?y ?z ?t ?sz ?r ?g ?b _ ] =>
        exists (l0 ++ l1 ++ l2 ++ l3 ++ l4), [CallLabel x y z t sz r g b]
      end ];
    rewrite !run_calls_app; reflexivity.
Qed.

(** Every call writes the decoration category. *)
Lemma geom_of_call_category (c : append_call) (g : mjvGeom) :
  category (geom_of_call c g) = mjCAT_DECOR.
Proof. destruct c; reflexivity. Qed.

(** C10: every geom that the overlay pass appends carries [mjCAT_DECOR]; the
    pass is a run of append calls, the goal-marker sphere among them, and the
    sphere too is written with the decoration category. *)
Theorem C10_overlay_geoms_are_decor model data car timers scene :
  scene_ok scene ->
  exists scene',
    snd (ModifyScene fmt_f model data car (timers, Some scene)) = Some scene' /\
    (forall i, (Z.to_nat (ngeom scene) <= i < Z.to_nat (ngeom scene'))%nat ->
       exists g, geoms scene' !! i = Some g /\ category g = mjCAT_DECOR) /\
    (maxgeom scene <> 0%Z ->
       exists pre post,
         scene' = run_calls
                    (pre ++ CallGoalSphere (d2r (mocap_pos data !!! 0%nat))
                                           (d2r (mocap_pos data !!! 1%nat)) :: post)
                    scene) /\
    (forall gx gy g, type (sphere_geom gx gy g) = mjGEOM_SPHERE /\
                     category (sphere_geom gx gy g) = mjCAT_DECOR).
Proof.
  intros Hok.
  destruct (Z.eq_dec (maxgeom scene) 0%Z) as [Hz|Hnz].
  - exists scene.
    rewrite (modify_scene_skip fmt_f model data car timers scene Hz).
    split; [reflexivity|].
    split; [intros i Hi; lia|]. split; [intros H; contradiction|].
    intros gx gy g. split; reflexivity.
  - destruct (modify_scene_calls model data car timers scene Hnz) as (pre & post & Hcalls).
    eexists. split; [exact Hcalls|].
    split.
    + intros i Hi.
      destruct (run_calls_emitted _ scene i Hok Hi) as (c & _ & Hg).
      eexists. split; [exact Hg|]. apply geom_of_call_category.
    + split; [intros _; exists pre, post; reflexivity|].
      intros gx gy g. split; reflexivity.
Qed.
End OverlayTraces.

(** ** Line emission: the polar form of a segment *)

Section LineGeometry.
Local Open Scope R_scope.

Lemma sqrt_sum_pos_factor (x t : R) :
  0 < x -> R_sqrt.sqrt (x * x + (t * x) * (t * x)) = x * R_sqrt.sqrt (1 + t²).
Proof.
  intros Hx.
  replace (x * x + t * x * (t * x)) with (x² * (1 + t²)) by (unfold Rsqr; ring).
  rewrite sqrt_mult_alt by apply Rle_0_sqr.
  rewrite sqrt_Rsqr by lra. reflexivity.
Qed.

Lemma sqrt_one_plus_sqr_pos (t : R) : 0 < R_sqrt.sqrt (1 + t²).
Proof. apply sqrt_lt_R0. pose proof (Rle_0_sqr t). lra. Qed.

Lemma atan_polar (x t : R) :
  0 < x ->
  x * R_sqrt.sqrt (1 + t²) * cos (atan t) = x /\
  x * R_sqrt.sqrt (1 + t²) * sin (atan t) = t * x.
Proof.
  intros Hx. rewrite cos_atan, sin_atan.
  pose proof (sqrt_one_plus_sqr_pos t) as Hs.
  split; field; apply Rgt_not_eq, Hs.
Qed.

Lemma atan2_polar (y x : R) :
  R_sqrt.sqrt (x * x + y * y) * cos (atan2 y x) = x /\
  R_sqrt.sqrt (x * x + y * y) * sin (atan2 y x) = y.
Proof.
  unfold atan2.
  destruct (Rlt_dec 0 x) as [Hx|Hx].
  - assert (Hs : R_sqrt.sqrt (x * x + y * y) = x * R_sqrt.sqrt (1 + (y / x)²)).
    { replace (x * x + y * y) with (x * x + (y / x * x) * (y / x * x))
        by (field; lra).
      apply sqrt_sum_pos_factor, Hx. }
    rewrite Hs. destruct (atan_polar x (y / x) Hx) as [Hc Hsn].
    rewrite Hc, Hsn. split; [reflexivity | field; lra].
  - destruct (Rlt_dec x 0) as [Hx'|Hx'].
    + assert (Hs : R_sqrt.sqrt (x * x + y * y)
                   = (- x) * R_sqrt.sqrt (1 + (y / x)²)).
      { replace (x * x + y * y)
          with ((- x) * (- x) + ((- (y / x)) * (- x)) * ((- (y / x)) * (- x)))
          by (field; lra).
        rewrite sqrt_sum_pos_factor by lra.
        rewrite <- Rsqr_neg. reflexivity. }
      rewrite Hs.
      assert (Hnx : 0 < - x) by lra.
      destruct (atan_polar (- x) (y / x) Hnx) as [Hc Hsn].
      destruct (Rle_dec 0 y).
      * rewrite neg_cos, neg_sin.
        rewrite !Ropp_mult_distr_r_reverse, Hc, Hsn. split; field; lra.
      * unfold Rminus. rewrite cos_plus, sin_plus, cos_neg, sin_neg, cos_PI, sin_PI.
        replace (- x * R_sqrt.sqrt (1 + (y / x)²) *
                 (cos (atan (y / x)) * -1 - sin (atan (y / x)) * - 0))
          with (- (- x * R_sqrt.sqrt (1 + (y / x)²) * cos (atan (y / x)))) by ring.
        replace (- x * R_sqrt.sqrt (1 + (y / x)²) *
                 (sin (atan (y / x)) * -1 + cos (atan (y / x)) * - 0))
          with (- (- x * R_sqrt.sqrt (1 + (y / x)²) * sin (atan (y / x)))) by ring.
        rewrite Hc, Hsn. split; field; lra.
    + assert (x = 0) by lra. subst x.
      replace (0 * 0 + y * y) with (y²) by (unfold Rsqr; ring).
      destruct (Rlt_dec 0 y) as [Hy|Hy].
      * rewrite sqrt_Rsqr by lra. rewrite cos_PI2, sin_PI2. split; ring.
      * destruct (Rlt_dec y 0) as [Hy'|Hy'].
        -- replace (- PI / 2) with (- (PI / 2)) by field.
           rewrite cos_neg, sin_neg, cos_PI2, sin_PI2.
           rewrite (Rsqr_neg y), sqrt_Rsqr by lra. split; ring.
        -- assert (y = 0) by lra. subst y.
           rewrite Rsqr_0, sqrt_0. split; ring.
Qed.

End LineGeometry.

(** ** Circular gauges: traces and tick marks *)

Section Traces.
Local Open Scope R_scope.
Variable fmt_f : nat -> float -> string.

Lemma for_run_calls (n : nat) (f : nat -> append_call) (s : mjvScene) :
  for_ n (fun i => run_call (f i)) s = run_calls (map f (seq 0 n)) s.
Proof.
  unfold for_, run_calls. generalize (seq 0 n) as l. intros l. revert s.
  induction l as [|i l IH]; intros s; simpl; [reflexivity | apply IH].
Qed.

(** [trace_of c l]: the routine [c] is the run of the calls [l]. *)
Definition trace_of (c : draw) (l : list append_call) : Prop :=
  forall s, c s = run_calls l s.

Lemma trace_app c1 c2 l1 l2 :
  trace_of c1 l1 -> trace_of c2 l2 -> trace_of (c1 >>> c2) (l1 ++ l2).
Proof.
  intros H1 H2 s. unfold seq_draw. rewrite run_calls_app, H1, H2. reflexivity.
Qed.

Lemma trace_cons c c2 l :
  trace_of c2 l -> trace_of (run_call c >>> c2) (c :: l).
Proof. intros H s. unfold seq_draw. rewrite run_calls_cons. apply H. Qed.

Lemma trace_one c : trace_of (run_call c) [c].
Proof. intros s. reflexivity. Qed.

Lemma trace_skip : trace_of skip [].
Proof. intros s. reflexivity. Qed.

Lemma trace_for n (f : nat -> append_call) :
  trace_of (for_ n (fun i => run_call (f i))) (map f (seq 0 n)).
Proof. intros s. apply for_run_calls. Qed.

Lemma trace_assoc c1 c2 c3 l :
  trace_of (c1 >>> (c2 >>> c3)) l -> trace_of ((c1 >>> c2) >>> c3) l.
Proof. intros H s. apply H. Qed.

Lemma trace_skip_l c l : trace_of c l -> trace_of (skip >>> c) l.
Proof. intros H s. apply H. Qed.

Lemma trace_skip_r c l : trace_of c l -> trace_of (c >>> skip) l.
Proof. intros H s. apply H. Qed.

Ltac solve_trace :=
  repeat
    lazymatch goal with
    | |- trace_of (skip >>> _) _ => apply trace_skip_l
    | |- trace_of (_ >>> skip) _ => apply trace_skip_r
    | |- trace_of ((_ >>> _) >>> _) _ => apply trace_assoc
    | |- trace_of (_ >>> _) (?c :: _) => apply (trace_cons c)
    | |- trace_of (_ >>> _) (_ ++ _) => apply trace_app
    | |- trace_of (for_ ?n _) (map ?f _) => exact (trace_for n f)
    | |- trace_of skip [] => exact trace_skip
    | |- trace_of _ [?c] => exact (trace_one c)
    end.

Lemma speedometer_trace d x y size :
  trace_of (DrawSpeedometer2D fmt_f d x y size) (speedometer_calls fmt_f d x y size).
Proof.
  unfold DrawSpeedometer2D, speedometer_calls, minor_tick_calls, major_tick_calls,
    scale_label_calls, pointer_calls, pointer_angle.
  cbn [app]. solve_trace.
Qed.

Lemma tachometer_trace d x y size :
  trace_of (DrawTachometer2D fmt_f d x y size) (tachometer_calls fmt_f d x y size).
Proof.
  unfold DrawTachometer2D, tachometer_calls, warning_calls, minor_tick_calls,
    scale_label_calls, pointer_calls, pointer_angle.
  destruct (6000 <? rpm d)%float; cbn [app]; solve_trace.
Qed.

(** A line call with room, at rank [k] of the trace, is an emitted segment. *)
Lemma trace_emits_segment (c : draw) (calls : list append_call) (s : mjvScene)
    (k : nat) x1 y1 x2 y2 w r g b a :
  trace_of c calls -> scene_ok s -> (k < room s)%nat ->
  calls !! k = Some (CallLine x1 y1 x2 y2 w r g b a) ->
  emits_segment s (c s) (x1, y1, x2, y2).
Proof.
  intros Ht Hok Hk Hc. rewrite Ht.
  destruct (run_calls_spec calls s Hok) as (_ & _ & Hn & _ & Hslot).
  pose proof (lookup_lt_Some _ _ _ Hc) as Hlen.
  exists (Z.to_nat (ngeom s) + k)%nat. eexists. split; [|split].
  - rewrite Hn. destruct Hok as [? _]. lia.
  - apply (Hslot k _ Hk Hc).
  - simpl. do 6 eexists. reflexivity.
Qed.

(** An emitted segment comes from some call of the trace. *)
Lemma emits_segment_call (c : draw) (calls : list append_call) (s : mjvScene) seg :
  trace_of c calls -> scene_ok s -> emits_segment s (c s) seg ->
  exists call g0, call ∈ calls /\ is_segment seg (geom_of_call call g0).
Proof.
  intros Ht Hok (i & g & Hi & Hg & Hseg). rewrite Ht in Hi, Hg.
  destruct (run_calls_emitted calls s i Hok Hi) as (call & Hcall & Hg').
  rewrite Hg' in Hg. inversion Hg; subst g.
  exists call, (geoms s !!! i). split; [|exact Hseg].
  eapply list_elem_of_lookup_2. exact Hcall.
Qed.

Lemma lookup_map_seq_app {A} (f : nat -> A) (n i : nat) (rest : list A) :
  (i < n)%nat -> (map f (seq 0 n) ++ rest) !! i = Some (f i).
Proof.
  intros Hi. rewrite lookup_app_l by (rewrite length_map, length_seq; exact Hi).
  change (map f (seq 0 n)) with (f <$> seq 0 n).
  rewrite list_lookup_fmap, lookup_seq_lt by exact Hi. reflexivity.
Qed.

Lemma lookup_S {A} (x : A) (l : list A) (i : nat) : (x :: l) !! S i = l !! i.
Proof. reflexivity. Qed.

Lemma minor_angle (i : nat) : INR i * (2 * PI / 12) = deg (30 * INR i).
Proof. unfold deg. field. Qed.

Lemma major_angle (i : nat) : INR i * (2 * PI / 4) = deg (90 * INR i).
Proof. unfold deg. field. Qed.

Lemma speedometer_minor_ticks d : draws_minor_ticks (DrawSpeedometer2D fmt_f d).
Proof.
  intros x y size s Hok Hroom i Hi. unfold tick_segment. rewrite <- minor_angle.
  eapply (trace_emits_segment _ _ s (3 + i)); [apply speedometer_trace | exact Hok | lia |].
  unfold speedometer_calls. cbn [app]. change (3 + i)%nat with (S (S (S i))).
  rewrite !lookup_S. unfold minor_tick_calls.
  rewrite lookup_map_seq_app by exact Hi. reflexivity.
Qed.

Lemma speedometer_major_ticks d : draws_major_ticks (DrawSpeedometer2D fmt_f d).
Proof.
  intros x y size s Hok Hroom i Hi. unfold tick_segment. rewrite <- major_angle.
  eapply (trace_emits_segment _ _ s (15 + i)); [apply speedometer_trace | exact Hok | lia |].
  unfold speedometer_calls. cbn [app]. change (15 + i)%nat with (3 + (12 + i))%nat.
  change (3 + (12 + i))%nat with (S (S (S (12 + i)))).
  rewrite !lookup_S. unfold minor_tick_calls.
  rewrite lookup_app_r by (rewrite length_map, length_seq; lia).
  rewrite length_map, length_seq. replace (12 + i - 12)%nat with i by lia.
  unfold major_tick_calls. rewrite lookup_map_seq_app by exact Hi. reflexivity.
Qed.

Lemma tachometer_minor_ticks d : draws_minor_ticks (DrawTachometer2D fmt_f d).
Proof.
  intros x y size s Hok Hroom i Hi. unfold tick_segment. rewrite <- minor_angle.
  eapply (trace_emits_segment _ _ s (3 + length (warning_calls d x y size) + i));
    [apply tachometer_trace | exact Hok | |].
  - unfold warning_calls. destruct (6000 <? rpm d)%float; simpl length; lia.
  - unfold tachometer_calls. cbn [app].
    replace (3 + length (warning_calls d x y size) + i)%nat
      with (S (S (S (length (warning_calls d x y size) + i)))) by lia.
    rewrite !lookup_S.
    rewrite lookup_app_r by lia.
    replace (length (warning_calls d x y size) + i - length (warning_calls d x y size))%nat
      with i by lia.
    unfold minor_tick_calls. rewrite lookup_map_seq_app by exact Hi. reflexivity.
Qed.

Lemma polar_mismatch (rho s a theta : R) :
  s <> 0 -> rho * rho <> 0.825 * 0.825 ->
  rho * s * cos a = 0.825 * s * cos theta ->
  rho * s * sin a = 0.825 * s * sin theta -> False.
Proof.
  intros Hs Hrho Hc Hsn.
  pose proof (sin2_cos2 a) as Ha. pose proof (sin2_cos2 theta) as Ht.
  unfold Rsqr in Ha, Ht.
  assert (H1 : (rho * s * cos a) * (rho * s * cos a)
               + (rho * s * sin a) * (rho * s * sin a) = rho * rho * (s * s)).
  { transitivity (rho * rho * (s * s) * (sin a * sin a + cos a * cos a)); [ring|].
    rewrite Ha. ring. }
  assert (H2 : (0.825 * s * cos theta) * (0.825 * s * cos theta)
               + (0.825 * s * sin theta) * (0.825 * s * sin theta)
               = 0.825 * 0.825 * (s * s)).
  { transitivity (0.825 * 0.825 * (s * s)
                  * (sin theta * sin theta + cos theta * cos theta)); [ring|].
    rewrite Ht. ring. }
  rewrite Hc, Hsn, H2 in H1.
  assert (Hss : s * s <> 0) by (apply Rmult_integral_contrapositive; split; exact Hs).
  apply Hrho. apply (Rmult_eq_reg_r (s * s)); [symmetry; exact H1 | exact Hss].
Qed.

(** No call of the tachometer is a line from 0.75 to 0.9 of the radius. *)
Lemma tachometer_call_not_major d x y size theta call g0 :
  size <> 0 ->
  call ∈ tachometer_calls fmt_f d x y size ->
  ~ is_segment (tick_segment x y size 0.75 0.9 theta) (geom_of_call call g0).
Proof.
  intros Hsz Hin (w & r & gg & b & a & g1 & Heq).
  pose proof (f_equal type Heq) as Hty. pose proof (f_equal pos Heq) as Hpos.
  clear Heq.
  unfold tachometer_calls, warning_calls, minor_tick_calls, scale_label_calls,
    pointer_calls in Hin.
  repeat (rewrite elem_of_app in Hin || rewrite elem_of_cons in Hin).
  assert (Hmap : forall (f : nat -> append_call) l, call ∈ map f l -> exists k, call = f k).
  { intros f l H. change (map f l) with (f <$> l) in H.
    apply list_elem_of_fmap in H. destruct H as (k & -> & _). exists k. reflexivity. }
  repeat match goal with
  | H : _ \/ _ |- _ => destruct H as [H|H]
  | H : call ∈ (if ?b then _ else _) |- _ => destruct b
  | H : call ∈ map _ _ |- _ => apply Hmap in H; destruct H as [k H]
  | H : call ∈ [] |- _ => apply elem_of_nil in H; contradiction
  | H : call ∈ _ :: _ |- _ => apply elem_of_cons in H
  | H : call = _ |- _ => subst call
  end; try discriminate Hty; cbn [geom_of_call line_geom pos] in Hpos.
  all: injection Hpos as Hp1 Hp2.
  - apply (polar_mismatch 0.85 size (INR k * (2 * PI / 12)) theta Hsz); lra.
  - apply (polar_mismatch 0.3 size (pointer_angle (d2r (rpm d)) 8000) theta Hsz); lra.
  - apply (polar_mismatch (-0.03) size (pointer_angle (d2r (rpm d)) 8000) theta Hsz); lra.
Qed.

Lemma tachometer_no_major_tick d : draws_no_major_tick (DrawTachometer2D fmt_f d).
Proof.
  intros x y size s Hsz Hok i Hi Hem.
  destruct (emits_segment_call _ _ s _ (tachometer_trace d x y size) Hok Hem)
    as (call & g0 & Hin & Hseg).
  exact (tachometer_call_not_major d x y size _ call g0 Hsz Hin Hseg).
Qed.

(** C7 (as the code has it): the speedometer draws 12 minor ticks, lines from
    0.8 to 0.9 of its size at [i * 30] degrees, and 4 major ticks, lines from
    0.75 to 0.9 of its size at [i * 90] degrees; the tachometer draws the 12
    minor ticks and no major tick. *)
Theorem C7_gauge_ticks (d : DashboardData) :
  draws_minor_ticks (DrawSpeedometer2D fmt_f d) /\
  draws_major_ticks (DrawSpeedometer2D fmt_f d) /\
  draws_minor_ticks (DrawTachometer2D fmt_f d) /\
  draws_no_major_tick (DrawTachometer2D fmt_f d).
Proof.
  split; [apply speedometer_minor_ticks|].
  split; [apply speedometer_major_ticks|].
  split; [apply tachometer_minor_ticks | apply tachometer_no_major_tick].
Qed.
End Traces.

(** ** Binary64 arithmetic: sign and order *)

(** Not NaN and not below zero (a zero of either sign counts). *)
Definition sf_nonneg (x : spec_float) : bool :=
  match x with
  | S754_zero _ => true
  | S754_infinity s => negb s
  | S754_finite s _ _ => negb s
  | S754_nan => false
  end.

Definition sf_is_nan (x : spec_float) : bool :=
  match x with S754_nan => true | _ => false end.

Section SpecFloatFacts.

Lemma shr_1_m (r : shr_record) :
  (0 <= shr_m r)%Z -> shr_m (shr_1 r) = (shr_m r / 2)%Z.
Proof.
  destruct r as [m rb sb]. simpl. intros Hm.
  destruct m as [|p|p]; [reflexivity | | lia].
  destruct p as [p|p|]; simpl.
  - rewrite Pos2Z.inj_xI. apply (Z.div_unique _ _ _ 1); lia.
  - rewrite Pos2Z.inj_xO. apply (Z.div_unique _ _ _ 0); lia.
  - reflexivity.
Qed.

Lemma iter_pos_shr_1 (p : positive) : forall r : shr_record,
  (0 <= shr_m r)%Z ->
  shr_m (SpecFloat.iter_pos shr_1 p r) = (shr_m r / 2 ^ Z.pos p)%Z.
Proof.
  induction p as [p IH|p IH|]; intros r Hr; simpl SpecFloat.iter_pos.
  - assert (H1 : (0 <= shr_m (shr_1 r))%Z)
      by (rewrite shr_1_m by exact Hr; apply Z.div_pos; lia).
    assert (H2 : (0 <= shr_m (SpecFloat.iter_pos shr_1 p (shr_1 r)))%Z)
      by (rewrite IH by exact H1; apply Z.div_pos; [exact H1 | lia]).
    rewrite IH by exact H2. rewrite IH by exact H1. rewrite shr_1_m by exact Hr.
    rewrite !Z.div_div by lia. f_equal.
    replace (Z.pos p~1) with (1 + Z.pos p + Z.pos p)%Z by lia.
    rewrite !Z.pow_add_r by lia. change (2 ^ 1)%Z with 2%Z. ring.
  - assert (H2 : (0 <= shr_m (SpecFloat.iter_pos shr_1 p r))%Z)
      by (rewrite IH by exact Hr; apply Z.div_pos; [exact Hr | lia]).
    rewrite IH by exact H2. rewrite IH by exact Hr.
    rewrite Z.div_div by lia. f_equal.
    replace (Z.pos p~0) with (Z.pos p + Z.pos p)%Z by lia.
    rewrite Z.pow_add_r by lia. reflexivity.
  - rewrite shr_1_m by exact Hr. reflexivity.
Qed.

Lemma shr_m_spec (r : shr_record) (e n : Z) :
  (0 <= shr_m r)%Z ->
  shr_m (fst (shr r e n)) = (if (0 <? n)%Z then shr_m r / 2 ^ n else shr_m r)%Z /\
  snd (shr r e n) = (if (0 <? n)%Z then e + n else e)%Z.
Proof.
  intros Hr. unfold shr. destruct n as [|p|p]; simpl; try (split; reflexivity).
  split; [apply iter_pos_shr_1, Hr | reflexivity].
Qed.

Lemma shr_record_of_loc_m (m : Z) (l : location) : shr_m (shr_record_of_loc m l) = m.
Proof. destruct l as [|[| |]]; reflexivity. Qed.

Lemma shr_fexp_spec (m e : Z) (l : location) :
  (0 <= m)%Z ->
  let n := (fexp prec emax (Zdigits2 m + e) - e)%Z in
  shr_m (fst (shr_fexp prec emax m e l)) = (if (0 <? n)%Z then m / 2 ^ n else m)%Z /\
  snd (shr_fexp prec emax m e l) = (if (0 <? n)%Z then e + n else e)%Z.
Proof.
  intros Hm n. unfold shr_fexp. fold n.
  destruct (shr_m_spec (shr_record_of_loc m l) e n) as [H1 H2].
  { rewrite shr_record_of_loc_m. exact Hm. }
  rewrite shr_record_of_loc_m in H1. split; assumption.
Qed.

Lemma round_nearest_even_cases (m : Z) (l : location) :
  round_nearest_even m l = m \/ round_nearest_even m l = (m + 1)%Z.
Proof.
  destruct l as [|[| |]]; simpl; auto. destruct (Z.even m); auto.
Qed.

Lemma div_pow2_nonneg (m n : Z) : (0 <= m)%Z -> (0 <= m / 2 ^ n)%Z.
Proof.
  intros Hm. destruct (Z.le_gt_cases 0 n) as [Hn|Hn].
  - apply Z.div_pos; [exact Hm|]. apply Z.pow_pos_nonneg; lia.
  - rewrite Z.pow_neg_r by exact Hn. rewrite Z.div_0_r. lia.
Qed.

Lemma shifted_nonneg (m n : Z) :
  (0 <= m)%Z -> (0 <= (if (0 <? n)%Z then m / 2 ^ n else m))%Z.
Proof. intros Hm. destruct (0 <? n)%Z; [apply div_pow2_nonneg|]; exact Hm. Qed.

(** Rounding a non-negative significand with the positive sign never yields a
    NaN or a negative number. *)
Lemma binary_round_aux_nonneg (m e : Z) (l : location) :
  (0 <= m)%Z -> sf_nonneg (binary_round_aux prec emax false m e l) = true.
Proof.
  intros Hm. unfold binary_round_aux.
  destruct (shr_fexp_spec m e l Hm) as [H1 _].
  destruct (shr_fexp prec emax m e l) as [mrs' e']. simpl in H1.
  assert (Hq : (0 <= shr_m mrs')%Z).
  { rewrite H1. apply shifted_nonneg, Hm. }
  assert (Hr : (0 <= round_nearest_even (shr_m mrs') (loc_of_shr_record mrs'))%Z).
  { destruct (round_nearest_even_cases (shr_m mrs') (loc_of_shr_record mrs')) as [->| ->]; lia. }
  destruct (shr_fexp_spec _ e' loc_Exact Hr) as [H2 _].
  destruct (shr_fexp prec emax _ e' loc_Exact) as [mrs'' e'']. simpl in H2.
  assert (Hq2 : (0 <= shr_m mrs'')%Z).
  { rewrite H2. apply shifted_nonneg, Hr. }
  destruct (shr_m mrs'') as [|p|p]; [reflexivity | | lia].
  destruct (_ <=? _)%Z; reflexivity.
Qed.

Lemma binary_round_nonneg (m : positive) (e : Z) :
  sf_nonneg (binary_round prec emax false m e) = true.
Proof.
  unfold binary_round. destruct (shl_align _ _ _) as [mz ez].
  apply binary_round_aux_nonneg. lia.
Qed.

Lemma SF64mul_square_nonneg (x : spec_float) :
  sf_is_nan x = false -> sf_nonneg (SF64mul x x) = true.
Proof.
  unfold SF64mul. destruct x as [s|s| |s m e]; simpl; try discriminate; intros _.
  - reflexivity.
  - destruct s; reflexivity.
  - replace (xorb s s) with false by (destruct s; reflexivity).
    apply binary_round_aux_nonneg. lia.
Qed.

Lemma SF64mul_nonneg_finite (x : spec_float) (m : positive) (e : Z) :
  sf_nonneg x = true -> sf_nonneg (SF64mul x (S754_finite false m e)) = true.
Proof.
  unfold SF64mul. destruct x as [s|s| |s mx ex]; simpl; try discriminate; intros Hx.
  - reflexivity.
  - rewrite xorb_false_r. exact Hx.
  - apply negb_true_iff in Hx; subst. apply binary_round_aux_nonneg. lia.
Qed.

Lemma SF64add_nonneg (x y : spec_float) :
  sf_nonneg x = true -> sf_nonneg y = true -> sf_nonneg (SF64add x y) = true.
Proof.
  unfold SF64add.
  destruct x as [sx|sx| |sx mx ex], y as [sy|sy| |sy my ey]; simpl;
    try discriminate; intros Hx Hy;
    try apply negb_true_iff in Hx; try apply negb_true_iff in Hy; subst;
    try reflexivity.
  - destruct sx, sy; reflexivity.
  - simpl. apply binary_round_nonneg.
Qed.

Lemma SF64sqrt_nonneg (x : spec_float) :
  sf_nonneg x = true -> sf_nonneg (SF64sqrt x) = true.
Proof.
  unfold SF64sqrt. destruct x as [s|s| |s m e]; simpl; try discriminate; intros Hx.
  - reflexivity.
  - apply negb_true_iff in Hx; subst. reflexivity.
  - apply negb_true_iff in Hx; subst.
    unfold SFsqrt_core_binary.
    set (m' := match _ with Z0 => _ | Z.pos _ => _ | Z.neg _ => _ end).
    pose proof (Z.sqrtrem_spec m') as Hs.
    assert (Hm' : (0 <= m')%Z).
    { unfold m'. destruct (_ - _)%Z; try lia. apply Z.shiftl_nonneg. lia. }
    specialize (Hs Hm'). destruct (Z.sqrtrem m') as [q r].
    apply binary_round_aux_nonneg. lia.
Qed.

Lemma SF64div_nonneg_finite (x : spec_float) (m : positive) (e : Z) :
  sf_nonneg x = true -> sf_nonneg (SF64div x (S754_finite false m e)) = true.
Proof.
  unfold SF64div. destruct x as [s|s| |s mx ex]; simpl; try discriminate; intros Hx.
  - reflexivity.
  - rewrite xorb_false_r. exact Hx.
  - apply negb_true_iff in Hx; subst. simpl xorb.
    unfold SFdiv_core_binary.
    set (m' := match _ with Z0 => _ | Z.pos _ => _ | Z.neg _ => _ end).
    assert (Hm' : (0 <= m')%Z).
    { unfold m'. destruct (_ - _ - _)%Z; try lia. apply Z.shiftl_nonneg. lia. }
    pose proof (Z_div_mod m' (Z.pos m) ltac:(lia)) as Hd.
    destruct (Z.div_eucl m' (Z.pos m)) as [q r].
    apply binary_round_aux_nonneg. nia.
Qed.

Lemma SFcompare_antisym (x y : spec_float) :
  SFcompare y x = option_map CompOpp (SFcompare x y).
Proof.
  destruct x as [sx|sx| |sx mx ex], y as [sy|sy| |sy my ey]; simpl;
    try reflexivity;
    try (destruct sx; reflexivity); try (destruct sy; reflexivity);
    try (destruct sx, sy; reflexivity).
  destruct sx, sy; simpl; try reflexivity;
    rewrite (Z.compare_antisym ey ex); destruct (ey ?= ex)%Z; simpl; try reflexivity;
    rewrite (Pos.compare_cont_antisym mx my Eq); simpl;
    destruct (Pos.compare_cont Eq my mx); reflexivity.
Qed.

Lemma SFcompare_not_nan (x y : spec_float) :
  sf_is_nan x = false -> sf_is_nan y = false -> exists c, SFcompare x y = Some c.
Proof.
  destruct x, y; simpl; try discriminate; intros _ _; eexists; reflexivity.
Qed.

Lemma SFltb_false_SFleb (x y : spec_float) :
  sf_is_nan x = false -> sf_is_nan y = false ->
  SFltb x y = false -> SFleb y x = true.
Proof.
  intros Hx Hy. unfold SFltb, SFleb. rewrite (SFcompare_antisym x y).
  destruct (SFcompare_not_nan x y Hx Hy) as [c ->]. destruct c; simpl; congruence.
Qed.

Lemma SFleb_true_SFltb (x y : spec_float) : SFleb x y = true -> SFltb y x = false.
Proof.
  unfold SFltb, SFleb. rewrite (SFcompare_antisym x y).
  destruct (SFcompare x y) as [[| |]|]; simpl; congruence.
Qed.

Lemma SFltb_true_SFleb (x y : spec_float) : SFltb x y = true -> SFleb x y = true.
Proof. unfold SFltb, SFleb. destruct (SFcompare x y) as [[| |]|]; congruence. Qed.

Lemma sf_nonneg_not_nan (x : spec_float) : sf_nonneg x = true -> sf_is_nan x = false.
Proof. destruct x; simpl; congruence. Qed.

Lemma sf_nonneg_leb_zero (x : spec_float) :
  sf_nonneg x = true -> SFleb (S754_zero false) x = true.
Proof.
  destruct x as [s|s| |s m e]; simpl; try discriminate; intros H;
    try apply negb_true_iff in H; subst; reflexivity.
Qed.


(** *** Rounding stays above a representable lower bound *)

Lemma digits2_pos_spec (p : positive) :
  (2 ^ (Z.pos (digits2_pos p) - 1) <= Z.pos p < 2 ^ Z.pos (digits2_pos p))%Z.
Proof.
  induction p as [p IH|p IH|]; simpl digits2_pos.
  - rewrite Pos2Z.inj_succ, (Pos2Z.inj_xI p).
    replace (Z.succ (Z.pos (digits2_pos p)) - 1)%Z
      with (Z.succ (Z.pos (digits2_pos p) - 1)) by lia.
    rewrite !Z.pow_succ_r by lia. lia.
  - rewrite Pos2Z.inj_succ, (Pos2Z.inj_xO p).
    replace (Z.succ (Z.pos (digits2_pos p)) - 1)%Z
      with (Z.succ (Z.pos (digits2_pos p) - 1)) by lia.
    rewrite !Z.pow_succ_r by lia. lia.
  - simpl. lia.
Qed.

Lemma iter_xO_spec (d : positive) : forall m : positive,
  Z.pos (Pos.iter xO m d) = (Z.pos m * 2 ^ Z.pos d)%Z.
Proof.
  induction d as [|d IH] using Pos.peano_ind; intros m.
  - simpl. lia.
  - rewrite Pos.iter_succ. rewrite Pos2Z.inj_xO, IH, Pos2Z.inj_succ.
    rewrite Z.pow_succ_r by lia. ring.
Qed.

Lemma shl_align_spec (m : positive) (e e' : Z) :
  let '(mz, ez) := shl_align m e e' in
  ez = Z.min e e' /\ Z.pos mz = (Z.pos m * 2 ^ (e - ez))%Z.
Proof.
  unfold shl_align. destruct (e' - e)%Z as [|d|d] eqn:Hd; cbv beta iota.
  - split; [lia|]. replace (e - e)%Z with 0%Z by lia. simpl. lia.
  - split; [lia|]. replace (e - e)%Z with 0%Z by lia. simpl. lia.
  - split; [lia|]. replace (e - e')%Z with (Z.pos d) by lia.
    apply iter_xO_spec.
Qed.

(** What [binary_round_aux] returns from the final significand and exponent. *)
Definition sf_out (q e : Z) : spec_float :=
  match q with
  | Z0 => S754_zero false
  | Z.pos p => if (e <=? emax - prec)%Z then S754_finite false p e
               else S754_infinity false
  | Z.neg _ => S754_nan
  end.

Lemma SFleb_sf_out (mb : positive) (eb q e : Z) :
  (0 < q)%Z -> (eb < e \/ (eb = e /\ Z.pos mb <= q))%Z ->
  SFleb (S754_finite false mb eb) (sf_out q e) = true.
Proof.
  intros Hq H. unfold sf_out. destruct q as [|p|p]; try lia.
  destruct (e <=? emax - prec)%Z; [|reflexivity].
  unfold SFleb, SFcompare.
  destruct H as [H|[-> H]].
  - rewrite (proj2 (Z.compare_lt_iff eb e) H). reflexivity.
  - rewrite Z.compare_refl.
    change (Pos.compare_cont Eq mb p) with (mb ?= p)%positive.
    rewrite Pos2Z.inj_compare.
    destruct (Z.compare_spec (Z.pos mb) (Z.pos p)); try reflexivity; lia.
Qed.

Lemma fexp_ge_emin (e : Z) : (-1074 <= fexp prec emax e)%Z.
Proof. unfold fexp, emin, prec, emax. lia. Qed.

Lemma fexp_eq (e : Z) : fexp prec emax e = Z.max (e - 53) (-1074).
Proof. reflexivity. Qed.

Lemma Zdigits2_pos (p : positive) : Zdigits2 (Z.pos p) = Z.pos (digits2_pos p).
Proof. reflexivity. Qed.

(** One shift of the rounding: it keeps the number at or above the bound
    [(mb, eb)] provided the shift amount is below the number of digits. *)
Lemma shift_keeps_bound (mb : positive) (eb q e : Z) :
  (0 < q)%Z -> (-1074 <= eb)%Z ->
  (eb < e \/ (eb = e /\ Z.pos mb <= q))%Z ->
  let n := (fexp prec emax (Zdigits2 q + e) - e)%Z in
  let q' := (if (0 <? n)%Z then q / 2 ^ n else q)%Z in
  let e' := (if (0 <? n)%Z then e + n else e)%Z in
  (0 < q')%Z /\ (eb < e' \/ (eb = e' /\ Z.pos mb <= q'))%Z.
Proof.
  intros Hq Heb H. cbv zeta.
  destruct q as [|p|p]; try lia.
  rewrite Zdigits2_pos, fexp_eq.
  pose proof (digits2_pos_spec p) as [Hlo Hhi].
  set (d := Z.pos (digits2_pos p)) in *.
  set (n := (Z.max (d + e - 53) (-1074) - e)%Z).
  destruct (Z.ltb_spec 0 n) as [Hn|Hn]; [|split; assumption].
  assert (Hnd : n = (d - 53)%Z) by (unfold n in *; lia).
  split; [|left; lia].
  apply Z.div_str_pos. split; [apply Z.pow_pos_nonneg; lia|].
  apply Z.le_trans with (2 ^ (d - 1))%Z; [|exact Hlo].
  apply Z.pow_le_mono_r; lia.
Qed.

Lemma binary_round_aux_lower_bound (mb m : positive) (eb e : Z) :
  (2 ^ 52 <= Z.pos mb)%Z -> (-1074 <= eb)%Z -> (-1074 <= e)%Z ->
  (Z.pos mb * 2 ^ (eb + 1074) <= Z.pos m * 2 ^ (e + 1074))%Z ->
  SFleb (S754_finite false mb eb)
        (binary_round_aux prec emax false (Z.pos m) e loc_Exact) = true.
Proof.
  intros Hmb Heb He Hle.
  pose proof (digits2_pos_spec m) as [Hlo Hhi].
  set (d := Z.pos (digits2_pos m)) in *.
  assert (Hd1 : (0 < d)%Z) by (unfold d; lia).
  assert (Hpe : (0 < 2 ^ (e + 1074))%Z) by (apply Z.pow_pos_nonneg; lia).
  assert (Hpb : (0 < 2 ^ (eb + 1074))%Z) by (apply Z.pow_pos_nonneg; lia).
  (* the exponent of the rounded number is at least [eb] *)
  assert (Hd : (52 + eb < d + e)%Z).
  { assert (H : (2 ^ (52 + (eb + 1074)) < 2 ^ (d + (e + 1074)))%Z).
    { rewrite (Z.pow_add_r 2 52), (Z.pow_add_r 2 d) by lia.
      apply Z.le_lt_trans with (Z.pos m * 2 ^ (e + 1074))%Z; [nia|].
      apply Zmult_lt_compat_r; assumption. }
    apply Z.pow_lt_mono_r_iff in H; lia. }
  (* first shift *)
  unfold binary_round_aux.
  destruct (shr_fexp_spec (Z.pos m) e loc_Exact ltac:(lia)) as [H1 H1e].
  destruct (shr_fexp prec emax (Z.pos m) e loc_Exact) as [mrs' e1].
  cbn [fst snd] in H1, H1e. rewrite Zdigits2_pos, fexp_eq in H1, H1e. fold d in H1, H1e.
  set (n1 := (Z.max (d + e - 53) (-1074) - e)%Z) in *.
  assert (Hn1 : n1 = (d - 53)%Z) by (unfold n1; lia).
  assert (Hinv1 : (0 < shr_m mrs')%Z /\
                  (eb < e1 \/ (eb = e1 /\ Z.pos mb <= shr_m mrs'))%Z).
  { rewrite H1, H1e. destruct (Z.ltb_spec 0 n1) as [Hpos|Hneg].
    - assert (Hpn : (0 < 2 ^ n1)%Z) by (apply Z.pow_pos_nonneg; lia).
      split.
      + apply Z.div_str_pos. split; [exact Hpn|].
        apply Z.le_trans with (2 ^ (d - 1))%Z; [|exact Hlo].
        apply Z.pow_le_mono_r; lia.
      + destruct (Z.eq_dec eb (e + n1)%Z) as [Heq|Hne]; [right|left; lia].
        split; [exact Heq|].
        apply Z.div_le_lower_bound; [exact Hpn|].
        replace (eb + 1074)%Z with (n1 + (e + 1074))%Z in Hle by lia.
        rewrite Z.pow_add_r in Hle by lia.
        apply (Z.mul_le_mono_pos_r _ _ (2 ^ (e + 1074))); [exact Hpe|].
        lia.
    - split; [lia|].
      destruct (Z.eq_dec eb e) as [Heq|Hne]; [right|left; lia].
      split; [exact Heq|]. subst eb.
      apply (Z.mul_le_mono_pos_r _ _ (2 ^ (e + 1074))); assumption. }
  destruct Hinv1 as [Hq1 Hb1].
  (* rounding to nearest *)
  set (q1 := round_nearest_even (shr_m mrs') (loc_of_shr_record mrs')).
  assert (Hq1' : (shr_m mrs' <= q1)%Z).
  { unfold q1.
    destruct (round_nearest_even_cases (shr_m mrs') (loc_of_shr_record mrs'))
      as [->| ->]; lia. }
  (* second shift *)
  destruct (shr_fexp_spec q1 e1 loc_Exact ltac:(lia)) as [H2 H2e].
  destruct (shr_fexp prec emax q1 e1 loc_Exact) as [mrs'' e2].
  cbn [fst snd] in H2, H2e.
  destruct (shift_keeps_bound mb eb q1 e1 ltac:(lia) Heb ltac:(lia)) as [Hq2 Hb2].
  rewrite <- H2 in Hq2, Hb2. rewrite <- H2e in Hb2.
  change (SFleb (S754_finite false mb eb) (sf_out (shr_m mrs'') e2) = true).
  apply SFleb_sf_out; assumption.
Qed.

(** Adding a non-negative number to a positive normal number does not go
    below that number. *)
Lemma SF64add_lower_bound (mb : positive) (eb : Z) (y : spec_float) :
  (2 ^ 52 <= Z.pos mb)%Z -> (-1074 <= eb)%Z ->
  sf_nonneg y = true -> valid_binary y = true ->
  SFleb (S754_finite false mb eb) (S754_finite false mb eb) = true ->
  SFleb (S754_finite false mb eb) (SF64add (S754_finite false mb eb) y) = true.
Proof.
  intros Hmb Heb Hy Hv Hrefl.
  destruct y as [s|s| |s my ey]; simpl in Hy; try discriminate.
  - exact Hrefl.
  - apply negb_true_iff in Hy; subst. reflexivity.
  - apply negb_true_iff in Hy; subst.
    assert (Hey : (-1074 <= ey)%Z).
    { unfold valid_binary, bounded, canonical_mantissa in Hv.
      apply andb_prop in Hv. destruct Hv as [Hc _]. apply Z.eqb_eq in Hc.
      rewrite <- Hc. apply fexp_ge_emin. }
    unfold SF64add, SFadd. cbn [cond_Zopp].
    set (ez := Z.min eb ey).
    pose proof (shl_align_spec mb eb ez) as Ha.
    pose proof (shl_align_spec my ey ez) as Hb.
    destruct (shl_align mb eb ez) as [ma ea]. destruct (shl_align my ey ez) as [mc ec].
    destruct Ha as [Hea Hma]. destruct Hb as [Hec Hmc]. cbn [fst].
    change (Z.pos ma + Z.pos mc)%Z with (Z.pos (ma + mc)).
    unfold binary_normalize, binary_round.
    set (t := fexp prec emax (Z.pos (digits2_pos (ma + mc)) + ez)).
    pose proof (shl_align_spec (ma + mc) ez t) as Hs.
    destruct (shl_align (ma + mc) ez t) as [mz ez'].
    destruct Hs as [Hez Hmz].
    assert (Ht : (-1074 <= t)%Z) by apply fexp_ge_emin.
    assert (Hea' : ea = ez) by (unfold ez in *; lia).
    assert (Hec' : ec = ez) by (unfold ez in *; lia).
    subst ea ec. rewrite Hea' in Hma. rewrite Hec' in Hmc.
    apply binary_round_aux_lower_bound; [exact Hmb | exact Heb | unfold ez in *; lia |].
    rewrite Hmz, Pos2Z.inj_add, Hma.
    rewrite <- Z.mul_assoc, <- Z.pow_add_r by (unfold ez in *; lia).
    replace (ez - ez' + (ez' + 1074))%Z with (ez + 1074)%Z by lia.
    rewrite Z.mul_add_distr_r, <- Z.mul_assoc, <- Z.pow_add_r by (unfold ez in *; lia).
    replace (eb - ez + (ez + 1074))%Z with (eb + 1074)%Z by lia.
    assert (0 <= Z.pos mc * 2 ^ (ez + 1074))%Z by (apply Z.mul_nonneg_nonneg; [lia|apply Z.pow_nonneg; lia]).
    lia.
Qed.
End SpecFloatFacts.

(** ** Telemetry: fuel reserve *)

Section Fuel.
Local Open Scope float_scope.

Lemma update_fuel data car :
  simulated_fuel (dashboard_ (UpdateDashboardData data car))
  = fuel_step (simulated_fuel (dashboard_ car)) /\
  fuel (dashboard_ (UpdateDashboardData data car))
  = fuel_step (simulated_fuel (dashboard_ car)).
Proof. split; reflexivity. Qed.

Lemma updates_state inputs n car :
  N.iter n (fun st : N * SimpleCar =>
              (N.succ (fst st), UpdateDashboardData (inputs (fst st)) (snd st)))
         (0%N, car)
  = (n, updates inputs n car).
Proof.
  unfold updates. induction n using N.peano_ind.
  - reflexivity.
  - rewrite N.iter_succ, IHn. simpl. reflexivity.
Qed.

Lemma updates_succ inputs n car :
  updates inputs (N.succ n) car = UpdateDashboardData (inputs n) (updates inputs n car).
Proof.
  unfold updates at 1. rewrite N.iter_succ, updates_state. reflexivity.
Qed.

Lemma updates_fuel inputs n car :
  simulated_fuel (dashboard_ (updates inputs n car))
  = N.iter n fuel_step (simulated_fuel (dashboard_ car)).
Proof.
  induction n using N.peano_ind.
  - reflexivity.
  - rewrite updates_succ, N.iter_succ, <- IHn. apply update_fuel.
Qed.

(** Checking a property of the reserve along the first [n] updates. *)
Definition check_orbit (P : N -> float -> bool) (n : N) : bool :=
  snd (N.iter n (fun st : N * float * bool =>
                   let '(k, f, ok) := st in (N.succ k, fuel_step f, ok && P k f))
              (0%N, 100, true)).

Lemma check_orbit_state P n :
  exists ok,
    N.iter n (fun st : N * float * bool =>
                let '(k, f, ok) := st in (N.succ k, fuel_step f, ok && P k f))
           (0%N, 100, true)
    = (n, N.iter n fuel_step 100, ok) /\
    (ok = true -> forall k, (k < n)%N -> P k (N.iter k fuel_step 100) = true).
Proof.
  induction n using N.peano_ind.
  - exists true. split; [reflexivity|]. intros _ k Hk. lia.
  - destruct IHn as (ok & Hst & Hok). rewrite N.iter_succ, Hst.
    exists (ok && P n (N.iter n fuel_step 100)). rewrite N.iter_succ.
    split; [reflexivity|].
    intros H k Hk. apply andb_prop in H. destruct H as [H1 H2].
    destruct (N.eq_dec k n) as [->|Hne]; [exact H2|]. apply Hok; [exact H1 | lia].
Qed.

Lemma check_orbit_sound P n :
  check_orbit P n = true ->
  forall k, (k < n)%N -> P k (N.iter k fuel_step 100) = true.
Proof.
  unfold check_orbit. destruct (check_orbit_state P n) as (ok & Hst & Hok).
  rewrite Hst. simpl. exact Hok.
Qed.

(** From a full reserve the reset branch is taken at the 100000th update, and
    at no other of the first 100001. *)
Lemma wraps_orbit (k : N) :
  (k < 100001)%N -> wraps (N.iter k fuel_step 100) = (k =? 99999)%N.
Proof.
  intros Hk.
  pose proof (check_orbit_sound
                (fun k f => Bool.eqb (wraps f) (k =? 99999)%N) 100001) as H.
  apply Bool.eqb_prop. apply H; [vm_compute; reflexivity | exact Hk].
Qed.

Lemma fuel_orbit_period : N.iter 100000 fuel_step 100 = 100.
Proof. vm_compute. reflexivity. Qed.

Lemma fuel_orbit_range (k : N) :
  (k < 100001)%N ->
  (0 <=? N.iter k fuel_step 100) = true /\ (N.iter k fuel_step 100 <=? 100) = true.
Proof.
  intros Hk.
  pose proof (check_orbit_sound (fun _ f => (0 <=? f) && (f <=? 100)) 100001) as H.
  apply andb_prop. apply H; [vm_compute; reflexivity | exact Hk].
Qed.

(** C4 (as the code has it): an update subtracts 0.001 from the reserve and
    resets it to 100 when the difference is below 0, and the gauge value is the
    reserve; starting from a reserve of 100, among the first 100001 updates
    exactly one takes the reset branch, the 100000th. *)
Theorem C4_fuel_decay_and_wraparound :
  (forall data car,
     let f := simulated_fuel (dashboard_ car) in
     let d' := dashboard_ (UpdateDashboardData data car) in
     simulated_fuel d' = (if f - 0.001 <? 0 then 100 else f - 0.001) /\
     fuel d' = simulated_fuel d') /\
  (forall inputs car,
     simulated_fuel (dashboard_ car) = 100 ->
     forall k, (1 <= k <= 100001)%N ->
       (wraps (simulated_fuel (dashboard_ (updates inputs (k - 1) car))) = true
        <-> k = 100000%N)).
Proof.
  split.
  - intros data car. split; reflexivity.
  - intros inputs car H100 k Hk.
    rewrite updates_fuel, H100, wraps_orbit by lia.
    rewrite N.eqb_eq. lia.
Qed.
End Fuel.

(** The single reset is not at call 100001: the run from a
    full reserve resets at call 100000 and call 100001 only decrements. *)
Lemma C4_wraparound_at_100000 :
  let car k := updates (fun _ => data_at_rest) k car_init in
  simulated_fuel (dashboard_ (car 99999%N)) = 0.00099999988656219226%float /\
  wraps (simulated_fuel (dashboard_ (car 99999%N))) = true /\
  simulated_fuel (dashboard_ (car 100000%N)) = 100%float /\
  wraps (simulated_fuel (dashboard_ (car 100000%N))) = false /\
  simulated_fuel (dashboard_ (car 100001%N)) = 99.998999999999995%float.
Proof.
  cbv beta zeta. rewrite !updates_fuel. vm_compute. repeat split; reflexivity.
Qed.

(** ** Telemetry: the (10, 0) scenario *)

Lemma empty_scene_ok (n : nat) : scene_ok (empty_scene n).
Proof.
  unfold scene_ok, empty_scene; simpl. rewrite length_replicate. lia.
Qed.

Section Scenario.
Local Open Scope float_scope.

Lemma update_speed_rpm_temp data car :
  let vx := qvel data !!! 0%nat in
  let vy := qvel data !!! 1%nat in
  let d' := dashboard_ (UpdateDashboardData data car) in
  let speed := PrimFloat.sqrt (vx * vx + vy * vy) * 3.6 in
  let rpm0 := speed * 40 + 800 in
  let rpm1 := if 8000 <? rpm0 then 8000 else rpm0 in
  let rpm2 := if rpm1 <? 800 then 800 else rpm1 in
  let temp0 := 60 + rpm2 / 8000 * 60 in
  speed_kmh d' = speed /\ rpm d' = rpm2 /\
  temperature d' = (if 120 <? temp0 then 120 else temp0).
Proof. repeat split. Qed.

Lemma d2r_36 : d2r 36 = 36%R.
Proof.
  unfold d2r. replace (Prim2SF 36) with (S754_finite false 5066549580791808 (-47))
    by (vm_compute; reflexivity).
  unfold SF2R, cond_Zopp. cbn [powerRZ].
  rewrite (pow_IZR 2 (Pos.to_nat 47)).
  replace (2 ^ Z.of_nat (Pos.to_nat 47))%Z with 140737488355328%Z
    by (vm_compute; reflexivity).
  lra.
Qed.
End Scenario.

Section ScenarioOverlay.
Variable fmt_f : nat -> float -> string.
Local Open Scope R_scope.

Lemma pointer_angle_072 : pointer_angle 36 50 = 0.72 * 2 * PI - PI / 2.
Proof.
  unfold pointer_angle. cbv zeta. destruct (Rlt_dec 1 (36 / 50)) as [H|H]; lra.
Qed.

(** C3: with planar velocity (10, 0) one update gives exactly 36 km/h,
    2240 rpm and 76.8 degrees; the speedometer then draws its pointer from the
    centre at the ratio 36 / 50 = 0.72, that is at the angle
    [0.72 * 2 PI - PI / 2]. *)
Theorem C3_velocity_10_0_scenario (data : mjData) (car : SimpleCar)
    (x y size : R) (s : mjvScene) :
  qvel data !!! 0%nat = 10%float -> qvel data !!! 1%nat = 0%float ->
  scene_ok s -> (32 <= room s)%nat ->
  let d' := dashboard_ (UpdateDashboardData data car) in
  speed_kmh d' = 36%float /\ rpm d' = 2240%float /\
  temperature d' = 76.8%float /\
  d2r (speed_kmh d') / 50 = 0.72 /\
  pointer_angle (d2r (speed_kmh d')) 50 = 0.72 * 2 * PI - PI / 2 /\
  emits_segment s (DrawSpeedometer2D fmt_f d' x y size s)
    (x, y, x + size * 0.6 * cos (0.72 * 2 * PI - PI / 2),
           y + size * 0.6 * sin (0.72 * 2 * PI - PI / 2)).
Proof.
  intros Hvx Hvy Hok Hroom d'.
  destruct (update_speed_rpm_temp data car) as (Hs & Hr & Ht).
  fold d' in Hs, Hr, Ht. rewrite Hvx, Hvy in Hs, Hr, Ht.
  assert (Hs' : speed_kmh d' = 36%float) by (rewrite Hs; vm_compute; reflexivity).
  assert (Hr' : rpm d' = 2240%float) by (rewrite Hr; vm_compute; reflexivity).
  assert (Ht' : temperature d' = 76.8%float) by (rewrite Ht; vm_compute; reflexivity).
  split; [exact Hs'|]. split; [exact Hr'|]. split; [exact Ht'|].
  rewrite Hs', d2r_36. split; [lra|]. split; [apply pointer_angle_072|].
  rewrite <- pointer_angle_072, <- d2r_36, <- Hs'.
  eapply (trace_emits_segment _ _ s 25);
    [apply speedometer_trace | exact Hok | lia | reflexivity].
Qed.
End ScenarioOverlay.

(** ** Telemetry: ranges of the derived fields *)

Section Ranges.
Local Open Scope float_scope.

(** A binary64 number that is neither NaN nor negative. *)
Definition nonneg (x : float) : Prop := sf_nonneg (Prim2SF x) = true.

Lemma is_nan_spec (x : float) : is_nan x = false -> sf_is_nan (Prim2SF x) = false.
Proof.
  unfold is_nan. rewrite FloatAxioms.eqb_spec. unfold SFeqb.
  destruct (Prim2SF x); simpl; congruence.
Qed.

Lemma nonneg_square (x : float) : is_nan x = false -> nonneg (x * x).
Proof.
  intros H. unfold nonneg. rewrite FloatAxioms.mul_spec.
  apply SF64mul_square_nonneg, is_nan_spec, H.
Qed.

Lemma nonneg_add (x y : float) : nonneg x -> nonneg y -> nonneg (x + y).
Proof. unfold nonneg. rewrite FloatAxioms.add_spec. apply SF64add_nonneg. Qed.

Lemma nonneg_sqrt (x : float) : nonneg x -> nonneg (PrimFloat.sqrt x).
Proof. unfold nonneg. rewrite FloatAxioms.sqrt_spec. apply SF64sqrt_nonneg. Qed.

(** A positive finite constant. *)
Definition pos_finite (c : float) : Prop :=
  exists m e, Prim2SF c = S754_finite false m e.

Lemma nonneg_mul_const (x c : float) : pos_finite c -> nonneg x -> nonneg (x * c).
Proof.
  intros (m & e & Hc). unfold nonneg. rewrite FloatAxioms.mul_spec, Hc.
  apply SF64mul_nonneg_finite.
Qed.

Lemma nonneg_div_const (x c : float) : pos_finite c -> nonneg x -> nonneg (x / c).
Proof.
  intros (m & e & Hc). unfold nonneg. rewrite FloatAxioms.div_spec, Hc.
  apply SF64div_nonneg_finite.
Qed.

Lemma pos_finite_nonneg (c : float) : pos_finite c -> nonneg c.
Proof. intros (m & e & Hc). unfold nonneg. rewrite Hc. reflexivity. Qed.

Ltac pos_finite_const := do 2 eexists; vm_compute; reflexivity.

Lemma nonneg_leb_zero (x : float) : nonneg x -> (0 <=? x) = true.
Proof. intros H. rewrite FloatAxioms.leb_spec. apply sf_nonneg_leb_zero, H. Qed.

Lemma nonneg_not_nan (x : float) : nonneg x -> sf_is_nan (Prim2SF x) = false.
Proof. apply sf_nonneg_not_nan. Qed.

Lemma ltb_false_leb (x y : float) :
  sf_is_nan (Prim2SF x) = false -> sf_is_nan (Prim2SF y) = false ->
  (x <? y) = false -> (y <=? x) = true.
Proof. rewrite FloatAxioms.ltb_spec, FloatAxioms.leb_spec. apply SFltb_false_SFleb. Qed.

Lemma leb_true_ltb (x y : float) : (x <=? y) = true -> (y <? x) = false.
Proof. rewrite FloatAxioms.ltb_spec, FloatAxioms.leb_spec. apply SFleb_true_SFltb. Qed.

Lemma ltb_true_leb (x y : float) : (x <? y) = true -> (x <=? y) = true.
Proof. rewrite FloatAxioms.ltb_spec, FloatAxioms.leb_spec. apply SFltb_true_SFleb. Qed.

(** The two clamps of the rpm. *)
Lemma rpm_clamp (r : float) :
  nonneg r ->
  let r1 := if 8000 <? r then 8000 else r in
  let r2 := if r1 <? 800 then 800 else r1 in
  nonneg r2 /\ (800 <=? r2) = true /\ (r2 <=? 8000) = true.
Proof.
  intros Hr. cbv zeta.
  assert (H8000 : pos_finite 8000) by pos_finite_const.
  assert (H800 : pos_finite 800) by pos_finite_const.
  destruct (8000 <? r) eqn:Hhi.
  - replace (8000 <? 800) with false by (vm_compute; reflexivity).
    repeat split; vm_compute; reflexivity.
  - destruct (r <? 800) eqn:Hlo.
    + repeat split; vm_compute; reflexivity.
    + split; [exact Hr|]. split.
      * apply ltb_false_leb; [apply nonneg_not_nan, Hr | reflexivity | exact Hlo].
      * apply ltb_false_leb; [reflexivity | apply nonneg_not_nan, Hr | exact Hhi].
Qed.

(** The temperature computed from a clamped rpm, and its clamp. *)
Lemma temperature_clamp (r : float) :
  nonneg r ->
  let t0 := 60 + r / 8000 * 60 in
  let t1 := if 120 <? t0 then 120 else t0 in
  (60 <=? t1) = true /\ (t1 <=? 120) = true.
Proof.
  intros Hr. cbv zeta.
  assert (Hy : nonneg (r / 8000 * 60)).
  { apply nonneg_mul_const; [pos_finite_const|].
    apply nonneg_div_const; [pos_finite_const | exact Hr]. }
  assert (Ht0 : (60 <=? 60 + r / 8000 * 60) = true).
  { rewrite FloatAxioms.leb_spec, FloatAxioms.add_spec.
    replace (Prim2SF 60) with (S754_finite false 8444249301319680 (-47))
      by (vm_compute; reflexivity).
    apply SF64add_lower_bound;
      [vm_compute; discriminate | lia | exact Hy | apply Prim2SF_valid | reflexivity]. }
  destruct (120 <? 60 + r / 8000 * 60) eqn:Hhi.
  - split; vm_compute; reflexivity.
  - split; [exact Ht0|].
    apply ltb_false_leb; [reflexivity | | exact Hhi].
    apply nonneg_not_nan, nonneg_add; [apply pos_finite_nonneg; pos_finite_const | exact Hy].
Qed.

Lemma reachable_fuel (car : SimpleCar) :
  reachable car ->
  exists k, (k < 100000)%N /\
    simulated_fuel (dashboard_ car) = N.iter k fuel_step 100.
Proof.
  induction 1 as [|data car Hr (k & Hk & IH)].
  - exists 0%N. split; [lia | reflexivity].
  - destruct (update_fuel data car) as [Hsf _]. rewrite Hsf, IH, <- N.iter_succ.
    destruct (N.eq_dec (N.succ k) 100000%N) as [Heq|Hne].
    + exists 0%N. split; [lia|]. rewrite Heq. apply fuel_orbit_period.
    + exists (N.succ k). split; [lia | reflexivity].
Qed.

(** C2: after an update of a reachable task with velocity components that are
    numbers (not NaN), whatever their sign and magnitude, the speed is not
    negative, the rpm lies in [800, 8000], the temperature in [60, 120] and
    the fuel in [0, 100]. *)
Theorem C2_dashboard_ranges (data : mjData) (car : SimpleCar) :
  reachable car ->
  is_nan (qvel data !!! 0%nat) = false ->
  is_nan (qvel data !!! 1%nat) = false ->
  let d' := dashboard_ (UpdateDashboardData data car) in
  (0 <=? speed_kmh d') = true /\
  (800 <=? rpm d') = true /\ (rpm d' <=? 8000) = true /\
  (60 <=? temperature d') = true /\ (temperature d' <=? 120) = true /\
  (0 <=? fuel d') = true /\ (fuel d' <=? 100) = true.
Proof.
  intros Hreach Hvx Hvy d'.
  destruct (update_speed_rpm_temp data car) as (Hs & Hr & Ht).
  fold d' in Hs, Hr, Ht.
  set (vx := qvel data !!! 0%nat) in *. set (vy := qvel data !!! 1%nat) in *.
  assert (Hspeed : nonneg (PrimFloat.sqrt (vx * vx + vy * vy) * 3.6)).
  { apply nonneg_mul_const; [pos_finite_const|].
    apply nonneg_sqrt, nonneg_add; apply nonneg_square; assumption. }
  assert (Hrpm0 : nonneg (PrimFloat.sqrt (vx * vx + vy * vy) * 3.6 * 40 + 800)).
  { apply nonneg_add; [|apply pos_finite_nonneg; pos_finite_const].
    apply nonneg_mul_const; [pos_finite_const | exact Hspeed]. }
  destruct (rpm_clamp _ Hrpm0) as (Hnn & Hlo & Hhi).
  destruct (temperature_clamp _ Hnn) as (Htlo & Hthi).
  destruct (reachable_fuel car Hreach) as (k & Hk & Hfuel).
  destruct (update_fuel data car) as [_ Hf]. fold d' in Hf.
  destruct (fuel_orbit_range (N.succ k) ltac:(lia)) as [Hf0 Hf100].
  rewrite Hs, Hr, Ht, Hf, Hfuel, <- N.iter_succ.
  split; [apply nonneg_leb_zero, Hspeed|].
  repeat split; assumption.
Qed.

(** A NaN velocity is outside these ranges: it goes through both clamps. *)
Lemma nan_velocity_escapes_clamps :
  let data := {| qpos := []; qvel := [nan; 0]; ctrl := []; mocap_pos := [];
                 xpos := []; time := 0.5 |} in
  let d' := dashboard_ (UpdateDashboardData data car_init) in
  is_nan (rpm d') = true /\ (rpm d' <=? 8000) = false.
Proof. vm_compute. split; reflexivity. Qed.
End Ranges.

Lemma C2_witness :
  let d' := dashboard_ (UpdateDashboardData data_10_0 car_init) in
  (0 <=? speed_kmh d')%float = true /\
  (800 <=? rpm d')%float = true /\ (rpm d' <=? 8000)%float = true /\
  (60 <=? temperature d')%float = true /\ (temperature d' <=? 120)%float = true /\
  (0 <=? fuel d')%float = true /\ (fuel d' <=? 100)%float = true.
Proof.
  apply (C2_dashboard_ranges data_10_0 car_init);
    [apply reachable_init | reflexivity | reflexivity].
Defined.

(** ** Goal controller *)

Section GoalController.
Local Open Scope float_scope.
Variable BitGen : Type.
Variable Uniform : BitGen -> float -> float -> float * BitGen.

(** The two draws of a relocation. *)
Definition new_goal (gen_ : BitGen) : float * float :=
  let '(u0, gen1) := Uniform gen_ (-2) 2 in
  let '(u1, _) := Uniform gen1 (-2) 2 in
  (u0, u1).

(** Planar distance from the car to the goal, as the transition computes it. *)
Definition goal_distance (data : mjData) : float :=
  mju_norm (mju_sub [mocap_pos data !!! 0%nat; mocap_pos data !!! 1%nat]
                    [qpos data !!! 0%nat; qpos data !!! 1%nat]).

Lemma transition_reached gen_ data car :
  (goal_distance data <? 0.2) = true ->
  TransitionLocked BitGen Uniform gen_ (data, car) =
  (set_mocap_pos data
     (<[2%nat := 0.01]> (<[1%nat := snd (new_goal gen_)]>
        (<[0%nat := fst (new_goal gen_)]> (mocap_pos data)))),
   UpdateDashboardData data car).
Proof.
  unfold TransitionLocked, goal_distance, new_goal. intros ->.
  destruct (Uniform gen_ (-2) 2) as [u0 gen1].
  destruct (Uniform gen1 (-2) 2) as [u1 gen2]. reflexivity.
Qed.

Lemma transition_seeking gen_ data car :
  (goal_distance data <? 0.2) = false ->
  TransitionLocked BitGen Uniform gen_ (data, car) = (data, UpdateDashboardData data car).
Proof. unfold TransitionLocked, goal_distance. intros ->. reflexivity. Qed.

(** The contract of [absl::Uniform] on the interval that the task uses. *)
Hypothesis Uniform_range : forall g : BitGen,
  (-2 <=? fst (Uniform g (-2) 2)) = true /\ (fst (Uniform g (-2) 2) <=? 2) = true.

(** C5: a transition whose car is strictly nearer than 0.2 to the goal
    rewrites the goal with two draws from [-2, 2] and the ground height 0.01;
    one whose car is at distance 0.2 or more leaves the goal as it is; both
    leave velocity and time alone and run the telemetry update on them. *)
Theorem C5_transition_relocates_or_keeps gen_ data car :
  let data' := fst (TransitionLocked BitGen Uniform gen_ (data, car)) in
  let car' := snd (TransitionLocked BitGen Uniform gen_ (data, car)) in
  ((goal_distance data <? 0.2) = true ->
     let u0 := fst (new_goal gen_) in
     let u1 := snd (new_goal gen_) in
     mocap_pos data' =
       <[2%nat := 0.01]> (<[1%nat := u1]> (<[0%nat := u0]> (mocap_pos data))) /\
     (-2 <=? u0) = true /\ (u0 <=? 2) = true /\
     (-2 <=? u1) = true /\ (u1 <=? 2) = true) /\
  ((0.2 <=? goal_distance data) = true -> mocap_pos data' = mocap_pos data) /\
  qpos data' = qpos data /\ qvel data' = qvel data /\ time data' = time data /\
  car' = UpdateDashboardData data' car /\
  car' = UpdateDashboardData data car.
Proof using Uniform_range.
  cbv zeta. destruct (goal_distance data <? 0.2) eqn:Hd.
  - rewrite transition_reached by exact Hd. cbn [fst snd].
    split.
    + intros _. cbv zeta. split; [reflexivity|]. unfold new_goal.
      pose proof (Uniform_range gen_) as [H1 H2].
      destruct (Uniform gen_ (-2) 2) as [u0 gen1].
      pose proof (Uniform_range gen1) as [H3 H4].
      destruct (Uniform gen1 (-2) 2) as [u1 gen2]. cbn [fst snd] in *.
      repeat split; assumption.
    + split.
      * intros Hge. apply leb_true_ltb in Hge. congruence.
      * repeat split.
  - rewrite transition_seeking by exact Hd. cbn [fst snd].
    split; [intros H; discriminate|]. repeat split.
Qed.

End GoalController.

Section GoalRelocation.
Local Open Scope float_scope.
Variable BitGen : Type.
Variable Uniform : BitGen -> float -> float -> float * BitGen.




End GoalRelocation.

(** * Instances on concrete inputs *)

(** Three calls against an empty scene of two slots: the third is dropped. *)
Definition demo_calls : list append_call :=
  [ CallCircle 0 0 1 1 1 1 1;
    CallLine 0 0 3 4 0.02 1 0 0 1;
    CallLabel 0 0 0 "SPEED" 0.15 0 0.5 1 ].

Lemma C1_witness :
  scene_ok (empty_scene 2) /\
  (ngeom (run_calls demo_calls (empty_scene 2)) <= maxgeom (empty_scene 2))%Z /\
  run_calls demo_calls (empty_scene 2)
  = run_calls (take 2 demo_calls) (empty_scene 2) /\
  ngeom (run_calls demo_calls (empty_scene 2)) = maxgeom (empty_scene 2).
Proof.
  assert (Hok : scene_ok (empty_scene 2)) by (split; [simpl; lia | reflexivity]).
  split; [exact Hok|].
  destruct (C1_append_never_exceeds_capacity demo_calls (empty_scene 2) Hok)
    as (Hle & _ & _ & _ & Htake & _ & Hfull).
  split; [exact Hle|]. split; [exact Htake|]. apply Hfull. vm_compute. lia.
Defined.

Definition demo_model : mjModel := {| body_names := ["world"; "car"; "goal"] |}.

Definition demo_data : mjData :=
  {| qpos := [0%float; 0%float]; qvel := [10%float; 0%float];
     ctrl := [0%float; 0%float];
     mocap_pos := [1%float; 1%float; 0.01%float];
     xpos := [0%float; 0%float; 0%float; 0%float; 0%float; 0.03%float];
     time := 0.5%float |}.

Definition no_text (n : nat) (x : float) : string := "".

Lemma C10_witness :
  exists scene',
    snd (ModifyScene no_text demo_model demo_data car_init
           ({| blink_timer := 0; heat_timer := 0 |}, Some (empty_scene 128)))
    = Some scene' /\
    forall i, (Z.to_nat (ngeom (empty_scene 128)) <= i < Z.to_nat (ngeom scene'))%nat ->
      exists g, geoms scene' !! i = Some g /\ category g = mjCAT_DECOR.
Proof.
  destruct (C10_overlay_geoms_are_decor no_text demo_model demo_data car_init
              {| blink_timer := 0; heat_timer := 0 |} (empty_scene 128))
    as (scene' & Hrun & Hdecor & _).
  - split; [simpl; lia | reflexivity].
  - exists scene'. split; assumption.
Defined.

Lemma C3_witness :
  let d' := dashboard_ (UpdateDashboardData data_10_0 car_init) in
  speed_kmh d' = 36%float /\ rpm d' = 2240%float /\
  temperature d' = 76.8%float /\
  (d2r (speed_kmh d') / 50 = 0.72)%R /\
  (pointer_angle (d2r (speed_kmh d')) 50 = 0.72 * 2 * PI - PI / 2)%R /\
  emits_segment (empty_scene 64)
    (DrawSpeedometer2D no_text d' 0 0 1 (empty_scene 64))
    (0, 0, 0 + 1 * 0.6 * cos (0.72 * 2 * PI - PI / 2),
           0 + 1 * 0.6 * sin (0.72 * 2 * PI - PI / 2))%R.
Proof.
  apply (C3_velocity_10_0_scenario no_text data_10_0 car_init 0 0 1 (empty_scene 64)).
  - reflexivity.
  - reflexivity.
  - split; [simpl; lia | reflexivity].
  - vm_compute. lia.
Defined.

(** Not every circular gauge has four major ticks: the tachometer,
    drawn at the origin with size 1 into an empty scene of 64 slots, appends no
    line from 0.75 to 0.9 of the radius at 0 degrees. *)
Lemma C7_tachometer_has_no_major_tick :
  ~ emits_segment (empty_scene 64)
      (DrawTachometer2D no_text dashboard_init 0 0 1 (empty_scene 64))
      (tick_segment 0 0 1 0.75 0.9 (deg (90 * INR 0))) /\
  ~ draws_major_ticks (DrawTachometer2D no_text dashboard_init).
Proof.
  assert (Hok : scene_ok (empty_scene 64)) by (split; [simpl; lia | reflexivity]).
  assert (H : ~ emits_segment (empty_scene 64)
                (DrawTachometer2D no_text dashboard_init 0 0 1 (empty_scene 64))
                (tick_segment 0 0 1 0.75 0.9 (deg (90 * INR 0)))).
  { apply (tachometer_no_major_tick no_text dashboard_init 0%R 0%R 1%R (empty_scene 64));
      [lra | exact Hok | lia]. }
  split; [exact H|].
  intros Hall. apply H. apply Hall; [exact Hok | vm_compute; lia | lia].
Qed.

(** A generator whose every draw is 0.5. *)
Definition fixed_gen (g : unit) (lo hi : float) : float * unit := (0.5%float, g).

Definition data_at_goal : mjData :=
  {| qpos := [1%float; 1%float]; qvel := [0%float; 0%float];
     ctrl := [0%float; 0%float];
     mocap_pos := [1%float; 1%float; 0.01%float]; xpos := []; time := 0.5%float |}.

Lemma C5_witness :
  let data' := fst (TransitionLocked unit fixed_gen tt (data_at_goal, car_init)) in
  let car' := snd (TransitionLocked unit fixed_gen tt (data_at_goal, car_init)) in
  (goal_distance data_at_goal <? 0.2)%float = true /\
  mocap_pos data' = [0.5; 0.5; 0.01]%float /\
  car' = UpdateDashboardData data_at_goal car_init.
Proof.
  assert (Hrange : forall g : unit,
            (-2 <=? fst (fixed_gen g (-2) 2))%float = true /\
            (fst (fixed_gen g (-2) 2) <=? 2)%float = true)
    by (intros g; split; reflexivity).
  destruct (C5_transition_relocates_or_keeps unit fixed_gen Hrange tt
              data_at_goal car_init) as (Hreached & _ & _ & _ & _ & _ & Hcar).
  split; [reflexivity|]. split; [| exact Hcar].
  destruct (Hreached eq_refl) as (Hgoal & _). exact Hgoal.
Defined.

Definition data_near_goal : mjData :=
  {| qpos := [1.1%float; 1%float]; qvel := [0%float; 0%float];
     ctrl := [0%float; 0%float];
     mocap_pos := [1%float; 1%float; 0.01%float]; xpos := []; time := 1.5%float |}.




(** * Further properties *)

(** ** Overlay pass: how many primitives a routine issues *)

(** [issues P c lo hi]: the routine [c] is a run of between [lo] and [hi]
    append calls, each of which satisfies [P]. *)
Definition issues (P : append_call -> Prop) (c : draw) (lo hi : nat) : Prop :=
  exists calls, trace_of c calls /\ Forall P calls /\ (lo <= length calls <= hi)%nat.

Section Issues.
Variable P : append_call -> Prop.

Lemma issues_call (c : append_call) : P c -> issues P (run_call c) 1 1.
Proof.
  intros H. exists [c]. split; [apply trace_one|].
  split; [repeat constructor; exact H | simpl; lia].
Qed.

Lemma issues_skip : issues P skip 0 0.
Proof. exists []. split; [apply trace_skip|]. split; [constructor | simpl; lia]. Qed.

Lemma issues_seq (c1 c2 : draw) (lo1 hi1 lo2 hi2 : nat) :
  issues P c1 lo1 hi1 -> issues P c2 lo2 hi2 ->
  issues P (c1 >>> c2) (lo1 + lo2) (hi1 + hi2).
Proof.
  intros (l1 & T1 & F1 & L1) (l2 & T2 & F2 & L2). exists (l1 ++ l2).
  split; [apply trace_app; assumption|].
  split; [apply Forall_app; split; assumption | rewrite length_app; lia].
Qed.

Lemma issues_fold (body : nat -> draw) (lo hi n : nat) : forall start : nat,
  (forall i, (start <= i < start + n)%nat -> issues P (body i) lo hi) ->
  issues P (fun s => fold_left (fun s i => body i s) (seq start n) s) (n * lo) (n * hi).
Proof.
  induction n as [|n IH]; intros start Hb.
  - exists []. split; [intros s; reflexivity|]. split; [constructor | simpl; lia].
  - destruct (Hb start ltac:(lia)) as (l1 & T1 & F1 & L1).
    destruct (IH (S start)) as (l2 & T2 & F2 & L2); [intros i Hi; apply Hb; lia|].
    exists (l1 ++ l2). split.
    + intros s. simpl. rewrite run_calls_app, <- T1. apply T2.
    + split; [apply Forall_app; split; assumption | rewrite length_app; lia].
Qed.

Lemma issues_for (n : nat) (body : nat -> draw) (lo hi : nat) :
  (forall i, (i < n)%nat -> issues P (body i) lo hi) ->
  issues P (for_ n body) (n * lo) (n * hi).
Proof. intros Hb. apply (issues_fold body lo hi n 0). intros i Hi. apply Hb. lia. Qed.

Lemma issues_if (b : bool) (c1 c2 : draw) (lo1 hi1 lo2 hi2 : nat) :
  (b = true -> issues P c1 lo1 hi1) -> (b = false -> issues P c2 lo2 hi2) ->
  issues P (if b then c1 else c2) (Nat.min lo1 lo2) (Nat.max hi1 hi2).
Proof.
  intros H1 H2. destruct b.
  - destruct (H1 eq_refl) as (l & T & F & L). exists l. repeat split; try assumption; lia.
  - destruct (H2 eq_refl) as (l & T & F & L). exists l. repeat split; try assumption; lia.
Qed.

Lemma issues_if_dec {A B : Prop} (b : {A} + {B}) (c1 c2 : draw) (lo1 hi1 lo2 hi2 : nat) :
  (A -> issues P c1 lo1 hi1) -> (B -> issues P c2 lo2 hi2) ->
  issues P (if b then c1 else c2) (Nat.min lo1 lo2) (Nat.max hi1 hi2).
Proof.
  intros H1 H2. destruct b as [a|b].
  - destruct (H1 a) as (l & T & F & L). exists l. repeat split; try assumption; lia.
  - destruct (H2 b) as (l & T & F & L). exists l. repeat split; try assumption; lia.
Qed.

Lemma issues_weaken (c : draw) (lo hi lo' hi' : nat) :
  issues P c lo hi -> (lo' <= lo)%nat -> (hi <= hi')%nat -> issues P c lo' hi'.
Proof. intros (l & T & F & L) ? ?. exists l. repeat split; try assumption; lia. Qed.

Lemma issues_rectangle x y w h r g b a :
  P (CallRectangle x y w h r g b a) -> issues P (Draw2DRectangle x y w h r g b a) 1 1.
Proof. apply (issues_call (CallRectangle x y w h r g b a)). Qed.

Lemma issues_line x1 y1 x2 y2 w r g b a :
  P (CallLine x1 y1 x2 y2 w r g b a) -> issues P (Draw2DLine x1 y1 x2 y2 w r g b a) 1 1.
Proof. apply (issues_call (CallLine x1 y1 x2 y2 w r g b a)). Qed.

Lemma issues_circle x y rad r g b a :
  P (CallCircle x y rad r g b a) -> issues P (Draw2DCircle x y rad r g b a) 1 1.
Proof. apply (issues_call (CallCircle x y rad r g b a)). Qed.

Lemma issues_label x y z text sz r g b :
  P (CallLabel x y z text sz r g b) -> issues P (AddLabel x y z text sz r g b) 1 1.
Proof. apply (issues_call (CallLabel x y z text sz r g b)). Qed.

Lemma issues_sphere gx gy :
  P (CallGoalSphere gx gy) -> issues P (AddGoalSphere gx gy) 1 1.
Proof. apply (issues_call (CallGoalSphere gx gy)). Qed.

End Issues.

(** Decomposes a routine along its statements; [leaf] proves the property of
    each call. *)
Ltac solve_issues leaf :=
  repeat (cbv zeta;
    lazymatch goal with
    | |- issues _ (_ >>> _) _ _ => eapply issues_seq
    | |- issues _ (for_ _ _) _ _ => eapply issues_for; intros ? ?
    | |- issues _ skip _ _ => eapply issues_skip
    | |- issues _ (Draw2DRectangle _ _ _ _ _ _ _ _) _ _ => eapply issues_rectangle; leaf
    | |- issues _ (Draw2DLine _ _ _ _ _ _ _ _ _) _ _ => eapply issues_line; leaf
    | |- issues _ (Draw2DCircle _ _ _ _ _ _ _) _ _ => eapply issues_circle; leaf
    | |- issues _ (AddLabel _ _ _ _ _ _ _ _) _ _ => eapply issues_label; leaf
    | |- issues _ (AddGoalSphere _ _) _ _ => eapply issues_sphere; leaf
    | |- issues _ (if ?b then _ else _) _ _ =>
        first [ eapply issues_if; intros ? | eapply issues_if_dec; intros ? ]
    end).

Section GaugeIssues.
Variable fmt_f : nat -> float -> string.
Variable P : append_call -> Prop.

Lemma speedometer_any d x y sz :
  (forall c, P c) -> issues P (DrawSpeedometer2D fmt_f d x y sz) 32 32.
Proof.
  intros HP. unfold DrawSpeedometer2D.
  eapply issues_weaken; [solve_issues ltac:(apply HP) | simpl; lia | simpl; lia].
Qed.

Lemma tachometer_any d x y sz :
  (forall c, P c) -> issues P (DrawTachometer2D fmt_f d x y sz) 27 31.
Proof.
  intros HP. unfold DrawTachometer2D.
  eapply issues_weaken; [solve_issues ltac:(apply HP) | simpl; lia | simpl; lia].
Qed.
End GaugeIssues.

Section BarGaugeIssues.
Variable fmt_f : nat -> float -> string.
Variable P : append_call -> Prop.
Hypothesis HP : forall c, P c.

Lemma fuel_gauge_any d x y w h timers :
  exists c, issues P c 8 11 /\
    forall s, snd (DrawFuelGauge2D fmt_f d x y w h (timers, s)) = c s.
Proof.
  unfold DrawFuelGauge2D.
  repeat match goal with
  | |- context [ if ?b then _ else _ ] => destruct b
  end; cbn [snd]; (eexists; split; [|intros s; reflexivity]);
  (eapply issues_weaken; [solve_issues ltac:(apply HP) | simpl; lia | simpl; lia]).
Qed.

Lemma temperature_gauge_any d x y w h timers :
  exists c, issues P c 8 13 /\
    forall s, snd (DrawTemperatureGauge2D fmt_f d x y w h (timers, s)) = c s.
Proof.
  unfold DrawTemperatureGauge2D. cbv zeta.
  repeat match goal with
  | |- context [ if ?b then _ else _ ] => destruct b
  end; cbn [snd]; (eexists; split; [|intros s; reflexivity]);
  (eapply issues_weaken; [solve_issues ltac:(apply HP) | simpl; lia | simpl; lia]).
Qed.
End BarGaugeIssues.

Section OverlayIssues.
Variable fmt_f : nat -> float -> string.
Variable P : append_call -> Prop.
Local Open Scope R_scope.

(** The overlay pass assembled from its parts: one title, the four gauges,
    the goal sphere, the car label when the model has a body named car, and
    the goal label. *)
Lemma modify_scene_issues model data car timers scene (lo2 hi2 lo3 hi3 lo4 hi4 : nat) :
  maxgeom scene <> 0%Z ->
  P (CallLabel 0.0 (3.0 - 0.5) 0.5 "CAR DASHBOARD" 0.25 0.0 0.5 1.0) ->
  issues P (DrawSpeedometer2D fmt_f (dashboard_ car) (0.0 - 2.5) (3.0 - 2.0) 0.8) 32 32 ->
  issues P (DrawTachometer2D fmt_f (dashboard_ car) (0.0 + 2.5) (3.0 - 2.0) 0.8) lo2 hi2 ->
  (forall t, exists c, issues P c lo3 hi3 /\
     forall s, snd (DrawFuelGauge2D fmt_f (dashboard_ car) (0.0 - 2.5) (3.0 - 3.5)
                      1.5 0.4 (t, s)) = c s) ->
  (forall t, exists c, issues P c lo4 hi4 /\
     forall s, snd (DrawTemperatureGauge2D fmt_f (dashboard_ car) (0.0 + 2.5) (3.0 - 3.5)
                      1.5 0.4 (t, s)) = c s) ->
  (forall gx gy, P (CallGoalSphere gx gy)) ->
  (forall x y z text, P (CallLabel x y z text 0.1 0.0 1.0 0.0)) ->
  (forall x y text, P (CallLabel x y 0.5 text 0.1 1.0 0.0 0.0)) ->
  exists calls,
    snd (ModifyScene fmt_f model data car (timers, Some scene)) =
      Some (run_calls calls scene) /\
    Forall P calls /\
    (33 + lo2 + lo3 + lo4 + 2 <= length calls <= 33 + hi2 + hi3 + hi4 + 3)%nat.
Proof.
  intros Hmax HP0 (l1 & T1 & F1 & L1) (l2 & T2 & F2 & L2) H3 H4 HPs HPc HPg.
  unfold ModifyScene.
  destruct (Z.eqb_spec (maxgeom scene) 0) as [|_]; [contradiction|]. cbv zeta.
  unfold seq_draw at 1 2.
  rewrite (T1 _), (T2 _).
  set (s0 := AddLabel _ _ _ _ _ _ _ _ scene).
  assert (E0 : s0 = run_calls [CallLabel 0.0 (3.0 - 0.5) 0.5 "CAR DASHBOARD" 0.25 0.0 0.5 1.0]
                      scene) by reflexivity.
  set (s2 := run_calls l2 _).
  destruct (H3 timers) as (c3 & (l3 & T3 & F3 & L3) & E3).
  specialize (E3 s2).
  destruct (DrawFuelGauge2D _ _ _ _ _ _ _) as [t3 s3]. simpl in E3. subst s3.
  destruct (H4 t3) as (c4 & (l4 & T4 & F4 & L4) & E4).
  specialize (E4 (c3 s2)).
  destruct (DrawTemperatureGauge2D _ _ _ _ _ _ _) as [t4 s4]. simpl in E4. subst s4.
  rewrite (T3 _), (T4 _). unfold s2. rewrite E0.
  destruct (_ >=? 0)%Z; cbn [snd];
    [ match goal with
      | |- context [ AddLabel ?x ?y ?z ?t ?sz ?r ?g ?b
                       (AddLabel ?x1 ?y1 ?z1 ?t1 ?sz1 ?r1 ?g1 ?b1
                          (AddGoalSphere ?gx ?gy _)) ] =>
        exists ([CallLabel 0.0 (3.0 - 0.5) 0.5 "CAR DASHBOARD" 0.25 0.0 0.5 1.0]
                  ++ l1 ++ l2 ++ l3 ++ l4 ++
                [CallGoalSphere gx gy;
                 CallLabel x1 y1 z1 t1 sz1 r1 g1 b1; CallLabel x y z t sz r g b])
      end
    | match goal with
      | |- context [ AddLabel ?x ?y ?z ?t ?sz ?r ?g ?b (AddGoalSphere ?gx ?gy _) ] =>
        exists ([CallLabel 0.0 (3.0 - 0.5) 0.5 "CAR DASHBOARD" 0.25 0.0 0.5 1.0]
                  ++ l1 ++ l2 ++ l3 ++ l4 ++
                [CallGoalSphere gx gy; CallLabel x y z t sz r g b])
      end ];
    (split; [rewrite !run_calls_app; reflexivity|]);
    (split; [ repeat (apply Forall_app; split); try assumption;
              repeat constructor; auto
            | rewrite !length_app; simpl length; lia ]).
Qed.
End OverlayIssues.

(** A run of calls writes no slot at or beyond the new count. *)
Lemma run_calls_above (calls : list append_call) : forall s : mjvScene,
  scene_ok s ->
  forall i, (Z.to_nat (ngeom (run_calls calls s)) <= i)%nat ->
    geoms (run_calls calls s) !! i = geoms s !! i.
Proof.
  induction calls as [|c calls IH]; intros s Hok i Hi; [reflexivity|].
  rewrite run_calls_cons in *. rewrite run_call_unfold in *.
  destruct (Z.ltb_spec (ngeom s) (maxgeom s)) as [Hlt|Hge].
  - destruct (emit_ok (geom_of_call c) s Hok Hlt) as (Hok' & Hm & Hn & _ & Hother).
    destruct (run_calls_spec calls _ Hok') as (_ & _ & Hn2 & _).
    rewrite (IH _ Hok' i Hi). apply Hother.
    rewrite Hn2, Hn in Hi. destruct Hok as [? _]. lia.
  - apply (IH s Hok i Hi).
Qed.

Section OverlayBudget.
Variable fmt_f : nat -> float -> string.

Lemma modify_scene_count model data car timers scene :
  maxgeom scene <> 0%Z ->
  exists calls,
    snd (ModifyScene fmt_f model data car (timers, Some scene)) =
      Some (run_calls calls scene) /\
    (78 <= length calls <= 91)%nat.
Proof.
  intros Hmax.
  destruct (modify_scene_issues fmt_f (fun _ => True) model data car timers scene
              27 31 8 11 8 13 Hmax I) as (calls & Hrun & _ & Hlen).
  - apply speedometer_any. intros c. exact I.
  - apply tachometer_any. intros c. exact I.
  - intros t. apply fuel_gauge_any. intros c. exact I.
  - intros t. apply temperature_gauge_any. intros c. exact I.
  - intros gx gy. exact I.
  - intros x y z text. exact I.
  - intros x y text. exact I.
  - exists calls. split; [exact Hrun | simpl in Hlen; lia].
Qed.

(** X1: one overlay pass appends at most 91 geoms and writes only the slots
    between the old and the new count; a scene with at least 78 free slots
    receives at least 78 of them, a scene with fewer ends full, and a scene
    with more than 91 free slots is never filled. *)
Theorem X1_overlay_geom_budget model data car timers scene :
  scene_ok scene ->
  exists scene',
    snd (ModifyScene fmt_f model data car (timers, Some scene)) = Some scene' /\
    scene_ok scene' /\
    maxgeom scene' = maxgeom scene /\
    (ngeom scene <= ngeom scene' <= ngeom scene + 91)%Z /\
    ((78 <= room scene)%nat -> (ngeom scene + 78 <= ngeom scene')%Z) /\
    ((room scene < 78)%nat -> ngeom scene' = maxgeom scene) /\
    ((91 < room scene)%nat -> (ngeom scene' < maxgeom scene)%Z) /\
    (forall i, (i < Z.to_nat (ngeom scene) \/ Z.to_nat (ngeom scene') <= i)%nat ->
       geoms scene' !! i = geoms scene !! i).
Proof.
  intros Hok.
  destruct (Z.eq_dec (maxgeom scene) 0%Z) as [Hz|Hnz].
  - exists scene. rewrite (modify_scene_skip fmt_f model data car timers scene Hz).
    pose proof Hok as [Hr Hl]. unfold room.
    repeat split; try assumption; try lia. 
  - destruct (modify_scene_count model data car timers scene Hnz) as (calls & Hrun & Hlen).
    exists (run_calls calls scene). split; [exact Hrun|].
    destruct (run_calls_spec calls scene Hok) as (Hok' & Hm & Hn & Hlow & _).
    pose proof Hok as [Hr Hl]. unfold room in *.
    split; [exact Hok'|]. split; [exact Hm|].
    split; [lia|]. split; [lia|]. split; [lia|]. split; [lia|].
    intros i [Hi|Hi]; [apply Hlow; exact Hi | apply run_calls_above; assumption].
Qed.
End OverlayBudget.

(** ** Binary64 numbers as multiples of the smallest one *)

(** Zero or a non-zero finite number. *)
Definition sf_finite (x : spec_float) : bool :=
  match x with S754_zero _ | S754_finite _ _ _ => true | _ => false end.

(** The integer [u] with value [u * 2 ^ -1074]. *)
Definition sf_units (x : spec_float) : Z :=
  match x with
  | S754_finite s m e => cond_Zopp s (Z.pos m * 2 ^ (e + 1074))
  | _ => 0%Z
  end.

Section Units.

Lemma valid_finite_bounds (s : bool) (m : positive) (e : Z) :
  valid_binary (S754_finite s m e) = true ->
  (-1074 <= e <= 971)%Z /\ (Z.pos m < 2 ^ 53)%Z /\
  ((-1074 < e)%Z -> (2 ^ 52 <= Z.pos m)%Z).
Proof.
  unfold valid_binary, bounded, canonical_mantissa. intros H.
  apply andb_prop in H. destruct H as [Hc Hb].
  apply Z.eqb_eq in Hc. apply Z.leb_le in Hb. rewrite fexp_eq in Hc.
  change (emax - prec)%Z with 971%Z in Hb.
  pose proof (digits2_pos_spec m) as [Hlo Hhi].
  set (d := Z.pos (digits2_pos m)) in *.
  assert (Hd : (0 < d)%Z) by (unfold d; lia).
  split; [lia|]. split.
  - apply Z.lt_le_trans with (2 ^ d)%Z; [exact Hhi|].
    apply Z.pow_le_mono_r; lia.
  - intros He. assert (d = 53%Z) by lia.
    replace 52%Z with (d - 1)%Z by lia. exact Hlo.
Qed.

Lemma pos_units_compare (m1 m2 : positive) (e1 e2 : Z) :
  valid_binary (S754_finite false m1 e1) = true ->
  valid_binary (S754_finite false m2 e2) = true ->
  match (e1 ?= e2)%Z with
  | Eq => Pos.compare_cont Eq m1 m2
  | Lt => Lt
  | Gt => Gt
  end = (Z.pos m1 * 2 ^ (e1 + 1074) ?= Z.pos m2 * 2 ^ (e2 + 1074))%Z.
Proof.
  intros H1 H2.
  destruct (valid_finite_bounds _ _ _ H1) as (He1 & Hm1 & Hn1).
  destruct (valid_finite_bounds _ _ _ H2) as (He2 & Hm2 & Hn2).
  assert (Hstep : forall ma mb ea eb : Z,
            (-1074 <= ea < eb)%Z -> (0 < ma < 2 ^ 53)%Z -> (2 ^ 52 <= mb)%Z ->
            (ma * 2 ^ (ea + 1074) < mb * 2 ^ (eb + 1074))%Z).
  { intros ma mb ea eb Hlt Hma Hmb.
    replace (eb + 1074)%Z with ((eb - ea - 1) + 1 + (ea + 1074))%Z by lia.
    rewrite (Z.pow_add_r 2 (eb - ea - 1 + 1) (ea + 1074)) by lia.
    rewrite (Z.pow_add_r 2 (eb - ea - 1) 1) by lia. change (2 ^ 1)%Z with 2%Z.
    assert (Hp : (0 < 2 ^ (ea + 1074))%Z) by (apply Z.pow_pos_nonneg; lia).
    assert (Hq : (1 <= 2 ^ (eb - ea - 1))%Z)
      by (apply (Z.pow_le_mono_r 2 0); lia).
    rewrite Z.mul_assoc. apply Z.mul_lt_mono_pos_r; [exact Hp|].
    change (2 ^ 53)%Z with (2 * 2 ^ 52)%Z in Hma.
    assert (H52 : (0 < 2 ^ 52)%Z) by reflexivity.
    generalize dependent (2 ^ 52)%Z. generalize dependent (2 ^ (eb - ea - 1))%Z.
    intros Q HQ P52 Hma Hmb HP. nia. }
  destruct (Z.compare_spec e1 e2) as [Heq|Hlt|Hgt].
  - subst e2. change (Pos.compare_cont Eq m1 m2) with (Z.pos m1 ?= Z.pos m2)%Z.
    apply Zmult_compare_compat_r.
    apply Z.lt_gt, Z.pow_pos_nonneg; lia.
  - symmetry. apply Z.compare_lt_iff. apply Hstep; lia.
  - symmetry. apply Z.compare_gt_iff. apply Hstep; lia.
Qed.

Lemma valid_sign (s : bool) (m : positive) (e : Z) :
  valid_binary (S754_finite s m e) = valid_binary (S754_finite false m e).
Proof. reflexivity. Qed.

(** Comparison of two finite numbers is comparison of their integers. *)
Lemma SFcompare_units (x y : spec_float) :
  valid_binary x = true -> valid_binary y = true ->
  sf_finite x = true -> sf_finite y = true ->
  SFcompare x y = Some (sf_units x ?= sf_units y)%Z.
Proof.
  intros Vx Vy Fx Fy.
  destruct x as [sx|sx| |sx mx ex], y as [sy|sy| |sy my ey]; try discriminate.
  - reflexivity.
  - assert (0 < Z.pos my * 2 ^ (ey + 1074))%Z.
    { destruct (valid_finite_bounds _ _ _ Vy) as (He & _).
      apply Z.mul_pos_pos; [lia | apply Z.pow_pos_nonneg; lia]. }
    unfold SFcompare, sf_units.
    destruct sy; cbn [cond_Zopp]; f_equal; symmetry;
      [apply Z.compare_gt_iff | apply Z.compare_lt_iff]; lia.
  - assert (0 < Z.pos mx * 2 ^ (ex + 1074))%Z.
    { destruct (valid_finite_bounds _ _ _ Vx) as (He & _).
      apply Z.mul_pos_pos; [lia | apply Z.pow_pos_nonneg; lia]. }
    unfold SFcompare, sf_units.
    destruct sx; cbn [cond_Zopp]; f_equal; symmetry;
      [apply Z.compare_lt_iff | apply Z.compare_gt_iff]; lia.
  - rewrite valid_sign in Vx, Vy.
    pose proof (pos_units_compare mx my ex ey Vx Vy) as H12.
    pose proof (pos_units_compare my mx ey ex Vy Vx) as H21.
    assert (Px : (0 < Z.pos mx * 2 ^ (ex + 1074))%Z).
    { destruct (valid_finite_bounds _ _ _ Vx) as (He & _).
      apply Z.mul_pos_pos; [lia | apply Z.pow_pos_nonneg; lia]. }
    assert (Py : (0 < Z.pos my * 2 ^ (ey + 1074))%Z).
    { destruct (valid_finite_bounds _ _ _ Vy) as (He & _).
      apply Z.mul_pos_pos; [lia | apply Z.pow_pos_nonneg; lia]. }
    unfold SFcompare, sf_units. destruct sx, sy; cbn [cond_Zopp]; f_equal.
    + rewrite Z.compare_opp, <- H21.
      rewrite (Z.compare_antisym ex ey).
      destruct (ex ?= ey)%Z; simpl; try reflexivity.
      symmetry. apply ZC4.
    + symmetry. apply Z.compare_lt_iff. lia.
    + symmetry. apply Z.compare_gt_iff. lia.
    + exact H12.
Qed.

Lemma SFltb_units (x y : spec_float) :
  valid_binary x = true -> valid_binary y = true ->
  sf_finite x = true -> sf_finite y = true ->
  SFltb x y = (sf_units x <? sf_units y)%Z.
Proof.
  intros Vx Vy Fx Fy. unfold SFltb, Z.ltb.
  rewrite (SFcompare_units x y Vx Vy Fx Fy). reflexivity.
Qed.

Lemma SFleb_units (x y : spec_float) :
  valid_binary x = true -> valid_binary y = true ->
  sf_finite x = true -> sf_finite y = true ->
  SFleb x y = (sf_units x <=? sf_units y)%Z.
Proof.
  intros Vx Vy Fx Fy. unfold SFleb, Z.leb.
  rewrite (SFcompare_units x y Vx Vy Fx Fy).
  destruct (sf_units x ?= sf_units y)%Z; reflexivity.
Qed.

Lemma SFeqb_units (x y : spec_float) :
  valid_binary x = true -> valid_binary y = true ->
  sf_finite x = true -> sf_finite y = true ->
  SFeqb x y = (sf_units x =? sf_units y)%Z.
Proof.
  intros Vx Vy Fx Fy. unfold SFeqb.
  rewrite (SFcompare_units x y Vx Vy Fx Fy).
  destruct (Z.compare_spec (sf_units x) (sf_units y)) as [E|E|E]; symmetry.
  - apply Z.eqb_eq. exact E.
  - apply Z.eqb_neq. lia.
  - apply Z.eqb_neq. lia.
Qed.

Lemma IZR_pow2 (k : Z) : (0 <= k)%Z -> IZR (2 ^ k) = powerRZ 2 k.
Proof.
  intros Hk. destruct k as [|p|p]; [reflexivity | | lia].
  change (2 ^ Z.pos p)%Z with (Z.pow_pos 2 p). apply Zpower_pos_powerRZ.
Qed.

(** The exact real value is the integer times [2 ^ -1074]. *)
Lemma SF2R_units (x : spec_float) :
  valid_binary x = true ->
  SF2R x = (IZR (sf_units x) * powerRZ 2 (-1074))%R.
Proof.
  intros Vx. destruct x as [s|s| |s m e]; simpl SF2R; simpl sf_units;
    try (rewrite Rmult_0_l; reflexivity).
  destruct (valid_finite_bounds _ _ _ Vx) as (He & _).
  replace (cond_Zopp s (Z.pos m * 2 ^ (e + 1074)))
    with (cond_Zopp s (Z.pos m) * 2 ^ (e + 1074))%Z by (destruct s; simpl; lia).
  rewrite mult_IZR, IZR_pow2 by lia.
  rewrite Rmult_assoc, <- powerRZ_add by lra.
  replace (e + 1074 + -1074)%Z with e by lia. reflexivity.
Qed.

Lemma units_lt_SF2R (x y : spec_float) :
  valid_binary x = true -> valid_binary y = true ->
  (sf_units x < sf_units y)%Z -> (SF2R x < SF2R y)%R.
Proof.
  intros Vx Vy H. rewrite !SF2R_units by assumption.
  apply Rmult_lt_compat_r; [apply powerRZ_lt; lra | apply IZR_lt; exact H].
Qed.

Lemma units_le_SF2R (x y : spec_float) :
  valid_binary x = true -> valid_binary y = true ->
  (sf_units x <= sf_units y)%Z -> (SF2R x <= SF2R y)%R.
Proof.
  intros Vx Vy H. rewrite !SF2R_units by assumption.
  apply Rmult_le_compat_r; [apply powerRZ_le; lra | apply IZR_le; exact H].
Qed.
End Units.

(** *** Order of doubles and order of their real values *)

Section FloatOrder.
Local Open Scope float_scope.

Definition finite_double (x : float) : Prop := sf_finite (Prim2SF x) = true.

Lemma ltb_d2r (x y : float) :
  finite_double x -> finite_double y -> (x <? y) = true -> (d2r x < d2r y)%R.
Proof.
  intros Fx Fy H. rewrite FloatAxioms.ltb_spec in H.
  rewrite SFltb_units in H by (apply Prim2SF_valid || assumption).
  apply units_lt_SF2R; [apply Prim2SF_valid.. | apply Z.ltb_lt; exact H].
Qed.

Lemma leb_d2r (x y : float) :
  finite_double x -> finite_double y -> (x <=? y) = true -> (d2r x <= d2r y)%R.
Proof.
  intros Fx Fy H. rewrite FloatAxioms.leb_spec in H.
  rewrite SFleb_units in H by (apply Prim2SF_valid || assumption).
  apply units_le_SF2R; [apply Prim2SF_valid.. | apply Z.leb_le; exact H].
Qed.

(** A number between two finite numbers is finite. *)
Lemma between_finite (a x b : float) :
  finite_double a -> finite_double b -> (a <=? x) = true -> (x <=? b) = true -> finite_double x.
Proof.
  unfold finite_double. intros Fa Fb. rewrite !FloatAxioms.leb_spec.
  destruct (Prim2SF a) as [sa|sa| |sa ma ea], (Prim2SF b) as [sb|sb| |sb mb eb],
    (Prim2SF x) as [s|s| |s m e]; try discriminate; try reflexivity;
    unfold SFleb, SFcompare; destruct s; discriminate.
Qed.
End FloatOrder.

(** *** Rounding against a representable lower bound, any location *)

Section RoundingBounds.

(** If the number [m * 2 ^ e], whatever the location of the discarded part, is
    at or above the normal number [(mb, eb)], so is its rounding. *)
Lemma binary_round_aux_ge (mb : positive) (eb m e K : Z) (l : location) :
  (2 ^ 52 <= Z.pos mb)%Z -> (-1074 <= eb)%Z -> (0 <= e + K)%Z -> (0 <= eb + K)%Z ->
  (Z.pos mb * 2 ^ (eb + K) <= m * 2 ^ (e + K))%Z ->
  SFleb (S754_finite false mb eb) (binary_round_aux prec emax false m e l) = true.
Proof.
  intros Hmb Heb He Hb Hle.
  assert (Hpe : (0 < 2 ^ (e + K))%Z) by (apply Z.pow_pos_nonneg; lia).
  assert (Hpb : (0 < 2 ^ (eb + K))%Z) by (apply Z.pow_pos_nonneg; lia).
  assert (Hm : (0 < m)%Z) by nia.
  destruct m as [|m|m]; try lia.
  pose proof (digits2_pos_spec m) as [Hlo Hhi].
  set (d := Z.pos (digits2_pos m)) in *.
  assert (Hd1 : (0 < d)%Z) by (unfold d; lia).
  assert (Hd : (52 + eb < d + e)%Z).
  { assert (H : (2 ^ (52 + (eb + K)) < 2 ^ (d + (e + K)))%Z).
    { rewrite (Z.pow_add_r 2 52), (Z.pow_add_r 2 d) by lia.
      apply Z.le_lt_trans with (Z.pos m * 2 ^ (e + K))%Z; [nia|].
      apply Zmult_lt_compat_r; assumption. }
    apply Z.pow_lt_mono_r_iff in H; lia. }
  unfold binary_round_aux.
  destruct (shr_fexp_spec (Z.pos m) e l ltac:(lia)) as [H1 H1e].
  destruct (shr_fexp prec emax (Z.pos m) e l) as [mrs' e1].
  cbn [fst snd] in H1, H1e. rewrite Zdigits2_pos, fexp_eq in H1, H1e. fold d in H1, H1e.
  set (n1 := (Z.max (d + e - 53) (-1074) - e)%Z) in *.
  assert (Hn1 : n1 = (d - 53)%Z) by (unfold n1; lia).
  assert (Hinv1 : (0 < shr_m mrs')%Z /\
                  (eb < e1 \/ (eb = e1 /\ Z.pos mb <= shr_m mrs'))%Z).
  { rewrite H1, H1e. destruct (Z.ltb_spec 0 n1) as [Hpos|Hneg].
    - assert (Hpn : (0 < 2 ^ n1)%Z) by (apply Z.pow_pos_nonneg; lia).
      split.
      + apply Z.div_str_pos. split; [exact Hpn|].
        apply Z.le_trans with (2 ^ (d - 1))%Z; [|exact Hlo].
        apply Z.pow_le_mono_r; lia.
      + destruct (Z.eq_dec eb (e + n1)%Z) as [Heq|Hne]; [right|left; lia].
        split; [exact Heq|].
        apply Z.div_le_lower_bound; [exact Hpn|].
        replace (eb + K)%Z with (n1 + (e + K))%Z in Hle by lia.
        rewrite Z.pow_add_r in Hle by lia.
        apply (Z.mul_le_mono_pos_r _ _ (2 ^ (e + K))); [exact Hpe|].
        lia.
    - split; [lia|].
      destruct (Z.eq_dec eb e) as [Heq|Hne]; [right|left; lia].
      split; [exact Heq|]. subst eb.
      apply (Z.mul_le_mono_pos_r _ _ (2 ^ (e + K))); assumption. }
  destruct Hinv1 as [Hq1 Hb1].
  set (q1 := round_nearest_even (shr_m mrs') (loc_of_shr_record mrs')).
  assert (Hq1' : (shr_m mrs' <= q1)%Z).
  { unfold q1.
    destruct (round_nearest_even_cases (shr_m mrs') (loc_of_shr_record mrs'))
      as [->| ->]; lia. }
  destruct (shr_fexp_spec q1 e1 loc_Exact ltac:(lia)) as [H2 H2e].
  destruct (shr_fexp prec emax q1 e1 loc_Exact) as [mrs'' e2].
  cbn [fst snd] in H2, H2e.
  destruct (shift_keeps_bound mb eb q1 e1 ltac:(lia) Heb ltac:(lia)) as [Hq2 Hb2].
  rewrite <- H2 in Hq2, Hb2. rewrite <- H2e in Hb2.
  change (SFleb (S754_finite false mb eb) (sf_out (shr_m mrs'') e2) = true).
  apply SFleb_sf_out; assumption.
Qed.

(** A positive normal number, with its integer. *)
Definition sf_normal (b : spec_float) : Prop :=
  exists mb eb, b = S754_finite false mb eb /\
    (2 ^ 52 <= Z.pos mb)%Z /\ valid_binary b = true.

Definition sf_pos (x : spec_float) : Prop :=
  exists m e, x = S754_finite false m e /\ valid_binary x = true.

Lemma pow2_units (e : Z) (K : Z) :
  (-1074 <= e)%Z -> (0 <= K)%Z ->
  (2 ^ (e + (1074 + K)) = 2 ^ (e + 1074) * 2 ^ K)%Z.
Proof. intros. rewrite <- Z.pow_add_r by lia. f_equal. lia. Qed.

Lemma SF64mul_ge (b x y : spec_float) :
  sf_normal b -> sf_pos x -> sf_pos y ->
  (sf_units b * 2 ^ 1074 <= sf_units x * sf_units y)%Z ->
  SFleb b (SF64mul x y) = true.
Proof.
  intros (mb & eb & -> & Hmb & Vb) (mx & ex & -> & Vx) (my & ey & -> & Vy) H.
  destruct (valid_finite_bounds _ _ _ Vb) as (Heb & _).
  destruct (valid_finite_bounds _ _ _ Vx) as (Hex & _).
  destruct (valid_finite_bounds _ _ _ Vy) as (Hey & _).
  unfold SF64mul, SFmul. cbn [xorb sf_units cond_Zopp] in *.
  apply (binary_round_aux_ge mb eb _ _ 2148); try lia.
  rewrite Pos2Z.inj_mul.
  replace (eb + 2148)%Z with ((eb + 1074) + 1074)%Z by lia.
  replace (ex + ey + 2148)%Z with ((ex + 1074) + (ey + 1074))%Z by lia.
  rewrite (Z.pow_add_r 2 (eb + 1074) 1074), (Z.pow_add_r 2 (ex + 1074) (ey + 1074)) by lia.
  etransitivity; [|etransitivity; [exact H|]]; apply Z.eq_le_incl; ring.
Qed.

Lemma SF64add_ge (b x y : spec_float) :
  sf_normal b -> sf_pos x -> sf_pos y ->
  (sf_units b <= sf_units x + sf_units y)%Z ->
  SFleb b (SF64add x y) = true.
Proof.
  intros (mb & eb & -> & Hmb & Vb) (mx & ex & -> & Vx) (my & ey & -> & Vy) H.
  destruct (valid_finite_bounds _ _ _ Vb) as (Heb & _).
  destruct (valid_finite_bounds _ _ _ Vx) as (Hex & _).
  destruct (valid_finite_bounds _ _ _ Vy) as (Hey & _).
  unfold SF64add, SFadd. cbn [cond_Zopp sf_units] in *.
  set (ez := Z.min ex ey).
  pose proof (shl_align_spec mx ex ez) as Ha.
  pose proof (shl_align_spec my ey ez) as Hb.
  destruct (shl_align mx ex ez) as [ma ea]. destruct (shl_align my ey ez) as [mc ec].
  destruct Ha as [Hea Hma]. destruct Hb as [Hec Hmc]. cbn [fst].
  change (Z.pos ma + Z.pos mc)%Z with (Z.pos (ma + mc)).
  unfold binary_normalize, binary_round.
  set (t := fexp prec emax (Z.pos (digits2_pos (ma + mc)) + ez)).
  pose proof (shl_align_spec (ma + mc) ez t) as Hs.
  destruct (shl_align (ma + mc) ez t) as [mz ez'].
  destruct Hs as [Hez Hmz].
  assert (Ht : (-1074 <= t)%Z) by apply fexp_ge_emin.
  assert (Hea' : ea = ez) by (unfold ez in *; lia).
  assert (Hec' : ec = ez) by (unfold ez in *; lia).
  subst ea ec. rewrite Hea' in Hma. rewrite Hec' in Hmc.
  apply (binary_round_aux_ge mb eb _ _ 1074); try (unfold ez in *; lia).
  rewrite Hmz, Pos2Z.inj_add, Hma, Hmc.
  rewrite <- Z.mul_assoc, <- Z.pow_add_r by (unfold ez in *; lia).
  replace (ez - ez' + (ez' + 1074))%Z with (ez + 1074)%Z by lia.
  rewrite Z.mul_add_distr_r, <- !Z.mul_assoc, <- !Z.pow_add_r by (unfold ez in *; lia).
  replace (ex - ez + (ez + 1074))%Z with (ex + 1074)%Z by lia.
  replace (ey - ez + (ez + 1074))%Z with (ey + 1074)%Z by lia.
  exact H.
Qed.
End RoundingBounds.

Section DivisionBound.

Lemma pow2_le_shift (a b p q t : Z) :
  (0 <= p)%Z -> (0 <= q)%Z -> (0 <= p + t)%Z -> (0 <= q + t)%Z ->
  (a * 2 ^ p <= b * 2 ^ q)%Z -> (a * 2 ^ (p + t) <= b * 2 ^ (q + t))%Z.
Proof.
  intros Hp Hq Hpt Hqt H.
  destruct (Z.le_gt_cases 0 t) as [Ht|Ht].
  - rewrite !Z.pow_add_r by lia. rewrite !Z.mul_assoc.
    apply Z.mul_le_mono_nonneg_r; [apply Z.pow_nonneg; lia | exact H].
  - assert (Hp' : (2 ^ p = 2 ^ (p + t) * 2 ^ (- t))%Z)
      by (rewrite <- Z.pow_add_r by lia; f_equal; lia).
    assert (Hq' : (2 ^ q = 2 ^ (q + t) * 2 ^ (- t))%Z)
      by (rewrite <- Z.pow_add_r by lia; f_equal; lia).
    rewrite Hp', Hq', !Z.mul_assoc in H.
    apply Z.mul_le_mono_pos_r in H; [exact H | apply Z.pow_pos_nonneg; lia].
Qed.

(** Division: if [b * y <= x] for the normal number [b], the rounded quotient
    is at or above [b]. *)
Lemma SF64div_ge (b x y : spec_float) :
  sf_normal b -> sf_pos x -> sf_pos y ->
  (sf_units b * sf_units y <= sf_units x * 2 ^ 1074)%Z ->
  SFleb b (SF64div x y) = true.
Proof.
  intros (mb & eb & -> & Hmb & Vb) (mx & ex & -> & Vx) (my & ey & -> & Vy) H.
  destruct (valid_finite_bounds _ _ _ Vb) as (Heb & Hmb53 & _).
  destruct (valid_finite_bounds _ _ _ Vx) as (Hex & _).
  destruct (valid_finite_bounds _ _ _ Vy) as (Hey & _).
  cbn [sf_units cond_Zopp] in H.
  unfold SF64div, SFdiv. cbn [xorb]. unfold SFdiv_core_binary.
  rewrite !Zdigits2_pos, fexp_eq.
  pose proof (digits2_pos_spec mx) as [Hlo1 Hhi1].
  pose proof (digits2_pos_spec my) as [Hlo2 Hhi2].
  set (d1 := Z.pos (digits2_pos mx)) in *.
  set (d2 := Z.pos (digits2_pos my)) in *.
  set (e' := Z.min (Z.max (d1 + ex - (d2 + ey) - 53) (-1074)) (ex - ey)).
  set (s := (ex - ey - e')%Z).
  assert (Hs : (0 <= s)%Z) by (unfold s, e'; lia).
  set (m' := match s with 0%Z => Z.pos mx | Z.pos _ => Z.shiftl (Z.pos mx) s
                      | Z.neg _ => 0%Z end).
  assert (Hm' : m' = (Z.pos mx * 2 ^ s)%Z).
  { unfold m'. destruct s as [|p|p] eqn:Es; [simpl; lia | | lia].
    apply Z.shiftl_mul_pow2. lia. }
  pose proof (Z_div_mod m' (Z.pos my) ltac:(lia)) as Hdm.
  destruct (Z.div_eucl m' (Z.pos my)) as [q r]. destruct Hdm as [Hq Hr].
  assert (He' : (-2045 <= e')%Z) by (unfold e'; lia).
  apply (binary_round_aux_ge mb eb q e' 2148); try lia.
  assert (Hp0 : (0 < 2 ^ (e' + 2148))%Z) by (apply Z.pow_pos_nonneg; lia).
  (* the hypothesis at a common scale *)
  assert (Hcommon : (Z.pos mb * Z.pos my * 2 ^ (eb + ey + 4000)
                     <= Z.pos mx * 2 ^ (ex + 4000))%Z).
  { replace (eb + ey + 4000)%Z with ((eb + 1074) + (ey + 1074) + 1852)%Z by lia.
    replace (ex + 4000)%Z with ((ex + 1074) + 1074 + 1852)%Z by lia.
    apply pow2_le_shift; try lia.
    rewrite (Z.pow_add_r 2 (eb + 1074) (ey + 1074)) by lia.
    rewrite (Z.pow_add_r 2 (ex + 1074) 1074) by lia.
    etransitivity; [|etransitivity; [exact H|]]; apply Z.eq_le_incl; ring. }
  destruct (Z.le_gt_cases e' eb) as [Hle|Hgt].
  - (* the bound is on the grid of the quotient *)
    replace (eb + 2148)%Z with ((eb - e') + (e' + 2148))%Z by lia.
    rewrite Z.pow_add_r, Z.mul_assoc by lia.
    apply Z.mul_le_mono_nonneg_r; [lia|].
    assert (Hq' : q = (m' / Z.pos my)%Z).
    { apply (Z.div_unique m' (Z.pos my) q r); [left; lia | lia]. }
    rewrite Hq'. apply Z.div_le_lower_bound; [lia|].
    rewrite Hm'.
    assert (Hgoal : (Z.pos mb * Z.pos my * 2 ^ (eb - e') <= Z.pos mx * 2 ^ s)%Z).
    { replace (eb + ey + 4000)%Z with ((eb - e') + (e' + ey + 4000))%Z in Hcommon by lia.
      replace (ex + 4000)%Z with (s + (e' + ey + 4000))%Z in Hcommon by (unfold s; lia).
      rewrite (Z.pow_add_r 2 (eb - e')), (Z.pow_add_r 2 s), !Z.mul_assoc in Hcommon by lia.
      apply Z.mul_le_mono_pos_r in Hcommon; [exact Hcommon|].
      apply Z.pow_pos_nonneg; lia. }
    etransitivity; [|exact Hgoal]. apply Z.eq_le_incl. ring.
  - (* the quotient has 53 digits and a larger exponent *)
    assert (Hmax : (-1074 < d1 + ex - (d2 + ey) - 53)%Z) by (unfold e' in Hgt; lia).
    assert (Hs53 : (53 + d2 - d1 <= s)%Z) by (unfold s, e'; lia).
    assert (Hq52 : (2 ^ 52 <= q)%Z).
    { assert (Hq' : q = (m' / Z.pos my)%Z).
      { apply (Z.div_unique m' (Z.pos my) q r); [left; lia | lia]. }
      rewrite Hq'. apply Z.div_le_lower_bound; [lia|].
      rewrite Hm'.
      apply Z.le_trans with (2 ^ d2 * 2 ^ 52)%Z.
      { apply Z.mul_le_mono_nonneg_r; lia. }
      apply Z.le_trans with (2 ^ (d1 - 1) * 2 ^ s)%Z.
      { rewrite <- !Z.pow_add_r by (unfold d1, d2; lia).
        apply Z.pow_le_mono_r; lia. }
      apply Z.mul_le_mono_nonneg_r; [apply Z.pow_nonneg; lia | exact Hlo1]. }
    apply Z.le_trans with (2 ^ 53 * 2 ^ (eb + 2148))%Z.
    { apply Z.mul_le_mono_nonneg_r; [apply Z.pow_nonneg; lia | lia]. }
    apply Z.le_trans with (2 ^ 52 * 2 ^ (e' + 2148))%Z.
    { rewrite <- !Z.pow_add_r by lia. apply Z.pow_le_mono_r; lia. }
    apply Z.mul_le_mono_nonneg_r; [lia | exact Hq52].
Qed.
End DivisionBound.

(** ** Telemetry: the temperature is at least 66 *)

Section TemperatureFloor.
Local Open Scope float_scope.

(** Two positive finite numbers with the same integer are the same. *)
Lemma pos_units_inj (m1 m2 : positive) (e1 e2 : Z) :
  valid_binary (S754_finite false m1 e1) = true ->
  valid_binary (S754_finite false m2 e2) = true ->
  (Z.pos m1 * 2 ^ (e1 + 1074) = Z.pos m2 * 2 ^ (e2 + 1074))%Z ->
  m1 = m2 /\ e1 = e2.
Proof.
  intros V1 V2 H. pose proof (pos_units_compare m1 m2 e1 e2 V1 V2) as Hc.
  rewrite H, Z.compare_refl in Hc.
  destruct (Z.compare_spec e1 e2) as [He|He|He]; try discriminate.
  split; [apply Pcompare_Eq_eq, Hc | exact He].
Qed.

(** What lies at or above a positive finite number. *)
Lemma leb_pos_cases (c x : float) (mc : positive) (ec : Z) :
  Prim2SF c = S754_finite false mc ec -> (c <=? x) = true ->
  (exists m e, Prim2SF x = S754_finite false m e) \/
  Prim2SF x = S754_infinity false.
Proof.
  intros Hc. rewrite FloatAxioms.leb_spec, Hc.
  destruct (Prim2SF x) as [s|s| |s m e]; unfold SFleb, SFcompare;
    try discriminate; destruct s; try discriminate; intros _;
    [right; reflexivity | left; do 2 eexists; reflexivity].
Qed.

Lemma units_of_leb (c x : float) :
  finite_double c -> finite_double x -> (c <=? x) = true ->
  (sf_units (Prim2SF c) <= sf_units (Prim2SF x))%Z.
Proof.
  intros Fc Fx H. rewrite FloatAxioms.leb_spec in H.
  rewrite SFleb_units in H by (apply Prim2SF_valid || assumption).
  apply Z.leb_le, H.
Qed.

(** The real value of a double that is an integer. *)
Lemma d2r_integer (x : float) (k : Z) :
  sf_units (Prim2SF x) = (k * 2 ^ 1074)%Z -> d2r x = IZR k.
Proof.
  intros H. unfold d2r. rewrite SF2R_units by apply Prim2SF_valid.
  rewrite H, mult_IZR, IZR_pow2 by lia.
  rewrite Rmult_assoc, <- powerRZ_add by lra. simpl. lra.
Qed.

Lemma sf_pos_of (x : float) (m : positive) (e : Z) :
  Prim2SF x = S754_finite false m e -> sf_pos (Prim2SF x).
Proof.
  intros H. exists m, e. split; [exact H | apply Prim2SF_valid].
Qed.

Lemma sf_normal_of (x : float) (m : positive) (e : Z) :
  Prim2SF x = S754_finite false m e -> (2 ^ 52 <= Z.pos m)%Z -> sf_normal (Prim2SF x).
Proof.
  intros H Hm. exists m, e. split; [exact H|]. split; [exact Hm | apply Prim2SF_valid].
Qed.

(** The quotient of an rpm of at least 800 by 8000 is at least the double
    nearest to 0.1. *)
Lemma rpm_ratio_floor (r : float) :
  (800 <=? r) = true -> (r <=? 8000) = true -> (0.1 <=? r / 8000) = true.
Proof.
  intros Hlo Hhi.
  assert (F800 : finite_double 800) by reflexivity.
  assert (F8000 : finite_double 8000) by reflexivity.
  pose proof (between_finite 800 r 8000 F800 F8000 Hlo Hhi) as Fr.
  pose proof (units_of_leb 800 r F800 Fr Hlo) as Hu.
  destruct (leb_pos_cases 800 r 7036874417766400 (-43)%Z) as [(m & e & Hr)|Hr];
    [vm_compute; reflexivity | exact Hlo | | unfold finite_double in Fr; rewrite Hr in Fr; discriminate].
  pose proof (Prim2SF_valid r) as Vr. rewrite Hr in Vr, Hu.
  replace (Prim2SF 800) with (S754_finite false 7036874417766400 (-43)) in Hu
    by (vm_compute; reflexivity).
  cbn [sf_units cond_Zopp] in Hu.
  destruct (Z.eq_dec (Z.pos m * 2 ^ (e + 1074))%Z (7036874417766400 * 2 ^ (-43 + 1074))%Z)
    as [Heq|Hne].
  - (* the rpm is 800 *)
    destruct (pos_units_inj m 7036874417766400 e (-43)%Z Vr) as [-> ->];
      [vm_compute; reflexivity | exact Heq |].
    assert (E : r = 800).
    { rewrite <- (SF2Prim_Prim2SF r), Hr. vm_compute. reflexivity. }
    rewrite E. vm_compute. reflexivity.
  - (* the rpm is above 800: at least one unit in the last place more *)
    destruct (valid_finite_bounds _ _ _ Vr) as (He & Hm53 & Hnorm).
    assert (He43 : (-43 <= e)%Z).
    { destruct (Z.le_gt_cases (-43) e) as [H|H]; [exact H|]. exfalso.
      assert (Hpow : (2 ^ (e + 1074) <= 2 ^ 1030)%Z) by (apply Z.pow_le_mono_r; lia).
      assert (Hlt : (Z.pos m * 2 ^ (e + 1074) < 2 ^ 53 * 2 ^ 1030)%Z).
      { apply Z.lt_le_trans with (2 ^ 53 * 2 ^ (e + 1074))%Z.
        - apply Z.mul_lt_mono_pos_r; [apply Z.pow_pos_nonneg; lia | exact Hm53].
        - apply Z.mul_le_mono_nonneg_l; [lia | exact Hpow]. }
      assert (Hc : (2 ^ 53 * 2 ^ 1030 <= 7036874417766400 * 2 ^ (-43 + 1074))%Z)
        by (vm_compute; discriminate).
      lia. }
    rewrite FloatAxioms.leb_spec, FloatAxioms.div_spec, Hr.
    replace (Prim2SF 8000) with (S754_finite false 8796093022208000 (-40))
      by (vm_compute; reflexivity).
    replace (Prim2SF 0.1) with (S754_finite false 7205759403792794 (-56))
      by (vm_compute; reflexivity).
    apply SF64div_ge.
    + do 2 eexists. split; [reflexivity|]. split; vm_compute; [discriminate | reflexivity].
    + do 2 eexists. split; [reflexivity | exact Vr].
    + do 2 eexists. split; [reflexivity | vm_compute; reflexivity].
    + cbn [sf_units cond_Zopp].
      replace (e + 1074)%Z with ((e + 43) + 1031)%Z in * by lia.
      replace (-43 + 1074)%Z with 1031%Z in * by lia.
      rewrite (Z.pow_add_r 2 (e + 43) 1031) in Hu, Hne by lia.
      rewrite (Z.pow_add_r 2 (e + 43) 1031) by lia.
      assert (HT : (0 < 2 ^ 1031)%Z) by reflexivity.
      assert (Ha : (7036874417766400 + 1 <= Z.pos m * 2 ^ (e + 43))%Z).
      { rewrite Z.mul_assoc in Hu, Hne.
        apply Z.mul_le_mono_pos_r in Hu; [|exact HT].
        assert ((Z.pos m * 2 ^ (e + 43))%Z <> 7036874417766400%Z) by (intros E; apply Hne; rewrite E; reflexivity).
        lia. }
      apply Z.le_trans with ((7036874417766400 + 1) * 2 ^ 1031 * 2 ^ 1074)%Z;
        [vm_compute; discriminate|].
      rewrite (Z.mul_assoc (Z.pos m)).
      apply Z.mul_le_mono_nonneg_r; [apply Z.pow_nonneg; lia|].
      apply Z.mul_le_mono_nonneg_r; [lia | exact Ha].
Qed.

Lemma temperature_floor (r : float) :
  (800 <=? r) = true -> (r <=? 8000) = true -> (66 <=? 60 + r / 8000 * 60) = true.
Proof.
  intros Hlo Hhi. pose proof (rpm_ratio_floor r Hlo Hhi) as Hq.
  set (q := r / 8000) in *.
  (* the product with 60 is at least 6 *)
  assert (Hp : (6 <=? q * 60) = true).
  { destruct (leb_pos_cases 0.1 q 7205759403792794 (-56)%Z) as [(m & e & Eq)|Eq];
      [vm_compute; reflexivity | exact Hq | |].
    - assert (Fq : finite_double q) by (unfold finite_double; rewrite Eq; reflexivity).
      pose proof (units_of_leb 0.1 q ltac:(reflexivity) Fq Hq) as Hu.
      rewrite FloatAxioms.leb_spec, FloatAxioms.mul_spec.
      apply SF64mul_ge.
      + apply (sf_normal_of 6 6755399441055744 (-50)%Z); vm_compute; [reflexivity | discriminate].
      + apply (sf_pos_of q m e Eq).
      + apply (sf_pos_of 60 8444249301319680 (-47)%Z). vm_compute. reflexivity.
      + apply Z.le_trans with (sf_units (Prim2SF 0.1) * sf_units (Prim2SF 60))%Z;
          [vm_compute; discriminate|].
        apply Z.mul_le_mono_nonneg_r; [vm_compute; discriminate | exact Hu].
    - rewrite FloatAxioms.leb_spec, FloatAxioms.mul_spec, Eq. vm_compute. reflexivity. }
  set (p := q * 60) in *.
  destruct (leb_pos_cases 6 p 6755399441055744 (-50)%Z) as [(m & e & Ep)|Ep];
    [vm_compute; reflexivity | exact Hp | |].
  - assert (Fp : finite_double p) by (unfold finite_double; rewrite Ep; reflexivity).
    pose proof (units_of_leb 6 p ltac:(reflexivity) Fp Hp) as Hu.
    rewrite FloatAxioms.leb_spec, FloatAxioms.add_spec.
    apply SF64add_ge.
    + apply (sf_normal_of 66 4644337115725824 (-46)%Z); vm_compute; [reflexivity | discriminate].
    + apply (sf_pos_of 60 8444249301319680 (-47)%Z). vm_compute. reflexivity.
    + apply (sf_pos_of p m e Ep).
    + apply Z.le_trans with (sf_units (Prim2SF 60) + sf_units (Prim2SF 6))%Z;
        [vm_compute; discriminate|].
      apply Z.add_le_mono_l. exact Hu.
  - rewrite FloatAxioms.leb_spec, FloatAxioms.add_spec, Ep. vm_compute. reflexivity.
Qed.

Lemma update_temperature_range (data : mjData) (car : SimpleCar) :
  is_nan (qvel data !!! 0%nat) = false ->
  is_nan (qvel data !!! 1%nat) = false ->
  let d' := dashboard_ (UpdateDashboardData data car) in
  (66 <=? temperature d') = true /\ (temperature d' <=? 120) = true /\
  (66 <= d2r (temperature d') <= 120)%R.
Proof.
  intros Hvx Hvy d'.
  destruct (update_speed_rpm_temp data car) as (Hs & Hr & Ht).
  fold d' in Hs, Hr, Ht.
  set (vx := qvel data !!! 0%nat) in *. set (vy := qvel data !!! 1%nat) in *.
  assert (Hrpm0 : nonneg (PrimFloat.sqrt (vx * vx + vy * vy) * 3.6 * 40 + 800)).
  { apply nonneg_add; [|apply pos_finite_nonneg; do 2 eexists; vm_compute; reflexivity].
    apply nonneg_mul_const; [do 2 eexists; vm_compute; reflexivity|].
    apply nonneg_mul_const; [do 2 eexists; vm_compute; reflexivity|].
    apply nonneg_sqrt, nonneg_add; apply nonneg_square; assumption. }
  destruct (rpm_clamp _ Hrpm0) as (Hnn & Hlo & Hhi).
  destruct (temperature_clamp _ Hnn) as (_ & Hthi).
  pose proof (temperature_floor _ Hlo Hhi) as Hfloor.
  rewrite <- Hr in Hfloor, Hthi, Ht.
  assert (H66 : (66 <=? temperature d') = true).
  { rewrite Ht. destruct (120 <? 60 + rpm d' / 8000 * 60); [reflexivity | exact Hfloor]. }
  assert (H120 : (temperature d' <=? 120) = true) by (rewrite Ht; exact Hthi).
  split; [exact H66|]. split; [exact H120|].
  assert (F : finite_double (temperature d'))
    by (apply (between_finite 66 _ 120); [reflexivity | reflexivity | exact H66 | exact H120]).
  pose proof (leb_d2r 66 _ ltac:(reflexivity) F H66) as R1.
  pose proof (leb_d2r _ 120 F ltac:(reflexivity) H120) as R2.
  rewrite (d2r_integer 66 66) in R1 by (vm_compute; reflexivity).
  rewrite (d2r_integer 120 120) in R2 by (vm_compute; reflexivity).
  split; assumption.
Qed.

(** X2: after an update with velocity components that are numbers, the
    temperature is at least 66, not merely 60, and at most 120, and so is its
    exact real value; 66 is the temperature of the car at rest. *)
Theorem X2_temperature_at_least_66 (data : mjData) (car : SimpleCar) :
  is_nan (qvel data !!! 0%nat) = false ->
  is_nan (qvel data !!! 1%nat) = false ->
  let d' := dashboard_ (UpdateDashboardData data car) in
  (66 <=? temperature d') = true /\ (temperature d' <=? 120) = true /\
  (66 <= d2r (temperature d') <= 120)%R /\
  (qvel data !!! 0%nat = 0 -> qvel data !!! 1%nat = 0 -> temperature d' = 66).
Proof.
  intros Hvx Hvy d'.
  destruct (update_temperature_range data car Hvx Hvy) as (H1 & H2 & H3).
  split; [exact H1|]. split; [exact H2|]. split; [exact H3|].
  intros E0 E1.
  destruct (update_speed_rpm_temp data car) as (_ & _ & Ht).
  fold d' in Ht. rewrite Ht, E0, E1. vm_compute. reflexivity.
Qed.
End TemperatureFloor.

(** ** Circular gauges: the scale labels and the pointer *)

Section PointerScale.
Variable fmt_f : nat -> float -> string.
Local Open Scope R_scope.

(** The slot that the call of rank [k] fills. *)
Lemma trace_slot (c : draw) (calls : list append_call) (s : mjvScene) (k : nat) call :
  trace_of c calls -> scene_ok s -> (k < room s)%nat -> calls !! k = Some call ->
  geoms (c s) !! (Z.to_nat (ngeom s) + k)%nat =
  Some (geom_of_call call (geoms s !!! (Z.to_nat (ngeom s) + k)%nat)).
Proof.
  intros Ht Hok Hk Hc. rewrite Ht.
  destruct (run_calls_spec calls s Hok) as (_ & _ & _ & _ & Hslot).
  apply (Hslot k call Hk Hc).
Qed.

Lemma scale_label_text (i : nat) (step : Z) :
  (i < 6)%nat -> (step = 10 \/ step = 2)%Z ->
  truncate label_size (truncate 10 (fmt_d (Z.of_nat i * step))) =
  pretty (Z.of_nat i * step)%Z.
Proof.
  intros Hi [-> | ->];
    (destruct i as [|[|[|[|[|[|i]]]]]]; [reflexivity..|lia]).
Qed.

Lemma pointer_angle_deg (v vmax : R) :
  0 < vmax -> v <= vmax -> pointer_angle v vmax = deg (360 / vmax * v - 90).
Proof.
  intros Hmax Hv. unfold pointer_angle, deg. cbv zeta.
  destruct (Rlt_dec 1 (v / vmax)) as [H|H].
  - exfalso. apply (Rmult_lt_compat_r vmax) in H; [|exact Hmax].
    unfold Rdiv in H. rewrite Rmult_assoc, Rinv_l in H; lra.
  - field. lra.
Qed.

Lemma pointer_angle_full (v vmax : R) :
  0 < vmax -> vmax <= v ->
  cos (pointer_angle v vmax) = cos (deg (-90)) /\
  sin (pointer_angle v vmax) = sin (deg (-90)).
Proof.
  intros Hmax Hv. unfold pointer_angle, deg. cbv zeta.
  assert (Hr : 1 <= v / vmax).
  { apply (Rmult_le_reg_r vmax); [exact Hmax|].
    unfold Rdiv. rewrite Rmult_assoc, Rinv_l; lra. }
  assert (E : (if Rlt_dec 1 (v / vmax) then 1 else v / vmax) * 2 * PI - PI / 2
              = -90 * PI / 180 + 2 * INR 1 * PI).
  { generalize dependent (v / vmax). intros r Hr.
    destruct (Rlt_dec 1 r) as [H|H]; simpl INR; [lra|].
    assert (Er : r = 1) by lra. rewrite Er. lra. }
  rewrite E. split; [apply cos_period | apply sin_period].
Qed.

(** From the full-scale value on, infinity included, the pointer has the
    direction of the value 0. *)
Lemma pointer_angle_clamped (value full : float) (k : Z) :
  (0 < k)%Z -> sf_units (Prim2SF full) = (k * 2 ^ 1074)%Z ->
  (full <=? value)%float = true ->
  cos (pointer_angle (d2r value) (IZR k)) = cos (deg (-90)) /\
  sin (pointer_angle (d2r value) (IZR k)) = sin (deg (-90)).
Proof.
  intros Hk Hu Hle.
  assert (Hk' : 0 < IZR k) by (apply IZR_lt; exact Hk).
  pose proof (d2r_integer full k Hu) as Hfull.
  assert (Hp : (0 < k * 2 ^ 1074)%Z) by (apply Z.mul_pos_pos; [exact Hk | reflexivity]).
  destruct (Prim2SF full) as [s|s| |s m e] eqn:Ef; cbn [sf_units] in Hu; try lia.
  destruct s; cbn [cond_Zopp] in Hu; [lia|].
  destruct (leb_pos_cases full value m e Ef Hle) as [(m' & e' & Ev)|Ev].
  - assert (Fv : finite_double value) by (unfold finite_double; rewrite Ev; reflexivity).
    assert (Ff : finite_double full) by (unfold finite_double; rewrite Ef; reflexivity).
    pose proof (leb_d2r full value Ff Fv Hle) as Hr. rewrite Hfull in Hr.
    apply pointer_angle_full; assumption.
  - assert (E0 : d2r value = 0) by (unfold d2r; rewrite Ev; reflexivity).
    rewrite E0, (pointer_angle_deg 0 (IZR k)) by lra.
    replace (360 / IZR k * 0 - 90) with (-90) by (field; lra).
    split; reflexivity.
Qed.

(** X3: the speedometer writes the scale label [10 i] (i = 0..5) at the
    direction [60 i - 90] degrees, but draws its pointer, for a speed [v] up
    to 50, at the direction [7.2 v - 90] degrees; from 50 on the pointer is
    the one of speed 0. *)
Theorem X3_speedometer_scale_and_pointer d x y size s :
  scene_ok s -> (32 <= room s)%nat ->
  let s' := DrawSpeedometer2D fmt_f d x y size s in
  let n := Z.to_nat (ngeom s) in
  let v := d2r (speed_kmh d) in
  let pointer a :=
    (x, y, x + size * 0.6 * cos (deg a), y + size * 0.6 * sin (deg a)) in
  (forall i, (i < 6)%nat ->
     exists L, geoms s' !! (n + 19 + i)%nat = Some L /\
       type L = mjGEOM_LABEL /\
       label L = pretty (Z.of_nat i * 10)%Z /\
       pos L = [x + size * 0.7 * cos (deg (60 * INR i - 90));
                y + size * 0.7 * sin (deg (60 * INR i - 90)); 0.01]) /\
  (exists G, geoms s' !! (n + 25)%nat = Some G /\
     (finite_double (speed_kmh d) -> v <= 50 ->
        is_segment (pointer (7.2 * v - 90)) G) /\
     ((50 <=? speed_kmh d)%float = true -> is_segment (pointer (-90)) G)).
Proof.
  intros Hok Hroom s' n v pointer.
  pose proof (speedometer_trace fmt_f d x y size) as Ht.
  split.
  - intros i Hi.
    eexists. split.
    + replace (n + 19 + i)%nat with (n + (19 + i))%nat by lia.
      eapply (trace_slot _ _ s (19 + i) _ Ht Hok); [lia|].
      unfold speedometer_calls. cbn [app].
      change (19 + i)%nat with (S (S (S (12 + (4 + i))))).
      rewrite !lookup_S. unfold minor_tick_calls.
      rewrite lookup_app_r by (rewrite length_map, length_seq; lia).
      rewrite length_map, length_seq. replace (12 + (4 + i) - 12)%nat with (4 + i)%nat by lia.
      unfold major_tick_calls.
      rewrite lookup_app_r by (rewrite length_map, length_seq; lia).
      rewrite length_map, length_seq. replace (4 + i - 4)%nat with i by lia.
      unfold scale_label_calls. apply lookup_map_seq_app. exact Hi.
    + cbn [geom_of_call label_geom type label pos].
      split; [reflexivity|]. split; [apply scale_label_text; [exact Hi | left; reflexivity]|].
      replace (INR i * (2 * PI / 6) - PI / 2) with (deg (60 * INR i - 90))
        by (unfold deg; field).
      reflexivity.
  - eexists. split.
    + eapply (trace_slot _ _ s 25 _ Ht Hok); [lia | reflexivity].
    + cbn [geom_of_call]. fold v. unfold pointer, is_segment. split.
      * intros _ Hv. rewrite (pointer_angle_deg v 50) by lra.
        replace (360 / 50 * v - 90) with (7.2 * v - 90) by lra.
        do 6 eexists. reflexivity.
      * intros Hv.
        destruct (pointer_angle_clamped (speed_kmh d) 50 50) as [Hc Hs];
          [lia | vm_compute; reflexivity | exact Hv |].
        fold v in Hc, Hs.
        do 6 eexists. unfold line_geom. rewrite <- Hc, <- Hs. reflexivity.
Qed.

(** X4: the tachometer writes the scale label [2 i] (i = 0..4, in thousands)
    at the direction [72 i - 90] degrees, but draws its pointer, for [r] rpm
    up to 8000, at the direction [0.045 r - 90] degrees; at 8000 and above the
    pointer is the one of 0 rpm.  The three warning circles, present above
    6000 rpm, shift the slots by three. *)
Theorem X4_tachometer_scale_and_pointer d x y size s :
  scene_ok s -> (31 <= room s)%nat ->
  let s' := DrawTachometer2D fmt_f d x y size s in
  let n := Z.to_nat (ngeom s) in
  let w := if (6000 <? rpm d)%float then 3%nat else 0%nat in
  let r := d2r (rpm d) in
  let pointer a :=
    (x, y, x + size * 0.6 * cos (deg a), y + size * 0.6 * sin (deg a)) in
  (forall i, (i < 5)%nat ->
     exists L, geoms s' !! (n + 3 + w + 12 + i)%nat = Some L /\
       type L = mjGEOM_LABEL /\
       label L = pretty (Z.of_nat i * 2)%Z /\
       pos L = [x + size * 0.7 * cos (deg (72 * INR i - 90));
                y + size * 0.7 * sin (deg (72 * INR i - 90)); 0.01]) /\
  (exists G, geoms s' !! (n + 3 + w + 17)%nat = Some G /\
     (finite_double (rpm d) -> r <= 8000 ->
        is_segment (pointer (0.045 * r - 90)) G) /\
     ((8000 <=? rpm d)%float = true -> is_segment (pointer (-90)) G)).
Proof.
  intros Hok Hroom s' n w r pointer.
  pose proof (tachometer_trace fmt_f d x y size) as Ht.
  assert (Hw : length (warning_calls d x y size) = w).
  { unfold warning_calls, w. destruct (6000 <? rpm d)%float; reflexivity. }
  assert (Hw3 : (w <= 3)%nat) by (unfold w; destruct (6000 <? rpm d)%float; lia).
  split.
  - intros i Hi.
    eexists. split.
    + replace (n + 3 + w + 12 + i)%nat with (n + (3 + (w + (12 + i))))%nat by lia.
      eapply (trace_slot _ _ s _ _ Ht Hok); [lia|].
      unfold tachometer_calls. cbn [app].
      change (3 + (w + (12 + i)))%nat with (S (S (S (w + (12 + i))))).
      rewrite !lookup_S.
      rewrite lookup_app_r by lia. rewrite Hw.
      replace (w + (12 + i) - w)%nat with (12 + i)%nat by lia.
      unfold minor_tick_calls.
      rewrite lookup_app_r by (rewrite length_map, length_seq; lia).
      rewrite length_map, length_seq. replace (12 + i - 12)%nat with i by lia.
      unfold scale_label_calls. apply lookup_map_seq_app. exact Hi.
    + cbn [geom_of_call label_geom type label pos].
      split; [reflexivity|].
      split; [apply scale_label_text; [lia | right; reflexivity]|].
      replace (INR i * (2 * PI / 5) - PI / 2) with (deg (72 * INR i - 90))
        by (unfold deg; field).
      reflexivity.
  - eexists. split.
    + replace (n + 3 + w + 17)%nat with (n + (3 + (w + (12 + (5 + 0)))))%nat by lia.
      eapply (trace_slot _ _ s _ _ Ht Hok); [lia|].
      unfold tachometer_calls. cbn [app].
      change (3 + (w + (12 + (5 + 0))))%nat with (S (S (S (w + (12 + (5 + 0)))))).
      rewrite !lookup_S.
      rewrite lookup_app_r by lia. rewrite Hw.
      replace (w + (12 + (5 + 0)) - w)%nat with (12 + (5 + 0))%nat by lia.
      unfold minor_tick_calls.
      rewrite lookup_app_r by (rewrite length_map, length_seq; lia).
      rewrite length_map, length_seq. replace (12 + (5 + 0) - 12)%nat with (5 + 0)%nat by lia.
      unfold scale_label_calls.
      rewrite lookup_app_r by (rewrite length_map, length_seq; lia).
      rewrite length_map, length_seq. reflexivity.
    + cbn [geom_of_call]. fold r. unfold pointer, is_segment. split.
      * intros _ Hr. rewrite (pointer_angle_deg r 8000) by lra.
        replace (360 / 8000 * r - 90) with (0.045 * r - 90) by lra.
        do 6 eexists. reflexivity.
      * intros Hr.
        destruct (pointer_angle_clamped (rpm d) 8000 8000) as [Hc Hs];
          [lia | vm_compute; reflexivity | exact Hr |].
        fold r in Hc, Hs.
        do 6 eexists. unfold line_geom. rewrite <- Hc, <- Hs. reflexivity.
Qed.
End PointerScale.

(** ** Overlay pass: every geom is well formed *)

(** Three sizes that are not negative, a position, and four colour components
    within [0, 1]. *)
Definition well_formed (g : mjvGeom) : Prop :=
  length (size g) = 3%nat /\ length (pos g) = 3%nat /\ length (rgba g) = 4%nat /\
  Forall (fun v => 0 <= v)%R (size g) /\
  Forall (fun v => 0 <= v <= 1)%R (rgba g).

Definition call_well_formed (c : append_call) : Prop :=
  forall g0, well_formed (geom_of_call c g0).

(** The four displayed values are finite numbers. *)
Definition finite_dashboard (d : DashboardData) : Prop :=
  finite_double (speed_kmh d) /\ finite_double (rpm d) /\
  finite_double (fuel d) /\ finite_double (temperature d).

Ltac wf_unfold :=
  intros ?; unfold well_formed;
  cbn [geom_of_call rectangle_geom line_geom circle_geom label_geom sphere_geom
       size pos rgba];
  split; [reflexivity|]; split; [reflexivity|]; split; [reflexivity|]; split;
  repeat match goal with
         | |- Forall _ (_ :: _) => apply List.Forall_cons
         | |- Forall _ [] => apply List.Forall_nil
         end.

Section WellFormed.
Local Open Scope R_scope.

Lemma wf_rectangle x y w h r g b a :
  0 <= w -> 0 <= h -> 0 <= r <= 1 -> 0 <= g <= 1 -> 0 <= b <= 1 -> 0 <= a <= 1 ->
  call_well_formed (CallRectangle x y w h r g b a).
Proof.
  intros. wf_unfold; try assumption; lra.
Qed.

Lemma wf_circle x y rad r g b a :
  0 <= rad -> 0 <= r <= 1 -> 0 <= g <= 1 -> 0 <= b <= 1 -> 0 <= a <= 1 ->
  call_well_formed (CallCircle x y rad r g b a).
Proof.
  intros. wf_unfold; try assumption; lra.
Qed.

Lemma wf_line x1 y1 x2 y2 w r g b a :
  0 <= w -> 0 <= r <= 1 -> 0 <= g <= 1 -> 0 <= b <= 1 -> 0 <= a <= 1 ->
  call_well_formed (CallLine x1 y1 x2 y2 w r g b a).
Proof.
  intros.
  pose proof (sqrt_pos ((x2 - x1) * (x2 - x1) + (y2 - y1) * (y2 - y1))).
  wf_unfold; try assumption; lra.
Qed.

Lemma wf_label x y z text sz r g b :
  0 <= sz -> 0 <= r <= 1 -> 0 <= g <= 1 -> 0 <= b <= 1 ->
  call_well_formed (CallLabel x y z text sz r g b).
Proof.
  intros. wf_unfold; try assumption; lra.
Qed.

Lemma wf_sphere gx gy : call_well_formed (CallGoalSphere gx gy).
Proof.
  wf_unfold; lra.
Qed.

Lemma unit_product (a b : R) : 0 <= a <= 1 -> 0 <= b <= 1 -> 0 <= a * b <= 1.
Proof. intros [? ?] [? ?]. split; nra. Qed.

End WellFormed.

Ltac wf_leaf :=
  lazymatch goal with
  | |- call_well_formed (CallRectangle _ _ _ _ _ _ _ _) => apply wf_rectangle
  | |- call_well_formed (CallCircle _ _ _ _ _ _ _) => apply wf_circle
  | |- call_well_formed (CallLine _ _ _ _ _ _ _ _ _) => apply wf_line
  | |- call_well_formed (CallLabel _ _ _ _ _ _ _ _) => apply wf_label
  | |- call_well_formed (CallGoalSphere _ _) => apply wf_sphere
  end;
  try lra.

Section WellFormedGauges.
Variable fmt_f : nat -> float -> string.
Local Open Scope R_scope.

Lemma speedometer_wf d x y sz :
  0 <= sz ->
  issues call_well_formed (DrawSpeedometer2D fmt_f d x y sz) 32 32.
Proof.
  intros Hsz. unfold DrawSpeedometer2D.
  eapply issues_weaken; [solve_issues ltac:(wf_leaf) | simpl; lia | simpl; lia].
Qed.
End WellFormedGauges.

Section WellFormedOverlay.
Variable fmt_f : nat -> float -> string.
Local Open Scope R_scope.

(** Above the warning threshold and within the clamp, as real numbers. *)
Lemma rpm_warning_real (d : DashboardData) :
  (6000 <? rpm d)%float = true -> (rpm d <=? 8000)%float = true ->
  6000 < d2r (rpm d) <= 8000.
Proof.
  intros Hlo Hhi.
  assert (F : finite_double (rpm d)).
  { apply (between_finite 6000 _ 8000); [reflexivity | reflexivity | | exact Hhi].
    apply ltb_true_leb, Hlo. }
  pose proof (ltb_d2r 6000 _ ltac:(reflexivity) F Hlo) as R1.
  pose proof (leb_d2r _ 8000 F ltac:(reflexivity) Hhi) as R2.
  rewrite (d2r_integer 6000 6000) in R1 by (vm_compute; reflexivity).
  rewrite (d2r_integer 8000 8000) in R2 by (vm_compute; reflexivity).
  split; assumption.
Qed.

Lemma tachometer_wf d x y sz :
  0 <= sz -> (rpm d <=? 8000)%float = true ->
  issues call_well_formed (DrawTachometer2D fmt_f d x y sz) 27 31.
Proof.
  intros Hsz Hhi. unfold DrawTachometer2D.
  eapply issues_weaken.
  { solve_issues ltac:(wf_leaf).
    all: match goal with
         | Hw : (6000 <? rpm ?d0)%float = true |- _ =>
             pose proof (rpm_warning_real d0 Hw Hhi) as [Hr1 Hr2]
         end.
    all: match goal with
         | Hi : (?i < 3)%nat |- _ =>
             pose proof (pos_INR i); apply lt_INR in Hi; simpl in Hi
         end.
    - apply Rmult_le_pos; [exact Hsz | lra].
    - apply unit_product; [lra|].
      match goal with |- context [Rlt_dec ?a ?b] => destruct (Rlt_dec a b) end; lra. }
  all: simpl; lia.
Qed.

Lemma fuel_gauge_wf d x y w h timers :
  0 <= w -> 0 <= h ->
  exists c, issues call_well_formed c 8 11 /\
    forall s, snd (DrawFuelGauge2D fmt_f d x y w h (timers, s)) = c s.
Proof.
  intros Hw Hh. unfold DrawFuelGauge2D.
  repeat match goal with
  | |- context [ if ?b then _ else _ ] => destruct b
  end; cbn [snd]; (eexists; split; [|intros s; reflexivity]);
  (eapply issues_weaken; [solve_issues ltac:(wf_leaf) | simpl; lia | simpl; lia]).
Qed.

Lemma temperature_gauge_wf d x y w h timers :
  0 <= w -> 0 <= h ->
  exists c, issues call_well_formed c 8 13 /\
    forall s, snd (DrawTemperatureGauge2D fmt_f d x y w h (timers, s)) = c s.
Proof.
  intros Hw Hh. unfold DrawTemperatureGauge2D. cbv zeta.
  repeat match goal with
  | |- context [ if ?b then _ else _ ] => destruct b
  end; cbn [snd]; (eexists; split; [|intros s; reflexivity]);
  (eapply issues_weaken;
   [solve_issues ltac:(wf_leaf;
                       try (match goal with
                            | |- context [sin ?a] => pose proof (SIN_bound a)
                            end; lra))
   | simpl; lia | simpl; lia]).
Qed.

(** X5: every geom that an overlay pass appends, for a dashboard of finite
    numbers whose rpm is within the clamp, has three non-negative sizes, a
    position and four colour components within [0, 1]. *)
Theorem X5_overlay_geoms_well_formed model data car timers scene :
  scene_ok scene -> finite_dashboard (dashboard_ car) ->
  (rpm (dashboard_ car) <=? 8000)%float = true ->
  exists scene',
    snd (ModifyScene fmt_f model data car (timers, Some scene)) = Some scene' /\
    forall i, (Z.to_nat (ngeom scene) <= i < Z.to_nat (ngeom scene'))%nat ->
      exists g, geoms scene' !! i = Some g /\ well_formed g.
Proof.
  intros Hok _ Hhi.
  destruct (Z.eq_dec (maxgeom scene) 0%Z) as [Hz|Hnz].
  - exists scene. rewrite (modify_scene_skip fmt_f model data car timers scene Hz).
    split; [reflexivity | intros i Hi; lia].
  - destruct (modify_scene_issues fmt_f call_well_formed model data car timers scene
                27 31 8 11 8 13 Hnz) as (calls & Hrun & Hall & _).
    + wf_leaf.
    + apply speedometer_wf. lra.
    + apply tachometer_wf; [lra | exact Hhi].
    + intros t. apply fuel_gauge_wf; lra.
    + intros t. apply temperature_gauge_wf; lra.
    + intros gx gy. wf_leaf.
    + intros x y z text. wf_leaf.
    + intros x y text. wf_leaf.
    + exists (run_calls calls scene). split; [exact Hrun|].
      intros i Hi.
      destruct (run_calls_emitted calls scene i Hok Hi) as (c & Hc & Hg).
      exists (geom_of_call c (geoms scene !!! i)). split; [exact Hg|].
      rewrite Forall_forall in Hall. apply Hall.
      eapply list_elem_of_lookup_2. exact Hc.
Qed.
End WellFormedOverlay.

(** ** Temperature gauge on the dashboards that an update produces *)

(** Builds the list of calls of a routine from its statements. *)
Ltac build_trace :=
  repeat (cbv zeta;
    lazymatch goal with
    | |- trace_of (_ >>> _) _ => eapply trace_app
    | |- trace_of skip _ => exact trace_skip
    | |- trace_of (Draw2DRectangle ?x ?y ?w ?h ?r ?g ?b ?a) _ =>
        exact (trace_one (CallRectangle x y w h r g b a))
    | |- trace_of (Draw2DLine ?x1 ?y1 ?x2 ?y2 ?w ?r ?g ?b ?a) _ =>
        exact (trace_one (CallLine x1 y1 x2 y2 w r g b a))
    | |- trace_of (Draw2DCircle ?x ?y ?rad ?r ?g ?b ?a) _ =>
        exact (trace_one (CallCircle x y rad r g b a))
    | |- trace_of (AddLabel ?x ?y ?z ?t ?sz ?r ?g ?b) _ =>
        exact (trace_one (CallLabel x y z t sz r g b))
    | |- trace_of (for_ ?n (fun i => Draw2DLine (@?x1 i) (@?y1 i) (@?x2 i) (@?y2 i)
                                             (@?w i) (@?r i) (@?g i) (@?b i) (@?a i))) _ =>
        exact (trace_for n (fun i => CallLine (x1 i) (y1 i) (x2 i) (y2 i)
                                              (w i) (r i) (g i) (b i) (a i)))
    end).

Section TemperatureGauge.
Variable fmt_f : nat -> float -> string.
Local Open Scope R_scope.

(** Within [66, 120] the gauge draws the coloured bar, never the grey
    background, and the marker. *)
Lemma temperature_gauge_calls d x y w h timers :
  66 <= d2r (temperature d) <= 120 -> 0.1 < w ->
  exists calls,
    (forall s, snd (DrawTemperatureGauge2D fmt_f d x y w h (timers, s)) =
               run_calls calls s) /\
    length calls = (if (100 <? temperature d)%float then 13 else 11)%nat /\
    exists cr cg cb rest,
      calls = CallRectangle (x - (w - (d2r (temperature d) - 60) / 60 * w) / 2) y
                            ((d2r (temperature d) - 60) / 60 * w) (h * 0.8)
                            cr cg cb 1.0 :: rest.
Proof.
  intros HT Hw.
  assert (Hr : 0.1 <= (d2r (temperature d) - 60) / 60 <= 1) by lra.
  set (ratio := (d2r (temperature d) - 60) / 60) in *.
  assert (Hbar : 0.01 < ratio * w) by nra.
  cut (exists (c : draw) calls,
         (forall s, snd (DrawTemperatureGauge2D fmt_f d x y w h (timers, s)) = c s) /\
         trace_of c calls /\
         length calls = (if (100 <? temperature d)%float then 13 else 11)%nat /\
         exists cr cg cb rest,
           calls = CallRectangle (x - (w - ratio * w) / 2) y (ratio * w) (h * 0.8)
                                 cr cg cb 1.0 :: rest).
  { intros (c & calls & Hc & Ht & Hlen & Hfirst). exists calls.
    split; [intros s; rewrite Hc; apply Ht|]. split; assumption. }
  unfold DrawTemperatureGauge2D. cbv zeta.
  replace (120.0 - 60.0) with 60 by lra. replace 60.0 with 60 by lra.
  fold ratio.
  destruct (Rlt_dec ratio 0) as [Hneg|_]; [exfalso; lra|].
  destruct (Rlt_dec 1 ratio) as [Hbig|_]; [exfalso; lra|].
  repeat match goal with
  | |- context [ if ?b then _ else _ ] =>
      destruct b; try (exfalso; lra)
  end; cbn [snd]; (do 2 eexists; split; [intros s; reflexivity|]);
  (split; [build_trace|]);
  (split; [reflexivity|]); do 4 eexists; reflexivity.
Qed.

(** X6: on the dashboard that an update leaves (velocity components that
    are numbers), a temperature gauge wider than 0.1 never takes its
    empty-background branch: it appends 11 geoms, 13 above 100 degrees, the
    first being the opaque bar whose stored width is the share
    [(t - 60) / 60], between 0.1 and 1, of the gauge width. *)
Theorem X6_temperature_gauge_after_update data car x y w h timers s :
  is_nan (qvel data !!! 0%nat) = false ->
  is_nan (qvel data !!! 1%nat) = false ->
  0.1 < w -> scene_ok s -> (13 <= room s)%nat ->
  let d' := dashboard_ (UpdateDashboardData data car) in
  let s' := snd (DrawTemperatureGauge2D fmt_f d' x y w h (timers, s)) in
  let ratio := (d2r (temperature d') - 60) / 60 in
  0.1 <= ratio <= 1 /\
  ngeom s' = (ngeom s + (if (100 <? temperature d')%float then 13 else 11))%Z /\
  exists G, geoms s' !! Z.to_nat (ngeom s) = Some G /\
    type G = mjGEOM_BOX /\
    size G = [ratio * w; h * 0.8; 0.001] /\
    pos G = [x - (w - ratio * w) / 2; y; 0] /\
    rgba G !! 3%nat = Some 1.0.
Proof.
  intros Hvx Hvy Hw Hok Hroom d' s' ratio.
  destruct (update_temperature_range data car Hvx Hvy) as (_ & _ & HT).
  fold d' in HT.
  destruct (temperature_gauge_calls d' x y w h timers HT Hw)
    as (calls & Hrun & Hlen & cr & cg & cb & rest & Hfirst).
  split; [unfold ratio; lra|].
  unfold s'. rewrite Hrun.
  destruct (run_calls_spec calls s Hok) as (_ & _ & Hn & _ & Hslot).
  split.
  - rewrite Hn, Hlen. destruct (100 <? temperature d')%float; lia.
  - specialize (Hslot 0%nat _ ltac:(lia) ltac:(rewrite Hfirst; reflexivity)).
    rewrite Nat.add_0_r in Hslot. eexists. split; [exact Hslot|].
    repeat split.
Qed.
End TemperatureGauge.

(** ** Residual and goal controller *)

Section SignSymmetry.

Lemma binary_round_aux_opp (s : bool) (m e : Z) (l : location) :
  binary_round_aux prec emax (negb s) m e l =
  SFopp (binary_round_aux prec emax s m e l).
Proof.
  unfold binary_round_aux.
  destruct (shr_fexp prec emax m e l) as [mrs' e'].
  destruct (shr_fexp prec emax _ e' loc_Exact) as [mrs'' e''].
  destruct (shr_m mrs''); try reflexivity.
  destruct (_ <=? _)%Z; reflexivity.
Qed.

Lemma binary_round_opp (s : bool) (m : positive) (e : Z) :
  binary_round prec emax (negb s) m e = SFopp (binary_round prec emax s m e).
Proof.
  unfold binary_round. destruct (shl_align _ _ _) as [mz ez].
  apply binary_round_aux_opp.
Qed.

(** The two differences of a pair are opposite, or both are zeros. *)
Lemma SF64sub_swap (x y : spec_float) :
  SF64sub y x = SFopp (SF64sub x y) \/
  exists s s', SF64sub x y = S754_zero s /\ SF64sub y x = S754_zero s'.
Proof.
  unfold SF64sub, SFsub.
  destruct x as [sx|sx| |sx mx ex], y as [sy|sy| |sy my ey];
    try (left; reflexivity);
    try (left; destruct sx, sy; reflexivity);
    try (right; destruct sx, sy; do 2 eexists; split; reflexivity).
  rewrite (Z.min_comm ey ex).
  set (ez := Z.min ex ey).
  set (a := cond_Zopp sx (Z.pos (fst (shl_align mx ex ez)))).
  set (b := cond_Zopp sy (Z.pos (fst (shl_align my ey ez)))).
  replace (b - a)%Z with (- (a - b))%Z by lia.
  destruct (a - b)%Z as [|p|p].
  - right. do 2 eexists. split; reflexivity.
  - left. apply (binary_round_opp false).
  - left. apply (binary_round_opp true).
Qed.

Lemma SF64mul_opp_square (z : spec_float) :
  SF64mul (SFopp z) (SFopp z) = SF64mul z z.
Proof.
  unfold SF64mul, SFmul. destruct z as [s|s| |s m e]; cbn [SFopp]; try reflexivity;
    destruct s; reflexivity.
Qed.

Lemma SF64sub_square_swap (x y : spec_float) :
  SF64mul (SF64sub y x) (SF64sub y x) = SF64mul (SF64sub x y) (SF64sub x y).
Proof.
  destruct (SF64sub_swap x y) as [-> | (s & s' & -> & ->)].
  - apply SF64mul_opp_square.
  - destruct s, s'; reflexivity.
Qed.

Lemma SF64add_comm (x y : spec_float) : SF64add x y = SF64add y x.
Proof.
  unfold SF64add, SFadd.
  destruct x as [sx|sx| |sx mx ex], y as [sy|sy| |sy my ey]; try reflexivity;
    try (destruct sx, sy; reflexivity).
  rewrite (Z.min_comm ey ex), Z.add_comm. reflexivity.
Qed.
End SignSymmetry.

Section FloatIdentities.
Local Open Scope float_scope.

Lemma float_ext (x y : float) : Prim2SF x = Prim2SF y -> x = y.
Proof. intros H. rewrite <- (SF2Prim_Prim2SF x), <- (SF2Prim_Prim2SF y), H. reflexivity. Qed.

Lemma float_sub_square_swap (x y : float) : (y - x) * (y - x) = (x - y) * (x - y).
Proof.
  apply float_ext. rewrite !FloatAxioms.mul_spec, !FloatAxioms.sub_spec.
  apply SF64sub_square_swap.
Qed.

Lemma float_opp_square (x : float) : (- x) * (- x) = x * x.
Proof.
  apply float_ext. rewrite !FloatAxioms.mul_spec, !FloatAxioms.opp_spec.
  apply SF64mul_opp_square.
Qed.

Lemma float_add_comm (x y : float) : x + y = y + x.
Proof.
  apply float_ext. rewrite !FloatAxioms.add_spec. apply SF64add_comm.
Qed.
End FloatIdentities.

Section ResidualAndTransition.
Local Open Scope float_scope.
Variable BitGen : Type.
Variable Uniform : BitGen -> float -> float -> float * BitGen.

Lemma goal_distance_residual (data : mjData) :
  goal_distance data =
  mju_norm [residual data !!! 0%nat; residual data !!! 1%nat].
Proof.
  unfold goal_distance, residual, mju_norm, mju_dot, mju_sub.
  cbn [zip_with fold_left].
  set (q0 := qpos data !!! 0%nat). set (q1 := qpos data !!! 1%nat).
  set (m0 := mocap_pos data !!! 0%nat). set (m1 := mocap_pos data !!! 1%nat).
  change ([q0 - m0; q1 - m1; ctrl data !!! 0%nat; ctrl data !!! 1%nat] !!! 0%nat)
    with (q0 - m0).
  change ([q0 - m0; q1 - m1; ctrl data !!! 0%nat; ctrl data !!! 1%nat] !!! 1%nat)
    with (q1 - m1).
  cbn [zip_with fold_left].
  rewrite (float_sub_square_swap q0 m0), (float_sub_square_swap q1 m1). reflexivity.
Qed.

(** X7: the distance that the transition compares with the tolerance is the
    norm of the two position entries of the residual, bit for bit; the goal
    is relocated exactly when that norm is below 0.2 and kept otherwise (a
    NaN norm keeps it). *)
Theorem X7_transition_tests_residual_norm (gen_ : BitGen) (data : mjData)
    (car : SimpleCar) :
  let r := residual data in
  let d := mju_norm [r !!! 0%nat; r !!! 1%nat] in
  goal_distance data = d /\
  ((d <? 0.2) = true ->
     fst (TransitionLocked BitGen Uniform gen_ (data, car)) =
     set_mocap_pos data
       (<[2%nat := 0.01]> (<[1%nat := snd (new_goal BitGen Uniform gen_)]>
          (<[0%nat := fst (new_goal BitGen Uniform gen_)]> (mocap_pos data))))) /\
  ((d <? 0.2) = false ->
     fst (TransitionLocked BitGen Uniform gen_ (data, car)) = data).
Proof.
  cbv zeta. rewrite <- goal_distance_residual.
  split; [reflexivity|]. split; intros H.
  - rewrite (transition_reached BitGen Uniform gen_ data car H). reflexivity.
  - rewrite (transition_seeking BitGen Uniform gen_ data car H). reflexivity.
Qed.
End ResidualAndTransition.

Section ExactDifference.

(** Rounding a non-zero significand at an exponent of the format never
    yields a zero: there is no underflow to zero. *)
Lemma binary_round_not_zero (s : bool) (m : positive) (e : Z) :
  (-1074 <= e)%Z -> forall s0, binary_round prec emax s m e <> S754_zero s0.
Proof.
  intros He s0. unfold binary_round.
  pose proof (shl_align_spec m e (fexp prec emax (Z.pos (digits2_pos m) + e))) as Ha.
  destruct (shl_align m e _) as [mz ez]. destruct Ha as [Hez Hmz].
  pose proof (fexp_ge_emin (Z.pos (digits2_pos m) + e)) as Hf.
  assert (Hez' : (-1074 <= ez)%Z) by lia.
  unfold binary_round_aux.
  destruct (shr_fexp_spec (Z.pos mz) ez loc_Exact ltac:(lia)) as [H1 H1e].
  destruct (shift_keeps_bound 1 (-1074) (Z.pos mz) ez ltac:(lia) ltac:(lia) ltac:(lia))
    as [Hq1 Hb1].
  destruct (shr_fexp prec emax (Z.pos mz) ez loc_Exact) as [mrs' e1].
  cbn [fst snd] in H1, H1e. rewrite <- H1 in Hq1, Hb1. rewrite <- H1e in Hb1.
  set (q1 := round_nearest_even (shr_m mrs') (loc_of_shr_record mrs')).
  assert (Hq1' : (shr_m mrs' <= q1)%Z).
  { unfold q1.
    destruct (round_nearest_even_cases (shr_m mrs') (loc_of_shr_record mrs'))
      as [->| ->]; lia. }
  destruct (shr_fexp_spec q1 e1 loc_Exact ltac:(lia)) as [H2 H2e].
  destruct (shift_keeps_bound 1 (-1074) q1 e1 ltac:(lia) ltac:(lia) ltac:(lia))
    as [Hq2 _].
  destruct (shr_fexp prec emax q1 e1 loc_Exact) as [mrs'' e2].
  cbn [fst snd] in H2, H2e. rewrite <- H2 in Hq2.
  destruct (shr_m mrs'') as [|p|p]; try lia.
  destruct (_ <=? _)%Z; discriminate.
Qed.

(** A difference of finite numbers is a zero exactly when they are equal. *)
Lemma SF64sub_zero_iff (x y : spec_float) :
  valid_binary x = true -> valid_binary y = true ->
  sf_finite x = true -> sf_finite y = true ->
  SFeqb (SF64sub x y) (S754_zero false) = (sf_units x =? sf_units y)%Z.
Proof.
  intros Vx Vy Fx Fy.
  destruct x as [sx|sx| |sx mx ex], y as [sy|sy| |sy my ey]; try discriminate.
  - destruct sx, sy; reflexivity.
  - destruct (valid_finite_bounds _ _ _ Vy) as (He & _).
    assert (0 < Z.pos my * 2 ^ (ey + 1074))%Z
      by (apply Z.mul_pos_pos; [lia | apply Z.pow_pos_nonneg; lia]).
    cbn [SF64sub SFsub sf_units]. unfold SFeqb, SFcompare.
    symmetry. destruct sy; cbn [negb cond_Zopp]; apply Z.eqb_neq; lia.
  - destruct (valid_finite_bounds _ _ _ Vx) as (He & _).
    assert (0 < Z.pos mx * 2 ^ (ex + 1074))%Z
      by (apply Z.mul_pos_pos; [lia | apply Z.pow_pos_nonneg; lia]).
    cbn [SF64sub SFsub sf_units]. unfold SFeqb, SFcompare.
    symmetry. destruct sx; cbn [cond_Zopp]; apply Z.eqb_neq; lia.
  - destruct (valid_finite_bounds _ _ _ Vx) as (Hex & _).
    destruct (valid_finite_bounds _ _ _ Vy) as (Hey & _).
    unfold SF64sub, SFsub. cbn [sf_units].
    set (ez := Z.min ex ey).
    pose proof (shl_align_spec mx ex ez) as Ha.
    pose proof (shl_align_spec my ey ez) as Hb.
    destruct (shl_align mx ex ez) as [ma ea]. destruct (shl_align my ey ez) as [mc ec].
    destruct Ha as [Hea Hma]. destruct Hb as [Hec Hmc]. cbn [fst].
    assert (Hea' : ea = ez) by (unfold ez in *; lia).
    assert (Hec' : ec = ez) by (unfold ez in *; lia).
    rewrite Hea' in Hma. rewrite Hec' in Hmc.
    assert (Hp : (0 < 2 ^ (ez + 1074))%Z) by (apply Z.pow_pos_nonneg; unfold ez; lia).
    assert (Ux : cond_Zopp sx (Z.pos mx * 2 ^ (ex + 1074))
                 = (cond_Zopp sx (Z.pos ma) * 2 ^ (ez + 1074))%Z).
    { rewrite Hma. replace (ex + 1074)%Z with ((ex - ez) + (ez + 1074))%Z by lia.
      rewrite Z.pow_add_r by (unfold ez; lia). destruct sx; cbn [cond_Zopp]; lia. }
    assert (Uy : cond_Zopp sy (Z.pos my * 2 ^ (ey + 1074))
                 = (cond_Zopp sy (Z.pos mc) * 2 ^ (ez + 1074))%Z).
    { rewrite Hmc. replace (ey + 1074)%Z with ((ey - ez) + (ez + 1074))%Z by lia.
      rewrite Z.pow_add_r by (unfold ez; lia). destruct sy; cbn [cond_Zopp]; lia. }
    rewrite Ux, Uy.
    set (a := cond_Zopp sx (Z.pos ma)). set (b := cond_Zopp sy (Z.pos mc)).
    destruct (a - b)%Z as [|p|p] eqn:Hd; cbn [binary_normalize].
    + assert (E : b = a) by lia. rewrite E, Z.eqb_refl. reflexivity.
    + assert (Hne : (a * 2 ^ (ez + 1074) <> b * 2 ^ (ez + 1074))%Z) by nia.
      apply Z.eqb_neq in Hne. rewrite Hne.
      pose proof (binary_round_not_zero false p ez ltac:(unfold ez; lia)) as Hnz.
      destruct (binary_round prec emax false p ez) as [s0|s1| |s1 m1 e1];
        try reflexivity; try (destruct s1; reflexivity).
      exfalso. apply (Hnz s0). reflexivity.
    + assert (Hne : (a * 2 ^ (ez + 1074) <> b * 2 ^ (ez + 1074))%Z) by nia.
      apply Z.eqb_neq in Hne. rewrite Hne.
      pose proof (binary_round_not_zero true p ez ltac:(unfold ez; lia)) as Hnz.
      destruct (binary_round prec emax true p ez) as [s0|s1| |s1 m1 e1];
        try reflexivity; try (destruct s1; reflexivity).
      exfalso. apply (Hnz s0). reflexivity.
Qed.
End ExactDifference.

Section ResidualZero.
Local Open Scope float_scope.

Lemma sub_eqb_zero (x y : float) :
  finite_double x -> finite_double y -> (x - y =? 0) = (x =? y).
Proof.
  intros Fx Fy. rewrite !FloatAxioms.eqb_spec, FloatAxioms.sub_spec.
  change (Prim2SF 0) with (S754_zero false).
  rewrite SF64sub_zero_iff by (apply Prim2SF_valid || assumption).
  rewrite SFeqb_units by (apply Prim2SF_valid || assumption). reflexivity.
Qed.

(** X8: for finite coordinates, a position entry of the residual is zero
    exactly when the car and the goal have the same coordinate: the
    subtraction never rounds a non-zero difference to zero. *)
Theorem X8_position_residual_zero_iff_at_goal (data : mjData) :
  finite_double (qpos data !!! 0%nat) -> finite_double (mocap_pos data !!! 0%nat) ->
  finite_double (qpos data !!! 1%nat) -> finite_double (mocap_pos data !!! 1%nat) ->
  (residual data !!! 0%nat =? 0) = (qpos data !!! 0%nat =? mocap_pos data !!! 0%nat) /\
  (residual data !!! 1%nat =? 0) = (qpos data !!! 1%nat =? mocap_pos data !!! 1%nat) /\
  residual data !!! 2%nat = ctrl data !!! 0%nat /\
  residual data !!! 3%nat = ctrl data !!! 1%nat /\
  length (residual data) = 4%nat.
Proof.
  intros F0 G0 F1 G1. unfold residual.
  split; [apply sub_eqb_zero; assumption|].
  split; [apply sub_eqb_zero; assumption|].
  repeat split.
Qed.
End ResidualZero.

(** ** Telemetry: the speed ignores direction and history *)

Section SpeedSymmetry.
Local Open Scope float_scope.

(** The same number up to its sign. *)
Definition same_magnitude (a b : float) : Prop := a = b \/ a = - b.

Lemma same_magnitude_square (a b : float) : same_magnitude a b -> a * a = b * b.
Proof. intros [-> | ->]; [reflexivity | apply float_opp_square]. Qed.

(** X9: speed, rpm and temperature after an update depend only on the
    magnitudes of the two velocity components, whatever their signs and
    their order, and not on the dashboard before the update. *)
Theorem X9_speed_ignores_direction_and_history (data1 data2 : mjData)
    (car1 car2 : SimpleCar) :
  let vx := qvel data1 !!! 0%nat in
  let vy := qvel data1 !!! 1%nat in
  let wx := qvel data2 !!! 0%nat in
  let wy := qvel data2 !!! 1%nat in
  (same_magnitude wx vx /\ same_magnitude wy vy) \/
  (same_magnitude wx vy /\ same_magnitude wy vx) ->
  let d1 := dashboard_ (UpdateDashboardData data1 car1) in
  let d2 := dashboard_ (UpdateDashboardData data2 car2) in
  speed_kmh d1 = speed_kmh d2 /\ rpm d1 = rpm d2 /\ temperature d1 = temperature d2.
Proof.
  intros vx vy wx wy H d1 d2.
  destruct (update_speed_rpm_temp data1 car1) as (Hs1 & Hr1 & Ht1).
  destruct (update_speed_rpm_temp data2 car2) as (Hs2 & Hr2 & Ht2).
  fold d1 vx vy in Hs1, Hr1, Ht1. fold d2 wx wy in Hs2, Hr2, Ht2.
  assert (E : wx * wx + wy * wy = vx * vx + vy * vy).
  { destruct H as [[Hx Hy]|[Hx Hy]].
    - rewrite (same_magnitude_square _ _ Hx), (same_magnitude_square _ _ Hy).
      reflexivity.
    - rewrite (same_magnitude_square _ _ Hx), (same_magnitude_square _ _ Hy).
      apply float_add_comm. }
  rewrite E in Hs2, Hr2, Ht2.
  rewrite Hs1, Hs2, Hr1, Hr2, Ht1, Ht2. repeat split.
Qed.
End SpeedSymmetry.

(** ** Labels: truncation, and what an append leaves in its slot *)

Section LabelText.

Lemma substring_0_spec (k : nat) : forall s : string,
  String.length (String.substring 0 k s) = Nat.min k (String.length s) /\
  exists rest, s = String.append (String.substring 0 k s) rest.
Proof.
  induction k as [|k IH]; intros s.
  - destruct s; (split; [reflexivity | eexists; reflexivity]).
  - destruct s as [|c s]; [split; [reflexivity | exists ""; reflexivity]|].
    destruct (IH s) as [Hl [rest Hr]]. cbn [String.substring String.length].
    split; [rewrite Hl; reflexivity|].
    exists rest. change (String c s = String c (String.substring 0 k s +:+ rest)).
    f_equal. exact Hr.
Qed.

Lemma substring_0_all (k : nat) : forall s : string,
  (String.length s <= k)%nat -> String.substring 0 k s = s.
Proof.
  induction k as [|k IH]; intros s Hs.
  - destruct s; [reflexivity | simpl in Hs; lia].
  - destruct s as [|c s]; [reflexivity|]. cbn [String.substring].
    f_equal. apply IH. simpl in Hs. lia.
Qed.

(** X10: a label append with room stores the first 99 bytes of the text:
    the stored label is a prefix of the text of length [min 99 (length text)],
    and the text itself when that has at most 99 bytes. *)
Theorem X10_label_text_cut_to_99_bytes x y z (text : string) sz r g b (s : mjvScene) :
  scene_ok s -> (ngeom s < maxgeom s)%Z ->
  let s' := AddLabel x y z text sz r g b s in
  ngeom s' = (ngeom s + 1)%Z /\
  exists G, geoms s' !! Z.to_nat (ngeom s) = Some G /\
    type G = mjGEOM_LABEL /\
    String.length (label G) = Nat.min 99 (String.length text) /\
    (exists rest, text = String.append (label G) rest) /\
    ((String.length text <= 99)%nat -> label G = text).
Proof.
  intros Hok Hlt s'.
  assert (Hs' : s' = emit (label_geom x y z text sz r g b) s).
  { unfold s', AddLabel. destruct (Z.ltb_spec (ngeom s) (maxgeom s)); [reflexivity | lia]. }
  destruct (emit_ok (label_geom x y z text sz r g b) s Hok Hlt) as (_ & _ & Hn & Hat & _).
  rewrite Hs'. split; [exact Hn|].
  eexists. split; [exact Hat|]. cbn [label_geom type label].
  unfold truncate, label_size. change (100 - 1)%nat with 99%nat.
  destruct (substring_0_spec 99 text) as [Hl Hp].
  split; [reflexivity|]. split; [exact Hl|]. split; [exact Hp|].
  apply substring_0_all.
Qed.
End LabelText.

Section StaleSlots.
Variable fmt_f : nat -> float -> string.

(** X11: an overlay pass does not clear what it does not write: every box,
    ellipsoid and sphere it appends keeps the label text that its slot held
    before the pass, and every label and the sphere keep the slot's old
    rotation matrix. *)
Theorem X11_overlay_keeps_old_label_and_matrix model data car timers scene :
  scene_ok scene ->
  exists scene',
    snd (ModifyScene fmt_f model data car (timers, Some scene)) = Some scene' /\
    forall i, (Z.to_nat (ngeom scene) <= i < Z.to_nat (ngeom scene'))%nat ->
      exists g, geoms scene' !! i = Some g /\
        (type g <> mjGEOM_LABEL -> label g = label (geoms scene !!! i)) /\
        (type g = mjGEOM_LABEL \/ type g = mjGEOM_SPHERE ->
           mat g = mat (geoms scene !!! i)).
Proof.
  intros Hok.
  destruct (Z.eq_dec (maxgeom scene) 0%Z) as [Hz|Hnz].
  - exists scene. rewrite (modify_scene_skip fmt_f model data car timers scene Hz).
    split; [reflexivity | intros i Hi; lia].
  - destruct (modify_scene_calls fmt_f model data car timers scene Hnz)
      as (pre & post & Hcalls).
    eexists. split; [exact Hcalls|].
    intros i Hi.
    destruct (run_calls_emitted _ scene i Hok Hi) as (c & _ & Hg).
    eexists. split; [exact Hg|].
    destruct c; cbn; split; try reflexivity; try congruence;
      intros [H|H]; discriminate H.
Qed.
End StaleSlots.

(** ** Binary64 arithmetic: rounding against an upper bound *)

Section RoundingUpperBound.
Local Open Scope Z_scope.

Lemma shr_1_exact (k : Z) :
  (0 <= k)%Z ->
  shr_1 (Build_shr_record (2 * k) false false) = Build_shr_record k false false.
Proof. intros Hk. destruct k as [|p|p]; [reflexivity | reflexivity | lia]. Qed.

Lemma iter_pos_shr_1_exact (p : positive) : forall k : Z,
  (0 <= k)%Z ->
  SpecFloat.iter_pos shr_1 p (Build_shr_record (k * 2 ^ Z.pos p) false false)
  = Build_shr_record k false false.
Proof.
  induction p as [p IH|p IH|]; intros k Hk; cbn [SpecFloat.iter_pos].
  - assert (Hp : (0 <= 2 ^ Z.pos p)%Z) by (apply Z.pow_nonneg; lia).
    replace (k * 2 ^ Z.pos p~1)%Z with (2 * ((k * 2 ^ Z.pos p) * 2 ^ Z.pos p))%Z.
    2:{ replace (Z.pos p~1) with (1 + Z.pos p + Z.pos p)%Z by lia.
        rewrite !Z.pow_add_r by lia. change (2 ^ 1)%Z with 2%Z. ring. }
    rewrite shr_1_exact by (repeat apply Z.mul_nonneg_nonneg; assumption).
    rewrite IH by (apply Z.mul_nonneg_nonneg; assumption).
    apply IH, Hk.
  - assert (Hp : (0 <= 2 ^ Z.pos p)%Z) by (apply Z.pow_nonneg; lia).
    replace (k * 2 ^ Z.pos p~0)%Z with ((k * 2 ^ Z.pos p) * 2 ^ Z.pos p)%Z.
    2:{ replace (Z.pos p~0) with (Z.pos p + Z.pos p)%Z by lia.
        rewrite !Z.pow_add_r by lia. ring. }
    rewrite IH by (apply Z.mul_nonneg_nonneg; assumption).
    apply IH, Hk.
  - replace (k * 2 ^ 1)%Z with (2 * k)%Z by (change (2 ^ 1)%Z with 2%Z; ring).
    apply shr_1_exact, Hk.
Qed.

(** Shifting out zeros keeps the location exact. *)
Lemma shr_exact (k e n : Z) :
  (0 <= k)%Z -> (0 < n)%Z ->
  fst (shr (Build_shr_record (k * 2 ^ n) false false) e n)
  = Build_shr_record k false false.
Proof.
  intros Hk Hn. unfold shr. destruct n as [|p|p]; try lia.
  cbn [fst]. apply iter_pos_shr_1_exact, Hk.
Qed.

Lemma round_no_shift (m : Z) (l : location) :
  (round_nearest_even (shr_m (shr_record_of_loc m l))
     (loc_of_shr_record (shr_record_of_loc m l))
   <= m + match l with loc_Exact => 0 | _ => 1 end)%Z.
Proof. destruct l as [|[| |]]; simpl; try destruct (Z.even m); lia. Qed.

Lemma digits_mono (a : Z) (mb : positive) (ea eb K : Z) :
  (0 < a)%Z -> (0 <= ea + K)%Z -> (0 <= eb + K)%Z ->
  (a * 2 ^ (ea + K) <= Z.pos mb * 2 ^ (eb + K))%Z ->
  (Zdigits2 a + ea <= Z.pos (digits2_pos mb) + eb)%Z.
Proof.
  intros Ha Hea Heb H. destruct a as [|p|p]; try lia. rewrite Zdigits2_pos.
  pose proof (digits2_pos_spec p) as [Hlo _].
  pose proof (digits2_pos_spec mb) as [_ Hhi].
  set (da := Z.pos (digits2_pos p)) in *. set (db := Z.pos (digits2_pos mb)) in *.
  assert (Hda : (0 < da)%Z) by (unfold da; lia).
  assert (Hdb : (0 < db)%Z) by (unfold db; lia).
  assert (Hlt : (2 ^ (da - 1 + (ea + K)) < 2 ^ (db + (eb + K)))%Z).
  { rewrite (Z.pow_add_r 2 (da - 1)), (Z.pow_add_r 2 db) by lia.
    apply Z.le_lt_trans with (Z.pos p * 2 ^ (ea + K))%Z.
    { apply Z.mul_le_mono_nonneg_r; [apply Z.pow_nonneg; lia | exact Hlo]. }
    apply Z.le_lt_trans with (Z.pos mb * 2 ^ (eb + K))%Z; [exact H|].
    apply Z.mul_lt_mono_pos_r; [apply Z.pow_pos_nonneg; lia | exact Hhi]. }
  apply Z.pow_lt_mono_r_iff in Hlt; lia.
Qed.

Lemma valid_canonical (s : bool) (m : positive) (e : Z) :
  valid_binary (S754_finite s m e) = true ->
  Z.max (Z.pos (digits2_pos m) + e - 53) (-1074) = e /\ (e <= 971)%Z.
Proof.
  unfold valid_binary, bounded, canonical_mantissa. intros H.
  apply andb_prop in H. destruct H as [Hc Hb].
  apply Z.eqb_eq in Hc. apply Z.leb_le in Hb. rewrite fexp_eq in Hc.
  change (emax - prec)%Z with 971%Z in Hb. split; assumption.
Qed.

(** If the number [m * 2 ^ e], with what its location adds, is at or below
    the representable number [(mb, eb)], so is its rounding. *)
Lemma binary_round_aux_le (mb : positive) (eb m e K : Z) (l : location) :
  valid_binary (S754_finite false mb eb) = true ->
  valid_binary (binary_round_aux prec emax false m e l) = true ->
  (0 <= m)%Z -> (e <= 971)%Z -> (0 <= e + K)%Z -> (0 <= eb + K)%Z -> (1074 <= K)%Z ->
  ((m + match l with loc_Exact => 0 | _ => 1 end) * 2 ^ (e + K)
   <= Z.pos mb * 2 ^ (eb + K))%Z ->
  SFleb (binary_round_aux prec emax false m e l) (S754_finite false mb eb) = true.
Proof.
  intros Vb Vout Hm He971 He Hb HK Hle.
  destruct (valid_canonical _ _ _ Vb) as [Hcan Hemax].
  set (up := match l with loc_Exact => 0%Z | _ => 1%Z end) in *.
  assert (Hup : (0 <= up <= 1)%Z) by (unfold up; destruct l; lia).
  assert (Hpe : (0 < 2 ^ (e + K))%Z) by (apply Z.pow_pos_nonneg; lia).
  assert (Hpb : (0 < 2 ^ (eb + K))%Z) by (apply Z.pow_pos_nonneg; lia).
  unfold binary_round_aux in *.
  destruct (shr_fexp_spec m e l Hm) as [H1 H1e].
  destruct (shr_fexp prec emax m e l) as [mrs' e1] eqn:Eshr.
  cbn [fst snd] in H1, H1e.
  set (n1 := (fexp prec emax (Zdigits2 m + e) - e)%Z) in *.
  set (q1 := round_nearest_even (shr_m mrs') (loc_of_shr_record mrs')) in *.
  assert (Hstage1 : (0 <= q1)%Z /\ (e <= e1 <= 971)%Z /\
                    (q1 * 2 ^ (e1 + K) <= Z.pos mb * 2 ^ (eb + K))%Z).
  { destruct (Z.ltb_spec 0 n1) as [Hpos|Hneg].
    - (* digits are shifted out *)
      assert (Hpn : (0 < 2 ^ n1)%Z) by (apply Z.pow_pos_nonneg; lia).
      assert (He1 : (e1 <= eb)%Z).
      { rewrite H1e. unfold n1. rewrite fexp_eq.
        destruct (Z.eq_dec m 0%Z) as [Hm0|Hm0].
        - unfold n1 in Hpos. rewrite fexp_eq in Hpos. rewrite Hm0 in *.
          change (Zdigits2 0) with 0%Z in *. lia.
        - pose proof (digits_mono m mb e eb K ltac:(lia) He Hb) as Hd.
          assert (Hd' : (Zdigits2 m + e <= Z.pos (digits2_pos mb) + eb)%Z).
          { apply Hd. etransitivity; [|exact Hle].
            apply Z.mul_le_mono_nonneg_r; lia. }
          lia. }
      set (B := (Z.pos mb * 2 ^ (eb - e1))%Z).
      assert (HB : (Z.pos mb * 2 ^ (eb + K) = B * 2 ^ n1 * 2 ^ (e + K))%Z).
      { unfold B. rewrite <- !Z.mul_assoc, <- !Z.pow_add_r by lia.
        f_equal. f_equal. lia. }
      assert (HmB : (m + up <= B * 2 ^ n1)%Z).
      { rewrite HB in Hle. apply Z.mul_le_mono_pos_r in Hle; assumption. }
      assert (Hq0 : (0 <= m / 2 ^ n1 <= B)%Z).
      { split; [apply Z.div_pos; lia|].
        apply Z.div_le_upper_bound; [exact Hpn|]. lia. }
      assert (Hq1 : (0 <= q1 <= B)%Z).
      { destruct (Z.eq_dec (m / 2 ^ n1) B) as [Heq|Hne].
        - (* the number is the bound: nothing is shifted out *)
          pose proof (Z.mul_div_le m (2 ^ n1) Hpn) as Hfl. rewrite Heq in Hfl.
          assert (Hup0 : up = 0%Z) by lia.
          assert (HmE : m = (B * 2 ^ n1)%Z) by lia.
          assert (Hl : l = loc_Exact) by (unfold up in Hup0; destruct l; [reflexivity | discriminate]).
          assert (Emrs : mrs' = Build_shr_record B false false).
          { pose proof (f_equal fst Eshr) as E1. cbn [fst] in E1. rewrite <- E1.
            unfold shr_fexp. fold n1. rewrite Hl.
            change (shr_record_of_loc m loc_Exact) with (Build_shr_record m false false).
            rewrite HmE. apply shr_exact; [unfold B; lia | exact Hpos]. }
          unfold q1. rewrite Emrs. simpl. unfold B. split; [lia | lia].
        - unfold q1.
          destruct (round_nearest_even_cases (shr_m mrs') (loc_of_shr_record mrs'))
            as [->| ->]; rewrite H1; lia. }
      split; [lia|]. split; [lia|].
      rewrite HB. rewrite H1e.
      replace (e + n1 + K)%Z with (n1 + (e + K))%Z by lia.
      rewrite Z.pow_add_r, Z.mul_assoc by lia.
      apply Z.mul_le_mono_nonneg_r; [lia|].
      apply Z.mul_le_mono_nonneg_r; lia.
    - (* no shift *)
      assert (Emrs : mrs' = shr_record_of_loc m l).
      { pose proof (f_equal fst Eshr) as E1. cbn [fst] in E1. rewrite <- E1.
        unfold shr_fexp. fold n1. unfold shr. destruct n1; try reflexivity; lia. }
      pose proof (round_no_shift m l) as Hr. fold up in Hr. rewrite <- Emrs in Hr.
      fold q1 in Hr.
      assert (Hq1 : (m <= q1)%Z).
      { unfold q1.
        destruct (round_nearest_even_cases (shr_m mrs') (loc_of_shr_record mrs'))
          as [->| ->]; rewrite H1; lia. }
      split; [lia|]. split; [lia|]. rewrite H1e.
      etransitivity; [|exact Hle].
      apply Z.mul_le_mono_nonneg_r; lia. }
  destruct Hstage1 as (Hq1 & He1 & Hb1).
  destruct (shr_fexp_spec q1 e1 loc_Exact Hq1) as [H2 H2e].
  destruct (shr_fexp prec emax q1 e1 loc_Exact) as [mrs'' e2].
  cbn [fst snd] in H2, H2e.
  set (n2 := (fexp prec emax (Zdigits2 q1 + e1) - e1)%Z) in *.
  change (valid_binary (sf_out (shr_m mrs'') e2) = true) in Vout.
  change (SFleb (sf_out (shr_m mrs'') e2) (S754_finite false mb eb) = true).
  assert (Hq2 : (0 <= shr_m mrs'')%Z) by (rewrite H2; apply shifted_nonneg, Hq1).
  destruct (shr_m mrs'') as [|p|p] eqn:Ep; [reflexivity | | lia].
  assert (Hq1pos : (0 < q1)%Z).
  { destruct (Z.eq_dec q1 0%Z) as [E|E]; [|lia]. rewrite E in H2.
    destruct (Z.ltb_spec 0 n2) as [Hpos|Hneg];
      [rewrite Z.div_0_l in H2 by (apply Z.pow_nonzero; lia)|]; lia. }
  assert (He2 : (e1 <= e2 <= 971)%Z).
  { rewrite H2e. destruct (Z.ltb_spec 0 n2) as [Hpos|Hneg]; [|lia].
    pose proof (digits_mono q1 mb e1 eb K Hq1pos ltac:(lia) Hb Hb1) as Hd.
    unfold n2 in *. rewrite fexp_eq in *. lia. }
  assert (Hval : (Z.pos p * 2 ^ (e2 + K) <= Z.pos mb * 2 ^ (eb + K))%Z).
  { etransitivity; [|exact Hb1]. rewrite H2, H2e.
    destruct (Z.ltb_spec 0 n2) as [Hpos|Hneg]; [|lia].
    assert (Hpn : (0 < 2 ^ n2)%Z) by (apply Z.pow_pos_nonneg; lia).
    replace (e1 + n2 + K)%Z with (n2 + (e1 + K))%Z by lia.
    rewrite Z.pow_add_r, Z.mul_assoc by lia.
    apply Z.mul_le_mono_nonneg_r; [apply Z.pow_nonneg; lia|].
    rewrite Z.mul_comm. apply Z.mul_div_le, Hpn. }
  unfold sf_out in *.
  destruct (Z.leb_spec e2 (emax - prec)) as [Hfin|Hinf];
    [|change (emax - prec)%Z with 971%Z in Hinf; lia].
  destruct (valid_finite_bounds _ _ _ Vout) as (Hlo2 & _).
  rewrite SFleb_units by (assumption || reflexivity).
  apply Z.leb_le. cbn [sf_units cond_Zopp].
  replace (e2 + 1074)%Z with ((e2 + K) + (1074 - K))%Z by lia.
  replace (eb + 1074)%Z with ((eb + K) + (1074 - K))%Z by lia.
  apply pow2_le_shift; lia || exact Hval.
Qed.
End RoundingUpperBound.

Section OperationUpperBounds.
Local Open Scope Z_scope.

Lemma SF64mul_le (b x y : spec_float) :
  sf_pos b -> sf_pos x -> sf_pos y -> valid_binary (SF64mul x y) = true ->
  sf_units x * sf_units y <= sf_units b * 2 ^ 1074 ->
  SFleb (SF64mul x y) b = true.
Proof.
  intros (mb & eb & -> & Vb) (mx & ex & -> & Vx) (my & ey & -> & Vy) Vout H.
  destruct (valid_finite_bounds _ _ _ Vb) as (Heb & Hmb & _).
  destruct (valid_finite_bounds _ _ _ Vx) as (Hex & _ & Hnx).
  destruct (valid_finite_bounds _ _ _ Vy) as (Hey & _ & Hny).
  unfold SF64mul, SFmul in *. cbn [xorb sf_units cond_Zopp] in *.
  assert (Hscaled : Z.pos (mx * my) * 2 ^ (ex + ey + 2148)
                    <= Z.pos mb * 2 ^ (eb + 2148)).
  { rewrite Pos2Z.inj_mul.
    replace (eb + 2148) with ((eb + 1074) + 1074) by lia.
    replace (ex + ey + 2148) with ((ex + 1074) + (ey + 1074)) by lia.
    rewrite (Z.pow_add_r 2 (eb + 1074) 1074), (Z.pow_add_r 2 (ex + 1074) (ey + 1074)) by lia.
    etransitivity; [|etransitivity; [exact H|]]; apply Z.eq_le_incl; ring. }
  apply (binary_round_aux_le mb eb _ _ 2148); try assumption; try lia.
  (* the exponent of the product *)
  { destruct (Z.eq_dec ex (-1074)) as [E|E]; [lia|].
    destruct (Z.eq_dec ey (-1074)) as [E'|E']; [lia|].
    assert (H1 : 2 ^ 52 <= Z.pos mx) by (apply Hnx; lia).
    assert (H2 : 2 ^ 52 <= Z.pos my) by (apply Hny; lia).
    assert (Hlt : 2 ^ (104 + (ex + ey + 2148)) < 2 ^ (53 + (eb + 2148))).
    { rewrite (Z.pow_add_r 2 104), (Z.pow_add_r 2 53) by lia.
      apply Z.le_lt_trans with (Z.pos (mx * my) * 2 ^ (ex + ey + 2148)).
      - apply Z.mul_le_mono_nonneg_r; [apply Z.pow_nonneg; lia|].
        rewrite Pos2Z.inj_mul. change (2 ^ 104) with (2 ^ 52 * 2 ^ 52).
        apply Z.mul_le_mono_nonneg; lia.
      - eapply Z.le_lt_trans; [exact Hscaled|].
        apply Z.mul_lt_mono_pos_r; [apply Z.pow_pos_nonneg; lia | exact Hmb]. }
    apply Z.pow_lt_mono_r_iff in Hlt; lia. }
Qed.

Lemma SF64add_le (b x y : spec_float) :
  sf_pos b -> sf_pos x -> sf_pos y -> valid_binary (SF64add x y) = true ->
  sf_units x + sf_units y <= sf_units b ->
  SFleb (SF64add x y) b = true.
Proof.
  intros (mb & eb & -> & Vb) (mx & ex & -> & Vx) (my & ey & -> & Vy) Vout H.
  destruct (valid_finite_bounds _ _ _ Vb) as (Heb & _).
  destruct (valid_finite_bounds _ _ _ Vx) as (Hex & _).
  destruct (valid_finite_bounds _ _ _ Vy) as (Hey & _).
  unfold SF64add, SFadd in *. cbn [cond_Zopp sf_units] in *.
  set (ez := Z.min ex ey) in *.
  pose proof (shl_align_spec mx ex ez) as Ha.
  pose proof (shl_align_spec my ey ez) as Hb.
  destruct (shl_align mx ex ez) as [ma ea]. destruct (shl_align my ey ez) as [mc ec].
  destruct Ha as [Hea Hma]. destruct Hb as [Hec Hmc]. cbn [fst] in *.
  change (Z.pos ma + Z.pos mc)%Z with (Z.pos (ma + mc)) in *.
  unfold binary_normalize, binary_round in *.
  set (t := fexp prec emax (Z.pos (digits2_pos (ma + mc)) + ez)) in *.
  pose proof (shl_align_spec (ma + mc) ez t) as Hs.
  destruct (shl_align (ma + mc) ez t) as [mz ez'].
  destruct Hs as [Hez Hmz].
  assert (Ht : (-1074 <= t)%Z) by apply fexp_ge_emin.
  assert (Hea' : ea = ez) by (unfold ez in *; lia).
  assert (Hec' : ec = ez) by (unfold ez in *; lia).
  subst ea ec. rewrite Hea' in Hma. rewrite Hec' in Hmc.
  apply (binary_round_aux_le mb eb _ _ 1074); try assumption; try (unfold ez in *; lia).
  rewrite Z.add_0_r, Hmz, Pos2Z.inj_add, Hma, Hmc.
  rewrite <- Z.mul_assoc, <- Z.pow_add_r by (unfold ez in *; lia).
  replace (ez - ez' + (ez' + 1074))%Z with (ez + 1074)%Z by lia.
  rewrite Z.mul_add_distr_r, <- !Z.mul_assoc, <- !Z.pow_add_r by (unfold ez in *; lia).
  replace (ex - ez + (ez + 1074))%Z with (ex + 1074)%Z by lia.
  replace (ey - ez + (ez + 1074))%Z with (ey + 1074)%Z by lia.
  exact H.
Qed.

Lemma new_location_zero (n : Z) : new_location n 0 = loc_Exact.
Proof.
  unfold new_location, new_location_even, new_location_odd.
  destruct (Z.even n); reflexivity.
Qed.

(** Division: if [x <= b * y] for the representable number [b], the rounded
    quotient is at or below [b]. *)
Lemma SF64div_le (b x y : spec_float) :
  sf_pos b -> sf_pos x -> sf_pos y -> valid_binary (SF64div x y) = true ->
  sf_units x * 2 ^ 1074 <= sf_units b * sf_units y ->
  SFleb (SF64div x y) b = true.
Proof.
  intros (mb & eb & -> & Vb) (mx & ex & -> & Vx) (my & ey & -> & Vy) Vout H.
  destruct (valid_finite_bounds _ _ _ Vb) as (Heb & Hmb53 & _).
  destruct (valid_finite_bounds _ _ _ Vx) as (Hex & _).
  destruct (valid_finite_bounds _ _ _ Vy) as (Hey & _).
  cbn [sf_units cond_Zopp] in H.
  unfold SF64div, SFdiv in *. cbn [xorb] in *. unfold SFdiv_core_binary in *.
  rewrite !Zdigits2_pos, fexp_eq in *.
  pose proof (digits2_pos_spec mx) as [Hlo1 Hhi1].
  pose proof (digits2_pos_spec my) as [Hlo2 Hhi2].
  set (d1 := Z.pos (digits2_pos mx)) in *.
  set (d2 := Z.pos (digits2_pos my)) in *.
  set (e' := Z.min (Z.max (d1 + ex - (d2 + ey) - 53) (-1074)) (ex - ey)) in *.
  set (s := (ex - ey - e')%Z) in *.
  assert (Hs : (0 <= s)%Z) by (unfold s, e'; lia).
  set (m' := match s with 0%Z => Z.pos mx | Z.pos _ => Z.shiftl (Z.pos mx) s
                      | Z.neg _ => 0%Z end) in *.
  assert (Hm' : m' = (Z.pos mx * 2 ^ s)%Z).
  { unfold m'. destruct s as [|p|p] eqn:Es; [simpl; lia | | lia].
    apply Z.shiftl_mul_pow2. lia. }
  pose proof (Z_div_mod m' (Z.pos my) ltac:(lia)) as Hdm.
  destruct (Z.div_eucl m' (Z.pos my)) as [q r]. destruct Hdm as [Hq Hr].
  assert (He' : (-2045 <= e')%Z) by (unfold e'; lia).
  assert (Hq0 : 0 <= q).
  { assert (Hq' : q = (m' / Z.pos my)%Z).
    { apply (Z.div_unique m' (Z.pos my) q r); [left; lia | lia]. }
    rewrite Hq'. apply Z.div_pos; [rewrite Hm'|]; lia. }
  set (T := ey + 4000).
  (* the hypothesis at a common scale *)
  assert (Hcommon : m' * 2 ^ (e' + T) <= Z.pos mb * Z.pos my * 2 ^ (eb + T)).
  { rewrite Hm', <- Z.mul_assoc, <- Z.pow_add_r by (unfold T; lia).
    replace (s + (e' + T)) with ((ex + 1074) + 1074 + 1852) by (unfold s, T; lia).
    replace (eb + T) with ((eb + 1074) + (ey + 1074) + 1852) by (unfold T; lia).
    apply pow2_le_shift; try lia.
    rewrite (Z.pow_add_r 2 (eb + 1074) (ey + 1074)) by lia.
    rewrite (Z.pow_add_r 2 (ex + 1074) 1074) by lia.
    etransitivity; [|etransitivity; [exact H|]]; apply Z.eq_le_incl; ring. }
  assert (Hgrid : e' <= eb).
  { destruct (Z.le_gt_cases e' eb) as [Hle|Hgt]; [exact Hle | exfalso].
    assert (Hmax : (-1074 < d1 + ex - (d2 + ey) - 53)%Z) by (unfold e' in Hgt; lia).
    assert (Hs53 : (53 + d2 - d1 <= s)%Z) by (unfold s, e'; lia).
    assert (Hm52 : 2 ^ 52 * Z.pos my <= m').
    { rewrite Hm'.
      apply Z.le_trans with (2 ^ 52 * 2 ^ d2)%Z.
      { apply Z.mul_le_mono_nonneg_l; lia. }
      apply Z.le_trans with (2 ^ (d1 - 1) * 2 ^ s)%Z.
      { rewrite <- !Z.pow_add_r by (unfold d1, d2; lia).
        apply Z.pow_le_mono_r; lia. }
      apply Z.mul_le_mono_nonneg_r; [apply Z.pow_nonneg; lia | exact Hlo1]. }
    assert (Hlt : 2 ^ (52 + (e' + T)) * Z.pos my < 2 ^ (53 + (eb + T)) * Z.pos my).
    { rewrite (Z.pow_add_r 2 52), (Z.pow_add_r 2 53) by (unfold T; lia).
      apply Z.le_lt_trans with (m' * 2 ^ (e' + T)).
      - rewrite <- Z.mul_assoc, (Z.mul_comm (2 ^ (e' + T))), Z.mul_assoc.
        apply Z.mul_le_mono_nonneg_r; [apply Z.pow_nonneg; unfold T; lia | exact Hm52].
      - eapply Z.le_lt_trans; [exact Hcommon|].
        rewrite <- Z.mul_assoc, (Z.mul_comm (Z.pos my)), Z.mul_assoc.
        apply Z.mul_lt_mono_pos_r; [lia|].
        apply Z.mul_lt_mono_pos_r; [apply Z.pow_pos_nonneg; unfold T; lia | exact Hmb53]. }
    apply Z.mul_lt_mono_pos_r in Hlt; [|lia].
    apply Z.pow_lt_mono_r_iff in Hlt; unfold T in *; lia. }
  apply (binary_round_aux_le mb eb q e' 2148); try assumption; try lia.
  set (B := Z.pos mb * 2 ^ (eb - e')).
  assert (HB : Z.pos mb * 2 ^ (eb + 2148) = B * 2 ^ (e' + 2148)).
  { unfold B. rewrite <- Z.mul_assoc, <- Z.pow_add_r by lia. f_equal. f_equal. lia. }
  assert (HmB : m' <= B * Z.pos my).
  { replace (eb + T) with ((eb - e') + (e' + T)) in Hcommon by lia.
    rewrite (Z.pow_add_r 2 (eb - e')) in Hcommon by (unfold T; lia).
    assert (Hp : 0 < 2 ^ (e' + T)) by (apply Z.pow_pos_nonneg; unfold T; lia).
    apply (Z.mul_le_mono_pos_r _ _ (2 ^ (e' + T))); [exact Hp|].
    etransitivity; [exact Hcommon|]. apply Z.eq_le_incl. unfold B. ring. }
  rewrite HB. apply Z.mul_le_mono_nonneg_r; [apply Z.pow_nonneg; lia|].
  destruct (Z.eq_dec r 0) as [Hr0|Hr0].
  - rewrite Hr0, new_location_zero, Z.add_0_r.
    rewrite Hq, Hr0, Z.add_0_r in HmB.
    apply (Z.mul_le_mono_pos_r _ _ (Z.pos my)); lia.
  - assert (Hlt : q < B) by (apply (Z.mul_lt_mono_pos_r (Z.pos my)); lia).
    destruct (new_location (Z.pos my) r); lia.
Qed.
End OperationUpperBounds.

(** *** Steps of a computation against constant bounds *)

Section LowerBoundSteps.
Local Open Scope float_scope.

(** A positive normal constant. *)
Definition normal_double (b : float) : Prop :=
  exists m e, Prim2SF b = S754_finite false m e /\ (2 ^ 52 <= Z.pos m)%Z.

Lemma normal_double_sf (b : float) : normal_double b -> sf_normal (Prim2SF b).
Proof. intros (m & e & H & Hm). exact (sf_normal_of b m e H Hm). Qed.

Lemma normal_double_finite (b : float) : normal_double b -> finite_double b.
Proof. intros (m & e & H & _). unfold finite_double. rewrite H. reflexivity. Qed.

Lemma normal_double_pos (b : float) : normal_double b -> sf_pos (Prim2SF b).
Proof. intros (m & e & H & _). exact (sf_pos_of b m e H). Qed.

Lemma normal_double_units (b : float) : normal_double b -> (0 < sf_units (Prim2SF b))%Z.
Proof.
  intros (m & e & H & _). pose proof (Prim2SF_valid b) as V. rewrite H in *.
  destruct (valid_finite_bounds _ _ _ V) as (He & _). cbn [sf_units cond_Zopp].
  apply Z.mul_pos_pos; [lia | apply Z.pow_pos_nonneg; lia].
Qed.

(** What is at or above a normal constant is positive and finite, or is
    plus infinity. *)
Lemma above_normal (bx x : float) :
  normal_double bx -> (bx <=? x) = true ->
  (sf_pos (Prim2SF x) /\ (sf_units (Prim2SF bx) <= sf_units (Prim2SF x))%Z) \/
  Prim2SF x = S754_infinity false.
Proof.
  intros Hb Hle. pose proof Hb as (m & e & H & _).
  destruct (leb_pos_cases bx x m e H Hle) as [(m' & e' & Ex)|Ex]; [left | right; exact Ex].
  split; [exact (sf_pos_of x m' e' Ex)|].
  apply units_of_leb; [apply normal_double_finite, Hb | | exact Hle].
  unfold finite_double. rewrite Ex. reflexivity.
Qed.

Lemma leb_div_ge (b c x bx : float) :
  normal_double b -> normal_double c -> normal_double bx -> (bx <=? x) = true ->
  (sf_units (Prim2SF b) * sf_units (Prim2SF c)
   <= sf_units (Prim2SF bx) * 2 ^ 1074)%Z ->
  (b <=? x / c) = true.
Proof.
  intros Hb Hc Hbx Hle Hu.
  rewrite FloatAxioms.leb_spec, FloatAxioms.div_spec.
  destruct (above_normal bx x Hbx Hle) as [[Hx Hux]|Ex].
  - apply SF64div_ge;
      [apply normal_double_sf, Hb | exact Hx | apply normal_double_pos, Hc |].
    etransitivity; [exact Hu|].
    apply Z.mul_le_mono_nonneg_r; [apply Z.pow_nonneg; lia | exact Hux].
  - rewrite Ex. destruct Hb as (mb & eb & -> & _). destruct Hc as (mc & ec & -> & _).
    reflexivity.
Qed.

Lemma leb_mul_ge (b c x bx : float) :
  normal_double b -> normal_double c -> normal_double bx -> (bx <=? x) = true ->
  (sf_units (Prim2SF b) * 2 ^ 1074
   <= sf_units (Prim2SF bx) * sf_units (Prim2SF c))%Z ->
  (b <=? x * c) = true.
Proof.
  intros Hb Hc Hbx Hle Hu.
  rewrite FloatAxioms.leb_spec, FloatAxioms.mul_spec.
  destruct (above_normal bx x Hbx Hle) as [[Hx Hux]|Ex].
  - apply SF64mul_ge;
      [apply normal_double_sf, Hb | exact Hx | apply normal_double_pos, Hc |].
    etransitivity; [exact Hu|].
    apply Z.mul_le_mono_nonneg_r;
      [apply Z.lt_le_incl, normal_double_units, Hc | exact Hux].
  - rewrite Ex. destruct Hb as (mb & eb & -> & _). destruct Hc as (mc & ec & -> & _).
    reflexivity.
Qed.

Lemma leb_add_ge (b c x bx : float) :
  normal_double b -> normal_double c -> normal_double bx -> (bx <=? x) = true ->
  (sf_units (Prim2SF b) <= sf_units (Prim2SF c) + sf_units (Prim2SF bx))%Z ->
  (b <=? c + x) = true.
Proof.
  intros Hb Hc Hbx Hle Hu.
  rewrite FloatAxioms.leb_spec, FloatAxioms.add_spec.
  destruct (above_normal bx x Hbx Hle) as [[Hx Hux]|Ex].
  - apply SF64add_ge;
      [apply normal_double_sf, Hb | apply normal_double_pos, Hc | exact Hx | lia].
  - rewrite Ex. destruct Hb as (mb & eb & -> & _). destruct Hc as (mc & ec & -> & _).
    reflexivity.
Qed.
End LowerBoundSteps.


Section UpperBoundSteps.
Local Open Scope float_scope.

Lemma pos_finite_units (c : float) : pos_finite c -> (0 < sf_units (Prim2SF c))%Z.
Proof.
  intros (m & e & H). pose proof (Prim2SF_valid c) as V. rewrite H in *.
  destruct (valid_finite_bounds _ _ _ V) as (He & _). cbn [sf_units cond_Zopp].
  apply Z.mul_pos_pos; [lia | apply Z.pow_pos_nonneg; lia].
Qed.

Lemma pos_finite_sf (c : float) : pos_finite c -> sf_pos (Prim2SF c).
Proof. intros (m & e & H). exact (sf_pos_of c m e H). Qed.

Lemma pos_finite_finite (c : float) : pos_finite c -> finite_double c.
Proof. intros (m & e & H). unfold finite_double. rewrite H. reflexivity. Qed.

(** What is not below zero and at most a finite number is a zero, or is
    positive and finite. *)
Lemma below_finite (x bx : float) :
  pos_finite bx -> nonneg x -> (x <=? bx) = true ->
  (exists s, Prim2SF x = S754_zero s) \/
  (sf_pos (Prim2SF x) /\ (sf_units (Prim2SF x) <= sf_units (Prim2SF bx))%Z).
Proof.
  intros Hb Hx Hle. pose proof (pos_finite_finite bx Hb) as Fb.
  destruct (Prim2SF x) as [s|s| |s m e] eqn:Ex.
  - left. exists s. reflexivity.
  - exfalso. destruct Hb as (mb & eb & Eb).
    rewrite FloatAxioms.leb_spec, Ex, Eb in Hle. unfold nonneg in Hx. rewrite Ex in Hx.
    destruct s; discriminate.
  - unfold nonneg in Hx. rewrite Ex in Hx. discriminate.
  - right. unfold nonneg in Hx. rewrite Ex in Hx. destruct s; [discriminate|].
    rewrite <- Ex. split; [exact (sf_pos_of x m e Ex)|].
    apply units_of_leb; [|exact Fb | exact Hle].
    unfold finite_double. rewrite Ex. reflexivity.
Qed.

Lemma leb_mul_le (b c x bx : float) :
  pos_finite b -> pos_finite c -> pos_finite bx -> nonneg x -> (x <=? bx) = true ->
  (sf_units (Prim2SF bx) * sf_units (Prim2SF c)
   <= sf_units (Prim2SF b) * 2 ^ 1074)%Z ->
  (x * c <=? b) = true.
Proof.
  intros Hb Hc Hbx Hx Hle Hu. pose proof (Prim2SF_valid (x * c)) as V.
  rewrite FloatAxioms.leb_spec. rewrite FloatAxioms.mul_spec in *.
  destruct (below_finite x bx Hbx Hx Hle) as [[s Ex]|[Px Hux]].
  - rewrite Ex. destruct Hb as (mb & eb & ->), Hc as (mc & ec & ->).
    destruct s; reflexivity.
  - apply SF64mul_le; try (apply pos_finite_sf; assumption); try assumption.
    etransitivity; [|exact Hu].
    apply Z.mul_le_mono_nonneg_r;
      [apply Z.lt_le_incl, pos_finite_units, Hc | exact Hux].
Qed.

Lemma leb_div_le (b c x bx : float) :
  pos_finite b -> pos_finite c -> pos_finite bx -> nonneg x -> (x <=? bx) = true ->
  (sf_units (Prim2SF bx) * 2 ^ 1074
   <= sf_units (Prim2SF b) * sf_units (Prim2SF c))%Z ->
  (x / c <=? b) = true.
Proof.
  intros Hb Hc Hbx Hx Hle Hu. pose proof (Prim2SF_valid (x / c)) as V.
  rewrite FloatAxioms.leb_spec. rewrite FloatAxioms.div_spec in *.
  destruct (below_finite x bx Hbx Hx Hle) as [[s Ex]|[Px Hux]].
  - rewrite Ex. destruct Hb as (mb & eb & ->), Hc as (mc & ec & ->).
    destruct s; reflexivity.
  - apply SF64div_le; try (apply pos_finite_sf; assumption); try assumption.
    etransitivity; [|exact Hu].
    apply Z.mul_le_mono_nonneg_r; [apply Z.pow_nonneg; lia | exact Hux].
Qed.

Lemma leb_add_le (b c x bx : float) :
  pos_finite b -> pos_finite c -> pos_finite bx -> nonneg x -> (x <=? bx) = true ->
  (sf_units (Prim2SF c) + sf_units (Prim2SF bx) <= sf_units (Prim2SF b))%Z ->
  (c + x <=? b) = true.
Proof.
  intros Hb Hc Hbx Hx Hle Hu. pose proof (Prim2SF_valid (c + x)) as V.
  pose proof (pos_finite_units bx Hbx) as Hpos.
  rewrite FloatAxioms.leb_spec. rewrite FloatAxioms.add_spec in *.
  destruct (below_finite x bx Hbx Hx Hle) as [[s Ex]|[Px Hux]].
  - rewrite Ex in *. pose proof (Prim2SF_valid b) as Vb. pose proof (Prim2SF_valid c) as Vc.
    destruct Hb as (mb & eb & Eb), Hc as (mc & ec & Ec). rewrite Eb, Ec in *.
    change (SF64add (S754_finite false mc ec) (S754_zero s))
      with (S754_finite false mc ec).
    rewrite SFleb_units by (assumption || reflexivity).
    apply Z.leb_le. lia.
  - apply SF64add_le; try (apply pos_finite_sf; assumption); try assumption. lia.
Qed.

(** Two comparisons in a row. *)
Lemma leb_chain_units (a x b : float) :
  finite_double a -> finite_double b -> (a <=? x) = true -> (x <=? b) = true ->
  (sf_units (Prim2SF a) <= sf_units (Prim2SF b))%Z.
Proof.
  intros Fa Fb H1 H2. pose proof (between_finite a x b Fa Fb H1 H2) as Fx.
  pose proof (units_of_leb a x Fa Fx H1). pose proof (units_of_leb x b Fx Fb H2). lia.
Qed.

Lemma leb_not_nan (c x : float) :
  pos_finite c -> (c <=? x) = true -> sf_is_nan (Prim2SF x) = false.
Proof.
  intros (m & e & Hc) H.
  destruct (leb_pos_cases c x m e Hc H) as [(m' & e' & ->)| ->]; reflexivity.
Qed.

Lemma pos_finite_not_nan (c : float) : pos_finite c -> sf_is_nan (Prim2SF c) = false.
Proof. intros (m & e & ->). reflexivity. Qed.

Lemma ltb_of_leb (a b x : float) :
  pos_finite a -> pos_finite b ->
  (sf_units (Prim2SF a) < sf_units (Prim2SF b))%Z -> (b <=? x) = true ->
  (a <? x) = true.
Proof.
  intros Ha Hb Hu H. destruct (a <? x) eqn:E; [reflexivity | exfalso].
  apply ltb_false_leb in E;
    [|apply pos_finite_not_nan, Ha | apply (leb_not_nan b), H; exact Hb].
  pose proof (leb_chain_units b x a (pos_finite_finite b Hb) (pos_finite_finite a Ha) H E).
  lia.
Qed.

Lemma not_leb_of_leb (a b x : float) :
  pos_finite a -> pos_finite b ->
  (sf_units (Prim2SF b) < sf_units (Prim2SF a))%Z -> (x <=? b) = true ->
  (a <=? x) = false.
Proof.
  intros Ha Hb Hu H. destruct (a <=? x) eqn:E; [exfalso | reflexivity].
  pose proof (leb_chain_units a x b (pos_finite_finite a Ha) (pos_finite_finite b Hb) E H).
  lia.
Qed.

Lemma leb_false_ltb (x y : float) :
  sf_is_nan (Prim2SF x) = false -> sf_is_nan (Prim2SF y) = false ->
  (y <=? x) = false -> (x <? y) = true.
Proof.
  intros Hx Hy H. destruct (x <? y) eqn:E; [reflexivity|].
  apply ltb_false_leb in E; [congruence | assumption | assumption].
Qed.

(** Above a normal number means at or above the next double. *)
Lemma ltb_next (c c' x : float) (mc : positive) (ec : Z) :
  Prim2SF c = S754_finite false mc ec -> (2 ^ 52 <= Z.pos mc)%Z ->
  Prim2SF c' = S754_finite false (mc + 1) ec ->
  (c <? x) = true -> (c' <=? x) = true.
Proof.
  intros Hc Hmc Hc' H.
  pose proof (Prim2SF_valid c) as Vc. pose proof (Prim2SF_valid c') as Vc'.
  pose proof (Prim2SF_valid x) as Vx.
  destruct (leb_pos_cases c x mc ec Hc (ltb_true_leb _ _ H)) as [(m & e & Ex)|Ex].
  - rewrite FloatAxioms.ltb_spec in H. rewrite FloatAxioms.leb_spec.
    rewrite Hc, Hc', Ex in *.
    rewrite SFltb_units in H by (assumption || reflexivity).
    rewrite SFleb_units by (assumption || reflexivity).
    apply Z.ltb_lt in H. apply Z.leb_le. cbn [sf_units cond_Zopp] in *.
    destruct (valid_finite_bounds _ _ _ Vc) as (Hec & _).
    destruct (valid_finite_bounds _ _ _ Vx) as (He & Hm53 & _).
    assert (Hp : (0 < 2 ^ (ec + 1074))%Z) by (apply Z.pow_pos_nonneg; lia).
    destruct (Z.le_gt_cases ec e) as [Hge|Hlt].
    + replace (e + 1074)%Z with ((e - ec) + (ec + 1074))%Z in * by lia.
      rewrite (Z.pow_add_r 2 (e - ec)), Z.mul_assoc in * by lia.
      apply Z.mul_lt_mono_pos_r in H; [|exact Hp].
      apply Z.mul_le_mono_nonneg_r; lia.
    + exfalso.
      assert (Hle : (Z.pos m * 2 ^ (e + 1074) <= 2 ^ 52 * 2 ^ (ec + 1074))%Z).
      { apply Z.le_trans with (2 ^ 53 * 2 ^ (e + 1074))%Z.
        - apply Z.mul_le_mono_nonneg_r; [apply Z.pow_nonneg|]; lia.
        - rewrite <- !Z.pow_add_r by lia. apply Z.pow_le_mono_r; lia. }
      assert ((2 ^ 52 * 2 ^ (ec + 1074) <= Z.pos mc * 2 ^ (ec + 1074))%Z)
        by (apply Z.mul_le_mono_nonneg_r; lia).
      lia.
  - rewrite FloatAxioms.leb_spec, Hc', Ex. reflexivity.
Qed.

(** Below a normal number that is no power of two means at or below the
    previous double. *)
Lemma ltb_prev (c c' x : float) (mc : positive) (ec : Z) :
  Prim2SF c = S754_finite false (mc + 1) ec -> (2 ^ 52 <= Z.pos mc)%Z ->
  Prim2SF c' = S754_finite false mc ec ->
  nonneg x -> (x <? c) = true -> (x <=? c') = true.
Proof.
  intros Hc Hmc Hc' Hx H.
  pose proof (Prim2SF_valid c) as Vc. pose proof (Prim2SF_valid c') as Vc'.
  pose proof (Prim2SF_valid x) as Vx.
  assert (Pc : pos_finite c) by (do 2 eexists; exact Hc).
  destruct (below_finite x c Pc Hx (ltb_true_leb _ _ H)) as [[s Ex]|[(m & e & Ex & _) _]].
  - rewrite FloatAxioms.leb_spec, Hc', Ex. destruct s; reflexivity.
  - rewrite FloatAxioms.ltb_spec in H. rewrite FloatAxioms.leb_spec.
    rewrite Hc, Hc', Ex in *.
    rewrite SFltb_units in H by (assumption || reflexivity).
    rewrite SFleb_units by (assumption || reflexivity).
    apply Z.ltb_lt in H. apply Z.leb_le. cbn [sf_units cond_Zopp] in *.
    destruct (valid_finite_bounds _ _ _ Vc) as (Hec & _).
    destruct (valid_finite_bounds _ _ _ Vx) as (He & Hm53 & _).
    assert (Hp : (0 < 2 ^ (ec + 1074))%Z) by (apply Z.pow_pos_nonneg; lia).
    destruct (Z.le_gt_cases ec e) as [Hge|Hlt].
    + replace (e + 1074)%Z with ((e - ec) + (ec + 1074))%Z in * by lia.
      rewrite (Z.pow_add_r 2 (e - ec)), Z.mul_assoc in * by lia.
      apply Z.mul_lt_mono_pos_r in H; [|exact Hp].
      apply Z.mul_le_mono_nonneg_r; lia.
    + apply Z.le_trans with (2 ^ 52 * 2 ^ (ec + 1074))%Z.
      * apply Z.le_trans with (2 ^ 53 * 2 ^ (e + 1074))%Z.
        -- apply Z.mul_le_mono_nonneg_r; [apply Z.pow_nonneg|]; lia.
        -- rewrite <- !Z.pow_add_r by lia. apply Z.pow_le_mono_r; lia.
      * apply Z.mul_le_mono_nonneg_r; lia.
Qed.
End UpperBoundSteps.

Ltac normal_const :=
  lazymatch goal with
  | |- normal_double _ => do 2 eexists; split; vm_compute; [reflexivity | discriminate]
  end.
Ltac finite_const :=
  lazymatch goal with
  | |- pos_finite _ => do 2 eexists; vm_compute; reflexivity
  end.


(** ** Telemetry: which clamps act, and at which speeds *)

Section DashboardLimits.
Local Open Scope float_scope.

(** The raw rpm, [speed_kmh * 40 + 800], is never below 800. *)
Lemma raw_rpm_floor (s : float) : nonneg s -> (800 <=? s * 40 + 800) = true.
Proof.
  intros Hs. rewrite float_add_comm.
  rewrite FloatAxioms.leb_spec, FloatAxioms.add_spec.
  replace (Prim2SF 800) with (S754_finite false 7036874417766400 (-43))
    by (vm_compute; reflexivity).
  apply SF64add_lower_bound;
    [vm_compute; discriminate | lia | | apply Prim2SF_valid | reflexivity].
  apply nonneg_mul_const; [finite_const | exact Hs].
Qed.

(** The raw temperature of an rpm between 800 and 8000 is never above 120. *)
Lemma raw_temperature_ceiling (r : float) :
  (800 <=? r) = true -> (r <=? 8000) = true ->
  (60 + r / 8000 * 60 <=? 120) = true.
Proof.
  intros Hlo Hhi.
  assert (Hr : nonneg r).
  { destruct (leb_pos_cases 800 r 7036874417766400 (-43)%Z) as [(m & e & E)|E];
      [vm_compute; reflexivity | exact Hlo | |]; unfold nonneg; rewrite E; reflexivity. }
  assert (Hq : (r / 8000 <=? 1) = true).
  { apply (leb_div_le 1 8000 r 8000); try finite_const; try assumption.
    vm_compute. discriminate. }
  assert (Hqn : nonneg (r / 8000))
    by (apply nonneg_div_const; [finite_const | exact Hr]).
  assert (Hp : (r / 8000 * 60 <=? 60) = true).
  { apply (leb_mul_le 60 60 _ 1); try finite_const; try assumption.
    vm_compute. discriminate. }
  apply (leb_add_le 120 60 _ 60); try finite_const; try assumption.
  - apply nonneg_mul_const; [finite_const | exact Hqn].
  - vm_compute. discriminate.
Qed.

Lemma update_speed_nonneg (data : mjData) (car : SimpleCar) :
  is_nan (qvel data !!! 0%nat) = false -> is_nan (qvel data !!! 1%nat) = false ->
  nonneg (speed_kmh (dashboard_ (UpdateDashboardData data car))).
Proof.
  intros Hvx Hvy. destruct (update_speed_rpm_temp data car) as (Hs & _). rewrite Hs.
  apply nonneg_mul_const; [finite_const|].
  apply nonneg_sqrt, nonneg_add; apply nonneg_square; assumption.
Qed.

(** Of the three clamps of the rpm and the temperature only the limit of 8000
    ever acts. *)
Lemma update_unclamped (data : mjData) (car : SimpleCar) :
  is_nan (qvel data !!! 0%nat) = false -> is_nan (qvel data !!! 1%nat) = false ->
  let d' := dashboard_ (UpdateDashboardData data car) in
  let rpm0 := speed_kmh d' * 40 + 800 in
  (800 <=? rpm0) = true /\
  rpm d' = (if 8000 <? rpm0 then 8000 else rpm0) /\
  (60 + rpm d' / 8000 * 60 <=? 120) = true /\
  temperature d' = 60 + rpm d' / 8000 * 60.
Proof.
  intros Hvx Hvy d' rpm0.
  pose proof (update_speed_nonneg data car Hvx Hvy) as Hs. fold d' in Hs.
  destruct (update_speed_rpm_temp data car) as (Es & Er & Et).
  fold d' in Es, Er, Et. rewrite <- Er in Et. rewrite <- Es in Er. fold rpm0 in Er.
  pose proof (raw_rpm_floor _ Hs) as Hfloor. fold rpm0 in Hfloor.
  assert (Hrpm0 : nonneg rpm0)
    by (apply nonneg_add; [apply nonneg_mul_const; [finite_const | exact Hs]
                          | apply pos_finite_nonneg; finite_const]).
  destruct (rpm_clamp _ Hrpm0) as (_ & Hlo & Hhi). rewrite <- Er in Hlo, Hhi.
  assert (Er' : rpm d' = (if 8000 <? rpm0 then 8000 else rpm0)).
  { rewrite Er. destruct (8000 <? rpm0).
    - replace (8000 <? 800) with false by (vm_compute; reflexivity). reflexivity.
    - rewrite (leb_true_ltb _ _ Hfloor). reflexivity. }
  pose proof (raw_temperature_ceiling _ Hlo Hhi) as Hceil.
  split; [exact Hfloor|]. split; [exact Er'|]. split; [exact Hceil|].
  rewrite Et, (leb_true_ltb _ _ Hceil). reflexivity.
Qed.

(** X12: with velocity components that are numbers, the clamp of the rpm at
    800 and the clamp of the temperature at 120 never act: the raw rpm is at
    least 800, the stored rpm is the raw rpm limited to 8000, the raw
    temperature is at most 120 and is the stored temperature. *)
Theorem X12_only_the_rpm_limit_acts (data : mjData) (car : SimpleCar) :
  is_nan (qvel data !!! 0%nat) = false ->
  is_nan (qvel data !!! 1%nat) = false ->
  let d' := dashboard_ (UpdateDashboardData data car) in
  let rpm0 := speed_kmh d' * 40 + 800 in
  (rpm0 <? 800) = false /\
  rpm d' = (if 8000 <? rpm0 then 8000 else rpm0) /\
  (120 <? 60 + rpm d' / 8000 * 60) = false /\
  temperature d' = 60 + rpm d' / 8000 * 60.
Proof.
  intros Hvx Hvy d' rpm0.
  destruct (update_unclamped data car Hvx Hvy) as (H1 & H2 & H3 & H4).
  fold d' in H1, H2, H3, H4. fold rpm0 in H1, H2.
  split; [apply leb_true_ltb, H1|]. split; [exact H2|].
  split; [apply leb_true_ltb, H3 | exact H4].
Qed.

(** An rpm above 6000 gives a raw temperature of at least 105. *)
Lemma high_rpm_temperature (r : float) :
  (6000 <? r) = true -> (105 <=? 60 + r / 8000 * 60) = true.
Proof.
  intros Hr. apply ltb_true_leb in Hr.
  apply (leb_add_ge 105 60 _ 45); try normal_const; [|vm_compute; discriminate].
  apply (leb_mul_ge 45 60 _ 0.75); try normal_const; [|vm_compute; discriminate].
  apply (leb_div_ge 0.75 8000 r 6000); try normal_const; [exact Hr|].
  vm_compute. discriminate.
Qed.

(** The raw rpm against 6000 and 8000, by the speed. *)
Lemma raw_rpm_above_6000 (s : float) :
  (130 <? s) = true -> (6000 <? s * 40 + 800) = true.
Proof.
  intros H.
  assert (H1 : (next_up 130 <=? s) = true).
  { apply (ltb_next 130 _ s 4573968371548160%positive (-45)%Z);
      [vm_compute; reflexivity | vm_compute; discriminate | vm_compute; reflexivity | exact H]. }
  apply (ltb_of_leb 6000 (next_up 6000)); try finite_const; [reflexivity|].
  rewrite float_add_comm.
  apply (leb_add_ge _ 800 _ (next_up 5200)); try normal_const; [|vm_compute; discriminate].
  apply (leb_mul_ge _ 40 _ (next_up 130)); try normal_const; [exact H1|].
  vm_compute. discriminate.
Qed.

Lemma raw_rpm_at_most_6000 (s : float) :
  nonneg s -> (s <=? 130) = true -> (s * 40 + 800 <=? 6000) = true.
Proof.
  intros Hs H. rewrite float_add_comm.
  apply (leb_add_le 6000 800 _ 5200); try finite_const.
  - apply nonneg_mul_const; [finite_const | exact Hs].
  - apply (leb_mul_le 5200 40 _ 130); try finite_const; try assumption.
    vm_compute. discriminate.
  - vm_compute. discriminate.
Qed.

Lemma raw_rpm_at_least_8000 (s : float) :
  (180 <=? s) = true -> (8000 <=? s * 40 + 800) = true.
Proof.
  intros H. rewrite float_add_comm.
  apply (leb_add_ge _ 800 _ 7200); try normal_const; [|vm_compute; discriminate].
  apply (leb_mul_ge _ 40 _ 180); try normal_const; [exact H|].
  vm_compute. discriminate.
Qed.

Lemma raw_rpm_below_8000 (s : float) :
  nonneg s -> (s <? 180) = true -> (s * 40 + 800 <=? next_down 8000) = true.
Proof.
  intros Hs H.
  assert (H1 : (s <=? next_down 180) = true).
  { apply (ltb_prev 180 _ s 6333186975989759%positive (-45)%Z);
      [vm_compute; reflexivity | vm_compute; discriminate | vm_compute; reflexivity
      | exact Hs | exact H]. }
  rewrite float_add_comm.
  apply (leb_add_le _ 800 _ (next_down 7200)); try finite_const.
  - apply nonneg_mul_const; [finite_const | exact Hs].
  - apply (leb_mul_le _ 40 _ (next_down 180)); try finite_const; try assumption.
    vm_compute. discriminate.
  - vm_compute. discriminate.
Qed.

(** X13: with velocity components that are numbers, the rpm is above 6000
    (the tachometer's red zone and HIGH RPM! label) exactly when the speed is
    above 130 km/h, it is at its limit 8000 exactly when the speed is at least
    180 km/h, and an rpm above 6000 comes with a temperature above 100 (the
    OVERHEAT! label), indeed of at least 105. *)
Theorem X13_warning_speeds (data : mjData) (car : SimpleCar) :
  is_nan (qvel data !!! 0%nat) = false ->
  is_nan (qvel data !!! 1%nat) = false ->
  let d' := dashboard_ (UpdateDashboardData data car) in
  (6000 <? rpm d') = (130 <? speed_kmh d') /\
  (8000 <=? rpm d') = (180 <=? speed_kmh d') /\
  ((6000 <? rpm d') = true ->
   (105 <=? temperature d') = true /\ (100 <? temperature d') = true).
Proof.
  intros Hvx Hvy d'.
  pose proof (update_speed_nonneg data car Hvx Hvy) as Hs. fold d' in Hs.
  destruct (update_unclamped data car Hvx Hvy) as (Hfloor & Er & _ & Et).
  fold d' in Hfloor, Er, Et.
  set (s := speed_kmh d') in *. set (rpm0 := s * 40 + 800) in *.
  assert (Hsn : sf_is_nan (Prim2SF s) = false) by (apply nonneg_not_nan, Hs).
  split; [|split].
  - destruct (130 <? s) eqn:H130.
    + pose proof (raw_rpm_above_6000 s H130) as H. fold rpm0 in H.
      rewrite Er. destruct (8000 <? rpm0); [reflexivity | exact H].
    + apply ltb_false_leb in H130; [|reflexivity | exact Hsn].
      pose proof (raw_rpm_at_most_6000 s Hs H130) as H. fold rpm0 in H.
      assert (E : (8000 <? rpm0) = false).
      { apply leb_true_ltb.
        destruct (rpm0 <=? 8000) eqn:E'; [reflexivity | exfalso].
        apply leb_false_ltb in E';
          [|reflexivity | apply (leb_not_nan 800); [finite_const | exact Hfloor]].
        apply ltb_true_leb in E'.
        pose proof (leb_chain_units 8000 rpm0 6000 ltac:(reflexivity) ltac:(reflexivity) E' H)
          as Hu.
        vm_compute in Hu. apply Hu. reflexivity. }
      rewrite Er, E. apply leb_true_ltb, H.
  - destruct (180 <=? s) eqn:H180.
    + pose proof (raw_rpm_at_least_8000 s H180) as H. fold rpm0 in H.
      rewrite Er. destruct (8000 <? rpm0); [reflexivity | exact H].
    + apply leb_false_ltb in H180; [|exact Hsn | reflexivity].
      pose proof (raw_rpm_below_8000 s Hs H180) as H. fold rpm0 in H.
      assert (E : (8000 <=? rpm0) = false).
      { apply (not_leb_of_leb 8000 (next_down 8000)); try finite_const;
          [reflexivity | exact H]. }
      rewrite Er. destruct (8000 <? rpm0) eqn:E'; [|exact E].
      apply ltb_true_leb in E'. congruence.
  - intros Hhigh. pose proof (high_rpm_temperature _ Hhigh) as H105.
    rewrite <- Et in H105. split; [exact H105|].
    apply (ltb_of_leb 100 105); try finite_const; [reflexivity | exact H105].
Qed.
End DashboardLimits.

(** * Line emission in binary32 *)

(** ** Binary32 arithmetic: rounding *)

Section Binary32Rounding.
Local Open Scope Z_scope.

Lemma fexp32_eq (e : Z) : fexp 24 128 e = Z.max (e - 24) (-149).
Proof. reflexivity. Qed.

Lemma shr_fexp32_spec (m e : Z) (l : location) :
  0 <= m ->
  let n := fexp 24 128 (Zdigits2 m + e) - e in
  shr_m (fst (shr_fexp 24 128 m e l)) = (if 0 <? n then m / 2 ^ n else m) /\
  snd (shr_fexp 24 128 m e l) = (if 0 <? n then e + n else e).
Proof.
  intros Hm n. unfold shr_fexp. fold n.
  destruct (shr_m_spec (shr_record_of_loc m l) e n) as [H1 H2].
  { rewrite shr_record_of_loc_m. exact Hm. }
  rewrite shr_record_of_loc_m in H1. split; assumption.
Qed.

Lemma digits_bounds (m : Z) : 0 < m -> 2 ^ (Zdigits2 m - 1) <= m < 2 ^ Zdigits2 m.
Proof.
  intros Hm. destruct m as [|p|p]; try lia. rewrite Zdigits2_pos.
  apply digits2_pos_spec.
Qed.

Lemma digits_pos (m : Z) : 0 < m -> 0 < Zdigits2 m.
Proof. intros Hm. destruct m as [|p|p]; try lia. rewrite Zdigits2_pos. lia. Qed.

Lemma digits_unique (m k : Z) : 0 < m -> 2 ^ (k - 1) <= m < 2 ^ k -> Zdigits2 m = k.
Proof.
  intros Hm [Hlo Hhi]. pose proof (digits_bounds m Hm) as [Dlo Dhi].
  pose proof (digits_pos m Hm) as Hd.
  assert (Hk : 0 < k).
  { destruct (Z.lt_ge_cases 0 k) as [H|H]; [exact H | exfalso].
    destruct (Z.eq_dec k 0) as [->|Hne]; [simpl in Hhi; lia|].
    rewrite Z.pow_neg_r in Hhi by lia. lia. }
  assert (H1 : 2 ^ (Zdigits2 m - 1) < 2 ^ k) by lia.
  assert (H2 : 2 ^ (k - 1) < 2 ^ Zdigits2 m) by lia.
  apply Z.pow_lt_mono_r_iff in H1; [|lia..].
  apply Z.pow_lt_mono_r_iff in H2; lia.
Qed.

(** The digits of a quotient by a power of two. *)
Lemma div_pow2_bounds (m d n : Z) :
  0 <= n <= d - 1 -> 2 ^ (d - 1) <= m < 2 ^ d ->
  2 ^ (d - 1 - n) <= m / 2 ^ n < 2 ^ (d - n).
Proof.
  intros Hn [Hlo Hhi].
  assert (Hp : 0 < 2 ^ n) by (apply Z.pow_pos_nonneg; lia).
  split.
  - apply Z.div_le_lower_bound; [exact Hp|].
    rewrite <- Z.pow_add_r by lia. replace (n + (d - 1 - n)) with (d - 1) by lia. exact Hlo.
  - apply Z.div_lt_upper_bound; [exact Hp|].
    rewrite <- Z.pow_add_r by lia. replace (n + (d - n)) with d by lia. exact Hhi.
Qed.

(** The value that [binary_round_aux] returns for a final significand and
    exponent, with the positive sign. *)
Definition sf_out32 (q e : Z) : spec_float :=
  match q with
  | Z0 => S754_zero false
  | Z.pos p => if (e <=? 128 - 24)%Z then S754_finite false p e else S754_infinity false
  | Z.neg _ => S754_nan
  end.

(** Rounding to binary32 a number whose significand [m] at exponent [e] is at
    least as fine as the format: the result is finite and canonical, and its
    significand at the exponent [e1] of the format is the truncated one or the
    next. *)
Lemma round32_spec (m e : Z) (l : location) :
  0 <= m -> e <= fexp 24 128 (Zdigits2 m + e) -> Zdigits2 m + e <= 127 ->
  let e1 := fexp 24 128 (Zdigits2 m + e) in
  let q0 := m / 2 ^ (e1 - e) in
  exists q1 q2 e2 : Z,
    (q1 = q0 \/ q1 = q0 + 1) /\
    (l = loc_Exact -> e1 = e -> q1 = m) /\
    binary_round_aux 24 128 false m e l = sf_out32 q2 e2 /\
    0 <= q2 /\ e2 <= 104 /\ e1 <= e2 /\ q2 * 2 ^ (e2 - e1) = q1 /\
    SpecFloat.valid_binary 24 128 (sf_out32 q2 e2) = true.
Proof.
  intros Hm Hfine Hmag e1 q0.
  set (d := Zdigits2 m) in *.
  assert (He1 : e1 = Z.max (d + e - 24) (-149)) by reflexivity.
  set (n1 := e1 - e).
  assert (Hn1 : 0 <= n1) by (unfold n1; fold e1 in Hfine; lia).
  assert (Hpn : 0 < 2 ^ n1) by (apply Z.pow_pos_nonneg; lia).
  assert (Hq0 : 0 <= q0) by (apply Z.div_pos; lia).
  (* the truncated significand has at most 24 digits, and 24 when normal *)
  assert (Hq0hi : q0 < 2 ^ 24).
  { destruct (Z.eq_dec m 0) as [E|E]; [unfold q0; rewrite E, Z.div_0_l by lia; reflexivity|].
    pose proof (digits_bounds m ltac:(lia)) as [_ Dhi]. fold d in Dhi.
    pose proof (digits_pos m ltac:(lia)) as Hd. fold d in Hd.
    apply Z.div_lt_upper_bound; [exact Hpn|].
    apply Z.lt_le_trans with (2 ^ d); [exact Dhi|].
    rewrite <- Z.pow_add_r by lia. apply Z.pow_le_mono_r; unfold n1; lia. }
  assert (Hq0lo : -149 < e1 -> 2 ^ 23 <= q0).
  { intros Hn. assert (Hm0 : 0 < m).
    { destruct (Z.eq_dec m 0) as [E|E]; [|lia]. exfalso.
      unfold d in He1. rewrite E in He1. simpl Zdigits2 in He1. unfold d in Hfine.
      rewrite E in Hfine. simpl Zdigits2 in Hfine. rewrite fexp32_eq in Hfine. lia. }
    pose proof (digits_bounds m Hm0) as HD. fold d in HD.
    assert (En : n1 = d - 24) by (unfold n1; lia).
    destruct (div_pow2_bounds m d n1 ltac:(lia) HD) as [Hlo _].
    replace (d - 1 - n1) with 23 in Hlo by lia. exact Hlo. }
  unfold binary_round_aux.
  destruct (shr_fexp32_spec m e l Hm) as [H1 H1e].
  destruct (shr_fexp 24 128 m e l) as [mrs' e1'] eqn:Eshr.
  cbn [fst snd] in H1, H1e. fold d in H1, H1e. fold e1 in H1, H1e. fold n1 in H1, H1e.
  assert (H1' : shr_m mrs' = q0).
  { rewrite H1. destruct (Z.ltb_spec 0 n1) as [Hp|Hp]; [reflexivity|].
    unfold q0. fold n1. replace n1 with 0 by lia. simpl. symmetry. apply Z.div_1_r. }
  assert (H1e' : e1' = e1).
  { rewrite H1e. destruct (Z.ltb_spec 0 n1) as [Hp|Hp]; unfold n1 in *; lia. }
  set (q1 := round_nearest_even (shr_m mrs') (loc_of_shr_record mrs')).
  assert (Hq1 : q1 = q0 \/ q1 = q0 + 1).
  { unfold q1. rewrite <- H1'. apply round_nearest_even_cases. }
  assert (Hexact : l = loc_Exact -> e1 = e -> q1 = m).
  { intros Hl He. assert (Emrs : mrs' = shr_record_of_loc m l).
    { pose proof (f_equal fst Eshr) as E1. cbn [fst] in E1. rewrite <- E1.
      unfold shr_fexp. fold d. fold e1. rewrite He, Z.sub_diag. reflexivity. }
    unfold q1. rewrite Emrs, Hl. reflexivity. }
  destruct (shr_fexp32_spec q1 e1' loc_Exact ltac:(lia)) as [H2 H2e].
  destruct (shr_fexp 24 128 q1 e1' loc_Exact) as [mrs'' e2].
  cbn [fst snd] in H2, H2e. rewrite H1e' in H2, H2e.
  change (match shr_m mrs'' with
          | 0 => S754_zero false
          | Z.pos m0 => if (e2 <=? 128 - 24) then S754_finite false m0 e2
                        else S754_infinity false
          | Z.neg _ => S754_nan
          end) with (sf_out32 (shr_m mrs'') e2).
  exists q1, (shr_m mrs''), e2.
  split; [exact Hq1|]. split; [exact Hexact|]. split; [reflexivity|].
  assert (He1hi : e1 <= 103) by lia.
  assert (He1lo : -149 <= e1) by lia.
  destruct (Z.eq_dec q1 0) as [Ez|Ez].
  - (* the result is zero *)
    rewrite Ez in H2, H2e. simpl Zdigits2 in H2, H2e.
    rewrite fexp32_eq in H2, H2e.
    destruct (Z.ltb_spec 0 (Z.max (0 + e1 - 24) (-149) - e1)) as [Hp|Hp]; [lia|].
    rewrite H2, H2e, Ez. repeat split; try lia. 
  - assert (Hq1pos : 0 < q1) by lia.
    destruct (Z.eq_dec q1 (2 ^ 24)) as [Etop|Etop].
    + (* the significand was rounded up to the next binade *)
      assert (Hdq : Zdigits2 q1 = 25) by (rewrite Etop; reflexivity).
      rewrite Hdq, fexp32_eq in H2, H2e.
      destruct (Z.ltb_spec 0 (Z.max (25 + e1 - 24) (-149) - e1)) as [Hp|Hp]; [|lia].
      replace (Z.max (25 + e1 - 24) (-149) - e1) with 1 in H2, H2e by lia.
      rewrite Etop in H2. change (2 ^ 24 / 2 ^ 1) with (2 ^ 23) in H2.
      rewrite H2, H2e. split; [lia|]. split; [lia|]. split; [lia|].
      split; [rewrite Etop; replace (e1 + 1 - e1) with 1 by lia; reflexivity|].
      change (2 ^ 23) with 8388608. cbn [sf_out32].
      destruct (Z.leb_spec (e1 + 1) (128 - 24)) as [Hf|Hf]; [|reflexivity].
      unfold SpecFloat.valid_binary, bounded, canonical_mantissa.
      apply andb_true_intro. split; [|apply Z.leb_le; exact Hf].
      apply Z.eqb_eq. rewrite fexp32_eq.
      change (Z.pos (digits2_pos 8388608)) with 24. lia.
    + assert (Hq1hi : q1 < 2 ^ 24) by lia.
      pose proof (digits_bounds q1 Hq1pos) as [Dlo Dhi].
      pose proof (digits_pos q1 Hq1pos) as Hdq.
      assert (Hdq24 : Zdigits2 q1 <= 24).
      { assert (H : 2 ^ (Zdigits2 q1 - 1) < 2 ^ 24) by lia.
        apply Z.pow_lt_mono_r_iff in H; lia. }
      rewrite fexp32_eq in H2, H2e.
      destruct (Z.ltb_spec 0 (Z.max (Zdigits2 q1 + e1 - 24) (-149) - e1)) as [Hp|Hp]; [lia|].
      rewrite H2, H2e. split; [lia|]. split; [lia|]. split; [lia|].
      split; [rewrite Z.sub_diag; simpl; lia|].
      destruct q1 as [|p|p] eqn:Eq1; try lia. cbn [sf_out32].
      destruct (Z.leb_spec e1 (128 - 24)) as [Hf|Hf]; [|reflexivity].
      unfold SpecFloat.valid_binary, bounded, canonical_mantissa.
      apply andb_true_intro. split; [|apply Z.leb_le; exact Hf].
      apply Z.eqb_eq. rewrite fexp32_eq. rewrite Zdigits2_pos in *.
      destruct (Z.eq_dec e1 (-149)) as [Emin|Emin]; [lia|].
      assert (H23 : 2 ^ 23 <= Z.pos p) by (specialize (Hq0lo ltac:(lia)); lia).
      assert (Z.pos (digits2_pos p) = 24).
      { rewrite <- Zdigits2_pos. apply digits_unique; [lia|]. split; [exact H23 | exact Hq1hi]. }
      lia.
Qed.
End Binary32Rounding.

Section Binary32Error.
Local Open Scope R_scope.

(** The relative and the absolute rounding error of binary32 that the
    analysis uses: one unit in the last place, [2 ^ -23] of the value, and the
    smallest subnormal number. *)
Definition eps32 : R := / 8388608.
Definition eta32 : R := powerRZ 2 (-149).

(** [out] is a finite binary32 number that represents the real [v] up to
    rounding and has its sign. *)
Definition rounds_to (out : spec_float) (v : R) : Prop :=
  SpecFloat.valid_binary 24 128 out = true /\ sf_finite out = true /\
  Rabs (SF2R out - v) <= eps32 * Rabs v + eta32 /\
  (0 <= v -> 0 <= SF2R out) /\ (v <= 0 -> SF2R out <= 0).

Lemma pow2_pos (e : Z) : 0 < powerRZ 2 e.
Proof. apply powerRZ_lt. lra. Qed.

Lemma pow2_add (a b : Z) : powerRZ 2 (a + b) = powerRZ 2 a * powerRZ 2 b.
Proof. apply powerRZ_add. lra. Qed.

Lemma pow2_ge_1 (k : Z) : (0 <= k)%Z -> 1 <= powerRZ 2 k.
Proof.
  intros Hk. destruct k as [|p|p]; [simpl; lra | | lia].
  simpl. apply pow_R1_Rle. lra.
Qed.

Lemma pow2_le (a b : Z) : (a <= b)%Z -> powerRZ 2 a <= powerRZ 2 b.
Proof.
  intros H. replace b with (a + (b - a))%Z by lia. rewrite pow2_add.
  pose proof (pow2_pos a). pose proof (pow2_ge_1 (b - a) ltac:(lia)). nra.
Qed.

Lemma eta32_pos : 0 < eta32.
Proof. apply pow2_pos. Qed.

Lemma eps32_eq : eps32 = powerRZ 2 (-23).
Proof. unfold eps32. simpl. f_equal. lra. Qed.

Lemma round32_sign (m e : Z) (l : location) :
  binary_round_aux 24 128 true m e l = SFopp (binary_round_aux 24 128 false m e l).
Proof.
  unfold binary_round_aux.
  destruct (shr_fexp 24 128 m e l) as [mrs' e'].
  destruct (shr_fexp 24 128 _ e' loc_Exact) as [mrs'' e''].
  destruct (shr_m mrs'') as [|p|p]; try reflexivity.
  destruct (e'' <=? 128 - 24)%Z; reflexivity.
Qed.

Lemma SF2R_opp (x : spec_float) : SF2R (SFopp x) = - SF2R x.
Proof.
  destruct x as [s|s| |s m e]; simpl; try lra.
  destruct s; simpl; rewrite ?opp_IZR; lra.
Qed.

Lemma rounds_to_opp (out : spec_float) (v : R) :
  rounds_to out v -> rounds_to (SFopp out) (- v).
Proof.
  intros (V & F & E & P & N). unfold rounds_to. rewrite SF2R_opp.
  split; [destruct out; assumption|]. split; [destruct out; assumption|].
  split.
  - replace (- SF2R out - - v) with (- (SF2R out - v)) by ring.
    rewrite !Rabs_Ropp. exact E.
  - split; intros H; [assert (SF2R out <= 0) by (apply N; lra) | assert (0 <= SF2R out) by (apply P; lra)]; lra.
Qed.

Lemma SF2R_sf_out32 (q e : Z) :
  (0 <= q)%Z -> (e <= 104)%Z -> SF2R (sf_out32 q e) = IZR q * powerRZ 2 e.
Proof.
  intros Hq He. destruct q as [|p|p]; try lia; cbn [sf_out32].
  - simpl. lra.
  - destruct (Z.leb_spec e (128 - 24)) as [_|H]; [reflexivity | lia].
Qed.

Lemma sf_out32_finite (q e : Z) :
  (0 <= q)%Z -> (e <= 104)%Z -> sf_finite (sf_out32 q e) = true.
Proof.
  intros Hq He. destruct q as [|p|p]; try lia; cbn [sf_out32]; [reflexivity|].
  destruct (Z.leb_spec e (128 - 24)) as [_|H]; [reflexivity | lia].
Qed.

(** Rounding a positive real [v] that lies between [m * 2 ^ e] and
    [(m + 1) * 2 ^ e], below [2 ^ 127]. *)
Lemma round32_error (s : bool) (m e : Z) (l : location) (v : R) :
  (0 <= m)%Z -> (e <= fexp 24 128 (Zdigits2 m + e))%Z ->
  IZR m * powerRZ 2 e <= v < IZR (m + 1) * powerRZ 2 e ->
  0 < v -> v < powerRZ 2 127 ->
  rounds_to (binary_round_aux 24 128 s m e l) (if s then - v else v).
Proof.
  intros Hm Hfine [Hlo Hhi] Hpos Hmax.
  assert (Hs : rounds_to (binary_round_aux 24 128 false m e l) v);
    [|destruct s; [rewrite round32_sign; apply rounds_to_opp|]; exact Hs].
  set (d := Zdigits2 m) in *.
  assert (Hd0 : (0 <= d)%Z) by (unfold d; destruct m; simpl; lia).
  assert (Hmag : (d + e <= 127)%Z).
  { destruct (Z.eq_dec m 0%Z) as [E|E].
    - unfold d in *. rewrite E in *. simpl Zdigits2 in *. rewrite fexp32_eq in Hfine. lia.
    - destruct (Z.le_gt_cases (d + e) 127%Z) as [H|H]; [exact H | exfalso].
      pose proof (digits_bounds m ltac:(lia)) as [Dlo _]. fold d in Dlo.
      pose proof (digits_pos m ltac:(lia)) as Hd. fold d in Hd.
      apply IZR_le in Dlo. rewrite IZR_pow2 in Dlo by lia.
      assert (powerRZ 2 127 <= powerRZ 2 (d - 1) * powerRZ 2 e)
        by (rewrite <- pow2_add; apply pow2_le; lia).
      pose proof (pow2_pos e).
      assert (powerRZ 2 (d - 1) * powerRZ 2 e <= IZR m * powerRZ 2 e)
        by (apply Rmult_le_compat_r; lra).
      lra. }
  destruct (round32_spec m e l Hm Hfine Hmag)
    as (q1 & q2 & e2 & Hq1 & _ & -> & Hq2 & He2 & He12 & Hq21 & V).
  fold d in Hq1, He12, Hq21. set (e1 := fexp 24 128 (d + e)) in *.
  set (n1 := (e1 - e)%Z) in *.
  assert (Hn1 : (0 <= n1)%Z) by (unfold n1; lia).
  assert (Hpn : (0 < 2 ^ n1)%Z) by (apply Z.pow_pos_nonneg; lia).
  set (q0 := (m / 2 ^ n1)%Z) in *.
  assert (Hq0 : (0 <= q0)%Z) by (apply Z.div_pos; lia).
  (* the value of the result *)
  assert (Hval : SF2R (sf_out32 q2 e2) = IZR q1 * powerRZ 2 e1).
  { rewrite SF2R_sf_out32 by assumption. rewrite <- Hq21, mult_IZR, IZR_pow2 by lia.
    rewrite Rmult_assoc, <- pow2_add. f_equal. f_equal. lia. }
  (* the real lies between the truncated significand and the next *)
  assert (He1 : powerRZ 2 e1 = powerRZ 2 n1 * powerRZ 2 e)
    by (rewrite <- pow2_add; f_equal; unfold n1; lia).
  pose proof (pow2_pos e) as Hpe. pose proof (pow2_pos e1) as Hpe1.
  assert (Hblo : IZR q0 * powerRZ 2 e1 <= v).
  { rewrite He1, <- Rmult_assoc, <- IZR_pow2, <- mult_IZR by lia.
    apply Rle_trans with (IZR m * powerRZ 2 e); [|exact Hlo].
    apply Rmult_le_compat_r; [lra|]. apply IZR_le.
    rewrite Z.mul_comm. apply Z.mul_div_le, Hpn. }
  assert (Hbhi : v <= IZR (q0 + 1) * powerRZ 2 e1).
  { rewrite He1, <- Rmult_assoc, <- IZR_pow2, <- mult_IZR by lia.
    apply Rle_trans with (IZR (m + 1) * powerRZ 2 e); [lra|].
    apply Rmult_le_compat_r; [lra|]. apply IZR_le.
    pose proof (Z.mul_succ_div_gt m (2 ^ n1) Hpn). fold q0 in H. lia. }
  rewrite plus_IZR in Hbhi.
  (* one unit in the last place *)
  assert (Hulp : powerRZ 2 e1 <= eps32 * v + eta32).
  { pose proof eta32_pos as Heta.
    assert (He1v : e1 = Z.max (d + e - 24) (-149)) by reflexivity.
    destruct (Z.eq_dec e1 (-149)%Z) as [E|E].
    - rewrite E. fold eta32. assert (0 <= eps32 * v) by (unfold eps32; nra). lra.
    - assert (Hm0 : (0 < m)%Z).
      { destruct (Z.eq_dec m 0%Z) as [Em|Em]; [|lia]. exfalso.
        unfold d in *. rewrite Em in *. simpl Zdigits2 in *.
        unfold e1 in *. rewrite fexp32_eq in Hfine. lia. }
      pose proof (digits_bounds m Hm0) as [Dlo _]. fold d in Dlo.
      pose proof (digits_pos m Hm0) as Hd. fold d in Hd.
      apply IZR_le in Dlo. rewrite IZR_pow2 in Dlo by lia.
      replace e1 with (-23 + ((d - 1) + e))%Z by lia.
      rewrite pow2_add, <- eps32_eq, pow2_add.
      assert (powerRZ 2 (d - 1) * powerRZ 2 e <= v).
      { apply Rle_trans with (IZR m * powerRZ 2 e); [|exact Hlo].
        apply Rmult_le_compat_r; lra. }
      assert (0 < eps32) by (unfold eps32; lra).
      assert (eps32 * (powerRZ 2 (d - 1) * powerRZ 2 e) <= eps32 * v)
        by (apply Rmult_le_compat_l; lra).
      lra. }
  unfold rounds_to. split; [exact V|]. split; [apply sf_out32_finite; assumption|].
  rewrite Hval. rewrite (Rabs_pos_eq v) by lra.
  assert (Hq1nn : 0 <= IZR q1) by (apply IZR_le; lia).
  split; [|split; intros H; [apply Rmult_le_pos; lra | lra]].
  apply Rabs_le.
  destruct Hq1 as [-> | ->]; [|rewrite plus_IZR]; lra.
Qed.
End Binary32Error.

Section Binary32Operations.
Local Open Scope R_scope.

(** A finite binary32 number in canonical form. *)
Definition fin32 (x : spec_float) : Prop :=
  SpecFloat.valid_binary 24 128 x = true /\ sf_finite x = true.

Lemma valid32_bounds (s : bool) (m : positive) (e : Z) :
  SpecFloat.valid_binary 24 128 (S754_finite s m e) = true ->
  (-149 <= e <= 104)%Z /\ (Z.pos m < 2 ^ 24)%Z /\
  ((-149 < e)%Z -> (2 ^ 23 <= Z.pos m)%Z).
Proof.
  unfold SpecFloat.valid_binary, bounded, canonical_mantissa. intros H.
  apply andb_prop in H. destruct H as [Hc Hb].
  apply Z.eqb_eq in Hc. apply Z.leb_le in Hb. rewrite fexp32_eq in Hc.
  change (128 - 24)%Z with 104%Z in Hb.
  pose proof (digits2_pos_spec m) as [Hlo Hhi].
  set (d := Z.pos (digits2_pos m)) in *.
  assert (Hd : (0 < d)%Z) by (unfold d; lia).
  split; [lia|]. split.
  - apply Z.lt_le_trans with (2 ^ d)%Z; [exact Hhi|]. apply Z.pow_le_mono_r; lia.
  - intros He. apply Z.le_trans with (2 ^ (d - 1))%Z; [|exact Hlo].
    apply Z.pow_le_mono_r; lia.
Qed.

Lemma rounds_to_zero (s : bool) : rounds_to (S754_zero s) 0.
Proof.
  pose proof eta32_pos. unfold rounds_to. simpl SF2R.
  repeat split; try reflexivity; try lra.
  rewrite Rminus_diag, Rabs_R0. lra.
Qed.

Lemma rounds_to_exact (x : spec_float) : fin32 x -> rounds_to x (SF2R x).
Proof.
  intros [V F]. pose proof eta32_pos. pose proof (Rabs_pos (SF2R x)).
  unfold rounds_to. repeat split; try assumption; try lra.
  rewrite Rminus_diag, Rabs_R0. unfold eps32. nra.
Qed.

Lemma rounds_to_fin32 (out : spec_float) (v : R) : rounds_to out v -> fin32 out.
Proof. intros (V & F & _). split; assumption. Qed.

Lemma fin32_opp (x : spec_float) : fin32 x -> fin32 (SFopp x).
Proof. intros [V F]. destruct x; split; assumption. Qed.

(** The magnitude of a finite number. *)
Lemma SF2R_finite (s : bool) (m : positive) (e : Z) :
  SF2R (S754_finite s m e)
  = (if s then - (IZR (Z.pos m) * powerRZ 2 e) else IZR (Z.pos m) * powerRZ 2 e).
Proof.
  destruct s; unfold SF2R; cbn [cond_Zopp]; [rewrite opp_IZR; ring | reflexivity].
Qed.

Lemma signed_abs (s : bool) (v : R) : 0 <= v -> Rabs (if s then - v else v) = v.
Proof. intros H. destruct s; [rewrite Rabs_Ropp|]; apply Rabs_pos_eq, H. Qed.

Lemma signed_mul (s1 s2 : bool) (a b : R) :
  (if s1 then - a else a) * (if s2 then - b else b)
  = (if xorb s1 s2 then - (a * b) else a * b).
Proof. destruct s1, s2; simpl; ring. Qed.

Lemma mul32_model (x y : spec_float) :
  fin32 x -> fin32 y -> Rabs (SF2R x * SF2R y) < powerRZ 2 127 ->
  rounds_to (SFmul 24 128 x y) (SF2R x * SF2R y).
Proof.
  intros [Vx Fx] [Vy Fy] Hmax.
  destruct x as [sx|sx| |sx mx ex], y as [sy|sy| |sy my ey]; try discriminate;
    cbn [SFmul];
    try (simpl SF2R; rewrite ?Rmult_0_l, ?Rmult_0_r; apply rounds_to_zero).
  rewrite !SF2R_finite, signed_mul in *.
  set (v := IZR (Z.pos mx) * powerRZ 2 ex * (IZR (Z.pos my) * powerRZ 2 ey)) in *.
  pose proof (pow2_pos ex). pose proof (pow2_pos ey).
  assert (Hmx : 0 < IZR (Z.pos mx)) by (apply IZR_lt; lia).
  assert (Hmy : 0 < IZR (Z.pos my)) by (apply IZR_lt; lia).
  assert (Hv : 0 < v) by (unfold v; repeat apply Rmult_lt_0_compat; assumption).
  rewrite signed_abs in Hmax by lra.
  assert (Ev : v = IZR (Z.pos (mx * my)) * powerRZ 2 (ex + ey)).
  { unfold v. rewrite Pos2Z.inj_mul, mult_IZR, pow2_add. ring. }
  pose proof (pow2_pos (ex + ey)).
  apply round32_error; try lia; try assumption.
  - (* the product is at least as fine as the format *)
    destruct (valid32_bounds _ _ _ Vx) as (Hex & _ & Hnx).
    destruct (valid32_bounds _ _ _ Vy) as (Hey & _ & Hny).
    rewrite fexp32_eq, Zdigits2_pos.
    pose proof (digits2_pos_spec (mx * my)) as [_ Dhi].
    set (d := Z.pos (digits2_pos (mx * my))) in *.
    destruct (Z.le_gt_cases (ex + ey) (-149)%Z) as [Hsmall|Hbig]; [lia|].
    assert (H23 : (2 ^ 23 <= Z.pos (mx * my))%Z).
    { rewrite Pos2Z.inj_mul.
      destruct (Z.eq_dec ex (-149)%Z) as [E|E].
      - specialize (Hny ltac:(lia)). nia.
      - specialize (Hnx ltac:(lia)). nia. }
    assert (Hlt : (2 ^ 23 < 2 ^ d)%Z) by lia.
    apply Z.pow_lt_mono_r_iff in Hlt; [lia | lia | unfold d; lia].
  - rewrite <- Ev. split; [lra|]. rewrite plus_IZR, Rmult_plus_distr_r, <- Ev. lra.
Qed.

Lemma digits_shift (p : positive) (k : Z) :
  (0 <= k)%Z -> Zdigits2 (Z.pos p * 2 ^ k) = (Z.pos (digits2_pos p) + k)%Z.
Proof.
  intros Hk. pose proof (digits2_pos_spec p) as [Hlo Hhi].
  assert (Hp : (0 < 2 ^ k)%Z) by (apply Z.pow_pos_nonneg; lia).
  apply digits_unique; [lia|].
  replace (Z.pos (digits2_pos p) + k - 1)%Z with ((Z.pos (digits2_pos p) - 1) + k)%Z by lia.
  rewrite !Z.pow_add_r by lia. split.
  - apply Z.mul_le_mono_nonneg_r; lia.
  - apply Z.mul_lt_mono_pos_r; lia.
Qed.

(** [binary_round]: the rounding of an integer significand. *)
Lemma binary_round32_model (s : bool) (p : positive) (e : Z) :
  IZR (Z.pos p) * powerRZ 2 e < powerRZ 2 127 ->
  rounds_to (binary_round 24 128 s p e)
    (if s then - (IZR (Z.pos p) * powerRZ 2 e) else IZR (Z.pos p) * powerRZ 2 e).
Proof.
  intros Hmax. unfold binary_round.
  set (t := fexp 24 128 (Z.pos (digits2_pos p) + e)).
  pose proof (shl_align_spec p e t) as Hs.
  destruct (shl_align p e t) as [mz ez]. destruct Hs as [Hez Hmz].
  assert (Ev : IZR (Z.pos p) * powerRZ 2 e = IZR (Z.pos mz) * powerRZ 2 ez).
  { rewrite Hmz, mult_IZR, IZR_pow2 by lia. rewrite Rmult_assoc, <- pow2_add.
    f_equal. f_equal. lia. }
  rewrite Ev in *. pose proof (pow2_pos ez).
  assert (0 < IZR (Z.pos mz)) by (apply IZR_lt; lia).
  apply round32_error; try lia; try assumption.
  - rewrite Hmz, digits_shift by lia. fold t.
    replace (Z.pos (digits2_pos p) + (e - ez) + ez)%Z
      with (Z.pos (digits2_pos p) + e)%Z by lia.
    fold t. lia.
  - split; [lra|]. rewrite plus_IZR. lra.
  - apply Rmult_lt_0_compat; assumption.
Qed.

Lemma binary_normalize32_model (m e : Z) (v : R) :
  v = IZR m * powerRZ 2 e -> Rabs v < powerRZ 2 127 ->
  rounds_to (binary_normalize 24 128 m e false) v.
Proof.
  intros -> Hmax. pose proof (pow2_pos e) as Hp.
  destruct m as [|p|p]; cbn [binary_normalize].
  - rewrite Rmult_0_l. apply rounds_to_zero.
  - assert (0 < IZR (Z.pos p)) by (apply IZR_lt; lia).
    rewrite Rabs_pos_eq in Hmax by (apply Rmult_le_pos; lra).
    exact (binary_round32_model false p e Hmax).
  - assert (0 < IZR (Z.pos p)) by (apply IZR_lt; lia).
    change (Z.neg p) with (- Z.pos p)%Z in *. rewrite opp_IZR in *.
    replace (- IZR (Z.pos p) * powerRZ 2 e) with (- (IZR (Z.pos p) * powerRZ 2 e)) in * by ring.
    rewrite Rabs_Ropp, Rabs_pos_eq in Hmax by (apply Rmult_le_pos; lra).
    exact (binary_round32_model true p e Hmax).
Qed.

(** A finite number on the grid of a smaller exponent. *)
Lemma aligned_value (s : bool) (m : positive) (e ez : Z) :
  (ez <= e)%Z ->
  IZR (cond_Zopp s (Z.pos (fst (shl_align m e ez)))) * powerRZ 2 ez
  = SF2R (S754_finite s m e).
Proof.
  intros Hle. pose proof (shl_align_spec m e ez) as Hs.
  destruct (shl_align m e ez) as [ma ea]. destruct Hs as [Hea Hma]. cbn [fst].
  assert (ea = ez) by lia. subst ea.
  replace (cond_Zopp s (Z.pos ma)) with (cond_Zopp s (Z.pos m) * 2 ^ (e - ez))%Z
    by (rewrite Hma, ?Z.min_r by lia; destruct s; cbn [cond_Zopp]; lia).
  rewrite mult_IZR, IZR_pow2 by lia. simpl SF2R.
  rewrite Rmult_assoc, <- pow2_add. f_equal. f_equal. lia.
Qed.

Lemma add32_model (x y : spec_float) :
  fin32 x -> fin32 y -> Rabs (SF2R x + SF2R y) < powerRZ 2 127 ->
  rounds_to (SFadd 24 128 x y) (SF2R x + SF2R y).
Proof.
  intros Hx Hy Hmax.
  destruct x as [sx|sx| |sx mx ex] eqn:Ex, y as [sy|sy| |sy my ey] eqn:Ey;
    try (destruct Hx as [_ Hx]; discriminate); try (destruct Hy as [_ Hy]; discriminate);
    cbn [SFadd].
  - replace (SF2R (S754_zero sx) + SF2R (S754_zero sy)) with 0 by (simpl; lra).
    destruct sx, sy; apply rounds_to_zero.
  - replace (SF2R (S754_zero sx) + SF2R (S754_finite sy my ey))
      with (SF2R (S754_finite sy my ey)) by (simpl; lra).
    apply rounds_to_exact, Hy.
  - replace (SF2R (S754_finite sx mx ex) + SF2R (S754_zero sy))
      with (SF2R (S754_finite sx mx ex)) by (simpl; lra).
    apply rounds_to_exact, Hx.
  - apply binary_normalize32_model; [|exact Hmax].
    rewrite plus_IZR, Rmult_plus_distr_r, !aligned_value by lia. reflexivity.
Qed.

Lemma sub32_model (x y : spec_float) :
  fin32 x -> fin32 y -> Rabs (SF2R x - SF2R y) < powerRZ 2 127 ->
  rounds_to (SFsub 24 128 x y) (SF2R x - SF2R y).
Proof.
  intros Hx Hy Hmax.
  destruct x as [sx|sx| |sx mx ex] eqn:Ex, y as [sy|sy| |sy my ey] eqn:Ey;
    try (destruct Hx as [_ Hx]; discriminate); try (destruct Hy as [_ Hy]; discriminate);
    cbn [SFsub].
  - replace (SF2R (S754_zero sx) - SF2R (S754_zero sy)) with 0 by (simpl; lra).
    destruct sx, sy; apply rounds_to_zero.
  - replace (SF2R (S754_zero sx) - SF2R (S754_finite sy my ey))
      with (SF2R (S754_finite (negb sy) my ey))
      by (rewrite !SF2R_finite; destruct sy; simpl; lra).
    apply rounds_to_exact. exact (fin32_opp _ Hy).
  - replace (SF2R (S754_finite sx mx ex) - SF2R (S754_zero sy))
      with (SF2R (S754_finite sx mx ex)) by (simpl; lra).
    apply rounds_to_exact, Hx.
  - apply binary_normalize32_model; [|exact Hmax].
    rewrite minus_IZR. unfold Rminus.
    rewrite Rmult_plus_distr_r, Ropp_mult_distr_l_reverse, !aligned_value by lia.
    reflexivity.
Qed.
End Binary32Operations.

Section Binary32Division.
Local Open Scope R_scope.

Lemma signed_div (s1 s2 : bool) (a b : R) :
  b <> 0 ->
  (if s1 then - a else a) / (if s2 then - b else b)
  = (if xorb s1 s2 then - (a / b) else a / b).
Proof. intros Hb. destruct s1, s2; simpl; field; lra. Qed.

Lemma div32_model (x y : spec_float) :
  fin32 x -> fin32 y -> SF2R y <> 0 -> Rabs (SF2R x / SF2R y) < powerRZ 2 127 ->
  rounds_to (SFdiv 24 128 x y) (SF2R x / SF2R y).
Proof.
  intros [Vx Fx] [Vy Fy] Hy0 Hmax.
  destruct x as [sx|sx| |sx mx ex], y as [sy|sy| |sy my ey]; try discriminate;
    cbn [SFdiv]; try (exfalso; apply Hy0; reflexivity).
  { replace (SF2R (S754_zero sx) / SF2R (S754_finite sy my ey)) with 0
      by (simpl SF2R at 1; unfold Rdiv; ring).
    apply rounds_to_zero. }
  pose proof (pow2_pos ex) as Hpx. pose proof (pow2_pos ey) as Hpy.
  assert (Hmx : 0 < IZR (Z.pos mx)) by (apply IZR_lt; lia).
  assert (Hmy : 0 < IZR (Z.pos my)) by (apply IZR_lt; lia).
  set (a := IZR (Z.pos mx) * powerRZ 2 ex) in *.
  set (b := IZR (Z.pos my) * powerRZ 2 ey) in *.
  assert (Ha : 0 < a) by (unfold a; apply Rmult_lt_0_compat; assumption).
  assert (Hb : 0 < b) by (unfold b; apply Rmult_lt_0_compat; assumption).
  rewrite !SF2R_finite in *. fold a b in Hmax |- *.
  rewrite signed_div in * by lra.
  assert (Hv : 0 < a / b) by (apply Rdiv_lt_0_compat; assumption).
  rewrite signed_abs in Hmax by lra.
  unfold SFdiv_core_binary. rewrite !Zdigits2_pos, fexp32_eq.
  pose proof (digits2_pos_spec mx) as [Hlo1 Hhi1].
  pose proof (digits2_pos_spec my) as [Hlo2 Hhi2].
  set (d1 := Z.pos (digits2_pos mx)) in *.
  set (d2 := Z.pos (digits2_pos my)) in *.
  assert (Hd1 : (0 < d1)%Z) by (unfold d1; lia).
  assert (Hd2 : (0 < d2)%Z) by (unfold d2; lia).
  set (D := (d1 + ex - (d2 + ey))%Z).
  set (e' := Z.min (Z.max (D - 24) (-149)) (ex - ey)).
  set (s := (ex - ey - e')%Z).
  assert (Hs : (0 <= s)%Z) by (unfold s, e'; lia).
  set (m' := match s with 0%Z => Z.pos mx | Z.pos _ => Z.shiftl (Z.pos mx) s
                      | Z.neg _ => 0%Z end).
  assert (Hm' : m' = (Z.pos mx * 2 ^ s)%Z).
  { unfold m'. destruct s as [|p|p] eqn:Es; [simpl; lia | | lia].
    apply Z.shiftl_mul_pow2. lia. }
  assert (Hps : (0 < 2 ^ s)%Z) by (apply Z.pow_pos_nonneg; lia).
  pose proof (Z_div_mod m' (Z.pos my) ltac:(lia)) as Hdm.
  destruct (Z.div_eucl m' (Z.pos my)) as [q r]. destruct Hdm as [Hq Hr].
  assert (Hq' : q = (m' / Z.pos my)%Z)
    by (apply (Z.div_unique m' (Z.pos my) q r); [left; lia | lia]).
  assert (Hq0 : (0 <= q)%Z) by (rewrite Hq'; apply Z.div_pos; lia).
  (* the quotient of the significands is the quotient of the numbers *)
  pose proof (pow2_pos e') as Hpe.
  assert (Ev : a / b = IZR m' / IZR (Z.pos my) * powerRZ 2 e').
  { unfold a, b. rewrite Hm', mult_IZR, IZR_pow2 by lia.
    replace ex with (s + e' + ey)%Z at 1 by (unfold s; lia).
    rewrite !pow2_add. field. lra. }
  assert (Hbr : IZR q <= IZR m' / IZR (Z.pos my) < IZR (q + 1)).
  { rewrite plus_IZR.
    assert (E : IZR m' = IZR (Z.pos my) * IZR q + IZR r)
      by (rewrite <- mult_IZR, <- plus_IZR; f_equal; exact Hq).
    assert (0 <= IZR r < IZR (Z.pos my)) by (split; [apply IZR_le | apply IZR_lt]; lia).
    rewrite E. split.
    - apply Rmult_le_reg_r with (IZR (Z.pos my)); [lra|]. field_simplify; lra.
    - apply Rmult_lt_reg_r with (IZR (Z.pos my)); [lra|]. field_simplify; lra. }
  apply round32_error; try assumption.
  - (* the quotient is at least as fine as the format *)
    rewrite fexp32_eq.
    destruct (Z.le_gt_cases e' (-149)%Z) as [Hsmall|Hbig]; [lia|].
    assert (He'D : (e' <= D - 24)%Z) by (unfold e' in *; lia).
    set (k := (D - 1 - e')%Z).
    assert (Hk : (23 <= k)%Z) by (unfold k; lia).
    assert (Hqk : (2 ^ k <= q)%Z).
    { rewrite Hq'. apply Z.div_le_lower_bound; [lia|].
      apply Z.le_trans with (2 ^ d2 * 2 ^ k)%Z.
      { apply Z.mul_le_mono_nonneg_r; [apply Z.pow_nonneg|]; lia. }
      rewrite <- Z.pow_add_r by lia. rewrite Hm'.
      apply Z.le_trans with (2 ^ (d1 - 1) * 2 ^ s)%Z.
      - rewrite <- Z.pow_add_r by lia. apply Z.pow_le_mono_r; unfold k, D, s; lia.
      - apply Z.mul_le_mono_nonneg_r; lia. }
    assert (Hqpos : (0 < q)%Z).
    { assert (0 < 2 ^ k)%Z by (apply Z.pow_pos_nonneg; lia). lia. }
    pose proof (digits_bounds q Hqpos) as [_ Dq].
    assert (Hlt : (2 ^ k < 2 ^ Zdigits2 q)%Z) by lia.
    apply Z.pow_lt_mono_r_iff in Hlt; [|lia | pose proof (digits_pos q Hqpos); lia].
    unfold k in Hlt. lia.
  - rewrite Ev. split.
    + apply Rmult_le_compat_r; lra.
    + apply Rmult_lt_compat_r; lra.
Qed.
End Binary32Division.

Section Binary32Sqrt.
Local Open Scope R_scope.

Lemma sqrt_pow2_even (e : Z) : R_sqrt.sqrt (powerRZ 2 (2 * e)) = powerRZ 2 e.
Proof.
  replace (2 * e)%Z with (e + e)%Z by lia. rewrite pow2_add.
  apply sqrt_square. pose proof (pow2_pos e). lra.
Qed.

Lemma sqrt32_model (x : spec_float) :
  fin32 x -> 0 <= SF2R x ->
  rounds_to (SFsqrt 24 128 x) (R_sqrt.sqrt (SF2R x)).
Proof.
  intros [Vx Fx] Hx.
  destruct x as [sx|sx| |sx mx ex]; try discriminate; cbn [SFsqrt].
  { simpl SF2R. rewrite sqrt_0. apply rounds_to_zero. }
  pose proof (pow2_pos ex) as Hpx.
  assert (Hmx : 0 < IZR (Z.pos mx)) by (apply IZR_lt; lia).
  rewrite SF2R_finite in *.
  destruct sx.
  { exfalso. assert (0 < IZR (Z.pos mx) * powerRZ 2 ex) by (apply Rmult_lt_0_compat; lra). lra. }
  destruct (valid32_bounds _ _ _ Vx) as (Hex & Hm24 & _).
  unfold SFsqrt_core_binary. rewrite Zdigits2_pos, fexp32_eq.
  pose proof (digits2_pos_spec mx) as [Hlo Hhi].
  set (d := Z.pos (digits2_pos mx)) in *.
  assert (Hd : (0 < d)%Z) by (unfold d; lia).
  rewrite !Z.div2_div.
  pose proof (Z.mul_div_le ex 2 ltac:(lia)) as Hhalf.
  pose proof (Z.mul_div_le (d + ex + 1) 2 ltac:(lia)) as HM.
  set (M := ((d + ex + 1) / 2)%Z) in *.
  set (h := (ex / 2)%Z) in *.
  set (e' := Z.min (Z.max (M - 24) (-149)) h).
  set (s := (ex - 2 * e')%Z).
  assert (Hs : (0 <= s)%Z) by (unfold s, e'; lia).
  set (m' := match s with 0%Z => Z.pos mx | Z.pos _ => Z.shiftl (Z.pos mx) s
                      | Z.neg _ => 0%Z end).
  assert (Hm' : m' = (Z.pos mx * 2 ^ s)%Z).
  { unfold m'. destruct s as [|p|p] eqn:Es; [simpl; lia | | lia].
    apply Z.shiftl_mul_pow2. lia. }
  assert (Hps : (0 < 2 ^ s)%Z) by (apply Z.pow_pos_nonneg; lia).
  assert (Hm'pos : (0 < m')%Z) by (rewrite Hm'; lia).
  pose proof (Z.sqrtrem_spec m' ltac:(lia)) as Hsr.
  destruct (Z.sqrtrem m') as [q r]. destruct Hsr as [Hq Hr].
  assert (Hq0 : (0 <= q)%Z) by lia.
  pose proof (pow2_pos e') as Hpe.
  (* the root of the significand is the root of the number *)
  assert (Ev : R_sqrt.sqrt (IZR (Z.pos mx) * powerRZ 2 ex)
               = R_sqrt.sqrt (IZR m') * powerRZ 2 e').
  { rewrite <- (sqrt_pow2_even e'), <- sqrt_mult_alt by (apply IZR_le; lia). f_equal.
    rewrite Hm', mult_IZR, IZR_pow2 by lia.
    replace ex with (s + 2 * e')%Z at 1 by (unfold s; lia).
    rewrite pow2_add. ring. }
  assert (Hbr : IZR q <= R_sqrt.sqrt (IZR m') < IZR (q + 1)).
  { split.
    - rewrite <- (sqrt_square (IZR q)) by (apply IZR_le; lia).
      apply sqrt_le_1_alt. rewrite <- mult_IZR. apply IZR_le. nia.
    - rewrite <- (sqrt_square (IZR (q + 1))) by (apply IZR_le; lia).
      apply sqrt_lt_1_alt. split; [apply IZR_le; lia|].
      rewrite <- mult_IZR. apply IZR_lt. nia. }
  assert (Hroot : 0 < R_sqrt.sqrt (IZR m')) by (apply sqrt_lt_R0, IZR_lt; lia).
  apply (round32_error false q e' _ (R_sqrt.sqrt (IZR (Z.pos mx) * powerRZ 2 ex)));
    try assumption.
  - (* the root is at least as fine as the format *)
    rewrite fexp32_eq.
    destruct (Z.le_gt_cases e' (-149)%Z) as [Hsmall|Hbig]; [lia|].
    assert (He'M : (e' <= M - 24)%Z) by (unfold e' in *; lia).
    set (k := (M - 1 - e')%Z).
    assert (Hk : (23 <= k)%Z) by (unfold k; lia).
    assert (H2k : (2 ^ (2 * k) <= m')%Z).
    { rewrite Hm'. apply Z.le_trans with (2 ^ (d - 1) * 2 ^ s)%Z.
      - rewrite <- Z.pow_add_r by lia. apply Z.pow_le_mono_r; [lia|].
        unfold k, s, M. lia.
      - apply Z.mul_le_mono_nonneg_r; lia. }
    assert (Hqk : (2 ^ k <= q)%Z).
    { destruct (Z.le_gt_cases (2 ^ k) q) as [H|H]; [exact H | exfalso].
      assert (Hpk : (0 < 2 ^ k)%Z) by (apply Z.pow_pos_nonneg; lia).
      assert ((q + 1) * (q + 1) <= 2 ^ k * 2 ^ k)%Z by (apply Z.mul_le_mono_nonneg; lia).
      rewrite <- Z.pow_add_r in H0 by lia. replace (k + k)%Z with (2 * k)%Z in H0 by lia.
      nia. }
    assert (Hqpos : (0 < q)%Z).
    { assert (0 < 2 ^ k)%Z by (apply Z.pow_pos_nonneg; lia). lia. }
    pose proof (digits_bounds q Hqpos) as [_ Dq].
    assert (Hlt : (2 ^ k < 2 ^ Zdigits2 q)%Z) by lia.
    apply Z.pow_lt_mono_r_iff in Hlt; [|lia | pose proof (digits_pos q Hqpos); lia].
    unfold k in Hlt. lia.
  - rewrite Ev. split.
    + apply Rmult_le_compat_r; lra.
    + apply Rmult_lt_compat_r; lra.
  - rewrite Ev. apply Rmult_lt_0_compat; lra.
  - (* the root of a finite number is far below the largest number *)
    apply Rlt_le_trans with (powerRZ 2 64); [|apply pow2_le; lia].
    rewrite <- (sqrt_pow2_even 64).
    apply sqrt_lt_1_alt. split; [apply Rmult_le_pos; lra|].
    apply Rlt_le_trans with (powerRZ 2 24 * powerRZ 2 ex).
    + apply Rmult_lt_compat_r; [lra|]. rewrite <- IZR_pow2 by lia. apply IZR_lt. exact Hm24.
    + rewrite <- pow2_add. apply pow2_le. lia.
Qed.
End Binary32Sqrt.

(** ** Line emission: the error of the binary32 computation *)

Section NormBounds.
Local Open Scope R_scope.

Definition norm2 (u w : R) : R := R_sqrt.sqrt (u * u + w * w).

Lemma norm2_sqr (u w : R) : norm2 u w * norm2 u w = u * u + w * w.
Proof. unfold norm2. apply sqrt_sqrt. nra. Qed.

Lemma norm2_nonneg (u w : R) : 0 <= norm2 u w.
Proof. apply sqrt_pos. Qed.

Lemma le_of_sqr (x y : R) : 0 <= y -> x * x <= y * y -> x <= y.
Proof. intros Hy H. destruct (Rle_dec x y) as [|Hn]; [assumption | nra]. Qed.

Lemma abs_le_norm2_l (u w : R) : Rabs u <= norm2 u w.
Proof.
  apply le_of_sqr; [apply norm2_nonneg|]. rewrite norm2_sqr.
  assert (Rabs u * Rabs u = u * u) by (unfold Rabs; destruct (Rcase_abs u); ring).
  nra.
Qed.

Lemma abs_le_norm2_r (u w : R) : Rabs w <= norm2 u w.
Proof.
  apply le_of_sqr; [apply norm2_nonneg|]. rewrite norm2_sqr.
  assert (Rabs w * Rabs w = w * w) by (unfold Rabs; destruct (Rcase_abs w); ring).
  nra.
Qed.

Lemma norm2_le_sum (u w : R) : norm2 u w <= Rabs u + Rabs w.
Proof.
  pose proof (Rabs_pos u). pose proof (Rabs_pos w).
  apply le_of_sqr; [lra|]. rewrite norm2_sqr.
  assert (Rabs u * Rabs u = u * u) by (unfold Rabs; destruct (Rcase_abs u); ring).
  assert (Rabs w * Rabs w = w * w) by (unfold Rabs; destruct (Rcase_abs w); ring).
  nra.
Qed.

(** The length of a vector moves by no more than its components do. *)
Lemma norm2_step (a b c d : R) :
  norm2 a b <= norm2 c d + (Rabs (a - c) + Rabs (b - d)).
Proof.
  pose proof (norm2_nonneg c d) as HN.
  pose proof (abs_le_norm2_l c d) as Hc. pose proof (abs_le_norm2_r c d) as Hd.
  pose proof (norm2_sqr c d) as HN2.
  set (N := norm2 c d) in *.
  set (u := a - c). set (w := b - d).
  pose proof (Rabs_pos u) as Hu. pose proof (Rabs_pos w) as Hw.
  apply le_of_sqr; [lra|]. rewrite norm2_sqr.
  replace a with (c + u) by (unfold u; ring). replace b with (d + w) by (unfold w; ring).
  assert (Eu : Rabs u * Rabs u = u * u) by (unfold Rabs; destruct (Rcase_abs u); ring).
  assert (Ew : Rabs w * Rabs w = w * w) by (unfold Rabs; destruct (Rcase_abs w); ring).
  assert (Hcu : c * u <= N * Rabs u).
  { apply Rle_trans with (Rabs c * Rabs u).
    - rewrite <- Rabs_mult. apply Rle_abs.
    - apply Rmult_le_compat_r; assumption. }
  assert (Hdw : d * w <= N * Rabs w).
  { apply Rle_trans with (Rabs d * Rabs w).
    - rewrite <- Rabs_mult. apply Rle_abs.
    - apply Rmult_le_compat_r; assumption. }
  assert (0 <= Rabs u * Rabs w) by (apply Rmult_le_pos; assumption).
  nra.
Qed.

Lemma norm2_lipschitz (a b c d : R) :
  Rabs (norm2 a b - norm2 c d) <= Rabs (a - c) + Rabs (b - d).
Proof.
  pose proof (norm2_step a b c d). pose proof (norm2_step c d a b).
  rewrite (Rabs_minus_sym c a), (Rabs_minus_sym d b) in H0.
  apply Rabs_le. lra.
Qed.

Lemma abs_le_inv (x y : R) : Rabs x <= y -> - y <= x <= y.
Proof. unfold Rabs. destruct (Rcase_abs x); lra. Qed.

(** The root of a perturbed square. *)
Lemma sqrt_perturb (S D k t : R) :
  0 <= S -> 0 <= D -> 0 <= k <= 1 -> 0 <= t ->
  Rabs (S - D * D) <= k * (D * D) + t ->
  Rabs (R_sqrt.sqrt S - D) <= k * D + R_sqrt.sqrt t.
Proof.
  intros HS HD [Hk0 Hk1] Ht H. apply abs_le_inv in H.
  pose proof (sqrt_pos S) as HrS. pose proof (sqrt_pos t) as Hrt.
  pose proof (sqrt_sqrt S HS) as ES. pose proof (sqrt_sqrt t Ht) as Et.
  set (rS := R_sqrt.sqrt S) in *. set (rt := R_sqrt.sqrt t) in *.
  assert (HkD : 0 <= k * D) by (apply Rmult_le_pos; assumption).
  apply Rabs_le. split.
  - (* from below *)
    destruct (Rle_dec ((1 - k) * D) rt) as [Hsmall|Hbig]; [lra|].
    assert (HA : 0 <= (1 - k) * D - rt) by lra.
    assert ((1 - k) * D - rt <= rS); [|lra].
    apply le_of_sqr; [lra|]. rewrite ES.
    assert (0 <= D * D) by nra.
    assert ((1 - k) * ((1 - k) * (D * D)) <= (1 - k) * (D * D)).
    { assert (0 <= (1 - k) * (D * D)) by (apply Rmult_le_pos; lra). nra. }
    assert (rt * rt <= rt * ((1 - k) * D)) by (apply Rmult_le_compat_l; lra).
    nra.
  - (* from above *)
    assert (rS <= (1 + k) * D + rt); [|lra].
    apply le_of_sqr; [nra|]. rewrite ES.
    assert (0 <= D * D) by nra.
    assert ((1 + k) * (D * D) <= (1 + k) * ((1 + k) * (D * D))).
    { assert (0 <= (1 + k) * (D * D)) by (apply Rmult_le_pos; lra). nra. }
    assert (0 <= (1 + k) * D * rt) by (apply Rmult_le_pos; [apply Rmult_le_pos|]; lra).
    nra.
Qed.

Lemma abs_mul_le (u c : R) : Rabs c <= 1 -> Rabs (u * c) <= Rabs u.
Proof.
  intros Hc. rewrite Rabs_mult. pose proof (Rabs_pos u). pose proof (Rabs_pos c). nra.
Qed.

Lemma abs_sin_le (x : R) : Rabs (sin x) <= Rabs x.
Proof.
  assert (Hpos : forall y, 0 < y -> Rabs (sin y) <= y).
  { intros y Hy. pose proof (sin_lt_x y Hy) as H1. pose proof (SIN_bound y) as H2.
    apply Rabs_le. split; [|lra].
    destruct (Rle_dec 1 y) as [Hbig|Hsmall]; [lra|].
    assert (0 < sin y); [|lra].
    apply sin_gt_0; [exact Hy|]. pose proof PI_RGT_0. pose proof (PI2_3_2).
    pose proof PI2_Rlt_PI. lra. }
  destruct (Rtotal_order x 0) as [Hneg|[->|Hp]].
  - pose proof (Hpos (- x) ltac:(lra)) as H.
    rewrite sin_neg, Rabs_Ropp in H. rewrite (Rabs_left x) by exact Hneg. exact H.
  - rewrite sin_0, Rabs_R0. lra.
  - rewrite (Rabs_pos_eq x) by lra. apply Hpos, Hp.
Qed.

(** Cosine and sine move by no more than the angle does. *)
Lemma cos_lipschitz (a b : R) : Rabs (cos a - cos b) <= Rabs (a - b).
Proof.
  rewrite form2, !Rabs_mult.
  pose proof (abs_sin_le ((a - b) / 2)) as H1.
  pose proof (SIN_bound ((a + b) / 2)) as H2.
  assert (H3 : Rabs (sin ((a + b) / 2)) <= 1) by (apply Rabs_le; lra).
  assert (H4 : Rabs ((a - b) / 2) = Rabs (a - b) / 2).
  { unfold Rdiv. rewrite Rabs_mult, (Rabs_pos_eq (/ 2)) by lra. reflexivity. }
  rewrite H4 in H1. replace (Rabs (-2)) with 2 by (rewrite Rabs_left; lra).
  pose proof (Rabs_pos (sin ((a - b) / 2))). pose proof (Rabs_pos (sin ((a + b) / 2))).
  pose proof (Rabs_pos (a - b)). nra.
Qed.

Lemma sin_lipschitz (a b : R) : Rabs (sin a - sin b) <= Rabs (a - b).
Proof.
  rewrite form4, !Rabs_mult.
  pose proof (abs_sin_le ((a - b) / 2)) as H1.
  pose proof (COS_bound ((a + b) / 2)) as H2.
  assert (H3 : Rabs (cos ((a + b) / 2)) <= 1) by (apply Rabs_le; lra).
  assert (H4 : Rabs ((a - b) / 2) = Rabs (a - b) / 2).
  { unfold Rdiv. rewrite Rabs_mult, (Rabs_pos_eq (/ 2)) by lra. reflexivity. }
  rewrite H4 in H1. rewrite (Rabs_pos_eq 2) by lra.
  pose proof (Rabs_pos (sin ((a - b) / 2))). pose proof (Rabs_pos (cos ((a + b) / 2))).
  pose proof (Rabs_pos (a - b)). nra.
Qed.
End NormBounds.

Section LineErrorAnalysis.
Local Open Scope R_scope.

(** [out] is the real [v] up to one binary32 rounding. *)
Definition near (out v : R) : Prop := Rabs (out - v) <= eps32 * Rabs v + eta32.

Definition tau32 : R := powerRZ 2 (-73).

Lemma eta32_tau32 : eta32 * 1024 <= tau32 /\ R_sqrt.sqrt (4 * eta32) <= tau32.
Proof.
  unfold eta32, tau32. split.
  - replace 1024 with (powerRZ 2 10) by (simpl; lra). rewrite <- pow2_add. apply pow2_le. lia.
  - rewrite <- (sqrt_pow2_even (-73)). apply sqrt_le_1_alt.
    replace 4 with (powerRZ 2 2) by (simpl; lra). rewrite <- pow2_add. apply pow2_le. lia.
Qed.

Lemma Rabs_cases (x : R) : (0 <= x /\ Rabs x = x) \/ (x < 0 /\ Rabs x = - x).
Proof. unfold Rabs. destruct (Rcase_abs x); [right | left]; lra. Qed.

End LineErrorAnalysis.

Ltac split_abs :=
  repeat match goal with
  | |- context [Rabs ?x] =>
      let E := fresh "E" in
      destruct (Rabs_cases x) as [[? E]|[? E]]; rewrite E in *; clear E
  | H : context [Rabs ?x] |- _ =>
      let E := fresh "E" in
      destruct (Rabs_cases x) as [[? E]|[? E]]; rewrite E in *; clear E
  end.

(** Bounds on absolute values as two-sided bounds, then the remaining
    absolute values by cases. *)
Ltac abs_bounds :=
  repeat match goal with
  | H : Rabs _ <= _ |- _ => apply abs_le_inv in H
  end;
  try apply Rabs_le; split_abs.

Section LineErrorBounds.
Local Open Scope R_scope.

Lemma half_length_error (DX DY dx dy a b S L H : R) :
  near dx DX -> near dy DY -> near a (dx * dx) -> near b (dy * dy) ->
  0 <= a -> 0 <= b -> near S (a + b) -> 0 <= S ->
  near L (R_sqrt.sqrt S) -> 0 <= L -> near H (L / 2) ->
  Rabs (norm2 dx dy - norm2 DX DY) <= 2 * eps32 * norm2 DX DY + 2 * eta32 /\
  Rabs (H - norm2 dx dy / 2) <= 4 * eps32 * norm2 dx dy + 2 * tau32 /\
  Rabs (H - norm2 DX DY / 2) <= 6 * eps32 * norm2 DX DY + 3 * tau32.
Proof.
  unfold near. intros Hdx Hdy Ha Hb Ha0 Hb0 HS HS0 HL HL0 HH.
  pose proof eta32_pos as Heta. destruct eta32_tau32 as [Het Hrt].
  pose proof (norm2_nonneg dx dy) as HD. pose proof (norm2_nonneg DX DY) as HT.
  pose proof (norm2_sqr dx dy) as HD2.
  pose proof (norm2_lipschitz dx dy DX DY) as Hlip.
  pose proof (abs_le_norm2_l DX DY) as HX. pose proof (abs_le_norm2_r DX DY) as HY.
  set (D := norm2 dx dy) in *. set (T := norm2 DX DY) in *.
  assert (HA2 : 0 <= dx * dx) by nra. assert (HB2 : 0 <= dy * dy) by nra.
  set (A2 := dx * dx) in *. set (B2 := dy * dy) in *.
  assert (H1 : Rabs (D - T) <= 2 * eps32 * T + 2 * eta32).
  { unfold eps32 in *. lra. }
  split; [exact H1|].
  (* the sum of the squares *)
  assert (HSD : Rabs (S - D * D) <= 3 * eps32 * (D * D) + 4 * eta32).
  { rewrite HD2. unfold eps32 in *. clear Hlip H1 HX HY Hdx Hdy HL HH. abs_bounds; lra. }
  pose proof (sqrt_perturb S D (3 * eps32) (4 * eta32) HS0 HD
                ltac:(unfold eps32; lra) ltac:(lra) HSD) as Hroot.
  pose proof (sqrt_pos S) as HrS. set (rS := R_sqrt.sqrt S) in *.
  assert (H2 : Rabs (H - D / 2) <= 4 * eps32 * D + 2 * tau32).
  { unfold eps32 in *. clear Hlip H1 HX HY Hdx Hdy Ha Hb HS HSD. abs_bounds; lra. }
  split; [exact H2|].
  unfold eps32 in *. clear Hlip HX HY Hdx Hdy Ha Hb HS HSD HL HH Hroot. abs_bounds; lra.
Qed.

Lemma centre_error (X1 X2 s c : R) :
  near s (X1 + X2) -> near c (s / 2) ->
  Rabs (c - (X1 + X2) / 2) <= 2 * eps32 * Rabs (X1 + X2) + 2 * eta32.
Proof.
  unfold near. intros Hs Hc. pose proof eta32_pos. unfold eps32 in *.
  abs_bounds; lra.
Qed.

(** One coordinate of an endpoint, from the centre, the half-length and the
    matrix entry [C] that stands for the cosine (or sine) [c] of the angle. *)
Lemma endpoint_error (X1 X2 DIST D dx cx H C c delta : R) :
  near dx (X2 - X1) -> Rabs (X2 - X1) <= DIST ->
  Rabs (D - DIST) <= 2 * eps32 * DIST + 2 * eta32 ->
  Rabs (H - D / 2) <= 4 * eps32 * D + 2 * tau32 ->
  Rabs (cx - (X1 + X2) / 2) <= 2 * eps32 * Rabs (X1 + X2) + 2 * eta32 ->
  0 <= H -> 0 <= D -> D * c = dx -> Rabs c <= 1 -> Rabs (C - c) <= delta ->
  Rabs (cx + H * C - X2) <= H * delta + 2 * eps32 * Rabs (X1 + X2) + 5 * eps32 * DIST + 3 * tau32 /\
  Rabs (cx - H * C - X1) <= H * delta + 2 * eps32 * Rabs (X1 + X2) + 5 * eps32 * DIST + 3 * tau32 /\
  Rabs (DIST * C - (X2 - X1)) <= DIST * delta + 3 * eps32 * DIST + 3 * eta32.
Proof.
  unfold near. intros Hdx HDX HD HH Hcx HH0 HD0 Epolar Hc HC.
  pose proof eta32_pos as Heta. destruct eta32_tau32 as [Het _].
  assert (HT0 : 0 <= DIST) by (pose proof (Rabs_pos (X2 - X1)); lra).
  assert (Hd0 : 0 <= delta) by (pose proof (Rabs_pos (C - c)); lra).
  (* the libm part and the part of the half-length *)
  assert (P1 : Rabs (H * (C - c)) <= H * delta).
  { rewrite Rabs_mult, (Rabs_pos_eq H) by exact HH0.
    apply Rmult_le_compat_l; assumption. }
  assert (P2 : Rabs ((H - D / 2) * c) <= Rabs (H - D / 2)) by (apply abs_mul_le, Hc).
  assert (P3 : Rabs (DIST * (C - c)) <= DIST * delta).
  { rewrite Rabs_mult, (Rabs_pos_eq DIST) by exact HT0.
    apply Rmult_le_compat_l; assumption. }
  assert (P4 : Rabs ((DIST - D) * c) <= Rabs (DIST - D)) by (apply abs_mul_le, Hc).
  rewrite (Rabs_minus_sym DIST D) in P4.
  pose proof (Rle_trans _ _ _ P2 HH) as P2'. pose proof (Rle_trans _ _ _ P4 HD) as P4'.
  clear P2 P4 HH.
  set (u := H * (C - c)) in *. set (w := (H - D / 2) * c) in *.
  set (u' := DIST * (C - c)) in *. set (w' := (DIST - D) * c) in *.
  assert (E2 : cx + H * C - X2 = (cx - (X1 + X2) / 2) + u + w + (dx - (X2 - X1)) / 2).
  { unfold u, w. rewrite <- Epolar. field. }
  assert (E1 : cx - H * C - X1 = (cx - (X1 + X2) / 2) - u - w - (dx - (X2 - X1)) / 2).
  { unfold u, w. rewrite <- Epolar. field. }
  assert (E3 : DIST * C - (X2 - X1) = u' + w' + (dx - (X2 - X1))).
  { unfold u', w'. rewrite <- Epolar. ring. }
  rewrite E1, E2, E3. clear E1 E2 E3 Epolar.
  clearbody u w u' w'. clear Hc HC.
  pose proof (abs_le_inv _ _ HD) as HD'.
  pose proof (Rabs_pos (X1 + X2)) as HS0.
  set (t0 := cx - (X1 + X2) / 2) in *. set (t3 := dx - (X2 - X1)) in *.
  assert (Hhalf : Rabs (t3 / 2) = Rabs t3 / 2).
  { unfold Rdiv. rewrite Rabs_mult, (Rabs_pos_eq (/ 2)) by lra. reflexivity. }
  unfold eps32 in *.
  split; [|split].
  - apply Rle_trans with (Rabs t0 + Rabs u + Rabs w + Rabs (t3 / 2)).
    + eapply Rle_trans; [apply Rabs_triang|]. apply Rplus_le_compat_r.
      eapply Rle_trans; [apply Rabs_triang|]. apply Rplus_le_compat_r. apply Rabs_triang.
    + rewrite Hhalf. lra.
  - replace (t0 - u - w - t3 / 2) with (t0 + - u + - w + - (t3 / 2)) by ring.
    apply Rle_trans with (Rabs t0 + Rabs (- u) + Rabs (- w) + Rabs (- (t3 / 2))).
    + eapply Rle_trans; [apply Rabs_triang|]. apply Rplus_le_compat_r.
      eapply Rle_trans; [apply Rabs_triang|]. apply Rplus_le_compat_r. apply Rabs_triang.
    + rewrite !Rabs_Ropp, Hhalf. lra.
  - apply Rle_trans with (Rabs u' + Rabs w' + Rabs t3).
    + eapply Rle_trans; [apply Rabs_triang|]. apply Rplus_le_compat_r. apply Rabs_triang.
    + lra.
Qed.
End LineErrorBounds.

(** ** Line emission: the box that binary32 arithmetic stores *)

Section LineBox32.
Variable atan2f : spec_float -> spec_float -> spec_float.
Variables cosf sinf : spec_float -> spec_float.
Local Open Scope R_scope.

Definition scene_ok32 (s : mjvScene32) : Prop :=
  (0 <= ngeom32 s)%Z /\ length (geoms32 s) = Z.to_nat (maxgeom32 s).

Lemma SF2R_two : SF2R f32_two = 2.
Proof. unfold f32_two, SF2R. simpl. lra. Qed.

Lemma fin32_two : fin32 f32_two.
Proof. split; reflexivity. Qed.

Lemma pow2_numeral (k : Z) (n : Z) : (0 <= k)%Z -> (2 ^ k)%Z = n -> powerRZ 2 k = IZR n.
Proof. intros Hk <-. symmetry. apply IZR_pow2, Hk. Qed.

Lemma fin32_bound (x : spec_float) : fin32 x -> Rabs (SF2R x) < powerRZ 2 128.
Proof.
  intros [V F]. destruct x as [s|s| |s m e]; try discriminate;
    try (simpl SF2R; rewrite Rabs_R0; apply pow2_pos).
  destruct (valid32_bounds _ _ _ V) as (He & Hm & _).
  pose proof (pow2_pos e).
  rewrite SF2R_finite, signed_abs by (apply Rmult_le_pos; [apply IZR_le; lia | lra]).
  apply Rlt_le_trans with (powerRZ 2 24 * powerRZ 2 e).
  - apply Rmult_lt_compat_r; [lra|]. rewrite <- IZR_pow2 by lia. apply IZR_lt, Hm.
  - rewrite <- pow2_add. apply pow2_le. lia.
Qed.

(** Halving, as the code does it: a division by [2.0f]. *)
Lemma half32_model (x : spec_float) :
  fin32 x -> rounds_to (f32_div x f32_two) (SF2R x / 2).
Proof.
  intros Hx. rewrite <- SF2R_two. apply div32_model; [exact Hx | exact fin32_two | |].
  - rewrite SF2R_two. lra.
  - rewrite SF2R_two. pose proof (fin32_bound x Hx) as Hb.
    replace (powerRZ 2 128) with (2 * powerRZ 2 127) in Hb
      by (replace 128%Z with (1 + 127)%Z by lia; rewrite pow2_add; simpl; lra).
    unfold Rdiv. rewrite Rabs_mult, (Rabs_pos_eq (/ 2)) by lra. lra.
Qed.

Lemma rounds_to_near (out : spec_float) (v : R) : rounds_to out v -> near (SF2R out) v.
Proof. intros (_ & _ & E & _). exact E. Qed.

Lemma rounds_to_nonneg (out : spec_float) (v : R) :
  rounds_to out v -> 0 <= v -> 0 <= SF2R out.
Proof. intros (_ & _ & _ & P & _). exact P. Qed.

Lemma near_bound (out v c : R) :
  near out v -> Rabs v <= c -> 2 <= c -> Rabs out <= 2 * c.
Proof.
  unfold near. intros H Hc Hc2. pose proof eta32_pos.
  assert (eta32 <= 1).
  { unfold eta32. replace 1 with (powerRZ 2 0) by reflexivity. apply pow2_le. lia. }
  unfold eps32 in *. abs_bounds; lra.
Qed.

Lemma sqr_bound (x c : R) : Rabs x <= c -> Rabs (x * x) <= c * c.
Proof.
  intros H. pose proof (Rabs_pos x). rewrite Rabs_mult.
  apply Rmult_le_compat; assumption.
Qed.

(** The length that the code computes, and its half. *)
Lemma length32_model (x1 y1 x2 y2 : spec_float) :
  fin32 x1 -> fin32 y1 -> fin32 x2 -> fin32 y2 ->
  Rabs (SF2R x1) <= powerRZ 2 60 -> Rabs (SF2R y1) <= powerRZ 2 60 ->
  Rabs (SF2R x2) <= powerRZ 2 60 -> Rabs (SF2R y2) <= powerRZ 2 60 ->
  let dx := f32_sub x2 x1 in
  let dy := f32_sub y2 y1 in
  let len := f32_sqrt (f32_add (f32_mul dx dx) (f32_mul dy dy)) in
  let h := f32_div len f32_two in
  rounds_to dx (SF2R x2 - SF2R x1) /\ rounds_to dy (SF2R y2 - SF2R y1) /\
  fin32 h /\ 0 <= SF2R h /\
  Rabs (norm2 (SF2R dx) (SF2R dy) - norm2 (SF2R x2 - SF2R x1) (SF2R y2 - SF2R y1))
    <= 2 * eps32 * norm2 (SF2R x2 - SF2R x1) (SF2R y2 - SF2R y1) + 2 * eta32 /\
  Rabs (SF2R h - norm2 (SF2R dx) (SF2R dy) / 2)
    <= 4 * eps32 * norm2 (SF2R dx) (SF2R dy) + 2 * tau32 /\
  Rabs (SF2R h - norm2 (SF2R x2 - SF2R x1) (SF2R y2 - SF2R y1) / 2)
    <= 6 * eps32 * norm2 (SF2R x2 - SF2R x1) (SF2R y2 - SF2R y1) + 3 * tau32.
Proof.
  intros F1 G1 F2 G2 B1 C1 B2 C2 dx dy len h.
  rewrite (pow2_numeral 60 1152921504606846976) in * by (reflexivity || lia).
  assert (P127 : powerRZ 2 127 = 170141183460469231731687303715884105728)
    by (apply pow2_numeral; [lia | reflexivity]).
  set (X1 := SF2R x1) in *. set (Y1 := SF2R y1) in *.
  set (X2 := SF2R x2) in *. set (Y2 := SF2R y2) in *.
  assert (Hdx : rounds_to dx (X2 - X1)).
  { apply sub32_model; [assumption..|]. fold X1 X2. rewrite P127.
    clear - B1 B2. abs_bounds; lra. }
  assert (Hdy : rounds_to dy (Y2 - Y1)).
  { apply sub32_model; [assumption..|]. fold Y1 Y2. rewrite P127.
    clear - C1 C2. abs_bounds; lra. }
  assert (Bdx : Rabs (SF2R dx) <= 4611686018427387904).
  { pose proof (near_bound _ _ 2305843009213693952 (rounds_to_near _ _ Hdx)) as H.
    assert (Rabs (X2 - X1) <= 2305843009213693952) by (clear - B1 B2; abs_bounds; lra).
    specialize (H H0 ltac:(lra)). lra. }
  assert (Bdy : Rabs (SF2R dy) <= 4611686018427387904).
  { pose proof (near_bound _ _ 2305843009213693952 (rounds_to_near _ _ Hdy)) as H.
    assert (Rabs (Y2 - Y1) <= 2305843009213693952) by (clear - C1 C2; abs_bounds; lra).
    specialize (H H0 ltac:(lra)). lra. }
  pose proof (sqr_bound _ _ Bdx) as Bdx2. pose proof (sqr_bound _ _ Bdy) as Bdy2.
  assert (Ha : rounds_to (f32_mul dx dx) (SF2R dx * SF2R dx)).
  { apply mul32_model; try exact (rounds_to_fin32 _ _ Hdx). rewrite P127. lra. }
  assert (Hb : rounds_to (f32_mul dy dy) (SF2R dy * SF2R dy)).
  { apply mul32_model; try exact (rounds_to_fin32 _ _ Hdy). rewrite P127. lra. }
  assert (Ha0 : 0 <= SF2R (f32_mul dx dx)) by (apply (rounds_to_nonneg _ _ Ha); nra).
  assert (Hb0 : 0 <= SF2R (f32_mul dy dy)) by (apply (rounds_to_nonneg _ _ Hb); nra).
  pose proof (near_bound _ _ _ (rounds_to_near _ _ Ha) Bdx2 ltac:(lra)) as Ba.
  pose proof (near_bound _ _ _ (rounds_to_near _ _ Hb) Bdy2 ltac:(lra)) as Bb.
  set (a := f32_mul dx dx) in *. set (b := f32_mul dy dy) in *.
  assert (HS : rounds_to (f32_add a b) (SF2R a + SF2R b)).
  { apply add32_model; [exact (rounds_to_fin32 _ _ Ha) | exact (rounds_to_fin32 _ _ Hb) |].
    rewrite P127. rewrite Rabs_pos_eq in * by lra. lra. }
  assert (HS0 : 0 <= SF2R (f32_add a b)) by (apply (rounds_to_nonneg _ _ HS); lra).
  assert (HL : rounds_to len (R_sqrt.sqrt (SF2R (f32_add a b)))).
  { apply sqrt32_model; [exact (rounds_to_fin32 _ _ HS) | exact HS0]. }
  assert (HL0 : 0 <= SF2R len) by (apply (rounds_to_nonneg _ _ HL), sqrt_pos).
  assert (HH : rounds_to h (SF2R len / 2))
    by (apply half32_model; exact (rounds_to_fin32 _ _ HL)).
  assert (HH0 : 0 <= SF2R h) by (apply (rounds_to_nonneg _ _ HH); lra).
  split; [exact Hdx|]. split; [exact Hdy|].
  split; [exact (rounds_to_fin32 _ _ HH)|]. split; [exact HH0|].
  apply (half_length_error _ _ _ _ (SF2R a) (SF2R b) (SF2R (f32_add a b)) (SF2R len));
    try assumption; apply rounds_to_near; assumption.
Qed.

(** The centre coordinate that the code computes. *)
Lemma centre32_model (x1 x2 : spec_float) :
  fin32 x1 -> fin32 x2 ->
  Rabs (SF2R x1) <= powerRZ 2 60 -> Rabs (SF2R x2) <= powerRZ 2 60 ->
  let c := f32_div (f32_add x1 x2) f32_two in
  fin32 c /\
  Rabs (SF2R c - (SF2R x1 + SF2R x2) / 2)
    <= 2 * eps32 * Rabs (SF2R x1 + SF2R x2) + 2 * eta32.
Proof.
  intros F1 F2 B1 B2 c.
  rewrite (pow2_numeral 60 1152921504606846976) in * by (reflexivity || lia).
  assert (P127 : powerRZ 2 127 = 170141183460469231731687303715884105728)
    by (apply pow2_numeral; [lia | reflexivity]).
  assert (Hs : rounds_to (f32_add x1 x2) (SF2R x1 + SF2R x2)).
  { apply add32_model; [assumption..|]. rewrite P127. clear - B1 B2. abs_bounds; lra. }
  assert (Hc : rounds_to c (SF2R (f32_add x1 x2) / 2))
    by (apply half32_model; exact (rounds_to_fin32 _ _ Hs)).
  split; [exact (rounds_to_fin32 _ _ Hc)|].
  apply (centre_error _ _ (SF2R (f32_add x1 x2))); apply rounds_to_near; assumption.
Qed.
End LineBox32.

Section LineBoxTheorem.
Variable atan2f : spec_float -> spec_float -> spec_float.
Variables cosf sinf : spec_float -> spec_float.
Local Open Scope R_scope.

Lemma draw_line_f32_slot x1 y1 x2 y2 w r g b a (s : mjvScene32) :
  scene_ok32 s -> (ngeom32 s < maxgeom32 s)%Z ->
  exists g0,
    geoms32 s !! Z.to_nat (ngeom32 s) = Some g0 /\
    geoms32 (Draw2DLine_f32 atan2f cosf sinf x1 y1 x2 y2 w r g b a s)
      !! Z.to_nat (ngeom32 s)
    = Some (line_geom_f32 atan2f cosf sinf x1 y1 x2 y2 w r g b a g0) /\
    ngeom32 (Draw2DLine_f32 atan2f cosf sinf x1 y1 x2 y2 w r g b a s)
    = (ngeom32 s + 1)%Z.
Proof.
  intros [H0 Hlen] Hlt.
  destruct (lookup_lt_is_Some_2 (geoms32 s) (Z.to_nat (ngeom32 s))) as [g0 Hg0]; [lia|].
  exists g0. split; [exact Hg0|].
  unfold Draw2DLine_f32.
  destruct (Z.geb_spec (ngeom32 s) (maxgeom32 s)) as [Hge|_]; [lia|].
  cbn [geoms32 ngeom32]. split; [|reflexivity].
  rewrite list_lookup_alter, Hg0.
  destruct (decide (Z.to_nat (ngeom32 s) = Z.to_nat (ngeom32 s))); [reflexivity | congruence].
Qed.

Lemma tolerance_constants :
  4 * tau32 = powerRZ 2 (-71) /\ 4 * eta32 = powerRZ 2 (-147) /\
  2 * eta32 = powerRZ 2 (-148).
Proof.
  unfold tau32, eta32. repeat split.
  - replace (-71)%Z with (2 + -73)%Z by lia. rewrite pow2_add. simpl. lra.
  - replace (-147)%Z with (2 + -149)%Z by lia. rewrite pow2_add. simpl. lra.
  - replace (-148)%Z with (1 + -149)%Z by lia. rewrite pow2_add. simpl. lra.
Qed.

(** C6 (as the code has it): a line append between finite endpoints of
    magnitude at most [2 ^ 60], with room, stores a box whose half-length,
    half-width and centre are the binary32 roundings of half the distance,
    half the width and the midpoint, each within a few units in the last
    place, and whose matrix is the rotation built from the library's cosine
    and sine of the library's [atan2 dy dx].  With [delta] the distance of
    these two from the exact cosine and sine of the exact angle of the computed
    [(dx, dy)], the rotation carries the local +x axis, scaled by the distance,
    onto [(x2 - x1, y2 - y1)] up to [dist * delta] and rounding, and the
    endpoints are recovered from centre, half-length and matrix up to
    [half_length * delta] and rounding; [delta] is at most the error of the
    library's angle plus the error of its cosine and sine at that angle. *)
Theorem C6_line_box_binary32 x1 y1 x2 y2 w r g b a (s : mjvScene32) :
  scene_ok32 s -> (ngeom32 s < maxgeom32 s)%Z ->
  fin32 x1 -> fin32 y1 -> fin32 x2 -> fin32 y2 -> fin32 w ->
  Rabs (SF2R x1) <= powerRZ 2 60 -> Rabs (SF2R y1) <= powerRZ 2 60 ->
  Rabs (SF2R x2) <= powerRZ 2 60 -> Rabs (SF2R y2) <= powerRZ 2 60 ->
  let X1 := SF2R x1 in let Y1 := SF2R y1 in
  let X2 := SF2R x2 in let Y2 := SF2R y2 in
  let dist := norm2 (X2 - X1) (Y2 - Y1) in
  let dx := f32_sub x2 x1 in
  let dy := f32_sub y2 y1 in
  let theta := atan2 (SF2R dy) (SF2R dx) in
  let cos_a := cosf (atan2f dy dx) in
  let sin_a := sinf (atan2f dy dx) in
  let tol := / 1048576 * (Rabs X1 + Rabs X2 + Rabs Y1 + Rabs Y2) + powerRZ 2 (-71) in
  let s' := Draw2DLine_f32 atan2f cosf sinf x1 y1 x2 y2 w r g b a s in
  exists G half_length half_width cx cy,
    geoms32 s' !! Z.to_nat (ngeom32 s) = Some G /\
    ngeom32 s' = (ngeom32 s + 1)%Z /\
    type32 G = mjGEOM_BOX /\ category32 G = mjCAT_DECOR /\
    size32 G = [half_length; half_width; f32_0_001] /\
    pos32 G = [cx; cy; f32_zero] /\
    rgba32 G = [r; g; b; a] /\
    mat32 G = [cos_a; SFopp sin_a; f32_zero;
               sin_a; cos_a; f32_zero;
               f32_zero; f32_zero; f32_one] /\
    fin32 half_length /\ fin32 half_width /\ fin32 cx /\ fin32 cy /\
    Rabs (SF2R half_length - dist / 2) <= / 1048576 * dist + powerRZ 2 (-71) /\
    Rabs (SF2R half_width - SF2R w / 2) <= / 16777216 * Rabs (SF2R w) + powerRZ 2 (-149) /\
    Rabs (SF2R cx - (X1 + X2) / 2) <= / 4194304 * Rabs (X1 + X2) + powerRZ 2 (-148) /\
    Rabs (SF2R cy - (Y1 + Y2) / 2) <= / 4194304 * Rabs (Y1 + Y2) + powerRZ 2 (-148) /\
    (sf_finite cos_a = true -> sf_finite sin_a = true ->
     let C := SF2R cos_a in
     let S := SF2R sin_a in
     let H := SF2R half_length in
     let delta := Rmax (Rabs (C - cos theta)) (Rabs (S - sin theta)) in
     Rabs (dist * C - (X2 - X1)) <= dist * delta + / 2097152 * dist + powerRZ 2 (-147) /\
     Rabs (dist * S - (Y2 - Y1)) <= dist * delta + / 2097152 * dist + powerRZ 2 (-147) /\
     Rabs (SF2R cx + H * C - X2) <= H * delta + tol /\
     Rabs (SF2R cy + H * S - Y2) <= H * delta + tol /\
     Rabs (SF2R cx - H * C - X1) <= H * delta + tol /\
     Rabs (SF2R cy - H * S - Y1) <= H * delta + tol /\
     (forall ea ec : R,
        sf_finite (atan2f dy dx) = true ->
        let angle := SF2R (atan2f dy dx) in
        Rabs (angle - theta) <= ea ->
        Rabs (C - cos angle) <= ec -> Rabs (S - sin angle) <= ec ->
        delta <= ea + ec)).
Proof.
  intros Hok Hroom F1 G1 F2 G2 Fw B1 C1 B2 C2.
  intros X1 Y1 X2 Y2 dist dx dy theta cos_a sin_a tol s'.
  destruct (draw_line_f32_slot x1 y1 x2 y2 w r g b a s Hok Hroom) as (g0 & _ & Hslot & Hn).
  destruct (length32_model x1 y1 x2 y2 F1 G1 F2 G2 B1 C1 B2 C2)
    as (Hdx & Hdy & FH & HH0 & HD & HHD & HHT).
  destruct (centre32_model x1 x2 F1 F2 B1 B2) as (Fcx & Hcx).
  destruct (centre32_model y1 y2 G1 G2 C1 C2) as (Fcy & Hcy).
  pose proof (half32_model w Fw) as Hw.
  fold dx dy in Hdx, Hdy, FH, HH0, HD, HHD, HHT.
  fold X1 X2 in Hdx, HD, HHT, Hcx. fold Y1 Y2 in Hdy, HD, HHT, Hcy.
  fold dist in HD, HHT.
  set (half_length := f32_div (f32_sqrt (f32_add (f32_mul dx dx) (f32_mul dy dy))) f32_two) in *.
  set (cx := f32_div (f32_add x1 x2) f32_two) in *.
  set (cy := f32_div (f32_add y1 y2) f32_two) in *.
  destruct tolerance_constants as (K71 & K147 & K148).
  pose proof eta32_pos as Heta. destruct eta32_tau32 as [Het _].
  assert (Htau : 0 < tau32) by (apply pow2_pos).
  pose proof (norm2_nonneg (X2 - X1) (Y2 - Y1)) as HT0. fold dist in HT0.
  exists (line_geom_f32 atan2f cosf sinf x1 y1 x2 y2 w r g b a g0),
    half_length, (f32_div w f32_two), cx, cy.
  split; [exact Hslot|]. split; [exact Hn|].
  do 6 (split; [reflexivity|]).
  split; [exact FH|]. split; [exact (rounds_to_fin32 _ _ Hw)|].
  split; [exact Fcx|]. split; [exact Fcy|].
  split; [rewrite <- K71; unfold eps32 in HHT; lra|].
  split.
  { pose proof (rounds_to_near _ _ Hw) as Hn32. unfold near in Hn32.
    unfold Rdiv in Hn32 at 2. rewrite Rabs_mult, (Rabs_pos_eq (/ 2)) in Hn32 by lra.
    unfold eps32, eta32 in *. lra. }
  split; [rewrite <- K148; unfold eps32 in Hcx; lra|].
  split; [rewrite <- K148; unfold eps32 in Hcy; lra|].
  intros _ _ C S H delta.
  (* the exact angle of the computed differences *)
  destruct (atan2_polar (SF2R dy) (SF2R dx)) as [Pc Ps].
  change (R_sqrt.sqrt (SF2R dx * SF2R dx + SF2R dy * SF2R dy))
    with (norm2 (SF2R dx) (SF2R dy)) in Pc, Ps.
  fold theta in Pc, Ps.
  pose proof (norm2_nonneg (SF2R dx) (SF2R dy)) as HD0.
  assert (Hcos : Rabs (cos theta) <= 1) by (apply Rabs_le, COS_bound).
  assert (Hsin : Rabs (sin theta) <= 1) by (apply Rabs_le, SIN_bound).
  assert (Hdc : Rabs (C - cos theta) <= delta) by apply Rmax_l.
  assert (Hds : Rabs (S - sin theta) <= delta) by apply Rmax_r.
  pose proof (abs_le_norm2_l (X2 - X1) (Y2 - Y1)) as HX.
  pose proof (abs_le_norm2_r (X2 - X1) (Y2 - Y1)) as HY.
  fold dist in HX, HY.
  destruct (endpoint_error X1 X2 dist _ (SF2R dx) (SF2R cx) H C (cos theta) delta
              (rounds_to_near _ _ Hdx) HX HD HHD Hcx HH0 HD0 Pc Hcos Hdc)
    as (Ex2 & Ex1 & Edx).
  destruct (endpoint_error Y1 Y2 dist _ (SF2R dy) (SF2R cy) H S (sin theta) delta
              (rounds_to_near _ _ Hdy) HY HD HHD Hcy HH0 HD0 Ps Hsin Hds)
    as (Ey2 & Ey1 & Edy).
  (* the distance and the sums against the sizes of the coordinates *)
  pose proof (norm2_le_sum (X2 - X1) (Y2 - Y1)) as Hsum. fold dist in Hsum.
  assert (Hm : dist <= Rabs X1 + Rabs X2 + Rabs Y1 + Rabs Y2).
  { pose proof (Rabs_triang X2 (- X1)) as T1. pose proof (Rabs_triang Y2 (- Y1)) as T2.
    rewrite Rabs_Ropp in T1, T2. unfold Rminus in Hsum. lra. }
  pose proof (Rabs_triang X1 X2) as TX. pose proof (Rabs_triang Y1 Y2) as TY.
  pose proof (Rabs_pos X1). pose proof (Rabs_pos X2).
  pose proof (Rabs_pos Y1). pose proof (Rabs_pos Y2).
  unfold tol. rewrite <- K71, <- K147. unfold eps32 in *.
  do 6 (split; [lra|]).
  intros ea ec _ Hea Hec Hes. set (angle := SF2R (atan2f dy dx)) in *.
  pose proof (cos_lipschitz angle theta) as Lc.
  pose proof (sin_lipschitz angle theta) as Ls.
  pose proof (Rabs_triang (C - cos angle) (cos angle - cos theta)) as Tc.
  pose proof (Rabs_triang (S - sin angle) (sin angle - sin theta)) as Ts.
  replace (C - cos angle + (cos angle - cos theta)) with (C - cos theta) in Tc by ring.
  replace (S - sin angle + (sin angle - sin theta)) with (S - sin theta) in Ts by ring.
  unfold delta. apply Rmax_lub; lra.
Qed.
End LineBoxTheorem.

(** ** Line emission in binary32: instances *)

(** The values that ISO C fixes for a segment along the positive x axis:
    [atan2f(+0, x) = +0] for [x > 0], [cosf(+0) = 1] and [sinf(+0) = +0]. *)
Definition atan2f_axis (y x : spec_float) : spec_float := f32_zero.
Definition cosf_axis (a : spec_float) : spec_float := f32_one.
Definition sinf_axis (a : spec_float) : spec_float := f32_zero.

Definition blank_geom32 : mjvGeom32 :=
  {| type32 := mjGEOM_NONE; size32 := []; pos32 := []; rgba32 := []; mat32 := [];
     label32 := ""; category32 := mjCAT_STATIC |}.

Definition empty_scene32 (n : nat) : mjvScene32 :=
  {| maxgeom32 := Z.of_nat n; ngeom32 := 0; geoms32 := replicate n blank_geom32 |}.

(** [3.0f], [0.02f] and [2 ^ 64]. *)
Definition f32_three : spec_float := S754_finite false 12582912 (-22).
Definition f32_0_02 : spec_float := S754_finite false 10737418 (-29).
Definition f32_2p64 : spec_float := S754_finite false 8388608 41.

Lemma C6_witness :
  let s' := Draw2DLine_f32 atan2f_axis cosf_axis sinf_axis
              f32_zero f32_zero f32_three f32_zero f32_0_02
              f32_one f32_zero f32_zero f32_one (empty_scene32 4) in
  exists G half_length half_width cx cy,
    geoms32 s' !! 0%nat = Some G /\
    type32 G = mjGEOM_BOX /\
    size32 G = [half_length; half_width; f32_0_001] /\
    pos32 G = [cx; cy; f32_zero] /\
    (Rabs (SF2R half_length - norm2 (3 - 0) (0 - 0) / 2)
     <= / 1048576 * norm2 (3 - 0) (0 - 0) + powerRZ 2 (-71))%R /\
    (Rabs (SF2R cx + SF2R half_length * 1 - 3)
     <= SF2R half_length * 0 + (/ 1048576 * 3 + powerRZ 2 (-71)))%R.
Proof.
  assert (E3 : SF2R f32_three = 3%R) by (unfold f32_three, SF2R; simpl; lra).
  assert (E0 : SF2R f32_zero = 0%R) by reflexivity.
  assert (E1 : SF2R f32_one = 1%R) by (unfold f32_one, SF2R; simpl; lra).
  assert (P60 : (3 <= powerRZ 2 60)%R).
  { apply Rle_trans with (powerRZ 2 2); [simpl; lra | apply pow2_le; lia]. }
  destruct (C6_line_box_binary32 atan2f_axis cosf_axis sinf_axis
              f32_zero f32_zero f32_three f32_zero f32_0_02
              f32_one f32_zero f32_zero f32_one (empty_scene32 4))
    as (G & hl & hw & cx & cy & Hslot & _ & Hty & _ & Hsz & Hpos & _ & _ &
        _ & _ & _ & _ & Hhl & _ & _ & _ & Htrip);
    try (split; reflexivity); try (simpl; lia);
    try (rewrite ?E0, ?E3, ?Rabs_R0, ?(Rabs_pos_eq 3) by lra; lra).
  exists G, hl, hw, cx, cy.
  split; [exact Hslot|]. split; [exact Hty|]. split; [exact Hsz|]. split; [exact Hpos|].
  rewrite E0, E3 in *. split; [exact Hhl|].
  destruct (Htrip eq_refl eq_refl) as (_ & _ & Hx2 & _).
  unfold cosf_axis, sinf_axis in Hx2. rewrite E1, E0 in Hx2.
  replace (Rmax _ _) with 0%R in Hx2.
  - rewrite Rabs_R0, (Rabs_pos_eq 3) in Hx2 by lra.
    replace (0 + 3 + 0 + 0)%R with 3%R in Hx2 by ring. exact Hx2.
  - set (dx := f32_sub f32_three f32_zero).
    assert (Edx : SF2R dx = 3%R) by (unfold dx, f32_sub, f32_three, f32_zero, SF2R; simpl; lra).
    assert (Edy : SF2R (f32_sub f32_zero f32_zero) = 0%R) by reflexivity.
    rewrite Edx, Edy. unfold atan2.
    destruct (Rlt_dec 0 3) as [_|H]; [|lra].
    replace (0 / 3)%R with 0%R by field. rewrite atan_0, cos_0, sin_0.
    rewrite !Rminus_diag, Rabs_R0. symmetry. apply Rmax_left. lra.
Defined.

(** Beyond the range: for the segment from [(-2 ^ 64, 0)] to [(2 ^ 64, 0)],
    of length [2 ^ 65], the square of [dx] overflows; whatever the library
    functions are, the stored half-length is plus infinity, not [2 ^ 64], and
    no endpoint coordinate computed from the stored centre and half-length is a
    number.  And for the segment from the origin to [(2 ^ -80, 0)] the square
    underflows and the stored half-length is zero. *)
Lemma C6_overflow_breaks_round_trip :
  fin32 f32_2p64 /\ fin32 (SFopp f32_2p64) /\
  (forall atan2f cosf sinf,
     exists G cx,
       geoms32 (Draw2DLine_f32 atan2f cosf sinf
                  (SFopp f32_2p64) f32_zero f32_2p64 f32_zero f32_0_02
                  f32_one f32_zero f32_zero f32_one (empty_scene32 4)) !! 0%nat
       = Some G /\
       size32 G !! 0%nat = Some (S754_infinity false) /\
       pos32 G !! 0%nat = Some cx /\
       forall c, sf_finite (f32_add cx (f32_mul (S754_infinity false) c)) = false) /\
  (forall atan2f cosf sinf,
     exists G,
       geoms32 (Draw2DLine_f32 atan2f cosf sinf
                  f32_zero f32_zero (S754_finite false 8388608 (-103)) f32_zero f32_0_02
                  f32_one f32_zero f32_zero f32_one (empty_scene32 4)) !! 0%nat
       = Some G /\
       size32 G !! 0%nat = Some (S754_zero false)).
Proof.
  split; [split; reflexivity|]. split; [split; reflexivity|]. split.
  - intros atan2f cosf sinf. eexists. exists (S754_zero false).
    split; [reflexivity|]. split; [reflexivity|]. split; [reflexivity|].
    intros [s|s| |s m e]; try destruct s; reflexivity.
  - intros atan2f cosf sinf. eexists. split; reflexivity.
Qed.

(** * Instances of the further properties *)

Lemma X1_witness :
  exists scene',
    snd (ModifyScene no_text demo_model demo_data car_init
           ({| blink_timer := 0; heat_timer := 0 |}, Some (empty_scene 128)))
    = Some scene' /\
    (78 <= ngeom scene' <= 91)%Z.
Proof.
  destruct (X1_overlay_geom_budget no_text demo_model demo_data car_init
              {| blink_timer := 0; heat_timer := 0 |} (empty_scene 128))
    as (scene' & Hrun & _ & _ & Hle & Hge & _).
  - apply empty_scene_ok.
  - exists scene'. split; [exact Hrun|].
    assert (Hroom : (78 <= room (empty_scene 128))%nat) by (vm_compute; lia).
    specialize (Hge Hroom). change (ngeom (empty_scene 128)) with 0%Z in *. lia.
Defined.

Lemma X2_witness :
  let d' := dashboard_ (UpdateDashboardData data_at_rest car_init) in
  (66 <=? temperature d')%float = true /\ (temperature d' <=? 120)%float = true /\
  (66 <= d2r (temperature d') <= 120)%R /\ temperature d' = 66%float.
Proof.
  destruct (X2_temperature_at_least_66 data_at_rest car_init) as (H1 & H2 & H3 & H4);
    [reflexivity | reflexivity |].
  split; [exact H1|]. split; [exact H2|]. split; [exact H3|].
  apply H4; reflexivity.
Defined.

(** A dashboard that shows 60 km/h: beyond the speedometer's full scale. *)
Definition dashboard_60 : DashboardData :=
  {| speed_kmh := 60; rpm := 3200; fuel := 50; temperature := 84;
     simulated_fuel := 50 |}.

Lemma X3_witness :
  let s' := DrawSpeedometer2D no_text dashboard_60 0 0 1 (empty_scene 64) in
  (exists L, geoms s' !! 22%nat = Some L /\ label L = "30" /\
     pos L = [0 + 1 * 0.7 * cos (deg (60 * INR 3 - 90));
              0 + 1 * 0.7 * sin (deg (60 * INR 3 - 90)); 0.01]%R) /\
  (exists G, geoms s' !! 25%nat = Some G /\
     is_segment (0, 0, 0 + 1 * 0.6 * cos (deg (-90)),
                       0 + 1 * 0.6 * sin (deg (-90)))%R G).
Proof.
  destruct (X3_speedometer_scale_and_pointer no_text dashboard_60 0 0 1 (empty_scene 64))
    as (Hlabels & G & HG & _ & Hfull).
  - apply empty_scene_ok.
  - vm_compute. lia.
  - split.
    + destruct (Hlabels 3%nat ltac:(lia)) as (L & HL & _ & Htext & Hpos).
      exists L. split; [exact HL|]. split; [exact Htext | exact Hpos].
    + exists G. split; [exact HG|]. apply Hfull. reflexivity.
Defined.

(** A dashboard at the rpm limit. *)
Definition dashboard_8000 : DashboardData :=
  {| speed_kmh := 180; rpm := 8000; fuel := 50; temperature := 120;
     simulated_fuel := 50 |}.

Lemma X4_witness :
  let s' := DrawTachometer2D no_text dashboard_8000 0 0 1 (empty_scene 64) in
  (exists L, geoms s' !! 22%nat = Some L /\ label L = "8" /\
     pos L = [0 + 1 * 0.7 * cos (deg (72 * INR 4 - 90));
              0 + 1 * 0.7 * sin (deg (72 * INR 4 - 90)); 0.01]%R) /\
  (exists G, geoms s' !! 23%nat = Some G /\
     is_segment (0, 0, 0 + 1 * 0.6 * cos (deg (-90)),
                       0 + 1 * 0.6 * sin (deg (-90)))%R G).
Proof.
  destruct (X4_tachometer_scale_and_pointer no_text dashboard_8000 0 0 1 (empty_scene 64))
    as (Hlabels & G & HG & _ & Hfull).
  - apply empty_scene_ok.
  - vm_compute. lia.
  - split.
    + destruct (Hlabels 4%nat ltac:(lia)) as (L & HL & _ & Htext & Hpos).
      exists L. split; [exact HL|]. split; [exact Htext | exact Hpos].
    + exists G. split; [exact HG|]. apply Hfull. reflexivity.
Defined.

Lemma X5_witness :
  exists scene',
    snd (ModifyScene no_text demo_model demo_data car_init
           ({| blink_timer := 0; heat_timer := 0 |}, Some (empty_scene 128)))
    = Some scene' /\
    forall i, (Z.to_nat (ngeom (empty_scene 128)) <= i < Z.to_nat (ngeom scene'))%nat ->
      exists g, geoms scene' !! i = Some g /\ well_formed g.
Proof.
  apply (X5_overlay_geoms_well_formed no_text demo_model demo_data car_init
           {| blink_timer := 0; heat_timer := 0 |} (empty_scene 128)).
  - apply empty_scene_ok.
  - repeat split.
  - reflexivity.
Defined.

Lemma X6_witness :
  let d' := dashboard_ (UpdateDashboardData data_10_0 car_init) in
  let s' := snd (DrawTemperatureGauge2D no_text d' 0 0 1.5 0.4
                   ({| blink_timer := 0; heat_timer := 0 |}, empty_scene 64)) in
  ngeom s' = 11%Z /\
  exists G, geoms s' !! 0%nat = Some G /\ type G = mjGEOM_BOX /\
    rgba G !! 3%nat = Some 1.0%R.
Proof.
  destruct (X6_temperature_gauge_after_update no_text data_10_0 car_init 0 0 1.5 0.4
              {| blink_timer := 0; heat_timer := 0 |} (empty_scene 64))
    as (_ & Hn & G & HG & Hty & _ & _ & Ha).
  - reflexivity.
  - reflexivity.
  - lra.
  - apply empty_scene_ok.
  - vm_compute. lia.
  - split; [exact Hn|]. exists G. split; [exact HG|]. split; [exact Hty | exact Ha].
Defined.

Lemma X8_witness :
  (residual data_at_goal !!! 0%nat =? 0)%float = true /\
  (residual data_near_goal !!! 0%nat =? 0)%float = false.
Proof.
  destruct (X8_position_residual_zero_iff_at_goal data_at_goal) as (H0 & _);
    [reflexivity..|].
  destruct (X8_position_residual_zero_iff_at_goal data_near_goal) as (H1 & _);
    [reflexivity..|].
  split; [rewrite H0 | rewrite H1]; reflexivity.
Defined.

(** The velocity of [data_10_0] with its components exchanged and reversed. *)
Definition data_0_m10 : mjData :=
  {| qpos := [0%float; 0%float]; qvel := [0%float; (-10)%float];
     ctrl := [0%float; 0%float];
     mocap_pos := [1%float; 1%float; 0.01%float]; xpos := []; time := 0.5%float |}.

Lemma X9_witness :
  let d1 := dashboard_ (UpdateDashboardData data_10_0 car_init) in
  let d2 := dashboard_ (UpdateDashboardData data_0_m10
                          (UpdateDashboardData data_at_rest car_init)) in
  speed_kmh d1 = speed_kmh d2 /\ rpm d1 = rpm d2 /\ temperature d1 = temperature d2.
Proof.
  apply (X9_speed_ignores_direction_and_history data_10_0 data_0_m10).
  right. split; [left; reflexivity | right; reflexivity].
Defined.

Lemma X10_witness :
  let s' := AddLabel 0 0 0.02 "SPEED" 0.15 0 0.5 1 (empty_scene 2) in
  ngeom s' = 1%Z /\
  exists G, geoms s' !! 0%nat = Some G /\ type G = mjGEOM_LABEL /\ label G = "SPEED".
Proof.
  destruct (X10_label_text_cut_to_99_bytes 0 0 0.02 "SPEED" 0.15 0 0.5 1 (empty_scene 2))
    as (Hn & G & HG & Hty & _ & _ & Hall).
  - apply empty_scene_ok.
  - simpl. lia.
  - split; [exact Hn|]. exists G. split; [exact HG|]. split; [exact Hty|].
    apply Hall. simpl. lia.
Defined.

Lemma X11_witness :
  exists scene',
    snd (ModifyScene no_text demo_model demo_data car_init
           ({| blink_timer := 0; heat_timer := 0 |}, Some (empty_scene 128)))
    = Some scene' /\
    forall i, (Z.to_nat (ngeom (empty_scene 128)) <= i < Z.to_nat (ngeom scene'))%nat ->
      exists g, geoms scene' !! i = Some g /\
        (type g <> mjGEOM_LABEL -> label g = label (geoms (empty_scene 128) !!! i)) /\
        (type g = mjGEOM_LABEL \/ type g = mjGEOM_SPHERE ->
           mat g = mat (geoms (empty_scene 128) !!! i)).
Proof.
  apply (X11_overlay_keeps_old_label_and_matrix no_text demo_model demo_data car_init
           {| blink_timer := 0; heat_timer := 0 |} (empty_scene 128)).
  apply empty_scene_ok.
Defined.

Lemma X12_witness :
  let d' := dashboard_ (UpdateDashboardData data_10_0 car_init) in
  let rpm0 := (speed_kmh d' * 40 + 800)%float in
  (rpm0 <? 800)%float = false /\
  rpm d' = (if (8000 <? rpm0)%float then 8000%float else rpm0) /\
  (120 <? 60 + rpm d' / 8000 * 60)%float = false /\
  temperature d' = (60 + rpm d' / 8000 * 60)%float.
Proof.
  apply (X12_only_the_rpm_limit_acts data_10_0 car_init); reflexivity.
Defined.

(** A car at 40 m/s, 144 km/h. *)
Definition data_40_0 : mjData :=
  {| qpos := [0%float; 0%float]; qvel := [40%float; 0%float];
     ctrl := [0%float; 0%float];
     mocap_pos := [1%float; 1%float; 0.01%float]; xpos := []; time := 0.5%float |}.

Lemma X13_witness :
  let d' := dashboard_ (UpdateDashboardData data_40_0 car_init) in
  (130 <? speed_kmh d')%float = true /\ (6000 <? rpm d')%float = true /\
  (8000 <=? rpm d')%float = false /\ (100 <? temperature d')%float = true.
Proof.
  destruct (X13_warning_speeds data_40_0 car_init) as (H1 & H2 & H3);
    [reflexivity | reflexivity |].
  assert (E : (6000 <? rpm (dashboard_ (UpdateDashboardData data_40_0 car_init)))%float
              = true) by (rewrite H1; reflexivity).
  split; [reflexivity|]. split; [exact E|].
  split; [rewrite H2; reflexivity | apply H3, E].
Defined.
